(** * Feature pipeline: indicator stages and the data loader

    A shallow embedding of [src/indicators/base.py],
    [src/indicators/indicator.py], [src/loaders/base.py] and the other
    modules of [src/loaders]: [finnhub.py], [yahoo.py] and [scalers.py].

    Numeric cells are IEEE-style extended numbers: an undefined value (NaN),
    the two infinities, or a finite value.  Finite arithmetic is carried out
    exactly, on rationals: rounding, overflow and the sign of zero are outside
    the model.  Data frames live in a store of objects addressed by
    references, because the source code mutates frames that the caller may
    still hold. *)

From Stdlib Require Import QArith Qabs ZArith Lia Lqa String List Ascii.
From stdpp Require Import base option gmap strings list pretty.

Open Scope string_scope.
Open Scope Z_scope.

(** ** Cells: the values a numeric column holds *)

Inductive cell : Type :=
  | NaN
  | PInf
  | NInf
  | Fin (q : Q).

Module Cell.

Definition Qsgn (q : Q) : comparison := (Qnum q ?= 0)%Z.

Definition Qlt_bool (a b : Q) : bool := negb (Qle_bool b a).

(** [x != x] is how both numpy and pandas test for NaN. *)
Definition isna (x : cell) : bool :=
  match x with NaN => true | _ => false end.

Definition isinf (x : cell) : bool :=
  match x with PInf | NInf => true | _ => false end.

Definition isfinite (x : cell) : bool :=
  match x with Fin _ => true | _ => false end.

Definition opp (x : cell) : cell :=
  match x with
  | NaN => NaN
  | PInf => NInf
  | NInf => PInf
  | Fin q => Fin (- q)
  end.

Definition add (x y : cell) : cell :=
  match x, y with
  | NaN, _ | _, NaN => NaN
  | PInf, NInf | NInf, PInf => NaN
  | PInf, _ | _, PInf => PInf
  | NInf, _ | _, NInf => NInf
  | Fin a, Fin b => Fin (a + b)
  end.

Definition sub (x y : cell) : cell := add x (opp y).

(** The infinity with the sign of [s] ([Eq] stands for a zero factor). *)
Definition signed_inf (s : comparison) : cell :=
  match s with Gt => PInf | Lt => NInf | Eq => NaN end.

Definition mul (x y : cell) : cell :=
  match x, y with
  | NaN, _ | _, NaN => NaN
  | PInf, PInf | NInf, NInf => PInf
  | PInf, NInf | NInf, PInf => NInf
  | PInf, Fin b | Fin b, PInf => signed_inf (Qsgn b)
  | NInf, Fin b | Fin b, NInf => signed_inf (CompOpp (Qsgn b))
  | Fin a, Fin b => Fin (a * b)
  end.

(** Float division: a non-zero value over zero is an infinity, zero over
    zero and infinity over infinity are NaN. *)
Definition div (x y : cell) : cell :=
  match x, y with
  | NaN, _ | _, NaN => NaN
  | (PInf | NInf), (PInf | NInf) => NaN
  | PInf, Fin b => match Qsgn b with Lt => NInf | _ => PInf end
  | NInf, Fin b => match Qsgn b with Lt => PInf | _ => NInf end
  | Fin _, (PInf | NInf) => Fin 0
  | Fin a, Fin b =>
      match Qsgn b with
      | Eq => signed_inf (Qsgn a)
      | _ => Fin (a / b)
      end
  end.

Definition abs (x : cell) : cell :=
  match x with
  | NaN => NaN
  | PInf | NInf => PInf
  | Fin q => Fin (Qabs q)
  end.

(** Comparisons are false as soon as one side is NaN. *)
Definition ltb (x y : cell) : bool :=
  match x, y with
  | NaN, _ | _, NaN => false
  | _, NInf | PInf, _ => false
  | NInf, _ | _, PInf => true
  | Fin a, Fin b => Qlt_bool a b
  end.

Definition gtb (x y : cell) : bool := ltb y x.

Definition eqb (x y : cell) : bool :=
  match x, y with
  | PInf, PInf | NInf, NInf => true
  | Fin a, Fin b => Qeq_bool a b
  | _, _ => false
  end.

Definition of_Z (z : Z) : cell := Fin (inject_Z z).

End Cell.

(** ** Errors

    [MissingColumn] is the [KeyError] of [df[name]]; [InvalidWindow] is the
    [ValueError] with which pandas rejects a window, span or centre of mass;
    [ProviderError] is whatever the provider's [download] raises.
    [EmptyResult] belongs to the error taxonomy of the design; [InvalidRef]
    is a reference to no object, which Python cannot express. *)

Inductive error : Type :=
  | MissingColumn (name : string)
  | InvalidWindow
  | ProviderError (msg : string)
  | EmptyResult
  | InvalidRef.

Inductive result (A : Type) : Type :=
  | Ok (a : A)
  | Raise (e : error).

Arguments Ok {A} a.
Arguments Raise {A} e.

(** The two numpy functions that are not rational: they are taken as given on
    the finite part of their domain, the special values are spelled out. *)
Class Numpy : Type := {
  np_sqrt : Q -> Q;
  np_log1p : Q -> Q
}.

(** ** Series: one column of cells, addressed by row position *)

Abbreviation Series := (list cell).

Module Series.

(** The cell at integer position [j]; NaN outside the series. *)
Definition at_ (xs : Series) (j : Z) : cell :=
  if j <? 0 then NaN else default NaN (xs !! Z.to_nat j).

(** [Series.shift(periods)]: row [i] receives the value of row
    [i - periods]; rows with no source become NaN. *)
Definition shift (periods : Z) (xs : Series) : Series :=
  imap (fun i _ => at_ xs (Z.of_nat i - periods)) xs.

Definition binop (f : cell -> cell -> cell) (xs ys : Series) : Series :=
  zip_with f xs ys.

Definition scalar_r (f : cell -> cell -> cell) (xs : Series) (k : cell) : Series :=
  map (fun x => f x k) xs.

Definition scalar_l (f : cell -> cell -> cell) (k : cell) (xs : Series) : Series :=
  map (fun x => f k x) xs.

(** [Series.pct_change(periods)] is [data / data.shift(periods) - 1]
    (no filling of undefined cells beforehand). *)
Definition pct_change (periods : Z) (xs : Series) : Series :=
  scalar_r Cell.sub (binop Cell.div xs (shift periods xs)) (Fin 1).

(** [Series.where(cond, other)]: keep the cell where the condition holds. *)
Definition where_ (cond : cell -> bool) (other : cell) (xs : Series) : Series :=
  map (fun x => if cond x then x else other) xs.

(** *** Exponentially weighted mean

    The routine behind pandas' [ewm(...).mean()], with [ignore_na=False] and
    [min_periods=0]: [weighted] is the running mean, [old_wt] the weight it
    carries.  Before the first observation [weighted] is NaN itself, so the
    output is [weighted] at every row. *)
Definition ewm_step (old_wt_factor new_wt : Q) (adjust : bool)
    (weighted : cell) (old_wt : Q) (cur : cell) : cell * Q :=
  if negb (Cell.isna weighted) then
    let old_wt1 := (old_wt * old_wt_factor)%Q in
    if negb (Cell.isna cur) then
      (if Cell.eqb weighted cur then weighted
       else Cell.div (Cell.add (Cell.mul (Fin old_wt1) weighted)
                               (Cell.mul (Fin new_wt) cur))
                     (Fin (old_wt1 + new_wt)),
       if adjust then (old_wt1 + new_wt)%Q else 1%Q)
    else (weighted, old_wt1)
  else if negb (Cell.isna cur) then (cur, old_wt)
  else (weighted, old_wt).

Fixpoint ewm_loop (old_wt_factor new_wt : Q) (adjust : bool)
    (weighted : cell) (old_wt : Q) (xs : Series) : Series :=
  match xs with
  | [] => []
  | cur :: rest =>
      let '(weighted', old_wt') :=
        ewm_step old_wt_factor new_wt adjust weighted old_wt cur in
      weighted' :: ewm_loop old_wt_factor new_wt adjust weighted' old_wt' rest
  end.

(** The routine on a column: the first row is the first cell, and the loop
    carries on from there with the weight 1. *)
Definition ewm (com : Q) (adjust : bool) (xs : Series) : Series :=
  let alpha := (1 / (1 + com))%Q in
  let old_wt_factor := (1 - alpha)%Q in
  let new_wt := if adjust then 1%Q else alpha in
  match xs with
  | [] => []
  | x0 :: rest => x0 :: ewm_loop old_wt_factor new_wt adjust x0 1%Q rest
  end.

(** [BaseWindow._prep_values]: a window routine receives the column with
    every infinite cell turned into an undefined one. *)
Definition prep_values (xs : Series) : Series :=
  map (fun x => if Cell.isinf x then NaN else x) xs.

(** [ewm(...).mean()] for a centre of mass that has been accepted: the
    column goes through [prep_values], then through the routine. *)
Definition ewm_mean (com : Q) (adjust : bool) (xs : Series) : Series :=
  ewm com adjust (prep_values xs).

(** *** Linear interpolation, [limit_direction="both"]

    [numpy.interp] between the neighbouring defined cells [a] (at distance
    [dp] before the gap cell) and [b] (at distance [dn] after it); the
    second formula is numpy's retry when the first one yields NaN. *)
Definition interp_between (a b : cell) (dp dn : nat) : cell :=
  let slope := Cell.div (Cell.sub b a) (Cell.of_Z (Z.of_nat (dp + dn))) in
  let r := Cell.add (Cell.mul slope (Cell.of_Z (Z.of_nat dp))) a in
  if Cell.isna r then
    let r' := Cell.add (Cell.mul slope (Cell.of_Z (- Z.of_nat dn))) b in
    if Cell.isna r' && Cell.eqb a b then a else r'
  else r.

(** Distance to, and value of, the first defined cell. *)
Fixpoint next_valid (xs : Series) : option (nat * cell) :=
  match xs with
  | [] => None
  | x :: rest =>
      if Cell.isna x then
        match next_valid rest with
        | Some (d, v) => Some (S d, v)
        | None => None
        end
      else Some (O, x)
  end.

(** [prev] is the last defined cell seen and its distance to the current
    row.  A gap with a defined cell on one side only takes that cell's
    value; a column with no defined cell is left as it is. *)
Fixpoint interpolate_from (prev : option (nat * cell)) (xs : Series) : Series :=
  match xs with
  | [] => []
  | x :: rest =>
      if Cell.isna x then
        (match prev, next_valid rest with
         | Some (dp, a), Some (dn, b) => interp_between a b dp (S dn)
         | Some (_, a), None => a
         | None, Some (_, b) => b
         | None, None => NaN
         end)
        :: interpolate_from (option_map (fun '(dp, a) => (S dp, a)) prev) rest
      else x :: interpolate_from (Some (1%nat, x)) rest
  end.

Definition interpolate (xs : Series) : Series := interpolate_from None xs.

(** [replace([inf, -inf], nan)] *)
Definition replace_inf (xs : Series) : Series :=
  map (fun x => if Cell.isinf x then NaN else x) xs.

(** Keep the cells whose row is flagged in [mask]. *)
Fixpoint select_rows {A : Type} (mask : list bool) (xs : list A) : list A :=
  match mask, xs with
  | true :: m, x :: r => x :: select_rows m r
  | false :: m, _ :: r => select_rows m r
  | _, _ => []
  end.

(** *** Rolling standard deviation *)

Definition sqrt `{Numpy} (x : cell) : cell :=
  match x with
  | NaN | NInf => NaN
  | PInf => PInf
  | Fin q => if Cell.Qlt_bool q 0 then NaN else Fin (np_sqrt q)
  end.

(** [numpy.log1p] on one cell: [log(1 + x)]. *)
Definition log1p_cell `{Numpy} (x : cell) : cell :=
  match x with
  | NaN | NInf => NaN
  | PInf => PInf
  | Fin q =>
      match (q ?= - (1))%Q with
      | Lt => NaN
      | Eq => NInf
      | Gt => Fin (np_log1p q)
      end
  end.

Definition log1p `{Numpy} (xs : Series) : Series := map log1p_cell xs.

Definition sum (xs : Series) : cell := foldr Cell.add (Fin 0) xs.

Definition count (xs : Series) : cell := Cell.of_Z (Z.of_nat (length xs)).

Definition mean (xs : Series) : cell := Cell.div (sum xs) (count xs).

(** Sample variance, [ddof = 1]. *)
Definition var (xs : Series) : cell :=
  let m := mean xs in
  Cell.div (sum (map (fun x => Cell.mul (Cell.sub x m) (Cell.sub x m)) xs))
           (Cell.sub (count xs) (Fin 1)).

(** The trailing window of [w] rows that ends at row [i]. *)
Definition window (w : nat) (xs : Series) (i : nat) : Series :=
  drop (i + 1 - w) (take (i + 1) xs).

(** [min_periods] defaults to the window size; a standard deviation needs
    two observations. *)
Definition std_of_window `{Numpy} (w : nat) (win : Series) : cell :=
  let obs := List.filter (fun x => negb (Cell.isna x)) win in
  if (Nat.max w 1 <=? length obs)%nat && (2 <=? length obs)%nat
  then sqrt (var obs) else NaN.

(** [Series.rolling(window).std()]: a negative window is rejected when the
    rolling object is built.  The cells are taken as they are: handing the
    column over through [prep_values] first, as pandas does, gives the same
    deviations (lemma [rolling_std_prep_values]). *)
Definition rolling_std `{Numpy} (w : Z) (xs : Series) : result Series :=
  if w <? 0 then Raise InvalidWindow
  else Ok (imap (fun i _ => std_of_window (Z.to_nat w) (window (Z.to_nat w) xs i)) xs).

(** [Series.ewm(com=c, adjust=a).mean()]: [c >= 0] is required. *)
Definition ewm_com (com : Z) (adjust : bool) (xs : Series) : result Series :=
  if com <? 0 then Raise InvalidWindow
  else Ok (ewm_mean (inject_Z com) adjust xs).

(** [Series.ewm(span=s, adjust=a).mean()]: [s >= 1] is required, and the
    centre of mass is [(s - 1) / 2]. *)
Definition ewm_span (span : Z) (adjust : bool) (xs : Series) : result Series :=
  if span <? 1 then Raise InvalidWindow
  else Ok (ewm_mean ((inject_Z span - 1) / 2) adjust xs).

End Series.

(** ** Data frames *)

Record DataFrame : Type := mkDataFrame {
  index : list Z;
  columns : list (string * Series)
}.

Module Frame.

Fixpoint lookup_col (c : string) (cols : list (string * Series)) : option Series :=
  match cols with
  | [] => None
  | (n, s) :: rest => if String.eqb n c then Some s else lookup_col c rest
  end.

(** Assignment replaces a column of that name where it stands, or appends a
    new column after the last one. *)
Fixpoint assign_col (c : string) (s : Series) (cols : list (string * Series))
    : list (string * Series) :=
  match cols with
  | [] => [(c, s)]
  | (n, s') :: rest =>
      if String.eqb n c then (n, s) :: rest else (n, s') :: assign_col c s rest
  end.

Definition names (df : DataFrame) : list string := map fst (columns df).

Definition nrows (df : DataFrame) : nat := length (index df).

Definition has_col (df : DataFrame) (c : string) : bool :=
  bool_decide (is_Some (lookup_col c (columns df))).

(** [df[c]] *)
Definition getitem (df : DataFrame) (c : string) : result Series :=
  match lookup_col c (columns df) with
  | Some s => Ok s
  | None => Raise (MissingColumn c)
  end.

(** [df[c] = s] *)
Definition setitem (df : DataFrame) (c : string) (s : Series) : DataFrame :=
  mkDataFrame (index df) (assign_col c s (columns df)).

(** [df[[c1, ..., cn]]] for names taken from [df.columns]. *)
Definition select (df : DataFrame) (cs : list string) : DataFrame :=
  mkDataFrame (index df)
    (omap (fun c => pair c <$> lookup_col c (columns df)) cs).

Definition map_columns (f : Series -> Series) (df : DataFrame) : DataFrame :=
  mkDataFrame (index df) (map (fun '(n, s) => (n, f s)) (columns df)).

(** [df.interpolate(method="linear", limit_direction="both")] *)
Definition interpolate : DataFrame -> DataFrame := map_columns Series.interpolate.

(** [df.replace([np.inf, -np.inf], np.nan)] *)
Definition replace_inf : DataFrame -> DataFrame := map_columns Series.replace_inf.

(** Is no cell of row [i] undefined? *)
Definition row_complete (df : DataFrame) (i : nat) : bool :=
  forallb (fun '(_, s) => negb (Cell.isna (default NaN (s !! i)))) (columns df).

Definition complete_mask (df : DataFrame) : list bool :=
  map (row_complete df) (seq 0 (nrows df)).

(** [df.dropna()]: drop every row that holds an undefined cell. *)
Definition dropna (df : DataFrame) : DataFrame :=
  let mask := complete_mask df in
  mkDataFrame (Series.select_rows mask (index df))
    (map (fun '(n, s) => (n, Series.select_rows mask s)) (columns df)).

(** *** Left join on the index

    For every row of the left frame, the positions of the right rows with
    the same timestamp; a row with no partner is kept once, with none. *)
Definition positions (t : Z) (idx : list Z) : list nat :=
  omap (fun '(j, u) => if Z.eqb u t then Some j else None) (imap pair idx).

Definition join_plan (lidx ridx : list Z) : list (nat * option nat) :=
  flat_map (fun '(i, t) =>
              match positions t ridx with
              | [] => [(i, None)]
              | js => map (fun j => (i, Some j)) js
              end)
           (imap pair lidx).

Definition take_left {A : Type} (d : A) (plan : list (nat * option nat)) (xs : list A) : list A :=
  map (fun '(i, _) => default d (xs !! i)) plan.

Definition take_right (plan : list (nat * option nat)) (xs : Series) : Series :=
  map (fun '(_, oj) => match oj with
                       | Some j => default NaN (xs !! j)
                       | None => NaN
                       end) plan.

Definition suffixed (other : list string) (sfx : string) (n : string) : string :=
  if bool_decide (n ∈ other) then n +:+ sfx else n.

(** [left.merge(right, how="left", left_index=True, right_index=True)]:
    a column name present on both sides gets the suffix [_x] on the left
    and [_y] on the right. *)
Definition merge_left (l r : DataFrame) : DataFrame :=
  let plan := join_plan (index l) (index r) in
  mkDataFrame (take_left 0 plan (index l))
    (map (fun '(n, s) => (suffixed (names r) "_x" n, take_left NaN plan s)) (columns l)
     ++ map (fun '(n, s) => (suffixed (names l) "_y" n, take_right plan s)) (columns r)).

End Frame.

(** ** The object store and the monad of the pipeline

    A frame is a Python object: [df] in the source is a reference, and
    [df[c] = s] changes the object for everyone who holds it.  A computation
    takes the store and returns the store it leaves behind, also when it
    raises. *)

Abbreviation loc := positive.
Abbreviation heap := (gmap positive DataFrame).

Definition M (A : Type) : Type := heap -> heap * result A.

Definition ret {A : Type} (a : A) : M A := fun σ => (σ, Ok a).

Definition raise {A : Type} (e : error) : M A := fun σ => (σ, Raise e).

Definition lift {A : Type} (r : result A) : M A := fun σ => (σ, r).

Definition bind {A B : Type} (m : M A) (k : A -> M B) : M B :=
  fun σ =>
    match m σ with
    | (σ', Ok a) => k a σ'
    | (σ', Raise e) => (σ', Raise e)
    end.

Notation "'let*' x ':=' m 'in' k" := (bind m (fun x => k))
  (at level 10, x name, m at level 100, k at level 200).

Fixpoint for_ {A : Type} (xs : list A) (body : A -> M unit) : M unit :=
  match xs with
  | [] => ret tt
  | x :: rest => let* _ := body x in for_ rest body
  end.

Module Obj.

(** The frame a reference points to. *)
Definition frame (l : loc) : M DataFrame :=
  fun σ => match σ !! l with
           | Some df => (σ, Ok df)
           | None => (σ, Raise InvalidRef)
           end.

Definition store (l : loc) (df : DataFrame) : M unit :=
  fun σ => (<[l := df]> σ, Ok tt).

(** A new object, at a reference nobody holds. *)
Definition alloc (df : DataFrame) : M loc :=
  fun σ => let l := fresh (dom σ) in (<[l := df]> σ, Ok l).

(** [df[c]] *)
Definition getitem (l : loc) (c : string) : M Series :=
  let* df := frame l in lift (Frame.getitem df c).

(** [df[c] = s] *)
Definition setitem (l : loc) (c : string) (s : Series) : M unit :=
  let* df := frame l in store l (Frame.setitem df c s).

(** [df.copy()]: the default copy is deep. *)
Definition copy (l : loc) : M loc :=
  let* df := frame l in alloc df.

(** A frame method called with [inplace=True]. *)
Definition inplace (f : DataFrame -> DataFrame) (l : loc) : M unit :=
  let* df := frame l in store l (f df).

End Obj.

(** ** Indicator stages ([src/indicators]) *)

(** [BaseIndicator]: every indicator carries [in_place] and implements
    [apply]. *)
Class BaseIndicator (I : Type) : Type := {
  in_place : I -> bool;
  apply : I -> loc -> M loc
}.

(** [BaseIndicator._prepare_df] *)
Definition _prepare_df (in_place : bool) (df : loc) : M loc :=
  if in_place then ret df else Obj.copy df.

Record VolatilityIndicator : Type := mkVolatility {
  vol_timeframes : list Z;
  vol_in_place : bool
}.

Record MACDIndicator : Type := mkMACD {
  macd_in_place : bool
}.

Record RSIIndicator : Type := mkRSI {
  rsi_window : Z;
  rsi_in_place : bool
}.

Record BollingerBandsIndicator : Type := mkBollinger {
  bb_window : Z;
  bb_in_place : bool
}.

(** The constructors' default arguments. *)
Definition VolatilityIndicator_default : VolatilityIndicator := mkVolatility [5; 10; 20; 40] false.
Definition MACDIndicator_default : MACDIndicator := mkMACD false.
Definition RSIIndicator_default : RSIIndicator := mkRSI 5 false.
Definition BollingerBandsIndicator_default : BollingerBandsIndicator := mkBollinger 10 false.

Section Indicators.
Context `{Numpy}.

Definition volatility_column (i : Z) : string := "volatility_" +:+ pretty i.

Definition VolatilityIndicator_apply (self : VolatilityIndicator) (df : loc) : M loc :=
  let* df_ := _prepare_df (vol_in_place self) df in
  let* _ := for_ (vol_timeframes self) (fun i =>
    let* r := Obj.getitem df_ "return_1" in
    let* v := lift (Series.rolling_std i (Series.log1p r)) in
    Obj.setitem df_ (volatility_column i) v) in
  ret df_.

Definition MACDIndicator_apply (self : MACDIndicator) (df : loc) : M loc :=
  let* df_ := _prepare_df (macd_in_place self) df in
  let* close := Obj.getitem df_ "Close" in
  let* ema_12 := lift (Series.ewm_span 12 false close) in
  let* ema_26 := lift (Series.ewm_span 26 false close) in
  let macd_line := Series.binop Cell.sub ema_12 ema_26 in
  let* signal_line := lift (Series.ewm_span 9 false macd_line) in
  let* _ := Obj.setitem df_ "macd_line" macd_line in
  let* _ := Obj.setitem df_ "macd_signal_line" signal_line in
  let* _ := Obj.setitem df_ "macd_histogram" (Series.binop Cell.sub macd_line signal_line) in
  ret df_.

(** [rs = |pos_gain / neg_gain|] and [rsi = 100 * rs / (1 + rs)] *)
Definition rs_of (pos_gain neg_gain : Series) : Series :=
  map Cell.abs (Series.binop Cell.div pos_gain neg_gain).

Definition rsi_of (rs : Series) : Series :=
  Series.binop Cell.div (Series.scalar_l Cell.mul (Fin 100) rs)
                        (Series.scalar_l Cell.add (Fin 1) rs).

Definition positive_part (r : Series) : Series :=
  Series.where_ (fun x => Cell.gtb x (Fin 0)) (Fin 0) r.

Definition negative_part (r : Series) : Series :=
  Series.where_ (fun x => Cell.ltb x (Fin 0)) (Fin 0) r.

Definition RSIIndicator_apply (self : RSIIndicator) (df : loc) : M loc :=
  let* df_ := _prepare_df (rsi_in_place self) df in
  let* r := Obj.getitem df_ "return_1" in
  let* pos_gain := lift (Series.ewm_com (rsi_window self) true (positive_part r)) in
  let* r := Obj.getitem df_ "return_1" in
  let* neg_gain := lift (Series.ewm_com (rsi_window self) true (negative_part r)) in
  let rs := rs_of pos_gain neg_gain in
  let* _ := Obj.setitem df_ "rsi" (rsi_of rs) in
  ret df_.

Definition BollingerBandsIndicator_apply (self : BollingerBandsIndicator) (df : loc) : M loc :=
  let* df_ := _prepare_df (bb_in_place self) df in
  let* close := Obj.getitem df_ "Close" in
  let* mid := lift (Series.ewm_span (bb_window self) true close) in
  let* std := lift (Series.rolling_std (bb_window self) close) in
  let* _ := Obj.setitem df_ "bollinger_mid" mid in
  let* _ := Obj.setitem df_ "bollinger_lower"
              (Series.binop Cell.sub mid (Series.scalar_l Cell.mul (Fin 2) std)) in
  let* _ := Obj.setitem df_ "bollinger_upper"
              (Series.binop Cell.add mid (Series.scalar_l Cell.mul (Fin 2) std)) in
  ret df_.

#[export] Instance Volatility_indicator : BaseIndicator VolatilityIndicator :=
  {| in_place := vol_in_place; apply := VolatilityIndicator_apply |}.
#[export] Instance MACD_indicator : BaseIndicator MACDIndicator :=
  {| in_place := macd_in_place; apply := MACDIndicator_apply |}.
#[export] Instance RSI_indicator : BaseIndicator RSIIndicator :=
  {| in_place := rsi_in_place; apply := RSIIndicator_apply |}.
#[export] Instance Bollinger_indicator : BaseIndicator BollingerBandsIndicator :=
  {| in_place := bb_in_place; apply := BollingerBandsIndicator_apply |}.

End Indicators.

(** The four stages as one type. *)
Inductive Stage : Type :=
  | Volatility (self : VolatilityIndicator)
  | MACD (self : MACDIndicator)
  | RSI (self : RSIIndicator)
  | Bollinger (self : BollingerBandsIndicator).

#[export] Instance Stage_indicator `{Numpy} : BaseIndicator Stage :=
  {| in_place := fun s =>
       match s with
       | Volatility i => in_place i
       | MACD i => in_place i
       | RSI i => in_place i
       | Bollinger i => in_place i
       end;
     apply := fun s =>
       match s with
       | Volatility i => apply i
       | MACD i => apply i
       | RSI i => apply i
       | Bollinger i => apply i
       end |}.

(** ** The loader ([src/loaders/base.py]) *)

(** The keyword arguments [_download] passes on. *)
Record kwargs : Type := mkKwargs {
  interval : string;
  start : option string;
  end_ : option string;
  period : option string
}.

(** [DataProvider]: [download] hands out a reference to a frame, or fails
    with a message. *)
Record DataProvider : Type := mkProvider {
  download : string -> kwargs -> heap -> heap * (string + loc)
}.

Record DataLoader : Type := mkLoader {
  provider : DataProvider;
  asset : string;
  benchmark_asset : string;
  start_date : option string;
  end_date : option string;
  freq : string;
  timeframes : list Z
}.

Module Loader.

(** Python truthiness of an optional string: [None] and the empty string
    are false. *)
Definition truthy (s : option string) : bool :=
  match s with
  | Some (String _ _) => true
  | _ => false
  end.

(** [DataLoader.__init__] *)
Definition init (provider : DataProvider) (asset : string)
    (benchmark_asset start_date end_date : option string)
    (freq : string) (timeframes : option (list Z)) : DataLoader :=
  mkLoader provider asset
    (match benchmark_asset with
     | Some ((String _ _) as b) => b
     | _ => asset
     end)
    start_date end_date freq
    (match timeframes with
     | Some ((_ :: _) as t) => t
     | _ => [1; 2; 5; 10; 20; 40]
     end).

(** [DataLoader._download] *)
Definition _download (self : DataLoader) (symbol : string) : M loc :=
  let kw :=
    mkKwargs (freq self)
      (if truthy (start_date self) then start_date self else None)
      (if truthy (end_date self) then end_date self else None)
      (if negb (truthy (start_date self)) && negb (truthy (end_date self))
       then Some "max" else None) in
  fun σ =>
    match download (provider self) symbol kw σ with
    | (σ', inr l) => (σ', Ok l)
    | (σ', inl msg) => (σ', Raise (ProviderError msg))
    end.

Definition forward_return (close : Series) : Series :=
  Series.shift (-1) (Series.pct_change 1 close).

(** [df["forward_return"] = df["Close"].pct_change().shift(-1)] *)
Definition derive_target (df : loc) : M unit :=
  let* close := Obj.getitem df "Close" in
  Obj.setitem df "forward_return" (forward_return close).

Definition return_column (i : Z) : string := "return_" +:+ pretty i.
Definition volume_column (i : Z) : string := "volume_" +:+ pretty i.
Definition benchmark_return_column (i : Z) : string := "benchmark_return_" +:+ pretty i.
Definition benchmark_volume_column (i : Z) : string := "benchmark_volume_" +:+ pretty i.

(** The body of the loop over the time frames. *)
Definition derive_features_for (df df_benchmark : loc) (i : Z) : M unit :=
  let* c := Obj.getitem df "Close" in
  let* _ := Obj.setitem df (return_column i) (Series.pct_change i c) in
  let* v := Obj.getitem df "Volume" in
  let* _ := Obj.setitem df (volume_column i) (Series.pct_change i v) in
  let* c := Obj.getitem df_benchmark "Close" in
  let* _ := Obj.setitem df_benchmark (benchmark_return_column i) (Series.pct_change i c) in
  let* v := Obj.getitem df_benchmark "Volume" in
  Obj.setitem df_benchmark (benchmark_volume_column i) (Series.pct_change i v).

Definition derive_features (self : DataLoader) (df df_benchmark : loc) : M unit :=
  for_ (timeframes self) (derive_features_for df df_benchmark).

(** [col.startswith("benchmark_")] *)
Definition is_benchmark_column (col : string) : bool := String.prefix "benchmark_" col.

Definition benchmark_columns (b : DataFrame) : DataFrame :=
  Frame.select b (List.filter is_benchmark_column (Frame.names b)).

(** [df = df.merge(df_benchmark[[...]], how="left", ...)]: the result is a
    new frame. *)
Definition merge_benchmark (df df_benchmark : loc) : M loc :=
  let* a := Obj.frame df in
  let* b := Obj.frame df_benchmark in
  Obj.alloc (Frame.merge_left a (benchmark_columns b)).

(** The three cleaning calls, each with [inplace=True]. *)
Definition clean (df : loc) : M unit :=
  let* _ := Obj.inplace Frame.interpolate df in
  let* _ := Obj.inplace Frame.replace_inf df in
  Obj.inplace Frame.dropna df.

(** [DataLoader.load] *)
Definition load (self : DataLoader) : M loc :=
  let* df := _download self (asset self) in
  let* df_benchmark := _download self (benchmark_asset self) in
  let* _ := derive_target df in
  let* _ := derive_features self df df_benchmark in
  let* df := merge_benchmark df df_benchmark in
  let* _ := clean df in
  ret df.

End Loader.

(** A provider that knows a fixed set of symbols and hands out a new frame
    object on every call. *)
Definition table_provider (tables : list (string * DataFrame)) : DataProvider :=
  mkProvider (fun symbol _ σ =>
    match List.find (fun '(n, _) => String.eqb n symbol) tables with
    | Some (_, df) => let l := fresh (dom σ) in (<[l := df]> σ, inr l)
    | None => (σ, inl "unknown symbol")
    end).

(** ** The Finnhub provider ([src/loaders/finnhub.py]) *)

(** [FinnhubProvider.download] raises [NotImplementedError], whatever the
    symbol and the keyword arguments. *)
Definition FinnhubProvider : DataProvider :=
  mkProvider (fun _ _ σ => (σ, inl "FinnhubProvider is not yet implemented.")).

(** ** The Yahoo provider ([src/loaders/yahoo.py])

    What [yf.download] returns is yfinance's business: a table whose column
    labels are a flat index of names or a [MultiIndex] of tuples (price
    field, ticker), or an error.  The provider replaces a [MultiIndex] by
    its level 0 in the object it hands out. *)

Inductive ColumnLabels : Type :=
  | Index (names : list string)
  | MultiIndex (tuples : list (list string)).

Record RawFrame : Type := mkRawFrame {
  raw_index : list Z;
  raw_labels : ColumnLabels;
  raw_data : list Series
}.

Class Yfinance : Type := {
  yf_download : string -> kwargs -> string + RawFrame
}.

Module Yahoo.

(** [columns.get_level_values(0)] *)
Definition get_level_values_0 (tuples : list (list string)) : list string :=
  map (fun t => default "" (head t)) tuples.

(** The column names of the object handed out. *)
Definition flat_columns (labels : ColumnLabels) : list string :=
  match labels with
  | Index names => names
  | MultiIndex tuples => get_level_values_0 tuples
  end.

(** [YFinanceProvider.download] *)
Definition download `{Yfinance} (symbol : string) (kw : kwargs) : heap -> heap * (string + loc) :=
  fun σ =>
    match yf_download symbol kw with
    | inl msg => (σ, inl msg)
    | inr df =>
        let l := fresh (dom σ) in
        (<[l := mkDataFrame (raw_index df)
                  (zip (flat_columns (raw_labels df)) (raw_data df))]> σ,
         inr l)
    end.

End Yahoo.

Definition YFinanceProvider `{Yfinance} : DataProvider := mkProvider Yahoo.download.

(** ** Scaled samples ([src/loaders/scalers.py])

    [ProcessedAssetData] keeps a copy of the frame it is given, so it is a
    value here.  The scaler is sklearn's: of its [fit_transform] only the
    interface is known, a table of features in and one array per row out,
    or an error. *)

Module Scalers.

Inductive exn : Type :=
  | AssertionError (msg : string)
  | KeyError (name : string)
  | IndexError
  | ScalerError (msg : string).

Inductive try (A : Type) : Type :=
  | Done (a : A)
  | Fail (e : exn).

Arguments Done {A} a.
Arguments Fail {A} e.

Record Scaler : Type := mkScaler {
  fit_transform : DataFrame -> string + list (list cell)
}.

(** [StandardScaler()], the scaler used when none is passed. *)
Class Sklearn : Type := {
  StandardScaler : Scaler
}.

Record ProcessedAssetData : Type := mkProcessed {
  frame : DataFrame;
  scaler : Scaler;
  features : DataFrame;
  targets : Series;
  features_scaled : list (list cell);
  _data : list (list cell)
}.

(** [df.drop(columns=cs)] *)
Definition drop_columns (df : DataFrame) (cs : list string) : DataFrame :=
  mkDataFrame (index df)
    (List.filter (fun '(n, _) => negb (bool_decide (n ∈ cs))) (columns df)).

(** [np.concatenate(([targets[i]], features_scaled[i]))] *)
Definition sample (targets : Series) (features_scaled : list (list cell)) (i : nat)
    : try (list cell) :=
  match targets !! i, features_scaled !! i with
  | Some t, Some row => Done (t :: row)
  | _, _ => Fail IndexError
  end.

(** A list comprehension whose element can raise. *)
Fixpoint comprehension {A B : Type} (f : A -> try B) (xs : list A) : try (list B) :=
  match xs with
  | [] => Done []
  | x :: rest =>
      match f x with
      | Fail e => Fail e
      | Done y =>
          match comprehension f rest with
          | Fail e => Fail e
          | Done ys => Done (y :: ys)
          end
      end
  end.

Definition __init__ `{Sklearn} (df : DataFrame) (scaler : option Scaler)
    : try ProcessedAssetData :=
  if negb (bool_decide ("forward_return" ∈ Frame.names df))
  then Fail (AssertionError "'forward_return' column missing in DataFrame")
  else
    let frame := df in
    let scaler := default StandardScaler scaler in
    let features := drop_columns frame ["forward_return"] in
    match Frame.lookup_col "forward_return" (columns frame) with
    | None => Fail (KeyError "forward_return")
    | Some targets =>
        match fit_transform scaler features with
        | inl msg => Fail (ScalerError msg)
        | inr features_scaled =>
            match comprehension (sample targets features_scaled)
                    (seq 0 (Frame.nrows frame)) with
            | Fail e => Fail e
            | Done data =>
                Done (mkProcessed frame scaler features targets features_scaled data)
            end
        end
    end.

(** [self._data[idx]]: a negative index counts from the end. *)
Definition __getitem__ (self : ProcessedAssetData) (idx : Z) : try (list cell) :=
  let n := Z.of_nat (length (_data self)) in
  let j := if idx <? 0 then idx + n else idx in
  if (j <? 0) || (n <=? j) then Fail IndexError
  else match _data self !! Z.to_nat j with
       | Some row => Done row
       | None => Fail IndexError
       end.

Definition __len__ (self : ProcessedAssetData) : nat := length (_data self).

End Scalers.

(** * The vocabulary of the statements

    Derived notions in which the properties of the pipeline are stated, and
    the concrete tables on which they are run. *)

(** ** Independence from a column *)

(** Two frames with the same rows that differ in column [c] at most. *)
Definition agree_off (c : string) (d1 d2 : DataFrame) : Prop :=
  index d1 = index d2 /\
  forall n, n ≠ c -> Frame.lookup_col n (columns d1) = Frame.lookup_col n (columns d2).

(** Two stores with the same objects, whose frames differ in column [c] at
    most. *)
Definition stores_agree_off (c : string) (σ1 σ2 : heap) : Prop :=
  forall l, option_Forall2 (agree_off c) (σ1 !! l) (σ2 !! l).

(** [m] does not depend on column [c]: from stores that differ in that column
    only it produces the same result and stores that differ in that column
    only. *)
Definition ignores {A : Type} (c : string) (m : M A) : Prop :=
  forall σ1 σ2, stores_agree_off c σ1 σ2 ->
    snd (m σ1) = snd (m σ2) /\ stores_agree_off c (fst (m σ1)) (fst (m σ2)).

(** ** The frame a stage computes

    The body of every [apply] once more, as a function from the frame the
    stage works on to the frame it leaves there or the error it raises.
    [apply_run] below proves that this is what [apply] does to the store. *)

Definition rbind {A B : Type} (r : result A) (k : A -> result B) : result B :=
  match r with
  | Ok a => k a
  | Raise e => Raise e
  end.

Section Outcomes.
Context `{Numpy}.

Fixpoint volatility_frame (tfs : list Z) (df : DataFrame) : result DataFrame :=
  match tfs with
  | [] => Ok df
  | i :: rest =>
      rbind (Frame.getitem df "return_1") (fun r =>
      rbind (Series.rolling_std i (Series.log1p r)) (fun v =>
      volatility_frame rest (Frame.setitem df (volatility_column i) v)))
  end.

Definition macd_frame (df : DataFrame) : result DataFrame :=
  rbind (Frame.getitem df "Close") (fun close =>
  rbind (Series.ewm_span 12 false close) (fun ema_12 =>
  rbind (Series.ewm_span 26 false close) (fun ema_26 =>
  let macd_line := Series.binop Cell.sub ema_12 ema_26 in
  rbind (Series.ewm_span 9 false macd_line) (fun signal_line =>
  Ok (Frame.setitem
        (Frame.setitem (Frame.setitem df "macd_line" macd_line)
           "macd_signal_line" signal_line)
        "macd_histogram" (Series.binop Cell.sub macd_line signal_line)))))).

Definition rsi_frame (window : Z) (df : DataFrame) : result DataFrame :=
  rbind (Frame.getitem df "return_1") (fun r =>
  rbind (Series.ewm_com window true (positive_part r)) (fun pos_gain =>
  rbind (Series.ewm_com window true (negative_part r)) (fun neg_gain =>
  Ok (Frame.setitem df "rsi" (rsi_of (rs_of pos_gain neg_gain)))))).

Definition bollinger_frame (window : Z) (df : DataFrame) : result DataFrame :=
  rbind (Frame.getitem df "Close") (fun close =>
  rbind (Series.ewm_span window true close) (fun mid =>
  rbind (Series.rolling_std window close) (fun std =>
  Ok (Frame.setitem
        (Frame.setitem (Frame.setitem df "bollinger_mid" mid)
           "bollinger_lower"
           (Series.binop Cell.sub mid (Series.scalar_l Cell.mul (Fin 2) std)))
        "bollinger_upper"
        (Series.binop Cell.add mid (Series.scalar_l Cell.mul (Fin 2) std)))))).

Definition outcome (s : Stage) (df : DataFrame) : result DataFrame :=
  match s with
  | Volatility i => volatility_frame (vol_timeframes i) df
  | MACD _ => macd_frame df
  | RSI i => rsi_frame (rsi_window i) df
  | Bollinger i => bollinger_frame (bb_window i) df
  end.

(** The object a stage works on: the caller's, or a new one. *)
Definition target (s : Stage) (σ : heap) (l : loc) : loc :=
  if in_place s then l else fresh (dom σ).

(** [x] is a run that worked on object [l'] of store [σ] with outcome
    [out]: on success the object holds the resulting frame; on failure the
    error is the outcome's and no other object was touched. *)
Definition ran_at (l' : loc) (σ : heap) (out : result DataFrame)
    (x : heap * result loc) : Prop :=
  match out with
  | Ok d => x = (<[l' := d]> σ, Ok l')
  | Raise e => snd x = Raise e /\ exists p, fst x = <[l' := p]> σ
  end.

End Outcomes.

(** ** The columns a stage reads and writes *)

(** The column a stage takes its input from. *)
Definition prerequisite (s : Stage) : string :=
  match s with
  | Volatility _ | RSI _ => "return_1"
  | MACD _ | Bollinger _ => "Close"
  end.

(** The columns a stage assigns. *)
Definition written (s : Stage) : list string :=
  match s with
  | Volatility i => map volatility_column (vol_timeframes i)
  | MACD _ => ["macd_line"; "macd_signal_line"; "macd_histogram"]
  | RSI _ => ["rsi"]
  | Bollinger _ => ["bollinger_mid"; "bollinger_lower"; "bollinger_upper"]
  end.

Inductive kind : Type := KVolatility | KMACD | KRSI | KBollinger.

Definition kind_of (s : Stage) : kind :=
  match s with
  | Volatility _ => KVolatility
  | MACD _ => KMACD
  | RSI _ => KRSI
  | Bollinger _ => KBollinger
  end.

(** The column names after an assignment to column [c]. *)
Definition add_name (ns : list string) (c : string) : list string :=
  if bool_decide (c ∈ ns) then ns else (ns ++ [c])%list.

(** Two frames are the same table when they have the same rows, the same
    column names up to their order, and every column name denotes the same
    column in both. *)
Definition same_table (d1 d2 : DataFrame) : Prop :=
  index d1 = index d2
  /\ Frame.names d1 ≡ₚ Frame.names d2
  /\ forall n, Frame.lookup_col n (columns d1) = Frame.lookup_col n (columns d2).

Section Composition.
Context `{Numpy}.

(** Two outcomes of one stage that made the same writes. *)
Definition same_writes s (r r' : result DataFrame) : Prop :=
  match r, r' with
  | Ok d, Ok d' =>
      forall n, n ∈ written s ->
        Frame.lookup_col n (columns d) = Frame.lookup_col n (columns d')
  | Raise e, Raise e' => e = e'
  | _, _ => False
  end.

(** The frame after [s1] and then [s2]. *)
Definition both (s1 s2 : Stage) (df : DataFrame) : result DataFrame :=
  rbind (outcome s1 df) (outcome s2).

(** [s2.apply(s1.apply(df))] *)
Definition then_ (s1 s2 : Stage) (l : loc) : M loc :=
  let* a := apply s1 l in apply s2 a.

(** Any number of stages, each applied to the table the one before it
    returned. *)
Fixpoint apply_all (ss : list Stage) (l : loc) : M loc :=
  match ss with
  | [] => ret l
  | s :: rest => let* a := apply s l in apply_all rest a
  end.

Fixpoint run_all (ss : list Stage) (df : DataFrame) : result DataFrame :=
  match ss with
  | [] => Ok df
  | s :: rest => rbind (outcome s df) (run_all rest)
  end.

(** Two outcomes that fail together or succeed with the same table. *)
Definition agree (r r' : result DataFrame) : Prop :=
  match r, r' with
  | Ok d, Ok d' => same_table d d'
  | Raise _, Raise _ => True
  | _, _ => False
  end.

End Composition.

(** ** Errors *)

(** Every error [m] can raise satisfies [P]. *)
Definition raises_only {A : Type} (P : error -> Prop) (m : M A) : Prop :=
  forall σ e, snd (m σ) = Raise e -> P e.

(** The errors of the loader: a failed download, or a frame without [Close]
    or [Volume]. *)
Definition loader_error (e : error) : Prop :=
  match e with
  | ProviderError _ | InvalidRef => True
  | MissingColumn c => c = "Close" \/ c = "Volume"
  | InvalidWindow | EmptyResult => False
  end.

(** Does the stage ever look at its prerequisite column?  The volatility
    stage reads it once per time frame. *)
Definition reads_prerequisite (s : Stage) : bool :=
  match s with
  | Volatility i => match vol_timeframes i with [] => false | _ :: _ => true end
  | _ => true
  end.

(** ** The loader's store and the cleaning *)

(** The object at [k] is a frame of which [Q] holds. *)
Definition holds_at (σ : heap) (k : loc) (Q : DataFrame -> Prop) : Prop :=
  exists d, σ !! k = Some d /\ Q d.

(** A property of frames that no assignment of a column destroys. *)
Definition stable (Q : DataFrame -> Prop) : Prop :=
  forall d c s, Q d -> Q (Frame.setitem d c s).

(** The two columns [load] reads. *)
Definition has_close_volume (d : DataFrame) : Prop :=
  Frame.has_col d "Close" = true /\ Frame.has_col d "Volume" = true.

(** The three cleaning calls of [load], on the frame. *)
Definition cleaned (d : DataFrame) : DataFrame :=
  Frame.dropna (Frame.replace_inf (Frame.interpolate d)).

(** The asset frame at [l] holds the column [Close] as it was downloaded
    and, for every horizon of [done], the return column computed from it. *)
Definition returns_kept (l : loc) (close : Series) (done : list Z) (σ : heap) : Prop :=
  holds_at σ l (fun d =>
    Frame.lookup_col "Close" (columns d) = Some close
    /\ forall j, j ∈ done ->
         Frame.lookup_col (Loader.return_column j) (columns d)
         = Some (Series.pct_change j close)).

(** [QA] holds of the asset frame and [QB] of the benchmark frame. *)
Definition both_hold (QA QB : DataFrame -> Prop) (l lb : loc) (σ : heap) : Prop :=
  holds_at σ l QA /\ holds_at σ lb QB.

(** Every column has one cell per row, no infinite cell, and a defined
    cell. *)
Definition fillable (d : DataFrame) : Prop :=
  forall n s, (n, s) ∈ columns d ->
    length s = Frame.nrows d
    /\ Forall (fun x => Cell.isinf x = false) s
    /\ Exists (fun x => Cell.isna x = false) s.

(** ** The end-to-end scenario: prices rising 1% per bar, constant volume *)

Definition rising_prices (n : nat) : Series :=
  map (fun i => Fin (100 * (101 # 100) ^ Z.of_nat i)) (seq 0 n).

Definition constant_volume (n : nat) : Series := replicate n (Fin 1000).

Definition ohlcv (n : nat) : DataFrame :=
  mkDataFrame (map Z.of_nat (seq 0 n))
    [("Open", rising_prices n); ("High", rising_prices n); ("Low", rising_prices n);
     ("Close", rising_prices n); ("Volume", constant_volume n)].

(** A loader for the symbol [ASSET], which is its own benchmark. *)
Definition scenario_loader (n : nat) (horizons : list Z) : DataLoader :=
  Loader.init (table_provider [("ASSET", ohlcv n)]) "ASSET" None None None "1d"
    (Some horizons).

(** The frame a run returns a reference to. *)
Definition result_frame (x : heap * result loc) : option DataFrame :=
  match x with
  | (σ, Ok l) => σ !! l
  | (_, Raise _) => None
  end.

(** Is every cell of the frame a finite number? *)
Definition all_finite (d : DataFrame) : bool :=
  forallb (fun '(_, s) => forallb Cell.isfinite s) (columns d).

(** A provider that hands out references to objects the caller already
    holds. *)
Definition ref_provider (refs : list (string * loc)) : DataProvider :=
  mkProvider (fun symbol _ σ =>
    match List.find (fun '(n, _) => String.eqb n symbol) refs with
    | Some (_, l) => (σ, inr l)
    | None => (σ, inl "unknown symbol")
    end).

(** A frame whose columns all have one cell per row. *)
Definition well_formed (d : DataFrame) : Prop :=
  forall n s, (n, s) ∈ columns d -> length s = Frame.nrows d.

(** ** Weighted means over a history *)

Section WeightedMean.
#[local] Open Scope Q_scope.

(** The history of a row, most recent observation first, weighted by the
    powers of the decay factor: [num] is the weighted sum, [den] the sum of
    the weights. *)
Fixpoint num (f : Q) (h : list Q) : Q :=
  match h with
  | [] => 0
  | x :: older => x + f * num f older
  end.

Fixpoint den (f : Q) (h : list Q) : Q :=
  match h with
  | [] => 0
  | _ :: older => 1 + f * den f older
  end.

Definition pow (f : Q) (k : nat) : Q := Nat.iter k (Qmult f) 1.

(** The same sums with the weight of every lag written out: the observation
    [k] bars back weighs [f ^ k]. *)
Fixpoint decayed_from (k : nat) (f : Q) (h : list Q) : Q :=
  match h with
  | [] => 0
  | x :: older => pow f k * x + decayed_from (S k) f older
  end.

Definition weighted_mean (f : Q) (h : list Q) : Q :=
  decayed_from 0 f h / decayed_from 0 f (map (fun _ => 1) h).

(** The decay factor of a centre of mass. *)
Definition decay (com : Q) : Q := 1 - 1 / (1 + com).

End WeightedMean.

(** The positive part and the negative part of one return. *)
Definition gain (x : cell) : Q :=
  match x with
  | Fin q => if Cell.Qlt_bool 0 q then q else 0
  | _ => 0
  end.

Definition loss (x : cell) : Q :=
  match x with
  | Fin q => if Cell.Qlt_bool q 0 then q else 0
  | _ => 0
  end.

(** One row of [100 * rs / (1 + rs)] with [rs = |g / l|]. *)
Definition rsi_cell (g l : cell) : cell :=
  Cell.div (Cell.mul (Fin 100) (Cell.abs (Cell.div g l)))
           (Cell.add (Fin 1) (Cell.abs (Cell.div g l))).

(** ** Weighted means over a history with missing observations *)

(** What the weighted mean receives of a cell: a number, or no observation. *)
Definition seen (x : cell) : option Q :=
  match x with
  | Fin q => Some q
  | _ => None
  end.

(** The weight an observation counts with: a missing one counts for
    nothing. *)
Definition present (o : option Q) : Q :=
  match o with
  | Some _ => 1%Q
  | None => 0%Q
  end.

(** The weighted mean of the observations that are there, the row [k] bars
    back weighing [f ^ k] whether or not rows in between are missing. *)
Definition weighted_mean_seen (f : Q) (h : list (option Q)) : Q :=
  (decayed_from 0 f (map (default 0%Q) h) / decayed_from 0 f (map present h))%Q.

(** The negative part and the positive part of one return as the weighted
    mean receives them: an infinite cell that the clipping keeps is a
    missing observation. *)
Definition loss_seen (x : cell) : option Q :=
  match x with
  | NInf => None
  | _ => Some (loss x)
  end.

Definition gain_seen (x : cell) : option Q :=
  match x with
  | PInf => None
  | _ => Some (gain x)
  end.

(** The state of the loop after the history [h] (most recent row first):
    no mean before the first observation, then the weighted mean [w] of the
    observations, with [ow] the sum of their weights. *)
Definition ewm_state (f : Q) (h : list (option Q)) (weighted : cell) (ow : Q) : Prop :=
  match weighted with
  | NaN => Forall (fun o => o = None) h /\ (ow == 1)%Q
  | Fin w =>
      Exists (fun o => o <> None) h
      /\ (ow == num f (map present h))%Q
      /\ (w * num f (map present h) == num f (map (default 0%Q) h))%Q
      /\ (Forall (fun o => forall q, o = Some q -> (0 <= q)%Q) h -> (0 <= w)%Q)
      /\ (Forall (fun o => forall q, o = Some q -> (q <= 0)%Q) h -> (w <= 0)%Q)
  | _ => False
  end.

(** The frame on which the RSI examples run: returns only. *)
Definition returns_frame (r : Series) : DataFrame :=
  mkDataFrame (map Z.of_nat (seq 0 (length r))) [("return_1", r)].

(** The [rsi] column of the frame a run returns. *)
Definition rsi_column (x : heap * result loc) : option Series :=
  result_frame x ≫= fun d => Frame.lookup_col "rsi" (columns d).

(** ** Concrete inputs *)

(** An instance of the numpy functions to run the stages on examples, with
    the first-order approximations [log1p x ~ x] and [sqrt x ~ (1 + x) / 2].
    The theorems hold for every instance. *)
Definition sample_numpy : Numpy :=
  {| np_sqrt := fun q => ((1 + q) / 2)%Q; np_log1p := fun q => q |}.

(** Three bars with a return column. *)
Definition example_frame : DataFrame :=
  mkDataFrame [1; 2; 3]
    [("Close", [Fin 10; Fin 11; Fin 12]);
     ("Volume", [Fin 5; Fin 5; Fin 5]);
     ("return_1", [NaN; Fin (1 # 10); Fin (1 # 11)])].

Definition example_store : heap := {[1%positive := example_frame]}.

(** An asset with three bars and a benchmark that lacks the second one. *)
Definition asset_frame : DataFrame :=
  mkDataFrame [1; 2; 3]
    [("Close", [Fin 10; Fin 11; Fin 12]); ("Volume", [Fin 5; Fin 5; Fin 5])].

Definition benchmark_frame : DataFrame :=
  mkDataFrame [1; 3]
    [("Close", [Fin 20; Fin 22]); ("Volume", [Fin 7; Fin 7])].

Definition pair_store : heap :=
  {[1%positive := asset_frame; 2%positive := benchmark_frame]}.

(** A loader whose provider hands out the two objects of [pair_store]. *)
Definition pair_loader : DataLoader :=
  Loader.init (ref_provider [("ASSET", 1%positive); ("BENCH", 2%positive)])
    "ASSET" (Some "BENCH") None None "1d" (Some [1]).

(** [load] up to and including the merge. *)
Definition merge_step (self : DataLoader) : M loc :=
  let* df := Loader._download self (asset self) in
  let* df_benchmark := Loader._download self (benchmark_asset self) in
  let* _ := Loader.derive_target df in
  let* _ := Loader.derive_features self df df_benchmark in
  Loader.merge_benchmark df df_benchmark.

(** ** Further notions and inputs *)

(** A property of stores that no assignment of a column destroys. *)
Definition store_stable (I : heap -> Prop) : Prop :=
  forall σ k d c s, I σ -> σ !! k = Some d -> I (<[k := Frame.setitem d c s]> σ).

(** [m] changes no object but those of [K]. *)
Definition writes_only {A : Type} (K : loc -> Prop) (m : M A) : Prop :=
  forall σ k, ~ K k -> fst (m σ) !! k = σ !! k.

(** The last character of a string, [d] for the empty string. *)
Fixpoint last_char (d : ascii) (s : string) : ascii :=
  match s with
  | EmptyString => d
  | String c rest => last_char c rest
  end.

Definition is_digit (c : ascii) : bool :=
  (48 <=? nat_of_ascii c)%nat && (nat_of_ascii c <=? 57)%nat.

(** A scaler for the examples: it hands the feature rows back as they
    are. *)
Definition rows_of (df : DataFrame) : list (list cell) :=
  map (fun i => map (fun '(_, s) => default NaN (s !! i)) (columns df))
      (seq 0 (Frame.nrows df)).

Definition sample_scaler : Scalers.Scaler := Scalers.mkScaler (fun df => inr (rows_of df)).

Definition sample_sklearn : Scalers.Sklearn := {| Scalers.StandardScaler := sample_scaler |}.

(** A download of one ticker as yfinance labels it. *)
Definition sample_yfinance : Yfinance :=
  {| yf_download := fun symbol _ =>
       if String.eqb symbol "ASSET"
       then inr (mkRawFrame [1; 2; 3]
                   (MultiIndex [["Close"; "ASSET"]; ["Volume"; "ASSET"]])
                   [[Fin 10; Fin 11; Fin 12]; [Fin 5; Fin 5; Fin 5]])
       else inl "no data" |}.

(** A frame with prices only, and a loader over it. *)
Definition close_only_frame : DataFrame :=
  mkDataFrame [1; 2] [("Close", [Fin 10; Fin 11])].

Definition close_only_store : heap := {[1%positive := close_only_frame]}.

(** One object for every symbol: the benchmark defaults to the asset, and
    the provider hands out the same reference twice. *)
Definition alias_store : heap := {[1%positive := asset_frame]}.

Definition alias_loader : DataLoader :=
  Loader.init (ref_provider [("ASSET", 1%positive)]) "ASSET" None None None "1d" (Some [1]).

(** A table with a target column. *)
Definition target_frame : DataFrame :=
  mkDataFrame [1; 2; 3]
    [("Close", [Fin 10; Fin 11; Fin 12]);
     ("forward_return", [Fin (1 # 10); Fin (1 # 11); Fin (1 # 11)])].

(** * Properties *)

(** ** Running the primitives of the store *)

Section StoreLemmas.
Implicit Types (σ : heap) (l : loc) (df : DataFrame).

Lemma bind_ok {A B : Type} (m : M A) (k : A -> M B) σ σ' a :
  m σ = (σ', Ok a) -> bind m k σ = k a σ'.
Proof. intros E. unfold bind. now rewrite E. Qed.

Lemma bind_raise {A B : Type} (m : M A) (k : A -> M B) σ σ' e :
  m σ = (σ', Raise e) -> bind m k σ = (σ', Raise e).
Proof. intros E. unfold bind. now rewrite E. Qed.

Lemma frame_run σ l df :
  σ !! l = Some df -> Obj.frame l σ = (σ, Ok df).
Proof. intros E. unfold Obj.frame. now rewrite E. Qed.

Lemma getitem_run σ l df c :
  σ !! l = Some df -> Obj.getitem l c σ = (σ, Frame.getitem df c).
Proof.
  intros E. unfold Obj.getitem.
  now rewrite (bind_ok _ _ _ _ _ (frame_run _ _ _ E)).
Qed.

Lemma setitem_run σ l df c s :
  σ !! l = Some df ->
  Obj.setitem l c s σ = (<[l := Frame.setitem df c s]> σ, Ok tt).
Proof.
  intros E. unfold Obj.setitem.
  now rewrite (bind_ok _ _ _ _ _ (frame_run _ _ _ E)).
Qed.

Lemma inplace_run σ l df f :
  σ !! l = Some df -> Obj.inplace f l σ = (<[l := f df]> σ, Ok tt).
Proof.
  intros E. unfold Obj.inplace.
  now rewrite (bind_ok _ _ _ _ _ (frame_run _ _ _ E)).
Qed.

Lemma copy_run σ l df :
  σ !! l = Some df ->
  Obj.copy l σ = (<[fresh (dom σ) := df]> σ, Ok (fresh (dom σ))).
Proof.
  intros E. unfold Obj.copy.
  now rewrite (bind_ok _ _ _ _ _ (frame_run _ _ _ E)).
Qed.

Lemma fresh_unused σ : σ !! fresh (dom σ) = None.
Proof. apply not_elem_of_dom, is_fresh. Qed.

Lemma fresh_ne σ l df : σ !! l = Some df -> fresh (dom σ) ≠ l.
Proof. intros E Hl. rewrite <- Hl, fresh_unused in E. discriminate. Qed.

End StoreLemmas.

(** ** Columns of a frame *)

Section FrameLemmas.
Implicit Types (df : DataFrame) (c n : string) (s : Series).

Lemma lookup_assign_col c n s cols :
  Frame.lookup_col n (Frame.assign_col c s cols)
  = if String.eqb c n then Some s else Frame.lookup_col n cols.
Proof.
  induction cols as [|[m s'] rest IH]; simpl.
  - reflexivity.
  - destruct (String.eqb m c) eqn:Emc; simpl.
    + apply String.eqb_eq in Emc. subst m.
      destruct (String.eqb c n); reflexivity.
    + destruct (String.eqb m n) eqn:Emn.
      * apply String.eqb_eq in Emn. subst m.
        rewrite String.eqb_sym in Emc. now rewrite Emc.
      * apply IH.
Qed.

Lemma getitem_setitem_eq df c s :
  Frame.getitem (Frame.setitem df c s) c = Ok s.
Proof.
  unfold Frame.getitem, Frame.setitem. simpl.
  now rewrite lookup_assign_col, String.eqb_refl.
Qed.

Lemma getitem_setitem_ne df c n s :
  c ≠ n -> Frame.getitem (Frame.setitem df c s) n = Frame.getitem df n.
Proof.
  intros Hne. unfold Frame.getitem, Frame.setitem. simpl.
  rewrite lookup_assign_col.
  destruct (String.eqb c n) eqn:E; [apply String.eqb_eq in E; contradiction|].
  reflexivity.
Qed.

Lemma index_setitem df c s : index (Frame.setitem df c s) = index df.
Proof. reflexivity. Qed.

Lemma getitem_ok_iff df c :
  (exists s, Frame.getitem df c = Ok s) <-> Frame.has_col df c = true.
Proof.
  unfold Frame.getitem, Frame.has_col.
  destruct (Frame.lookup_col c (columns df)) as [s|] eqn:E.
  - split; [intros _|intros _; eauto].
    apply bool_decide_eq_true. eauto.
  - split; [intros [s Hs]; discriminate|].
    intros Hc. apply bool_decide_eq_true in Hc. destruct Hc; discriminate.
Qed.

Lemma getitem_raise_iff df c e :
  Frame.getitem df c = Raise e <-> Frame.has_col df c = false /\ e = MissingColumn c.
Proof.
  unfold Frame.getitem, Frame.has_col.
  destruct (Frame.lookup_col c (columns df)) as [s|] eqn:E.
  - split; [discriminate|]. intros [Hc _].
    apply bool_decide_eq_false in Hc. exfalso. apply Hc. eauto.
  - split.
    + intros [= <-]. split; [|reflexivity].
      apply bool_decide_eq_false. intros [? ?]; discriminate.
    + intros [_ ->]. reflexivity.
Qed.

Lemma has_col_setitem df c n s :
  Frame.has_col (Frame.setitem df c s) n = Frame.has_col df n || String.eqb c n.
Proof.
  unfold Frame.has_col, Frame.setitem. simpl. rewrite lookup_assign_col.
  destruct (String.eqb c n).
  - rewrite orb_true_r. apply bool_decide_eq_true. eauto.
  - now rewrite orb_false_r.
Qed.

End FrameLemmas.

(** ** Rows of shifted series and percentage changes *)

Section SeriesLemmas.
Implicit Types (xs : Series) (i : nat).

Lemma at_lookup xs i x : xs !! i = Some x -> Series.at_ xs (Z.of_nat i) = x.
Proof.
  intros E. unfold Series.at_.
  destruct (Z.ltb_spec (Z.of_nat i) 0) as [Hlt|_]; [lia|].
  now rewrite Nat2Z.id, E.
Qed.

Lemma at_outside xs (j : Z) :
  j < 0 \/ Z.of_nat (length xs) <= j -> Series.at_ xs j = NaN.
Proof.
  intros Hj. unfold Series.at_.
  destruct (Z.ltb_spec j 0) as [Hlt|Hge]; [reflexivity|].
  destruct Hj as [Hj|Hj]; [lia|].
  rewrite lookup_ge_None_2; [reflexivity|lia].
Qed.

Lemma length_shift p xs : length (Series.shift p xs) = length xs.
Proof. unfold Series.shift. apply length_imap. Qed.

Lemma lookup_shift p xs i :
  (i < length xs)%nat ->
  Series.shift p xs !! i = Some (Series.at_ xs (Z.of_nat i - p)).
Proof.
  intros Hi. unfold Series.shift. rewrite list_lookup_imap.
  destruct (lookup_lt_is_Some_2 xs i Hi) as [x ->]. reflexivity.
Qed.

Lemma length_pct_change p xs : length (Series.pct_change p xs) = length xs.
Proof.
  unfold Series.pct_change, Series.scalar_r, Series.binop.
  rewrite length_map, length_zip_with, length_shift. lia.
Qed.

Lemma lookup_pct_change p xs i x :
  xs !! i = Some x ->
  Series.pct_change p xs !! i
  = Some (Cell.sub (Cell.div x (Series.at_ xs (Z.of_nat i - p))) (Fin 1)).
Proof.
  intros E. unfold Series.pct_change, Series.scalar_r, Series.binop.
  rewrite list_lookup_fmap, lookup_zip_with, E. simpl.
  rewrite lookup_shift by (eapply lookup_lt_Some; eassumption).
  reflexivity.
Qed.

(** A horizon that reaches beyond the series leaves every row undefined. *)
Lemma pct_change_beyond p xs :
  Z.of_nat (length xs) <= Z.abs p ->
  Forall (fun x => x = NaN) (Series.pct_change p xs).
Proof.
  intros Hp. apply Forall_lookup. intros i y Hy.
  assert (Hi : (i < length xs)%nat).
  { rewrite <- (length_pct_change p). eapply lookup_lt_Some; eassumption. }
  destruct (lookup_lt_is_Some_2 xs i Hi) as [x Hx].
  rewrite (lookup_pct_change _ _ _ _ Hx) in Hy. injection Hy as <-.
  rewrite at_outside by lia. now destruct x.
Qed.

Lemma length_forward_return close :
  length (Loader.forward_return close) = length close.
Proof. unfold Loader.forward_return. now rewrite length_shift, length_pct_change. Qed.

Lemma forward_return_inner close i a b :
  close !! i = Some a -> close !! S i = Some b ->
  Loader.forward_return close !! i = Some (Cell.sub (Cell.div b a) (Fin 1)).
Proof.
  intros Ha Hb. unfold Loader.forward_return.
  rewrite lookup_shift.
  2:{ rewrite length_pct_change. eapply lookup_lt_Some; eassumption. }
  f_equal. replace (Z.of_nat i - -1) with (Z.of_nat (S i)) by lia.
  erewrite at_lookup; [|apply lookup_pct_change; eassumption].
  replace (Z.of_nat (S i) - 1) with (Z.of_nat i) by lia.
  now rewrite (at_lookup _ _ _ Ha).
Qed.

Lemma forward_return_last close i :
  S i = length close -> Loader.forward_return close !! i = Some NaN.
Proof.
  intros Hi. unfold Loader.forward_return.
  rewrite lookup_shift by (rewrite length_pct_change; lia).
  f_equal. apply at_outside. right. rewrite length_pct_change. lia.
Qed.

End SeriesLemmas.

(** ** What a computation reads: agreement of stores off one column *)

Section Ignores.
Variable c : string.

Lemma ignores_ret {A : Type} (a : A) : ignores c (ret a).
Proof. intros σ1 σ2 Hs. split; [reflexivity|exact Hs]. Qed.

Lemma ignores_bind {A B : Type} (m : M A) (k : A -> M B) :
  ignores c m -> (forall a, ignores c (k a)) -> ignores c (bind m k).
Proof.
  intros Hm Hk σ1 σ2 Hs. destruct (Hm σ1 σ2 Hs) as [Hr Hs'].
  unfold bind.
  destruct (m σ1) as [σ1' r1], (m σ2) as [σ2' r2]. simpl in *. subst r2.
  destruct r1 as [a|e]; [apply Hk; exact Hs'|split; [reflexivity|exact Hs']].
Qed.

Lemma ignores_for {A : Type} (xs : list A) (body : A -> M unit) :
  (forall x, ignores c (body x)) -> ignores c (for_ xs body).
Proof.
  intros Hb. induction xs as [|x rest IH]; simpl.
  - apply ignores_ret.
  - apply ignores_bind; [apply Hb|intros _; exact IH].
Qed.

Lemma ignores_getitem l n : n ≠ c -> ignores c (Obj.getitem l n).
Proof.
  intros Hn σ1 σ2 Hs. unfold Obj.getitem, Obj.frame, bind, lift, Frame.getitem.
  specialize (Hs l) as Hl.
  destruct Hl as [d1 d2 [_ Hcols]|]; simpl.
  - rewrite (Hcols n Hn).
    destruct (Frame.lookup_col n (columns d2)); (split; [reflexivity|exact Hs]).
  - split; [reflexivity|exact Hs].
Qed.

Lemma agree_off_setitem d1 d2 n s :
  agree_off c d1 d2 -> agree_off c (Frame.setitem d1 n s) (Frame.setitem d2 n s).
Proof.
  intros [Hi Hcols]. split; [exact Hi|].
  intros m Hm. simpl. rewrite !lookup_assign_col.
  destruct (String.eqb n m); [reflexivity|now apply Hcols].
Qed.

Lemma ignores_setitem l n s : ignores c (Obj.setitem l n s).
Proof.
  intros σ1 σ2 Hs. unfold Obj.setitem, Obj.frame, Obj.store, bind.
  specialize (Hs l) as Hl.
  destruct Hl as [d1 d2 Hd|]; simpl.
  - split; [reflexivity|]. intros l'.
    destruct (decide (l = l')) as [<-|Hne].
    + rewrite !lookup_insert_eq. constructor. now apply agree_off_setitem.
    + rewrite !lookup_insert_ne by exact Hne. apply Hs.
  - split; [reflexivity|exact Hs].
Qed.

End Ignores.

Lemma derive_features_ignores_forward_return self df df_benchmark :
  ignores "forward_return" (Loader.derive_features self df df_benchmark).
Proof.
  unfold Loader.derive_features. apply ignores_for. intros i.
  unfold Loader.derive_features_for.
  repeat first
    [ apply ignores_setitem
    | apply ignores_getitem; discriminate
    | apply ignores_bind; [|intros ?] ].
Qed.

(** ** The target column *)

Lemma derive_target_run σ l df close :
  σ !! l = Some df -> Frame.getitem df "Close" = Ok close ->
  Loader.derive_target l σ
  = (<[l := Frame.setitem df "forward_return" (Loader.forward_return close)]> σ, Ok tt).
Proof.
  intros Hl Hc. unfold Loader.derive_target.
  erewrite bind_ok; [|rewrite (getitem_run _ _ _ _ Hl), Hc; reflexivity].
  now apply setitem_run.
Qed.

(** C3.  Right after the target step, row [i] of [forward_return] is
    [Close[i+1] / Close[i] - 1] for every row but the last, the last row is
    undefined, and the feature derivation never reads the column: running it
    from two stores that differ in [forward_return] only gives the same
    outcome and the same feature columns. *)
Theorem C3_forward_return_is_next_bar_return
    (self : DataLoader) (σ : heap) (l lb : loc) (df : DataFrame) (close : Series) :
  σ !! l = Some df ->
  Frame.getitem df "Close" = Ok close ->
  exists fr df',
    Loader.derive_target l σ = (<[l := df']> σ, Ok tt)
    /\ Frame.getitem df' "forward_return" = Ok fr
    /\ length fr = length close
    /\ (forall i a b, close !! i = Some a -> close !! S i = Some b ->
          fr !! i = Some (Cell.sub (Cell.div b a) (Fin 1)))
    /\ (forall i, S i = length close -> fr !! i = Some NaN)
    /\ ignores "forward_return" (Loader.derive_features self l lb).
Proof.
  intros Hl Hc.
  exists (Loader.forward_return close),
         (Frame.setitem df "forward_return" (Loader.forward_return close)).
  split; [now apply derive_target_run|].
  split; [apply getitem_setitem_eq|].
  split; [apply length_forward_return|].
  split; [intros i a b; apply forward_return_inner|].
  split; [intros i; apply forward_return_last|].
  apply derive_features_ignores_forward_return.
Qed.

(** ** What a stage computes, as a function of the frame it works on *)

Section Outcome.
Context `{Numpy}.

Lemma prepare_bind {A : Type} (ip : bool) (k : loc -> M A) σ l df :
  σ !! l = Some df ->
  bind (_prepare_df ip l) k σ
  = k (if ip then l else fresh (dom σ))
      (<[(if ip then l else fresh (dom σ)) := df]> σ).
Proof.
  intros Hl. unfold _prepare_df. destruct ip.
  - rewrite (insert_id _ _ _ Hl). reflexivity.
  - erewrite bind_ok; [reflexivity|now apply copy_run].
Qed.

Lemma volatility_loop_run (tfs : list Z) (k : loc) σ df :
  σ !! k = Some df ->
  match volatility_frame tfs df with
  | Ok d =>
      for_ tfs (fun i =>
        let* r := Obj.getitem k "return_1" in
        let* v := lift (Series.rolling_std i (Series.log1p r)) in
        Obj.setitem k (volatility_column i) v) σ
      = (<[k := d]> σ, Ok tt)
  | Raise e =>
      exists p,
      for_ tfs (fun i =>
        let* r := Obj.getitem k "return_1" in
        let* v := lift (Series.rolling_std i (Series.log1p r)) in
        Obj.setitem k (volatility_column i) v) σ
      = (<[k := p]> σ, Raise e)
  end.
Proof.
  revert σ df. induction tfs as [|i rest IH]; intros σ df Hk; simpl.
  - unfold ret. now rewrite (insert_id _ _ _ Hk).
  - destruct (Frame.getitem df "return_1") as [r|e] eqn:Eg; simpl.
    2:{ exists df. rewrite (insert_id _ _ _ Hk).
        erewrite bind_raise; [reflexivity|].
        erewrite bind_raise; [reflexivity|].
        now rewrite (getitem_run _ _ _ _ Hk), Eg. }
    destruct (Series.rolling_std i (Series.log1p r)) as [v|e] eqn:Er; simpl.
    2:{ exists df. rewrite (insert_id _ _ _ Hk).
        erewrite bind_raise; [reflexivity|].
        erewrite bind_ok; [|now rewrite (getitem_run _ _ _ _ Hk), Eg].
        erewrite bind_raise; [reflexivity|].
        unfold lift. rewrite Er. reflexivity. }
    erewrite bind_ok.
    2:{ erewrite bind_ok; [|now rewrite (getitem_run _ _ _ _ Hk), Eg].
        erewrite bind_ok; [|unfold lift; now rewrite Er].
        apply (setitem_run _ _ _ _ _ Hk). }
    specialize (IH (<[k := Frame.setitem df (volatility_column i) v]> σ)
                   (Frame.setitem df (volatility_column i) v)
                   (lookup_insert_eq _ _ _)).
    destruct (volatility_frame rest _) as [d|e].
    + rewrite IH. now rewrite insert_insert_eq.
    + destruct IH as [p IH]. exists p. rewrite IH. now rewrite insert_insert_eq.
Qed.

Lemma ewm_span_ok (span : Z) (adjust : bool) (xs : Series) :
  1 <= span ->
  Series.ewm_span span adjust xs
  = Ok (Series.ewm_mean ((inject_Z span - 1) / 2) adjust xs).
Proof.
  intros Hs. unfold Series.ewm_span.
  destruct (Z.ltb_spec span 1); [lia|reflexivity].
Qed.

Lemma bind_lift_ok {A B : Type} (a : A) (k : A -> M B) σ :
  bind (lift (Ok a)) k σ = k a σ.
Proof. reflexivity. Qed.

Lemma bind_lift_raise {A B : Type} (e : error) (k : A -> M B) σ :
  bind (lift (Raise e)) k σ = (σ, Raise e).
Proof. reflexivity. Qed.

(** One statement of a stage body, run on the object [k]. *)
Ltac run_getitem Hk E :=
  match goal with
  | |- context [bind (Obj.getitem ?k ?c) ?K ?σ] =>
      match type of Hk with
      | _ !! _ = Some ?df =>
          destruct (Frame.getitem df c) as [?r|?e] eqn:E; cbn [rbind];
          [ erewrite (bind_ok (Obj.getitem k c));
            [|rewrite (getitem_run _ _ _ _ Hk), E; reflexivity]
          | erewrite (bind_raise (Obj.getitem k c));
            [|rewrite (getitem_run _ _ _ _ Hk), E; reflexivity] ];
          cbv beta
      end
  end.

Ltac run_lift E :=
  match goal with
  | |- context [bind (lift ?r) ?K ?σ] =>
      destruct r as [?v|?e] eqn:E; cbn [rbind];
      rewrite ?bind_lift_ok, ?bind_lift_raise; cbv beta
  end.

Ltac run_setitem Hk :=
  erewrite (bind_ok (Obj.setitem _ _ _)); [|apply (setitem_run _ _ _ _ _ Hk)];
  cbv beta.

Ltac failed_at df Hk :=
  split; [reflexivity|exists df; simpl; rewrite ?insert_insert_eq; reflexivity].

#[local] Arguments Series.ewm_span : simpl never.
#[local] Arguments Series.ewm_com : simpl never.
#[local] Arguments Series.rolling_std : simpl never.
#[local] Arguments Frame.getitem : simpl never.
#[local] Arguments Frame.setitem : simpl never.

Lemma apply_run (s : Stage) σ l df :
  σ !! l = Some df ->
  ran_at (target s σ l) σ (outcome s df) (apply s l σ).
Proof.
  intros Hl. unfold target.
  destruct s as [self|self|self|self].
  - (* Volatility *)
    change (apply (Volatility self) l σ) with (VolatilityIndicator_apply self l σ).
    change (in_place (Volatility self)) with (vol_in_place self).
    unfold VolatilityIndicator_apply. rewrite (prepare_bind _ _ _ _ _ Hl).
    pose proof (volatility_loop_run (vol_timeframes self) _ _ _
                  (lookup_insert_eq σ (if vol_in_place self then l else fresh (dom σ)) df))
      as Hloop.
    unfold ran_at, outcome.
    destruct (volatility_frame (vol_timeframes self) df) as [d|e].
    + erewrite bind_ok; [|exact Hloop]. unfold ret.
      now rewrite insert_insert_eq.
    + destruct Hloop as [p Hloop].
      erewrite bind_raise; [|exact Hloop]. simpl.
      split; [reflexivity|]. exists p. now rewrite insert_insert_eq.
  - (* MACD *)
    change (apply (MACD self) l σ) with (MACDIndicator_apply self l σ).
    change (in_place (MACD self)) with (macd_in_place self).
    unfold MACDIndicator_apply. rewrite (prepare_bind _ _ _ _ _ Hl).
    pose proof (lookup_insert_eq σ (if macd_in_place self then l else fresh (dom σ)) df)
      as Hk.
    unfold outcome, macd_frame, ran_at.
    run_getitem Hk Eg; [|failed_at df Hk].
    rewrite !(ewm_span_ok _ false) by lia. simpl.
    rewrite !bind_lift_ok.
    rewrite !(ewm_span_ok _ false) by lia. rewrite !bind_lift_ok.
    run_setitem Hk.
    erewrite (bind_ok (Obj.setitem _ _ _)).
    2:{ eapply setitem_run. apply lookup_insert_eq. }
    erewrite (bind_ok (Obj.setitem _ _ _)).
    2:{ eapply setitem_run. apply lookup_insert_eq. }
    unfold ret. now rewrite !insert_insert_eq.
  - (* RSI *)
    change (apply (RSI self) l σ) with (RSIIndicator_apply self l σ).
    change (in_place (RSI self)) with (rsi_in_place self).
    unfold RSIIndicator_apply. rewrite (prepare_bind _ _ _ _ _ Hl).
    pose proof (lookup_insert_eq σ (if rsi_in_place self then l else fresh (dom σ)) df)
      as Hk.
    unfold outcome, rsi_frame, ran_at.
    run_getitem Hk Eg; [|failed_at df Hk].
    run_lift E1; [|failed_at df Hk].
    erewrite (bind_ok (Obj.getitem _ _));
      [|rewrite (getitem_run _ _ _ _ Hk), Eg; reflexivity].
    cbv beta.
    run_lift E2; [|failed_at df Hk].
    run_setitem Hk.
    unfold ret. now rewrite !insert_insert_eq.
  - (* Bollinger *)
    change (apply (Bollinger self) l σ) with (BollingerBandsIndicator_apply self l σ).
    change (in_place (Bollinger self)) with (bb_in_place self).
    unfold BollingerBandsIndicator_apply. rewrite (prepare_bind _ _ _ _ _ Hl).
    pose proof (lookup_insert_eq σ (if bb_in_place self then l else fresh (dom σ)) df)
      as Hk.
    unfold outcome, bollinger_frame, ran_at.
    run_getitem Hk Eg; [|failed_at df Hk].
    run_lift E1; [|failed_at df Hk].
    run_lift E2; [|failed_at df Hk].
    run_setitem Hk.
    erewrite (bind_ok (Obj.setitem _ _ _)).
    2:{ eapply setitem_run. apply lookup_insert_eq. }
    erewrite (bind_ok (Obj.setitem _ _ _)).
    2:{ eapply setitem_run. apply lookup_insert_eq. }
    unfold ret. now rewrite !insert_insert_eq.
Qed.

End Outcome.

(** ** Which columns a stage reads and writes *)

(** Membership in a list written out in full, one case per element. *)
Ltac split_membership H :=
  repeat match type of H with
         | _ ∈ _ :: _ => apply elem_of_cons in H as [H|H]
         | _ ∈ [] => apply elem_of_nil in H; contradiction
         end.

Lemma ne_of_not_elem (c n : string) (l : list string) : c ∈ l -> n ∉ l -> c ≠ n.
Proof. intros Hc Hn ->. contradiction. Qed.

Ltac written_ne Hn := apply (fun Hc => ne_of_not_elem _ _ _ Hc Hn); repeat constructor.

Section ReadsWrites.
Context `{Numpy}.
Implicit Types (s : Stage) (df d : DataFrame) (n : string).

Lemma lookup_setitem_other df c n x :
  c ≠ n ->
  Frame.lookup_col n (columns (Frame.setitem df c x)) = Frame.lookup_col n (columns df).
Proof.
  intros Hne. simpl. rewrite lookup_assign_col.
  destruct (String.eqb c n) eqn:E; [apply String.eqb_eq in E; contradiction|reflexivity].
Qed.

Lemma lookup_setitem_same df c x :
  Frame.lookup_col c (columns (Frame.setitem df c x)) = Some x.
Proof. simpl. now rewrite lookup_assign_col, String.eqb_refl. Qed.

Lemma getitem_lookup df c :
  Frame.getitem df c
  = match Frame.lookup_col c (columns df) with
    | Some x => Ok x
    | None => Raise (MissingColumn c)
    end.
Proof. reflexivity. Qed.

Lemma prerequisite_not_written s s' : prerequisite s ∉ written s'.
Proof.
  intros Hin.
  destruct s' as [v| | |]; simpl in Hin.
  - apply list_elem_of_fmap in Hin as (i & Hi & _).
    destruct s; discriminate Hi.
  - split_membership Hin; destruct s; discriminate.
  - split_membership Hin; destruct s; discriminate.
  - split_membership Hin; destruct s; discriminate.
Qed.

Lemma written_disjoint s1 s2 n :
  kind_of s1 ≠ kind_of s2 -> n ∈ written s1 -> n ∉ written s2.
Proof.
  intros Hk H1 H2.
  destruct s1 as [v1| | |], s2 as [v2| | |]; simpl in *;
    try (exfalso; apply Hk; reflexivity);
    repeat match goal with
           | Hv : _ ∈ map volatility_column _ |- _ =>
               apply list_elem_of_fmap in Hv as (? & -> & _)
           end;
    repeat match goal with
           | Hc : _ ∈ _ :: _ |- _ => apply elem_of_cons in Hc as [Hc|Hc]
           | Hc : _ ∈ [] |- _ => apply elem_of_nil in Hc; contradiction
           end;
    subst; discriminate.
Qed.

(** A stage leaves the rows and every column it does not write as they
    were. *)
Lemma volatility_frame_keeps tfs df d :
  volatility_frame tfs df = Ok d ->
  index d = index df /\
  forall n, n ∉ map volatility_column tfs ->
    Frame.lookup_col n (columns d) = Frame.lookup_col n (columns df).
Proof.
  revert df. induction tfs as [|i rest IH]; intros df Hd; simpl in Hd.
  - injection Hd as <-. split; reflexivity.
  - destruct (Frame.getitem df "return_1") as [r|]; [simpl in Hd|discriminate].
    destruct (Series.rolling_std i (Series.log1p r)) as [v|]; [simpl in Hd|discriminate].
    destruct (IH _ Hd) as [Hi Hn]. split; [exact Hi|].
    intros n Hnot. simpl in Hnot. apply not_elem_of_cons in Hnot as [Hne Hnot].
    rewrite (Hn n Hnot).
    apply lookup_setitem_other. congruence.
Qed.

Lemma outcome_keeps s df d :
  outcome s df = Ok d ->
  index d = index df /\
  forall n, n ∉ written s ->
    Frame.lookup_col n (columns d) = Frame.lookup_col n (columns df).
Proof.
  destruct s as [v|m|r|b]; simpl.
  - apply volatility_frame_keeps.
  - unfold macd_frame.
    destruct (Frame.getitem df "Close") as [close|]; [simpl|discriminate].
    intros [= <-]. split; [reflexivity|]. intros n Hn.
    rewrite !lookup_setitem_other; [reflexivity|written_ne Hn..].
  - unfold rsi_frame.
    destruct (Frame.getitem df "return_1") as [x|]; [simpl|discriminate].
    destruct (Series.ewm_com _ _ _) as [g|]; [simpl|discriminate].
    destruct (Series.ewm_com _ _ _) as [g'|]; [simpl|discriminate].
    intros [= <-]. split; [reflexivity|]. intros n Hn.
    rewrite !lookup_setitem_other; [reflexivity|written_ne Hn..].
  - unfold bollinger_frame.
    destruct (Frame.getitem df "Close") as [close|]; [simpl|discriminate].
    destruct (Series.ewm_span _ _ _) as [g|]; [simpl|discriminate].
    destruct (Series.rolling_std _ _) as [g'|]; [simpl|discriminate].
    intros [= <-]. split; [reflexivity|]. intros n Hn.
    rewrite !lookup_setitem_other; [reflexivity|written_ne Hn..].
Qed.

End ReadsWrites.

(** ** Stages commute *)

Section Commute.
Context `{Numpy}.
Implicit Types (s : Stage) (df d : DataFrame) (n : string).

Lemma volatility_frame_reads tfs df df' :
  Frame.lookup_col "return_1" (columns df) = Frame.lookup_col "return_1" (columns df') ->
  same_writes (Volatility (mkVolatility tfs false))
    (volatility_frame tfs df) (volatility_frame tfs df').
Proof.
  revert df df'. induction tfs as [|i rest IH]; intros df df' Hr; simpl.
  - intros n Hn. apply elem_of_nil in Hn. contradiction.
  - rewrite !getitem_lookup, <- Hr.
    destruct (Frame.lookup_col "return_1" (columns df)) as [r|] eqn:Er; simpl;
      [|reflexivity].
    destruct (Series.rolling_std i (Series.log1p r)) as [v|]; simpl; [|reflexivity].
    specialize (IH (Frame.setitem df (volatility_column i) v)
                   (Frame.setitem df' (volatility_column i) v)).
    simpl in IH. rewrite !lookup_assign_col in IH. rewrite Er, <- Hr in IH.
    specialize (IH eq_refl). unfold same_writes in *.
    destruct (volatility_frame rest (Frame.setitem df _ v)) as [d|e] eqn:E1,
             (volatility_frame rest (Frame.setitem df' _ v)) as [d'|e'] eqn:E2;
      try exact IH.
    intros n Hn. simpl in Hn.
    destruct (decide (n ∈ map volatility_column rest)) as [Hin|Hout].
    + now apply IH.
    + apply elem_of_cons in Hn as [->|Hn]; [|contradiction].
      rewrite (proj2 (volatility_frame_keeps _ _ _ E1) _ Hout).
      rewrite (proj2 (volatility_frame_keeps _ _ _ E2) _ Hout).
      now rewrite !lookup_setitem_same.
Qed.

(** The outcome of a stage is a function of its prerequisite column. *)
Lemma outcome_reads s df df' :
  Frame.lookup_col (prerequisite s) (columns df)
  = Frame.lookup_col (prerequisite s) (columns df') ->
  same_writes s (outcome s df) (outcome s df').
Proof.
  destruct s as [v|m|r|b]; simpl; intros Hr.
  - destruct v as [tfs ip]. apply (volatility_frame_reads tfs df df' Hr).
  - unfold macd_frame. rewrite !getitem_lookup, <- Hr.
    destruct (Frame.lookup_col "Close" (columns df)) as [close|]; simpl; [|reflexivity].
    intros n Hn. split_membership Hn; subst n; simpl;
      now rewrite !lookup_assign_col.
  - unfold rsi_frame. rewrite !getitem_lookup, <- Hr.
    destruct (Frame.lookup_col "return_1" (columns df)) as [x|]; simpl; [|reflexivity].
    destruct (Series.ewm_com _ _ (positive_part x)) as [g|]; simpl; [|reflexivity].
    destruct (Series.ewm_com _ _ (negative_part x)) as [g'|]; simpl; [|reflexivity].
    intros n Hn. split_membership Hn; subst n; simpl;
      now rewrite !lookup_assign_col.
  - unfold bollinger_frame. rewrite !getitem_lookup, <- Hr.
    destruct (Frame.lookup_col "Close" (columns df)) as [close|]; simpl; [|reflexivity].
    destruct (Series.ewm_span _ _ _) as [g|]; simpl; [|reflexivity].
    destruct (Series.rolling_std _ _) as [g'|]; simpl; [|reflexivity].
    intros n Hn. split_membership Hn; subst n; simpl;
      now rewrite !lookup_assign_col.
Qed.

(** Running [s2] after [s1] has the outcome [s2] has on the input. *)
Lemma outcome_after s1 s2 df d1 :
  outcome s1 df = Ok d1 ->
  same_writes s2 (outcome s2 d1) (outcome s2 df).
Proof.
  intros E1. apply outcome_reads.
  apply (proj2 (outcome_keeps _ _ _ E1)), prerequisite_not_written.
Qed.

Lemma names_setitem df c x :
  Frame.names (Frame.setitem df c x) = add_name (Frame.names df) c.
Proof.
  unfold Frame.names, Frame.setitem, add_name. simpl.
  induction (columns df) as [|[m y] r IH]; simpl.
  - reflexivity.
  - destruct (String.eqb_spec m c) as [->|Hne]; simpl.
    + rewrite bool_decide_eq_true_2 by (apply elem_of_cons; now left). reflexivity.
    + rewrite IH. destruct (bool_decide_reflect (c ∈ map fst r)) as [Hin|Hout].
      * rewrite bool_decide_eq_true_2 by (apply elem_of_cons; now right). reflexivity.
      * rewrite bool_decide_eq_false_2; [reflexivity|].
        intros Hin. apply elem_of_cons in Hin as [->|Hin]; contradiction.
Qed.

Lemma add_name_perm (ns ns' : list string) c :
  ns ≡ₚ ns' -> add_name ns c ≡ₚ add_name ns' c.
Proof.
  intros Hp. unfold add_name.
  destruct (bool_decide_reflect (c ∈ ns)) as [Hin|Hout].
  - rewrite bool_decide_eq_true_2 by (now rewrite <- Hp). exact Hp.
  - rewrite bool_decide_eq_false_2 by (now rewrite <- Hp). now rewrite Hp.
Qed.

Lemma add_name_comm (ns : list string) c1 c2 :
  add_name (add_name ns c1) c2 ≡ₚ add_name (add_name ns c2) c1.
Proof.
  assert (Hold : forall c, c ∈ ns -> add_name ns c = ns).
  { intros c Hc. unfold add_name. now rewrite bool_decide_eq_true_2. }
  assert (Hnew : forall (l : list string) c, c ∉ l -> add_name l c = (l ++ [c])%list).
  { intros l c Hc. unfold add_name. now rewrite bool_decide_eq_false_2. }
  assert (Hkeep : forall (l : list string) c, c ∈ l -> add_name l c = l).
  { intros l c Hc. unfold add_name. now rewrite bool_decide_eq_true_2. }
  destruct (decide (c1 ∈ ns)) as [H1|H1], (decide (c2 ∈ ns)) as [H2|H2].
  - now rewrite (Hold c1 H1), (Hold c2 H2), (Hold c1 H1).
  - rewrite (Hold c1 H1), (Hnew ns c2 H2).
    rewrite (Hkeep (ns ++ [c2])%list c1) by (apply elem_of_app; now left).
    reflexivity.
  - rewrite (Hold c2 H2), (Hnew ns c1 H1).
    rewrite (Hkeep (ns ++ [c1])%list c2) by (apply elem_of_app; now left).
    reflexivity.
  - rewrite (Hnew ns c1 H1), (Hnew ns c2 H2).
    destruct (decide (c1 = c2)) as [->|Hne]; [reflexivity|].
    rewrite (Hnew (ns ++ [c1])%list c2), (Hnew (ns ++ [c2])%list c1).
    + rewrite <- !app_assoc. apply Permutation_app_head, perm_swap.
    + intros Hin. apply elem_of_app in Hin as [Hin|Hin]; [contradiction|].
      apply list_elem_of_singleton in Hin. congruence.
    + intros Hin. apply elem_of_app in Hin as [Hin|Hin]; [contradiction|].
      apply list_elem_of_singleton in Hin. congruence.
Qed.

(** The names after a series of assignments do not depend on their order,
    up to the order of the names. *)
Lemma foldl_add_name_perm (cs cs' : list string) (ns ns' : list string) :
  cs ≡ₚ cs' -> ns ≡ₚ ns' -> foldl add_name ns cs ≡ₚ foldl add_name ns' cs'.
Proof.
  intros Hcs. revert ns ns'.
  induction Hcs as [|c l l' _ IH|c1 c2 l|l l' l'' _ IH1 _ IH2]; intros ns ns' Hns; simpl.
  - exact Hns.
  - apply IH. now apply add_name_perm.
  - assert (Hgo : forall a b, a ≡ₚ b -> foldl add_name a l ≡ₚ foldl add_name b l).
    { induction l as [|c r IHr]; intros a b Hab; simpl; [exact Hab|].
      apply IHr. now apply add_name_perm. }
    apply Hgo. rewrite add_name_comm.
    apply add_name_perm, add_name_perm, Hns.
  - etransitivity; [apply (IH1 ns ns' Hns)|]. now apply IH2.
Qed.

Lemma volatility_frame_names tfs df d :
  volatility_frame tfs df = Ok d ->
  Frame.names d = foldl add_name (Frame.names df) (map volatility_column tfs).
Proof.
  revert df. induction tfs as [|i rest IH]; intros df Hd; simpl in Hd.
  - now injection Hd as <-.
  - destruct (Frame.getitem df "return_1") as [r|]; [simpl in Hd|discriminate].
    destruct (Series.rolling_std i (Series.log1p r)) as [v|]; [simpl in Hd|discriminate].
    rewrite (IH _ Hd), names_setitem. reflexivity.
Qed.

(** The column names a stage leaves: those of the input, with the names it
    assigns added in turn. *)
Lemma outcome_names s df d :
  outcome s df = Ok d ->
  Frame.names d = foldl add_name (Frame.names df) (written s).
Proof.
  destruct s as [v|m|r|b]; simpl.
  - apply volatility_frame_names.
  - unfold macd_frame.
    destruct (Frame.getitem df "Close") as [close|]; [simpl|discriminate].
    intros [= <-]. now rewrite !names_setitem.
  - unfold rsi_frame.
    destruct (Frame.getitem df "return_1") as [x|]; [simpl|discriminate].
    destruct (Series.ewm_com _ _ _) as [g|]; [simpl|discriminate].
    destruct (Series.ewm_com _ _ _) as [g'|]; [simpl|discriminate].
    intros [= <-]. now rewrite !names_setitem.
  - unfold bollinger_frame.
    destruct (Frame.getitem df "Close") as [close|]; [simpl|discriminate].
    destruct (Series.ewm_span _ _ _) as [g|]; [simpl|discriminate].
    destruct (Series.rolling_std _ _) as [g'|]; [simpl|discriminate].
    intros [= <-]. now rewrite !names_setitem.
Qed.

Lemma both_commute s1 s2 df :
  kind_of s1 ≠ kind_of s2 ->
  match both s1 s2 df, both s2 s1 df with
  | Ok d12, Ok d21 => same_table d12 d21
  | Raise _, Raise _ => True
  | _, _ => False
  end.
Proof.
  intros Hk. unfold both.
  destruct (outcome s1 df) as [d1|e1] eqn:E1, (outcome s2 df) as [d2|e2] eqn:E2; simpl.
  - pose proof (outcome_after s1 s2 df d1 E1) as H12.
    pose proof (outcome_after s2 s1 df d2 E2) as H21.
    rewrite E2 in H12. rewrite E1 in H21. unfold same_writes in *.
    destruct (outcome s2 d1) as [d12|] eqn:E12; [|contradiction].
    destruct (outcome s1 d2) as [d21|] eqn:E21; [|contradiction].
    destruct (outcome_keeps _ _ _ E1) as [I1 K1], (outcome_keeps _ _ _ E2) as [I2 K2],
             (outcome_keeps _ _ _ E12) as [I12 K12], (outcome_keeps _ _ _ E21) as [I21 K21].
    split; [congruence|]. split.
    { rewrite (outcome_names _ _ _ E12), (outcome_names _ _ _ E1).
      rewrite (outcome_names _ _ _ E21), (outcome_names _ _ _ E2).
      rewrite <- !foldl_app. apply foldl_add_name_perm; [|reflexivity].
      apply Permutation_app_comm. }
    intros n.
    destruct (decide (n ∈ written s1)) as [W1|W1].
    + assert (W2 : n ∉ written s2) by (eapply written_disjoint; eassumption).
      rewrite (K12 n W2). symmetry. now apply H21.
    + destruct (decide (n ∈ written s2)) as [W2|W2].
      * rewrite (K21 n W1). rewrite H12 by assumption. reflexivity.
      * now rewrite (K12 n W2), (K1 n W1), (K21 n W1), (K2 n W2).
  - pose proof (outcome_after s1 s2 df d1 E1) as H12. rewrite E2 in H12.
    unfold same_writes in H12. now destruct (outcome s2 d1).
  - pose proof (outcome_after s2 s1 df d2 E2) as H21. rewrite E1 in H21.
    unfold same_writes in H21. now destruct (outcome s1 d2).
  - exact I.
Qed.

Lemma then_run s1 s2 σ l df :
  σ !! l = Some df ->
  match both s1 s2 df with
  | Ok d => exists σ' l', then_ s1 s2 l σ = (σ', Ok l') /\ σ' !! l' = Some d
  | Raise e => exists σ', then_ s1 s2 l σ = (σ', Raise e)
  end.
Proof.
  intros Hl. unfold both, then_.
  pose proof (apply_run s1 σ l df Hl) as R1. unfold ran_at in R1.
  destruct (outcome s1 df) as [d1|e1]; cbn [rbind].
  - rewrite (bind_ok _ _ _ _ _ R1).
    pose proof (apply_run s2 _ _ d1 (lookup_insert_eq σ (target s1 σ l) d1)) as R2.
    unfold ran_at in R2.
    destruct (outcome s2 d1) as [d12|e2].
    + eexists _, _. split; [exact R2|apply lookup_insert_eq].
    + destruct R2 as [R2 _]. destruct (apply s2 _ _) as [σ' r]. simpl in R2. subst r.
      now exists σ'.
  - destruct R1 as [R1 _]. destruct (apply s1 l σ) as [σ' r] eqn:E. simpl in R1. subst r.
    exists σ'. now apply bind_raise.
Qed.

Lemma same_table_refl d : same_table d d.
Proof. split; [reflexivity|]. split; [reflexivity|]. intros n. reflexivity. Qed.

Lemma same_table_trans d1 d2 d3 : same_table d1 d2 -> same_table d2 d3 -> same_table d1 d3.
Proof.
  intros (I1 & N1 & L1) (I2 & N2 & L2). split; [congruence|].
  split; [now rewrite N1|]. intros n. now rewrite L1.
Qed.

Lemma agree_trans r1 r2 r3 : agree r1 r2 -> agree r2 r3 -> agree r1 r3.
Proof.
  destruct r1, r2, r3; simpl; try tauto. apply same_table_trans.
Qed.

(** A stage maps the same table to the same table. *)
Lemma outcome_respects s d d' :
  same_table d d' -> agree (outcome s d) (outcome s d').
Proof.
  intros (Hi & Hn & Hl).
  pose proof (outcome_reads s d d' (Hl (prerequisite s))) as Hw.
  unfold same_writes in Hw. unfold agree.
  destruct (outcome s d) as [d1|e1] eqn:E1, (outcome s d') as [d1'|e1'] eqn:E2;
    try contradiction; [|exact I].
  destruct (outcome_keeps _ _ _ E1) as [I1 K1], (outcome_keeps _ _ _ E2) as [I2 K2].
  split; [congruence|]. split.
  - rewrite (outcome_names _ _ _ E1), (outcome_names _ _ _ E2).
    now apply foldl_add_name_perm.
  - intros n. destruct (decide (n ∈ written s)) as [W|W]; [now apply Hw|].
    now rewrite (K1 n W), (K2 n W).
Qed.

Lemma run_all_respects ss d d' :
  same_table d d' -> agree (run_all ss d) (run_all ss d').
Proof.
  revert d d'. induction ss as [|s rest IH]; intros d d' Hd; simpl; [exact Hd|].
  pose proof (outcome_respects s d d' Hd) as Hs. unfold agree in Hs.
  destruct (outcome s d), (outcome s d'); simpl; try contradiction; [now apply IH|exact I].
Qed.

(** Stages of pairwise different kinds can be applied in any order. *)
Lemma run_all_perm ss ss' :
  ss ≡ₚ ss' -> NoDup (map kind_of ss) ->
  forall d d', same_table d d' -> agree (run_all ss d) (run_all ss' d').
Proof.
  intros Hp. induction Hp as [|s l l' Hp IH|s1 s2 l|l l' l'' Hp1 IH1 Hp2 IH2];
    intros Hnd d d' Hd.
  - exact Hd.
  - simpl in *. apply NoDup_cons in Hnd as [_ Hnd].
    pose proof (outcome_respects s d d' Hd) as Hs. unfold agree in Hs.
    destruct (outcome s d), (outcome s d'); simpl; try contradiction; [now apply IH|exact I].
  - apply agree_trans with (run_all (s2 :: s1 :: l) d');
      [now apply run_all_respects|].
    assert (Hk : kind_of s2 ≠ kind_of s1).
    { simpl in Hnd. apply NoDup_cons in Hnd as [Hnot _].
      intros Heq. apply Hnot. rewrite <- Heq. apply elem_of_cons. now left. }
    pose proof (both_commute s2 s1 d' Hk) as C. unfold both in C. simpl.
    destruct (outcome s2 d') as [a|] eqn:E2, (outcome s1 d') as [b|] eqn:E1; simpl in *.
    + destruct (outcome s1 a) as [ab|], (outcome s2 b) as [ba|]; simpl;
        try contradiction; [now apply run_all_respects|exact I].
    + destruct (outcome s1 a); simpl; [contradiction|exact I].
    + destruct (outcome s2 b); simpl; [contradiction|exact I].
    + exact I.
  - apply agree_trans with (run_all l' d).
    + apply IH1; [exact Hnd|apply same_table_refl].
    + apply IH2; [|exact Hd]. now rewrite <- Hp1.
Qed.

Lemma apply_all_run ss σ l df :
  σ !! l = Some df ->
  match run_all ss df with
  | Ok d => exists σ' l', apply_all ss l σ = (σ', Ok l') /\ σ' !! l' = Some d
  | Raise e => exists σ', apply_all ss l σ = (σ', Raise e)
  end.
Proof.
  revert σ l df. induction ss as [|s rest IH]; intros σ l df Hl; simpl.
  - exists σ, l. now split.
  - pose proof (apply_run s σ l df Hl) as R. unfold ran_at in R.
    destruct (outcome s df) as [d1|e1]; cbn [rbind].
    + rewrite (bind_ok _ _ _ _ _ R).
      apply (IH _ _ d1 (lookup_insert_eq σ (target s σ l) d1)).
    + destruct R as [R _]. destruct (apply s l σ) as [σ' r] eqn:E. simpl in R. subst r.
      exists σ'. now apply bind_raise.
Qed.

End Commute.

(** C7.  Two stages of different kinds commute: whichever is applied first,
    either both orders fail or both succeed with the same table (the same
    rows, the same column names up to the order in which the new columns
    were appended, and every column name denoting the same column), in which
    the columns written by neither stage are those of the input; and when
    each stage succeeds on the input alone, both orders succeed. *)
Theorem C7_stages_commute `{Numpy} (s1 s2 : Stage) (σ : heap) (l : loc) (df : DataFrame) :
  σ !! l = Some df ->
  Frame.has_col df "return_1" = true ->
  Frame.has_col df "Close" = true ->
  kind_of s1 ≠ kind_of s2 ->
  match then_ s1 s2 l σ, then_ s2 s1 l σ with
  | (σ12, Ok l12), (σ21, Ok l21) =>
      exists d12 d21,
        σ12 !! l12 = Some d12 /\ σ21 !! l21 = Some d21 /\ same_table d12 d21
        /\ forall n, n ∉ written s1 -> n ∉ written s2 ->
             Frame.lookup_col n (columns d12) = Frame.lookup_col n (columns df)
  | (_, Raise _), (_, Raise _) => True
  | _, _ => False
  end
  /\ ((exists l1, snd (apply s1 l σ) = Ok l1) -> (exists l2, snd (apply s2 l σ) = Ok l2) ->
      exists l12, snd (then_ s1 s2 l σ) = Ok l12).
Proof.
  intros Hl _ _ Hk.
  pose proof (then_run s1 s2 σ l df Hl) as R12.
  pose proof (then_run s2 s1 σ l df Hl) as R21.
  pose proof (both_commute s1 s2 df Hk) as C.
  split.
  - destruct (both s1 s2 df) as [d12|e12] eqn:B12, (both s2 s1 df) as [d21|e21] eqn:B21;
      try contradiction.
    + destruct R12 as (σ12 & l12 & -> & H12), R21 as (σ21 & l21 & -> & H21).
      exists d12, d21. split; [exact H12|]. split; [exact H21|]. split; [exact C|].
      intros n W1 W2. unfold both in B12.
      destruct (outcome s1 df) as [d1|] eqn:E1; [simpl in B12|discriminate].
      rewrite (proj2 (outcome_keeps _ _ _ B12) n W2).
      apply (proj2 (outcome_keeps _ _ _ E1) n W1).
    + destruct R12 as (σ12 & ->), R21 as (σ21 & ->). exact I.
  - intros [l1 S1] [l2 S2].
    pose proof (apply_run s1 σ l df Hl) as A1. pose proof (apply_run s2 σ l df Hl) as A2.
    unfold ran_at in A1, A2.
    destruct (outcome s1 df) as [d1|e1] eqn:E1; [|destruct A1 as [A1 _]; congruence].
    destruct (outcome s2 df) as [d2|e2] eqn:E2; [|destruct A2 as [A2 _]; congruence].
    pose proof (outcome_after s1 s2 df d1 E1) as H12. rewrite E2 in H12.
    unfold both in R12. rewrite E1 in R12. simpl in R12. unfold same_writes in H12.
    destruct (outcome s2 d1) as [d12|]; [|contradiction].
    destruct R12 as (σ12 & l12 & -> & _). now exists l12.
Qed.

(** ** Which errors a computation can raise *)

Section RaisesOnly.
Variable P : error -> Prop.

Lemma raises_only_ret {A : Type} (a : A) : raises_only P (ret a).
Proof. intros σ e. discriminate. Qed.

Lemma raises_only_bind {A B : Type} (m : M A) (k : A -> M B) :
  raises_only P m -> (forall a, raises_only P (k a)) -> raises_only P (bind m k).
Proof.
  intros Hm Hk σ e. unfold bind. specialize (Hm σ).
  destruct (m σ) as [σ' [a|e']]; simpl in *.
  - apply Hk.
  - intros [= <-]. now apply Hm.
Qed.

Lemma raises_only_for {A : Type} (xs : list A) (body : A -> M unit) :
  (forall x, raises_only P (body x)) -> raises_only P (for_ xs body).
Proof.
  intros Hb. induction xs as [|x rest IH]; simpl.
  - apply raises_only_ret.
  - apply raises_only_bind; [apply Hb|intros _; exact IH].
Qed.

Lemma raises_only_frame l : P InvalidRef -> raises_only P (Obj.frame l).
Proof.
  intros HP σ e. unfold Obj.frame. destruct (σ !! l); simpl; [discriminate|].
  now intros [= <-].
Qed.

Lemma raises_only_getitem l c :
  P InvalidRef -> P (MissingColumn c) -> raises_only P (Obj.getitem l c).
Proof.
  intros HR HM. apply raises_only_bind; [now apply raises_only_frame|].
  intros df σ e. unfold lift, Frame.getitem. simpl.
  destruct (Frame.lookup_col c (columns df)); [discriminate|]. now intros [= <-].
Qed.

Lemma raises_only_setitem l c s : P InvalidRef -> raises_only P (Obj.setitem l c s).
Proof.
  intros HR. apply raises_only_bind; [now apply raises_only_frame|].
  intros df σ e. discriminate.
Qed.

Lemma raises_only_inplace f l : P InvalidRef -> raises_only P (Obj.inplace f l).
Proof.
  intros HR. apply raises_only_bind; [now apply raises_only_frame|].
  intros df σ e. discriminate.
Qed.

Lemma raises_only_alloc df : raises_only P (Obj.alloc df).
Proof. intros σ e. discriminate. Qed.

Lemma raises_only_download self symbol :
  (forall msg, P (ProviderError msg)) -> raises_only P (Loader._download self symbol).
Proof.
  intros HP σ e. unfold Loader._download.
  destruct (download _ _ _ σ) as [σ' [msg|l]]; simpl; [|discriminate].
  intros [= <-]. apply HP.
Qed.

End RaisesOnly.

Lemma derive_features_errors self df df_benchmark :
  raises_only loader_error (Loader.derive_features self df df_benchmark).
Proof.
  unfold Loader.derive_features. apply raises_only_for. intros i.
  unfold Loader.derive_features_for.
  repeat first
    [ apply raises_only_setitem; exact I
    | apply raises_only_getitem; [exact I|simpl; auto]
    | apply raises_only_bind; [|intros ?] ].
Qed.

Lemma load_errors self : raises_only loader_error (Loader.load self).
Proof.
  unfold Loader.load.
  apply raises_only_bind; [apply raises_only_download; intros; exact I|intros df].
  apply raises_only_bind; [apply raises_only_download; intros; exact I|intros dfb].
  apply raises_only_bind; [|intros _].
  { unfold Loader.derive_target.
    apply raises_only_bind; [apply raises_only_getitem; [exact I|simpl; auto]|intros ?].
    apply raises_only_setitem. exact I. }
  apply raises_only_bind; [apply derive_features_errors|intros _].
  apply raises_only_bind; [|intros l'].
  { unfold Loader.merge_benchmark.
    apply raises_only_bind; [apply raises_only_frame; exact I|intros a].
    apply raises_only_bind; [apply raises_only_frame; exact I|intros b].
    apply raises_only_alloc. }
  apply raises_only_bind; [|intros _; apply raises_only_ret].
  unfold Loader.clean.
  repeat first
    [ apply raises_only_inplace; exact I
    | apply raises_only_bind; [|intros ?] ].
Qed.

(** ** Errors of the stages *)

Section StageErrors.
Context `{Numpy}.
Implicit Types (s : Stage) (df d : DataFrame) (n : string).

Lemma rolling_std_raise (w : Z) (xs : Series) (e : error) :
  Series.rolling_std w xs = Raise e <-> w < 0 /\ e = InvalidWindow.
Proof.
  unfold Series.rolling_std. destruct (Z.ltb_spec w 0).
  - split; [intros [= <-]; now split|intros [_ ->]; reflexivity].
  - split; [discriminate|intros [? _]; lia].
Qed.

Lemma ewm_com_raise (w : Z) (a : bool) (xs : Series) (e : error) :
  Series.ewm_com w a xs = Raise e <-> w < 0 /\ e = InvalidWindow.
Proof.
  unfold Series.ewm_com. destruct (Z.ltb_spec w 0).
  - split; [intros [= <-]; now split|intros [_ ->]; reflexivity].
  - split; [discriminate|intros [? _]; lia].
Qed.

Lemma ewm_span_raise (w : Z) (a : bool) (xs : Series) (e : error) :
  Series.ewm_span w a xs = Raise e <-> w < 1 /\ e = InvalidWindow.
Proof.
  unfold Series.ewm_span. destruct (Z.ltb_spec w 1).
  - split; [intros [= <-]; now split|intros [_ ->]; reflexivity].
  - split; [discriminate|intros [? _]; lia].
Qed.

Lemma has_col_lookup df c :
  Frame.has_col df c = true -> exists x, Frame.lookup_col c (columns df) = Some x.
Proof. intros Hc. apply bool_decide_eq_true in Hc. exact Hc. Qed.

Lemma lacks_col_lookup df c :
  Frame.has_col df c = false -> Frame.lookup_col c (columns df) = None.
Proof.
  intros Hc. apply bool_decide_eq_false in Hc.
  destruct (Frame.lookup_col c (columns df)); [exfalso; eauto|reflexivity].
Qed.

(** With [return_1] in the frame, the volatility stage fails exactly when
    some time frame is negative, and then with [InvalidWindow]. *)
Lemma volatility_frame_raise tfs df e :
  Frame.has_col df "return_1" = true ->
  volatility_frame tfs df = Raise e <->
  Exists (fun i => i < 0) tfs /\ e = InvalidWindow.
Proof.
  revert df. induction tfs as [|i rest IH]; intros df Hc; simpl.
  - split; [discriminate|]. intros [Hex _]. inversion Hex.
  - rewrite getitem_lookup. destruct (has_col_lookup _ _ Hc) as [r ->]. simpl.
    destruct (Series.rolling_std i (Series.log1p r)) as [v|e'] eqn:Er; simpl.
    + rewrite IH by (rewrite has_col_setitem, Hc; reflexivity).
      rewrite Exists_cons.
      assert (~ i < 0).
      { intros Hi. assert (Hx : Series.rolling_std i (Series.log1p r) = Raise InvalidWindow)
          by (apply rolling_std_raise; now split).
        congruence. }
      tauto.
    + apply rolling_std_raise in Er as [Hi ->]. rewrite Exists_cons.
      split; [intros [= <-]; tauto|intros [_ ->]; reflexivity].
Qed.

Lemma outcome_missing_column s df c :
  outcome s df = Raise (MissingColumn c) <->
  c = prerequisite s /\ Frame.has_col df (prerequisite s) = false
  /\ reads_prerequisite s = true.
Proof.
  destruct (Frame.has_col df (prerequisite s)) eqn:Hc.
  - (* present: no [MissingColumn] at all *)
    split; [|intros (_ & ? & _); discriminate]. intros Hout. exfalso.
    destruct (has_col_lookup _ _ Hc) as [x Hx].
    destruct s as [v|m|r|b]; simpl in *.
    + apply volatility_frame_raise in Hout as [_ ?]; [discriminate|exact Hc].
    + unfold macd_frame in Hout. rewrite getitem_lookup, Hx in Hout. discriminate.
    + unfold rsi_frame in Hout. rewrite getitem_lookup, Hx in Hout. simpl in Hout.
      destruct (Series.ewm_com _ _ (positive_part x)) eqn:E1; simpl in Hout.
      * destruct (Series.ewm_com _ _ (negative_part x)) eqn:E2; simpl in Hout;
          [discriminate|].
        apply ewm_com_raise in E2 as [_ ->]. discriminate.
      * apply ewm_com_raise in E1 as [_ ->]. discriminate.
    + unfold bollinger_frame in Hout. rewrite getitem_lookup, Hx in Hout. simpl in Hout.
      destruct (Series.ewm_span _ _ _) eqn:E1; simpl in Hout.
      * destruct (Series.rolling_std _ _) eqn:E2; simpl in Hout; [discriminate|].
        apply rolling_std_raise in E2 as [_ ->]. discriminate.
      * apply ewm_span_raise in E1 as [_ ->]. discriminate.
  - (* absent: the first read fails, when there is one *)
    pose proof (lacks_col_lookup _ _ Hc) as Hx.
    destruct s as [v|m|r|b]; simpl in *.
    + destruct (vol_timeframes v) as [|i rest]; simpl.
      * split; [discriminate|intros (_ & _ & ?); discriminate].
      * rewrite getitem_lookup, Hx. simpl.
        split; [intros [= <-]; auto|intros (-> & _); reflexivity].
    + unfold macd_frame. rewrite getitem_lookup, Hx. simpl.
      split; [intros [= <-]; auto|intros (-> & _); reflexivity].
    + unfold rsi_frame. rewrite getitem_lookup, Hx. simpl.
      split; [intros [= <-]; auto|intros (-> & _); reflexivity].
    + unfold bollinger_frame. rewrite getitem_lookup, Hx. simpl.
      split; [intros [= <-]; auto|intros (-> & _); reflexivity].
Qed.

(** The result of [apply] is the outcome's. *)
Lemma apply_result s σ l df :
  σ !! l = Some df ->
  snd (apply s l σ)
  = match outcome s df with
    | Ok _ => Ok (target s σ l)
    | Raise e => Raise e
    end.
Proof.
  intros Hl. pose proof (apply_run s σ l df Hl) as R. unfold ran_at in R.
  destruct (outcome s df); [now rewrite R|apply R].
Qed.

End StageErrors.

(** C8 (as amended).  A stage fails with [MissingColumn] exactly when its
    prerequisite column ([return_1] for Volatility and RSI, [Close] for MACD
    and Bollinger bands) is absent and the stage reads it, which every stage
    does except the volatility stage with an empty list of time frames; the
    column named by the error is the prerequisite; with the prerequisite
    present no [MissingColumn] is raised. *)
Theorem C8_missing_prerequisite `{Numpy} (s : Stage) (σ : heap) (l : loc) (df : DataFrame) :
  σ !! l = Some df ->
  (forall c, snd (apply s l σ) = Raise (MissingColumn c) <->
     c = prerequisite s /\ Frame.has_col df (prerequisite s) = false
     /\ reads_prerequisite s = true)
  /\ (Frame.has_col df (prerequisite s) = true ->
      forall c, snd (apply s l σ) ≠ Raise (MissingColumn c)).
Proof.
  intros Hl.
  assert (Hiff : forall c, snd (apply s l σ) = Raise (MissingColumn c) <->
     c = prerequisite s /\ Frame.has_col df (prerequisite s) = false
     /\ reads_prerequisite s = true).
  { intros c. rewrite (apply_result s σ l df Hl), <- outcome_missing_column.
    destruct (outcome s df); split; try discriminate; intros [= ->]; reflexivity. }
  split; [exact Hiff|].
  intros Hc c Hr. apply Hiff in Hr as (_ & Hno & _). congruence.
Qed.

(** C9 (as amended).  No window or horizon is checked against the length of
    the series.  The rolling standard deviation rejects a negative window
    only; a window of zero rows, or longer than the series, gives a column of
    undefined cells.  The percentage change is total: a horizon that reaches
    beyond the series gives a column of undefined cells.  With their
    prerequisite column present, the volatility stage fails with
    [InvalidWindow] exactly when a time frame is negative and the Bollinger
    stage exactly when its window is below one (the span of its moving
    average); the loader's feature derivation never raises [InvalidWindow]. *)
Theorem C9_windows_are_not_checked_against_length `{Numpy}
    (w : Z) (xs : Series) (v : VolatilityIndicator) (b : BollingerBandsIndicator)
    (self : DataLoader) (σ : heap) (l lb : loc) (df : DataFrame) :
  σ !! l = Some df ->
  Frame.has_col df "return_1" = true ->
  Frame.has_col df "Close" = true ->
  (Series.rolling_std w xs = Raise InvalidWindow <-> w < 0)
  /\ (0 <= w -> exists ys,
        Series.rolling_std w xs = Ok ys /\ length ys = length xs
        /\ (w = 0 \/ Z.of_nat (length xs) < w -> Forall (fun y => y = NaN) ys))
  /\ length (Series.pct_change w xs) = length xs
  /\ (Z.of_nat (length xs) <= Z.abs w -> Forall (fun y => y = NaN) (Series.pct_change w xs))
  /\ (snd (apply v l σ) = Raise InvalidWindow <-> Exists (fun i => i < 0) (vol_timeframes v))
  /\ (snd (apply b l σ) = Raise InvalidWindow <-> bb_window b < 1)
  /\ raises_only (fun e => e ≠ InvalidWindow) (Loader.derive_features self l lb).
Proof.
  intros Hl Hr Hc.
  split; [rewrite rolling_std_raise; tauto|].
  split.
  { intros Hw. unfold Series.rolling_std.
    destruct (Z.ltb_spec w 0); [lia|]. eexists. split; [reflexivity|].
    split; [apply length_imap|].
    intros Hbig. apply Forall_lookup. intros i y Hy.
    rewrite list_lookup_imap in Hy.
    destruct (xs !! i) as [x|] eqn:Ex; [|discriminate]. injection Hy as <-.
    unfold Series.std_of_window.
    set (obs := List.filter _ _).
    assert (Hobs : (length obs <= length (Series.window (Z.to_nat w) xs i))%nat)
      by apply List.filter_length_le.
    unfold Series.window in Hobs. rewrite length_drop, length_take in Hobs.
    apply lookup_lt_Some in Ex.
    destruct Hbig as [->|Hbig].
    - simpl in Hobs. replace (i + 1 - 0)%nat with (i + 1)%nat in Hobs by lia.
      assert (length obs = 0%nat) as -> by lia. reflexivity.
    - destruct (Nat.leb_spec (Nat.max (Z.to_nat w) 1) (length obs)); [lia|reflexivity]. }
  split; [apply length_pct_change|].
  split; [apply pct_change_beyond|].
  split.
  { change (apply v l σ) with (apply (Volatility v) l σ).
    rewrite (apply_result (Volatility v) σ l df Hl). simpl.
    pose proof (volatility_frame_raise (vol_timeframes v) df InvalidWindow Hr) as Hv.
    destruct (volatility_frame (vol_timeframes v) df) as [d|e] eqn:E.
    - split; [discriminate|]. intros Hex. exfalso.
      assert (Ok d = Raise InvalidWindow) by (apply Hv; now split). discriminate.
    - pose proof (volatility_frame_raise (vol_timeframes v) df e Hr) as He.
      rewrite E in He. destruct (proj1 He eq_refl) as [Hex ->]. tauto. }
  split.
  { change (apply b l σ) with (apply (Bollinger b) l σ).
    rewrite (apply_result (Bollinger b) σ l df Hl). simpl. unfold bollinger_frame.
    destruct (has_col_lookup _ _ Hc) as [close Hx]. rewrite getitem_lookup, Hx. simpl.
    destruct (Series.ewm_span _ _ _) as [mid|e] eqn:E1; simpl.
    - assert (Hw : ~ bb_window b < 1).
      { intros Hw. assert (Series.ewm_span (bb_window b) true close = Raise InvalidWindow)
          by (apply ewm_span_raise; now split). congruence. }
      destruct (Series.rolling_std _ _) as [sd|e] eqn:E2; simpl.
      + split; [discriminate|tauto].
      + apply rolling_std_raise in E2 as [? _]. lia.
    - apply ewm_span_raise in E1 as [Hw ->]. tauto. }
  intros σ0 e He. apply derive_features_errors in He. now destruct e.
Qed.

(** ** The loader succeeds on frames with [Close] and [Volume] *)

Section LoaderRuns.
Implicit Types (σ : heap) (l lb k : loc) (Q : DataFrame -> Prop).

Lemma holds_at_setitem σ k k0 dk c s Q :
  stable Q -> holds_at σ k0 Q -> σ !! k = Some dk ->
  holds_at (<[k := Frame.setitem dk c s]> σ) k0 Q.
Proof.
  intros HQ (d & Hd & Qd) Hk. destruct (decide (k = k0)) as [->|Hne].
  - exists (Frame.setitem dk c s). rewrite lookup_insert_eq. split; [reflexivity|].
    apply HQ. congruence.
  - exists d. now rewrite lookup_insert_ne.
Qed.

Lemma stable_has_col c : stable (fun d => Frame.has_col d c = true).
Proof. intros d c' s Hd. rewrite has_col_setitem, Hd. reflexivity. Qed.

Lemma stable_and Q1 Q2 : stable Q1 -> stable Q2 -> stable (fun d => Q1 d /\ Q2 d).
Proof. intros H1 H2 d c s [? ?]. split; [now apply H1|now apply H2]. Qed.

Lemma stable_index (idx : list Z) : stable (fun d => index d = idx).
Proof. intros d c s Hd. exact Hd. Qed.

Lemma stable_close_volume : stable has_close_volume.
Proof. apply stable_and; apply stable_has_col. Qed.

Section FeatureLoop.
Variables (QA QB : DataFrame -> Prop) (l lb : loc).
Hypothesis stable_QA : stable QA.
Hypothesis stable_QB : stable QB.
Hypothesis QA_columns : forall d, QA d -> has_close_volume d.
Hypothesis QB_columns : forall d, QB d -> has_close_volume d.

#[local] Abbreviation both_hold := (both_hold QA QB l lb).

(** One read and one write of the loop body. *)
Lemma get_set_run σ k c n f :
  both_hold σ ->
  holds_at σ k (fun d => Frame.has_col d c = true) ->
  exists σ',
    (let* x := Obj.getitem k c in Obj.setitem k n (f x)) σ = (σ', Ok tt)
    /\ both_hold σ'.
Proof.
  intros [HA HB] (d & Hk & Hc).
  destruct (has_col_lookup _ _ Hc) as [x Hx].
  eexists. split.
  - erewrite bind_ok;
      [|rewrite (getitem_run _ _ _ _ Hk), getitem_lookup, Hx; reflexivity].
    apply (setitem_run _ _ _ _ _ Hk).
  - split; now apply holds_at_setitem.
Qed.

Lemma get_set_then_run σ k c n f (K : M unit) :
  both_hold σ ->
  holds_at σ k (fun d => Frame.has_col d c = true) ->
  (forall σ', both_hold σ' -> exists σ'', K σ' = (σ'', Ok tt) /\ both_hold σ'') ->
  exists σ'',
    (let* x := Obj.getitem k c in let* _ := Obj.setitem k n (f x) in K) σ
    = (σ'', Ok tt)
    /\ both_hold σ''.
Proof.
  intros [HA HB] (d & Hk & Hc) HK.
  destruct (has_col_lookup _ _ Hc) as [x Hx].
  erewrite bind_ok;
    [|rewrite (getitem_run _ _ _ _ Hk), getitem_lookup, Hx; reflexivity].
  erewrite bind_ok; [|apply (setitem_run _ _ _ _ _ Hk)].
  apply HK. split; now apply holds_at_setitem.
Qed.

Lemma asset_has σ c :
  c = "Close" \/ c = "Volume" -> both_hold σ ->
  holds_at σ l (fun d => Frame.has_col d c = true).
Proof.
  intros Hc [(d & Hd & Qd) _]. exists d. split; [exact Hd|].
  destruct (QA_columns d Qd), Hc; now subst.
Qed.

Lemma benchmark_has σ c :
  c = "Close" \/ c = "Volume" -> both_hold σ ->
  holds_at σ lb (fun d => Frame.has_col d c = true).
Proof.
  intros Hc [_ (d & Hd & Qd)]. exists d. split; [exact Hd|].
  destruct (QB_columns d Qd), Hc; now subst.
Qed.

Lemma derive_features_for_run σ i :
  both_hold σ ->
  exists σ', Loader.derive_features_for l lb i σ = (σ', Ok tt) /\ both_hold σ'.
Proof.
  intros Hσ. unfold Loader.derive_features_for.
  apply get_set_then_run; [exact Hσ|apply asset_has; auto|]. intros σ1 H1.
  apply get_set_then_run; [exact H1|apply asset_has; auto|]. intros σ2 H2.
  apply get_set_then_run; [exact H2|apply benchmark_has; auto|]. intros σ3 H3.
  apply get_set_run; [exact H3|apply benchmark_has; auto].
Qed.

Lemma derive_features_run self σ :
  both_hold σ ->
  exists σ', Loader.derive_features self l lb σ = (σ', Ok tt) /\ both_hold σ'.
Proof.
  unfold Loader.derive_features. revert σ.
  induction (timeframes self) as [|i rest IH]; intros σ Hσ; simpl.
  - exists σ. now split.
  - destruct (derive_features_for_run σ i Hσ) as (σ1 & E1 & H1).
    rewrite (bind_ok _ _ _ _ _ E1). now apply IH.
Qed.

End FeatureLoop.

Lemma clean_run σ k d :
  σ !! k = Some d -> Loader.clean k σ = (<[k := cleaned d]> σ, Ok tt).
Proof.
  intros Hk. unfold Loader.clean, cleaned.
  erewrite bind_ok; [|apply (inplace_run _ _ _ _ Hk)].
  erewrite bind_ok; [|apply inplace_run, lookup_insert_eq].
  erewrite inplace_run by apply lookup_insert_eq.
  now rewrite !insert_insert_eq.
Qed.

Lemma merge_benchmark_run σ l lb a b :
  σ !! l = Some a -> σ !! lb = Some b ->
  Loader.merge_benchmark l lb σ
  = (<[fresh (dom σ) := Frame.merge_left a (Loader.benchmark_columns b)]> σ,
     Ok (fresh (dom σ))).
Proof.
  intros Hl Hb. unfold Loader.merge_benchmark.
  rewrite (bind_ok _ _ _ _ _ (frame_run _ _ _ Hl)).
  rewrite (bind_ok _ _ _ _ _ (frame_run _ _ _ Hb)).
  reflexivity.
Qed.

(** When both downloads deliver frames with [Close] and [Volume], [load]
    returns a new object holding the cleaned merge of the two frames as the
    feature derivation left them. *)
Lemma load_run self σ σ1 σ2 l lb a b :
  Loader._download self (asset self) σ = (σ1, Ok l) ->
  Loader._download self (benchmark_asset self) σ1 = (σ2, Ok lb) ->
  σ2 !! l = Some a -> σ2 !! lb = Some b ->
  has_close_volume a -> has_close_volume b ->
  exists σf a' b',
    σf !! l = Some a' /\ σf !! lb = Some b'
    /\ Frame.has_col a' "forward_return" = true
    /\ index a' = index a /\ index b' = index b
    /\ Loader.load self σ
       = (<[fresh (dom σf) := cleaned (Frame.merge_left a' (Loader.benchmark_columns b'))]> σf,
          Ok (fresh (dom σf))).
Proof.
  intros D1 D2 Hl Hb Ca Cb.
  set (QA := fun d => has_close_volume d
                      /\ Frame.has_col d "forward_return" = true /\ index d = index a).
  set (QB := fun d => has_close_volume d /\ index d = index b).
  assert (SA : stable QA).
  { apply stable_and; [apply stable_close_volume|].
    apply stable_and; [apply stable_has_col|apply stable_index]. }
  assert (SB : stable QB).
  { apply stable_and; [apply stable_close_volume|apply stable_index]. }
  destruct (has_col_lookup _ _ (proj1 Ca)) as [close Hclose].
  assert (Hget : Frame.getitem a "Close" = Ok close)
    by (rewrite getitem_lookup, Hclose; reflexivity).
  pose proof (derive_target_run σ2 l a close Hl Hget) as T.
  set (a1 := Frame.setitem a "forward_return" (Loader.forward_return close)) in T.
  assert (H3 : both_hold QA QB l lb (<[l := a1]> σ2)).
  { split.
    - exists a1. rewrite lookup_insert_eq. split; [reflexivity|].
      split; [now apply stable_close_volume|].
      split; [unfold a1; rewrite has_col_setitem, String.eqb_refl; apply orb_true_r|].
      reflexivity.
    - apply holds_at_setitem; [exact SB| |exact Hl].
      exists b. split; [exact Hb|]. now split. }
  destruct (derive_features_run QA QB l lb SA SB
              (fun d Qd => proj1 Qd) (fun d Qd => proj1 Qd) self _ H3)
    as (σf & F & (a' & Hl' & Qa') & (b' & Hb' & Qb')).
  exists σf, a', b'.
  split; [exact Hl'|]. split; [exact Hb'|].
  split; [apply Qa'|]. split; [apply Qa'|]. split; [apply Qb'|].
  unfold Loader.load.
  rewrite (bind_ok _ _ _ _ _ D1), (bind_ok _ _ _ _ _ D2).
  rewrite (bind_ok _ _ _ _ _ T), (bind_ok _ _ _ _ _ F).
  rewrite (bind_ok _ _ _ _ _ (merge_benchmark_run _ _ _ _ _ Hl' Hb')).
  erewrite bind_ok; [|apply clean_run, lookup_insert_eq].
  unfold ret. now rewrite insert_insert_eq.
Qed.

End LoaderRuns.

(** ** Cleaning *)

Section Cleaning.
Implicit Types (xs : Series) (d : DataFrame) (mask : list bool).

Lemma elem_of_select_rows {A : Type} mask (ys : list A) (y : A) :
  y ∈ Series.select_rows mask ys <->
  exists i, mask !! i = Some true /\ ys !! i = Some y.
Proof.
  revert ys. induction mask as [|b m IH]; intros ys.
  - simpl. split; [intros Hy; inversion Hy|intros (i & Hi & _); discriminate].
  - destruct ys as [|y0 r].
    + destruct b; simpl; (split; [intros Hy; inversion Hy|intros (i & _ & ?); discriminate]).
    + destruct b; simpl.
      * rewrite elem_of_cons, IH. split.
        -- intros [->|(i & Hm & Hy)]; [exists 0%nat; now split|exists (S i); now split].
        -- intros ([|i] & Hm & Hy); simpl in *; [left; congruence|right; eauto].
      * rewrite IH. split.
        -- intros (i & Hm & Hy). exists (S i). now split.
        -- intros ([|i] & Hm & Hy); simpl in *; [discriminate|eauto].
Qed.

Lemma select_rows_all {A : Type} mask (ys : list A) :
  Forall (fun b => b = true) mask -> length mask = length ys ->
  Series.select_rows mask ys = ys.
Proof.
  revert ys. induction mask as [|b m IH]; intros [|y r] Hall Hlen; simpl in *;
    try reflexivity; try discriminate.
  inversion Hall as [|? ? -> Hm]; subst. f_equal. apply IH; [exact Hm|lia].
Qed.

Lemma select_rows_none {A : Type} mask (ys : list A) :
  Series.select_rows mask ys = [] <->
  forall i, (i < length ys)%nat -> mask !! i ≠ Some true.
Proof.
  revert ys. induction mask as [|b m IH]; intros ys.
  - simpl. split; [intros _ i _; discriminate|reflexivity].
  - destruct ys as [|y r].
    + destruct b; simpl; (split; [intros _ i Hi; simpl in Hi; lia|reflexivity]).
    + destruct b; simpl.
      * split; [discriminate|]. intros Hno. exfalso. apply (Hno 0%nat); [simpl; lia|reflexivity].
      * rewrite IH. split.
        -- intros Hno [|i] Hi; simpl in *; [discriminate|apply Hno; lia].
        -- intros Hno i Hi. apply (Hno (S i)). simpl. lia.
Qed.

Lemma lookup_complete_mask d i :
  (i < Frame.nrows d)%nat ->
  Frame.complete_mask d !! i = Some (Frame.row_complete d i).
Proof.
  intros Hi. unfold Frame.complete_mask.
  rewrite list_lookup_fmap, lookup_seq_lt by exact Hi. reflexivity.
Qed.

Lemma lookup_complete_mask_Some d i b :
  Frame.complete_mask d !! i = Some b ->
  (i < Frame.nrows d)%nat /\ b = Frame.row_complete d i.
Proof.
  intros Hb. assert (Hi : (i < Frame.nrows d)%nat).
  { apply lookup_lt_Some in Hb. unfold Frame.complete_mask in Hb.
    now rewrite length_map, length_seq in Hb. }
  rewrite (lookup_complete_mask d i Hi) in Hb. split; [exact Hi|congruence].
Qed.

(** The rows [dropna] keeps are the rows without an undefined cell. *)
Lemma dropna_keeps d i t :
  NoDup (index d) -> index d !! i = Some t ->
  t ∈ index (Frame.dropna d) <-> Frame.row_complete d i = true.
Proof.
  intros Hnd Hi. simpl. rewrite elem_of_select_rows. split.
  - intros (j & Hm & Hj).
    assert (j = i) as -> by (eapply NoDup_lookup; eassumption).
    apply lookup_complete_mask_Some in Hm as [_ Hm]. congruence.
  - intros Hc. exists i. split; [|exact Hi].
    rewrite lookup_complete_mask by (eapply lookup_lt_Some; eassumption).
    now rewrite Hc.
Qed.

Lemma dropna_empty d :
  Frame.nrows (Frame.dropna d) = 0%nat <->
  forall i, (i < Frame.nrows d)%nat -> Frame.row_complete d i = false.
Proof.
  unfold Frame.nrows at 1. simpl. rewrite length_zero_iff_nil, select_rows_none.
  split.
  - intros Hno i Hi. specialize (Hno i Hi).
    rewrite lookup_complete_mask in Hno by exact Hi.
    destruct (Frame.row_complete d i); [congruence|reflexivity].
  - intros Hno i Hi. rewrite lookup_complete_mask by exact Hi.
    rewrite (Hno i Hi). discriminate.
Qed.

(** Every cell that survives [dropna] is defined. *)
Lemma dropna_defined d n s :
  (n, s) ∈ columns (Frame.dropna d) ->
  exists s0, (n, s0) ∈ columns d /\ s = Series.select_rows (Frame.complete_mask d) s0
             /\ Forall (fun x => Cell.isna x = false) s.
Proof.
  simpl. intros Hin. apply list_elem_of_fmap in Hin as ([n0 s0] & Heq & Hin0).
  injection Heq as Hn Hs. subst n s.
  exists s0. split; [exact Hin0|]. split; [reflexivity|].
  apply Forall_forall. intros x Hx.
  apply elem_of_select_rows in Hx as (i & Hm & Hx).
  apply lookup_complete_mask_Some in Hm as [_ Hm]. symmetry in Hm.
  unfold Frame.row_complete in Hm. rewrite forallb_forall in Hm.
  specialize (Hm (n0, s0)). simpl in Hm. rewrite Hx in Hm. simpl in Hm.
  apply negb_true_iff, Hm, list_elem_of_In, Hin0.
Qed.

Lemma replace_inf_cell x :
  Cell.isinf (if Cell.isinf x then NaN else x) = false.
Proof. now destruct x. Qed.

Lemma finite_iff x : Cell.isfinite x = true <-> Cell.isna x = false /\ Cell.isinf x = false.
Proof. destruct x; simpl; intuition congruence. Qed.

(** No undefined and no infinite cell survives the cleaning. *)
Lemma cleaned_finite d n s :
  (n, s) ∈ columns (cleaned d) -> Forall (fun x => Cell.isfinite x = true) s.
Proof.
  intros Hin. unfold cleaned in Hin.
  apply dropna_defined in Hin as (s0 & Hin0 & -> & Hdef).
  apply Forall_forall. intros x Hx. apply finite_iff. split.
  - rewrite Forall_forall in Hdef. now apply Hdef.
  - apply elem_of_select_rows in Hx as (i & _ & Hx).
    simpl in Hin0. apply list_elem_of_fmap in Hin0 as ([n1 s1] & Heq & _).
    injection Heq as Hn Hs. subst n s0. unfold Series.replace_inf in Hx.
    rewrite list_lookup_fmap in Hx. destruct (s1 !! i); [|discriminate].
    injection Hx as <-. apply replace_inf_cell.
Qed.

End Cleaning.

(** ** Interpolation in both directions leaves no gap *)

Section Interpolation.
Implicit Types (xs : Series) (d : DataFrame).

Lemma length_interpolate_from prev xs :
  length (Series.interpolate_from prev xs) = length xs.
Proof.
  revert prev. induction xs as [|x rest IH]; intros prev; simpl; [reflexivity|].
  destruct (Cell.isna x); simpl; now rewrite IH.
Qed.

Lemma interp_between_finite (a b : Q) (dp dn : nat) :
  Cell.isfinite (Series.interp_between (Fin a) (Fin b) dp (S dn)) = true.
Proof.
  unfold Series.interp_between. simpl.
  assert (Hs : Cell.Qsgn (inject_Z (Z.of_nat (dp + S dn))) = Gt).
  { unfold Cell.Qsgn. simpl. apply Z.compare_gt_iff. lia. }
  rewrite Hs. reflexivity.
Qed.

Lemma next_valid_finite xs dn b :
  Forall (fun x => Cell.isinf x = false) xs ->
  Series.next_valid xs = Some (dn, b) -> Cell.isfinite b = true.
Proof.
  revert dn. induction xs as [|x rest IH]; intros dn Hinf Hn; simpl in Hn; [discriminate|].
  inversion Hinf as [|? ? Hx Hrest]; subst.
  destruct (Cell.isna x) eqn:Ex.
  - destruct (Series.next_valid rest) as [[d v]|]; [|discriminate].
    injection Hn as _ <-. now apply (IH d).
  - injection Hn as _ <-. now apply finite_iff.
Qed.

Lemma next_valid_defined xs :
  Exists (fun x => Cell.isna x = false) xs -> is_Some (Series.next_valid xs).
Proof.
  induction xs as [|x rest IH]; intros Hex; [inversion Hex|]. simpl.
  destruct (Cell.isna x) eqn:Ex; [|eauto].
  inversion Hex as [? ? Hx|? ? Hr]; subst; [congruence|].
  destruct (IH Hr) as [[d v] ->]. eauto.
Qed.

Lemma interpolate_from_fills prev xs :
  Forall (fun x => Cell.isinf x = false) xs ->
  match prev with
  | Some (_, a) => Cell.isfinite a = true
  | None => Exists (fun x => Cell.isna x = false) xs
  end ->
  Forall (fun x => Cell.isfinite x = true) (Series.interpolate_from prev xs).
Proof.
  revert prev. induction xs as [|x rest IH]; intros prev Hinf Hprev; simpl; [constructor|].
  inversion Hinf as [|? ? Hx Hrest]; subst.
  destruct (Cell.isna x) eqn:Ex.
  - constructor.
    + destruct prev as [[dp a]|].
      * destruct a as [| | |a]; try discriminate.
        destruct (Series.next_valid rest) as [[dn b]|] eqn:En; [|reflexivity].
        pose proof (next_valid_finite _ _ _ Hrest En) as Hb.
        destruct b as [| | |b]; try discriminate. apply interp_between_finite.
      * inversion Hprev as [? ? Hx'|? ? Hr]; subst; [congruence|].
        destruct (next_valid_defined _ Hr) as [[dn b] En]. rewrite En.
        apply (next_valid_finite _ _ _ Hrest En).
    + apply IH; [exact Hrest|].
      destruct prev as [[dp a]|]; simpl; [exact Hprev|].
      inversion Hprev as [? ? Hx'|? ? Hr]; subst; [congruence|exact Hr].
  - constructor; [now apply finite_iff|].
    apply IH; [exact Hrest|]. now apply finite_iff.
Qed.

(** A column with a defined cell and no infinite cell has no undefined cell
    left after the interpolation, leading and trailing gaps included. *)
Lemma interpolate_fills xs :
  Forall (fun x => Cell.isinf x = false) xs ->
  Exists (fun x => Cell.isna x = false) xs ->
  length (Series.interpolate xs) = length xs
  /\ Forall (fun x => Cell.isfinite x = true) (Series.interpolate xs).
Proof.
  intros Hinf Hex. split; [apply length_interpolate_from|].
  now apply interpolate_from_fills.
Qed.

Lemma replace_inf_finite xs :
  Forall (fun x => Cell.isfinite x = true) xs -> Series.replace_inf xs = xs.
Proof.
  intros Hf. unfold Series.replace_inf. induction Hf as [|x r Hx _ IH]; [reflexivity|].
  simpl. rewrite IH. now destruct x.
Qed.

(** Then the cleaning drops no row at all. *)
Lemma cleaned_keeps_all_rows d :
  fillable d -> index (cleaned d) = index d.
Proof.
  intros Hd. unfold cleaned. simpl.
  apply select_rows_all; [|unfold Frame.complete_mask; now rewrite length_map, length_seq].
  apply Forall_forall. intros b Hb.
  apply list_elem_of_lookup in Hb as [i Hb].
  apply lookup_complete_mask_Some in Hb as [Hi ->].
  unfold Frame.row_complete. apply forallb_forall. intros [n s'] Hin.
  apply list_elem_of_In in Hin. simpl in Hin.
  apply list_elem_of_fmap in Hin as ([n1 s1] & Heq & Hin). injection Heq as -> ->.
  apply list_elem_of_fmap in Hin as ([n0 s0] & Heq & Hin). injection Heq as -> ->.
  destruct (Hd _ _ Hin) as (Hlen & Hinf & Hex).
  destruct (interpolate_fills s0 Hinf Hex) as [Hl Hfin].
  rewrite (replace_inf_finite _ Hfin).
  unfold Frame.nrows in Hi. simpl in Hi.
  destruct (lookup_lt_is_Some_2 (Series.interpolate s0) i) as [x Hx];
    [rewrite Hl, Hlen; exact Hi|].
  rewrite Hx. simpl. rewrite Forall_forall in Hfin.
  assert (Hxf : Cell.isfinite x = true)
    by (apply Hfin; apply list_elem_of_lookup; eauto).
  now destruct x.
Qed.

End Interpolation.

(** ** The end-to-end scenario: prices rising 1% per bar, constant volume *)

(** C1 (as amended).  The cleaning leaves no undefined and no infinite cell
    and drops exactly the rows that hold an undefined cell after the
    interpolation and the replacement of the infinities.  The interpolation
    runs in both directions, so a column with a defined cell and no infinite
    cell has no gap left, at its start and end either: the rows whose feature
    window has not filled and the row whose target is undefined are filled,
    not dropped.  In the scenario of 100 rows with horizons 1 and 5 the
    loader returns all 100 rows, with the fourteen columns and finite cells
    only. *)
Theorem C1_cleaning_fills_before_it_drops (d : DataFrame) :
  (forall n s, (n, s) ∈ columns (cleaned d) -> Forall (fun x => Cell.isfinite x = true) s)
  /\ (NoDup (index d) -> forall i t, index d !! i = Some t ->
        t ∈ index (cleaned d) <->
        Frame.row_complete (Frame.replace_inf (Frame.interpolate d)) i = true)
  /\ (fillable d -> index (cleaned d) = index d)
  /\ (forall σ l, σ !! l = Some d -> Loader.clean l σ = (<[l := cleaned d]> σ, Ok tt))
  /\ Frame.nrows <$> result_frame (Loader.load (scenario_loader 100 [1; 5]) ∅)
     = Some 100%nat
  /\ Frame.names <$> result_frame (Loader.load (scenario_loader 100 [1; 5]) ∅)
     = Some ["Open"; "High"; "Low"; "Close"; "Volume"; "forward_return";
             "return_1"; "volume_1"; "return_5"; "volume_5";
             "benchmark_return_1"; "benchmark_volume_1";
             "benchmark_return_5"; "benchmark_volume_5"]
  /\ all_finite <$> result_frame (Loader.load (scenario_loader 100 [1; 5]) ∅)
     = Some true.
Proof.
  split; [apply cleaned_finite|].
  split.
  { intros Hnd i t Hi. unfold cleaned.
    apply (dropna_keeps (Frame.replace_inf (Frame.interpolate d)) i t Hnd Hi). }
  split; [apply cleaned_keeps_all_rows|].
  split; [intros σ l; apply clean_run|].
  split; [vm_compute; reflexivity|].
  split; vm_compute; reflexivity.
Qed.

(** C1, the claim as stated: the scenario does not return 94 rows. *)
Lemma C1_scenario_has_100_rows_not_94 :
  Frame.nrows <$> result_frame (Loader.load (scenario_loader 100 [1; 5]) ∅)
  ≠ Some (100 - 5 - 1)%nat.
Proof. vm_compute. discriminate. Qed.

(** ** Copy or mutate *)

Lemma setitem_elsewhere (σ : heap) (k l : loc) (c : string) (x : Series) :
  k ≠ l -> fst (Obj.setitem k c x σ) !! l = σ !! l.
Proof.
  intros Hne. unfold Obj.setitem, Obj.frame, Obj.store, bind.
  destruct (σ !! k); simpl; [now rewrite lookup_insert_ne|reflexivity].
Qed.

(** C4 (as amended).  Every stage carries an [in_place] flag.  In copy mode
    [apply] changes no object of the caller's store, the input among them,
    whether it succeeds or fails; the reference it returns is to a new
    object, so a later write through it cannot reach the input.  In in-place
    mode the reference returned is the input's.  The loader has no such flag:
    [load] writes the target column into the very frame the provider handed
    out. *)
Theorem C4_copy_mode_leaves_the_input_unchanged `{Numpy}
    (s : Stage) (σ : heap) (l : loc) (df : DataFrame)
    (self : DataLoader) (σ0 σ1 σ2 : heap) (la lb : loc) (a b : DataFrame) :
  σ !! l = Some df ->
  Loader._download self (asset self) σ0 = (σ1, Ok la) ->
  Loader._download self (benchmark_asset self) σ1 = (σ2, Ok lb) ->
  σ2 !! la = Some a -> σ2 !! lb = Some b ->
  has_close_volume a -> has_close_volume b ->
  (in_place s = false ->
     (forall k d, σ !! k = Some d -> fst (apply s l σ) !! k = Some d)
     /\ forall l', snd (apply s l σ) = Ok l' ->
          σ !! l' = None /\ l' ≠ l
          /\ forall c x, fst (Obj.setitem l' c x (fst (apply s l σ))) !! l = Some df)
  /\ (in_place s = true -> forall l', snd (apply s l σ) = Ok l' -> l' = l)
  /\ exists a', fst (Loader.load self σ0) !! la = Some a'
                /\ Frame.has_col a' "forward_return" = true.
Proof.
  intros Hl D1 D2 Ha Hb Ca Cb.
  pose proof (apply_run s σ l df Hl) as R. unfold ran_at, target in R.
  split; [|split].
  - intros Hip. rewrite Hip in R.
    assert (Hkeep : forall k d, σ !! k = Some d -> fst (apply s l σ) !! k = Some d).
    { intros k d Hk. pose proof (fresh_ne σ k d Hk) as Hne.
      destruct (outcome s df).
      - rewrite R. simpl. now rewrite lookup_insert_ne.
      - destruct R as [_ [p ->]]. now rewrite lookup_insert_ne. }
    split; [exact Hkeep|].
    intros l' Hres.
    assert (l' = fresh (dom σ)) as ->.
    { destruct (outcome s df); [rewrite R in Hres; simpl in Hres; congruence|].
      destruct R as [R _]. congruence. }
    split; [apply fresh_unused|]. split; [now apply (fresh_ne σ l df)|].
    intros c x. rewrite setitem_elsewhere by now apply (fresh_ne σ l df).
    now apply Hkeep.
  - intros Hip l' Hres. rewrite Hip in R.
    destruct (outcome s df); [rewrite R in Hres; simpl in Hres; congruence|].
    destruct R as [R _]. congruence.
  - destruct (load_run self σ0 σ1 σ2 la lb a b D1 D2 Ha Hb Ca Cb)
      as (σf & a' & b' & Hla & _ & Hfr & _ & _ & L).
    exists a'. split; [|exact Hfr]. rewrite L. simpl.
    rewrite lookup_insert_ne; [exact Hla|]. now apply (fresh_ne σf la a').
Qed.

(** ** The left join *)

Section Merge.
Implicit Types (d a b : DataFrame) (n : string) (s : Series) (t : Z).

Lemma lookup_col_app n (c1 c2 : list (string * Series)) :
  Frame.lookup_col n (c1 ++ c2)
  = match Frame.lookup_col n c1 with
    | Some s => Some s
    | None => Frame.lookup_col n c2
    end.
Proof.
  induction c1 as [|[m s] r IH]; simpl; [reflexivity|].
  destruct (String.eqb m n); [reflexivity|exact IH].
Qed.

Lemma lookup_col_map (ren : string -> string) (f : Series -> Series) n
    (cols : list (string * Series)) :
  (forall m, m ∈ map fst cols -> ren m = m) ->
  Frame.lookup_col n (map (fun '(m, s) => (ren m, f s)) cols)
  = f <$> Frame.lookup_col n cols.
Proof.
  induction cols as [|[m s] r IH]; intros Hren; simpl; [reflexivity|].
  rewrite (Hren m) by (simpl; apply elem_of_cons; now left).
  destruct (String.eqb m n); [reflexivity|].
  apply IH. intros m' Hm'. apply Hren. simpl. apply elem_of_cons. now right.
Qed.

Lemma lookup_col_Some_elem n s (cols : list (string * Series)) :
  Frame.lookup_col n cols = Some s -> (n, s) ∈ cols.
Proof.
  induction cols as [|[m s'] r IH]; simpl; [discriminate|].
  destruct (String.eqb m n) eqn:E.
  - apply String.eqb_eq in E. subst m. intros [= ->]. apply elem_of_cons. now left.
  - intros Hs. apply elem_of_cons. right. now apply IH.
Qed.

Lemma lookup_col_None n (cols : list (string * Series)) :
  Frame.lookup_col n cols = None <-> n ∉ map fst cols.
Proof.
  induction cols as [|[m s'] r IH]; simpl.
  - split; [intros _ Hin; inversion Hin|reflexivity].
  - destruct (String.eqb m n) eqn:E.
    + apply String.eqb_eq in E. subst m. split; [discriminate|].
      intros Hn. exfalso. apply Hn, elem_of_cons. now left.
    + apply String.eqb_neq in E. rewrite IH, not_elem_of_cons. intuition congruence.
Qed.

Lemma names_select d (cs : list string) :
  (forall c, c ∈ cs -> c ∈ Frame.names d) ->
  Frame.names (Frame.select d cs) = cs.
Proof.
  unfold Frame.names, Frame.select. simpl.
  induction cs as [|c r IH]; intros Hcs; simpl; [reflexivity|].
  destruct (Frame.lookup_col c (columns d)) as [s|] eqn:E; simpl.
  - f_equal. apply IH. intros c' Hc'. apply Hcs, elem_of_cons. now right.
  - exfalso. apply lookup_col_None in E. apply E, Hcs, elem_of_cons. now left.
Qed.

Lemma lookup_select d (cs : list string) n :
  n ∈ cs ->
  Frame.lookup_col n (columns (Frame.select d cs)) = Frame.lookup_col n (columns d).
Proof.
  unfold Frame.select. simpl.
  induction cs as [|c r IH]; intros Hn; [inversion Hn|]. simpl.
  destruct (String.eqb c n) eqn:E.
  - apply String.eqb_eq in E. subst c.
    destruct (Frame.lookup_col n (columns d)) as [s|] eqn:El; simpl.
    + now rewrite String.eqb_refl.
    + clear IH Hn. induction r as [|c' r' IH']; simpl; [reflexivity|].
      destruct (Frame.lookup_col c' (columns d)) as [s'|] eqn:E'; simpl; [|exact IH'].
      destruct (String.eqb c' n) eqn:En; [|exact IH'].
      apply String.eqb_eq in En. congruence.
  - apply String.eqb_neq in E. apply elem_of_cons in Hn as [->|Hn]; [contradiction|].
    destruct (Frame.lookup_col c (columns d)) as [s|]; simpl.
    + apply String.eqb_neq in E. rewrite E. now apply IH.
    + now apply IH.
Qed.

Lemma positions_cons t u (idx : list Z) :
  Frame.positions t (u :: idx)
  = ((if Z.eqb u t then [0%nat] else []) ++ map S (Frame.positions t idx))%list.
Proof.
  unfold Frame.positions. simpl.
  assert (Hmap : forall (l : list Z) (g : nat -> nat),
    omap (fun '(j, v) => if Z.eqb v t then Some j else None) (imap (fun i => pair (g i)) l)
    = map g (omap (fun '(j, v) => if Z.eqb v t then Some j else None) (imap pair l))).
  { induction l as [|x r IH]; intros g; simpl; [reflexivity|].
    assert (Hr : omap (fun '(j, v) => if Z.eqb v t then Some j else None)
                   (imap ((fun i => pair (g i)) ∘ S) r)
                 = map g (omap (fun '(j, v) => if Z.eqb v t then Some j else None)
                            (imap (pair ∘ S) r))).
    { transitivity (map (g ∘ S)
                      (omap (fun '(j, v) => if Z.eqb v t then Some j else None)
                         (imap pair r))).
      - exact (IH (g ∘ S)).
      - rewrite list_fmap_compose. f_equal. symmetry. exact (IH S). }
    destruct (Z.eqb x t); simpl; [f_equal|]; exact Hr. }
  pose proof (Hmap idx S) as Hidx.
  destruct (Z.eqb u t); simpl; [f_equal|]; exact Hidx.
Qed.

Lemma positions_absent t (idx : list Z) : t ∉ idx -> Frame.positions t idx = [].
Proof.
  induction idx as [|u r IH]; intros Hn; [reflexivity|].
  apply not_elem_of_cons in Hn as [Hne Hn]. rewrite positions_cons, (IH Hn).
  destruct (Z.eqb_spec u t); [congruence|reflexivity].
Qed.

Lemma positions_unique t (idx : list Z) j :
  NoDup idx -> idx !! j = Some t -> Frame.positions t idx = [j].
Proof.
  revert j. induction idx as [|u r IH]; intros j Hnd Hj; [discriminate|].
  apply NoDup_cons in Hnd as [Hu Hnd]. rewrite positions_cons.
  destruct j as [|j]; simpl in Hj.
  - injection Hj as ->. rewrite Z.eqb_refl, (positions_absent _ _ Hu). reflexivity.
  - destruct (Z.eqb_spec u t) as [->|_].
    + exfalso. apply Hu. apply list_elem_of_lookup. eauto.
    + now rewrite (IH j Hnd Hj).
Qed.

(** With distinct timestamps on the right, every left row occurs once in the
    plan, with its partner if it has one. *)
Lemma join_plan_unique (lidx ridx : list Z) :
  NoDup ridx ->
  Frame.join_plan lidx ridx = imap (fun i t => (i, head (Frame.positions t ridx))) lidx.
Proof.
  intros Hnd. unfold Frame.join_plan.
  assert (Hgen : forall (l : list Z) (g : nat -> nat),
    flat_map (fun '(i, t) =>
                match Frame.positions t ridx with
                | [] => [(i, None)]
                | js => map (fun j => (i, Some j)) js
                end) (imap (fun i => pair (g i)) l)
    = imap (fun i t => (g i, head (Frame.positions t ridx))) l).
  { induction l as [|t r IH]; intros g; simpl; [reflexivity|].
    pose proof (IH (g ∘ S)) as IHr. simpl in IHr.
    etransitivity; [apply f_equal, IHr|].
    change (?x ++ ?y = ?z :: ?y)%list with (x ++ y = [z] ++ y)%list. f_equal.
    destruct (decide (t ∈ ridx)) as [Hin|Hout].
    - apply list_elem_of_lookup in Hin as [j Hj].
      rewrite (positions_unique _ _ _ Hnd Hj). reflexivity.
    - rewrite (positions_absent _ _ Hout). reflexivity. }
  apply (Hgen lidx (fun i => i)).
Qed.

End Merge.

Section MergeRows.
Implicit Types (d a b : DataFrame) (n : string) (s : Series) (t : Z).

Lemma take_left_plan {A : Type} (dflt : A) (g : Z -> option nat) (lidx : list Z) (xs : list A) :
  length xs = length lidx ->
  Frame.take_left dflt (imap (fun i t => (i, g t)) lidx) xs = xs.
Proof.
  intros Hlen. unfold Frame.take_left. apply list_eq. intros i.
  rewrite list_lookup_fmap, list_lookup_imap.
  destruct (lidx !! i) as [t|] eqn:Ei; simpl.
  - destruct (lookup_lt_is_Some_2 xs i) as [x Hx];
      [rewrite Hlen; eapply lookup_lt_Some; eassumption|].
    now rewrite Hx.
  - symmetry. apply lookup_ge_None. rewrite Hlen. now apply lookup_ge_None.
Qed.

Lemma take_right_plan (g : Z -> option nat) (lidx : list Z) s i t :
  lidx !! i = Some t ->
  Frame.take_right (imap (fun i t => (i, g t)) lidx) s !! i
  = Some (match g t with
          | Some j => default NaN (s !! j)
          | None => NaN
          end).
Proof.
  intros Hi. unfold Frame.take_right.
  now rewrite list_lookup_fmap, list_lookup_imap, Hi.
Qed.

Lemma length_take_right (plan : list (nat * option nat)) s :
  length (Frame.take_right plan s) = length plan.
Proof. unfold Frame.take_right. apply length_map. Qed.

Lemma names_benchmark_columns b :
  Frame.names (Loader.benchmark_columns b)
  = List.filter Loader.is_benchmark_column (Frame.names b).
Proof.
  unfold Loader.benchmark_columns. apply names_select.
  intros c Hc. apply list_elem_of_In, List.filter_In in Hc as [Hc _].
  now apply list_elem_of_In.
Qed.

Lemma benchmark_name_prefixed b n :
  n ∈ Frame.names (Loader.benchmark_columns b) -> Loader.is_benchmark_column n = true.
Proof.
  rewrite names_benchmark_columns. intros Hn.
  now apply list_elem_of_In, List.filter_In in Hn as [_ Hn].
Qed.

Lemma lookup_benchmark_columns b n s :
  Loader.is_benchmark_column n = true ->
  Frame.lookup_col n (columns b) = Some s ->
  Frame.lookup_col n (columns (Loader.benchmark_columns b)) = Some s.
Proof.
  intros Hp Hs. unfold Loader.benchmark_columns. rewrite lookup_select; [exact Hs|].
  apply list_elem_of_In, List.filter_In. split; [|exact Hp].
  apply list_elem_of_In. apply lookup_col_Some_elem in Hs.
  unfold Frame.names. apply list_elem_of_fmap. now exists (n, s).
Qed.

Lemma suffixed_absent (other : list string) (sfx n : string) :
  n ∉ other -> Frame.suffixed other sfx n = n.
Proof.
  intros Hn. unfold Frame.suffixed.
  destruct (bool_decide_reflect (n ∈ other)); [contradiction|reflexivity].
Qed.

End MergeRows.

(** C6 (as amended).  For an asset frame none of whose columns carries the
    benchmark prefix and a benchmark frame with distinct timestamps, the
    merge step yields a new frame with the rows and the columns of the asset
    frame, unchanged, followed by the benchmark columns that carry the
    prefix, and by no other column.  The cell of a benchmark column at an
    asset timestamp is the benchmark's cell at that timestamp, which may
    itself be undefined, and is undefined when the benchmark has no such
    timestamp. *)
Theorem C6_merge_left_joins_the_benchmark_columns
    (σ : heap) (l lb : loc) (a b : DataFrame) :
  σ !! l = Some a -> σ !! lb = Some b ->
  NoDup (index b) ->
  well_formed a ->
  (forall n, n ∈ Frame.names a -> Loader.is_benchmark_column n = false) ->
  exists m,
    Loader.merge_benchmark l lb σ = (<[fresh (dom σ) := m]> σ, Ok (fresh (dom σ)))
    /\ index m = index a
    /\ Frame.names m
       = (Frame.names a ++ List.filter Loader.is_benchmark_column (Frame.names b))%list
    /\ (forall n, n ∈ Frame.names a ->
          Frame.lookup_col n (columns m) = Frame.lookup_col n (columns a))
    /\ (forall n s, Loader.is_benchmark_column n = true ->
          Frame.lookup_col n (columns b) = Some s ->
          exists s', Frame.lookup_col n (columns m) = Some s'
            /\ length s' = Frame.nrows a
            /\ forall i t, index a !! i = Some t ->
                 (t ∉ index b -> s' !! i = Some NaN)
                 /\ (forall j, index b !! j = Some t ->
                       s' !! i = Some (default NaN (s !! j)))).
Proof.
  intros Hl Hb Hnd Hwf Hpre.
  exists (Frame.merge_left a (Loader.benchmark_columns b)).
  split; [now apply merge_benchmark_run|].
  assert (Hdisj1 : forall n, n ∈ Frame.names a ->
                             n ∉ Frame.names (Loader.benchmark_columns b)).
  { intros n Hn Hn'. apply benchmark_name_prefixed in Hn'.
    rewrite (Hpre n Hn) in Hn'. discriminate. }
  assert (Hdisj2 : forall n, n ∈ Frame.names (Loader.benchmark_columns b) ->
                             n ∉ Frame.names a).
  { intros n Hn' Hn. now apply (Hdisj1 n Hn). }
  unfold Frame.merge_left.
  change (index (Loader.benchmark_columns b)) with (index b).
  rewrite (join_plan_unique _ _ Hnd). cbn [index columns].
  split; [now apply take_left_plan|].
  assert (Hleft : forall n,
    Frame.lookup_col n
      (map (fun '(n0, s) =>
              (Frame.suffixed (Frame.names (Loader.benchmark_columns b)) "_x" n0,
               Frame.take_left NaN
                 (imap (fun i t => (i, head (Frame.positions t (index b)))) (index a)) s))
           (columns a))
    = Frame.lookup_col n (columns a)).
  { intros n.
    rewrite (lookup_col_map
               (Frame.suffixed (Frame.names (Loader.benchmark_columns b)) "_x")
               (Frame.take_left NaN
                  (imap (fun i t => (i, head (Frame.positions t (index b)))) (index a)))).
    2:{ intros m Hm. apply suffixed_absent, Hdisj1. exact Hm. }
    destruct (Frame.lookup_col n (columns a)) as [s|] eqn:E; [simpl|reflexivity].
    f_equal. apply take_left_plan. apply (Hwf n s). now apply lookup_col_Some_elem. }
  split.
  { unfold Frame.names at 1. cbn [columns]. rewrite map_app, !map_map. f_equal.
    - unfold Frame.names. apply map_ext_in. intros [m s] Hin. simpl.
      apply suffixed_absent, Hdisj1. unfold Frame.names.
      apply list_elem_of_fmap. exists (m, s). split; [reflexivity|now apply list_elem_of_In].
    - rewrite <- names_benchmark_columns.
      unfold Frame.names at 2. apply map_ext_in. intros [m s] Hin. simpl.
      apply suffixed_absent, Hdisj2. unfold Frame.names.
      apply list_elem_of_fmap. exists (m, s). split; [reflexivity|now apply list_elem_of_In]. }
  split.
  { intros n Hn. rewrite lookup_col_app, Hleft.
    destruct (Frame.lookup_col n (columns a)) eqn:E; [reflexivity|].
    apply lookup_col_None in E. contradiction. }
  intros n s Hp Hs.
  assert (Hna : n ∉ Frame.names a).
  { intros Hn. rewrite (Hpre n Hn) in Hp. discriminate. }
  rewrite lookup_col_app, Hleft.
  rewrite (proj2 (lookup_col_None n (columns a)) Hna).
  rewrite (lookup_col_map
             (Frame.suffixed (Frame.names a) "_y")
             (Frame.take_right
                (imap (fun i t => (i, head (Frame.positions t (index b)))) (index a)))).
  2:{ intros m Hm. apply suffixed_absent, Hdisj2. exact Hm. }
  rewrite (lookup_benchmark_columns b n s Hp Hs). cbn [fmap option_fmap option_map].
  eexists. split; [reflexivity|].
  split; [rewrite length_take_right; apply length_imap|].
  intros i t Hi. rewrite (take_right_plan _ _ _ _ _ Hi). split.
  - intros Hout. now rewrite (positions_absent _ _ Hout).
  - intros j Hj. now rewrite (positions_unique _ _ _ Hnd Hj).
Qed.

(** ** The exponentially weighted mean of the RSI stage *)

Section Ewm.
#[local] Open Scope Q_scope.
Implicit Types (f w x : Q) (h qs : list Q).

Lemma Qsgn_pos x : 0 < x -> Cell.Qsgn x = Gt.
Proof. unfold Cell.Qsgn, Qlt. simpl. intros Hx. apply Z.compare_gt_iff. lia. Qed.

Lemma Qsgn_neg x : x < 0 -> Cell.Qsgn x = Lt.
Proof. unfold Cell.Qsgn, Qlt. simpl. intros Hx. apply Z.compare_lt_iff. lia. Qed.

Lemma Qsgn_zero x : x == 0 <-> Cell.Qsgn x = Eq.
Proof. unfold Cell.Qsgn, Qeq. simpl. rewrite Z.compare_eq_iff. lia. Qed.

Lemma decayed_from_succ k f h :
  decayed_from (S k) f h == f * decayed_from k f h.
Proof.
  revert k. induction h as [|x r IH]; intros k; simpl.
  - ring.
  - rewrite (IH (S k)). unfold pow. simpl. ring.
Qed.

Lemma num_decayed f h : num f h == decayed_from 0 f h.
Proof.
  induction h as [|x r IH]; simpl; [reflexivity|].
  rewrite decayed_from_succ, IH. unfold pow. simpl. ring.
Qed.

Lemma den_decayed f h : den f h == decayed_from 0 f (map (fun _ => 1) h).
Proof.
  induction h as [|x r IH]; simpl; [reflexivity|].
  rewrite decayed_from_succ, IH. unfold pow. simpl. ring.
Qed.

Lemma weighted_mean_num_den f h : weighted_mean f h == num f h / den f h.
Proof. unfold weighted_mean. now rewrite num_decayed, den_decayed. Qed.

Lemma den_ge_1 f h : 0 <= f -> h ≠ [] -> 1 <= den f h.
Proof.
  intros Hf. induction h as [|x r IH]; intros Hne; [contradiction|]. simpl.
  destruct r as [|y r'].
  - simpl. lra.
  - assert (1 <= den f (y :: r')) by (apply IH; discriminate).
    assert (0 <= f * den f (y :: r')) by (apply Qmult_le_0_compat; lra).
    lra.
Qed.

Lemma decay_nonneg (com : Z) : (0 <= com)%Z -> 0 <= decay (inject_Z com).
Proof.
  intros Hc. unfold decay.
  assert (H0 : 0 <= inject_Z com).
  { change 0 with (inject_Z 0). rewrite <- Zle_Qle. exact Hc. }
  assert (H1 : 1 / (1 + inject_Z com) <= 1).
  { apply Qle_shift_div_r; lra. }
  lra.
Qed.

Lemma pow_pos f k : 0 < f -> 0 < pow f k.
Proof.
  intros Hf. unfold pow. induction k as [|k IH]; simpl; [reflexivity|].
  apply Qmult_lt_0_compat; assumption.
Qed.

End Ewm.

Section EwmLoop.
#[local] Open Scope Q_scope.
Implicit Types (f w x : Q) (h qs : list Q).

Lemma ewm_step_finite f w ow x :
  0 < ow * f + 1 ->
  Series.ewm_step f 1 true (Fin w) ow (Fin x)
  = (Fin (if Qeq_bool w x then w else (ow * f * w + 1 * x) / (ow * f + 1)),
     ow * f + 1).
Proof.
  intros Hpos. unfold Series.ewm_step. simpl.
  destruct (Qeq_bool w x); [reflexivity|].
  now rewrite (Qsgn_pos _ Hpos).
Qed.

Lemma num_nonneg f h : 0 <= f -> Forall (fun x => 0 <= x) h -> 0 <= num f h.
Proof.
  intros Hf Hh. induction Hh as [|x r Hx _ IH]; simpl; [lra|].
  assert (0 <= f * num f r) by (apply Qmult_le_0_compat; assumption). lra.
Qed.

Lemma num_nonpos f h : 0 <= f -> Forall (fun x => x <= 0) h -> num f h <= 0.
Proof.
  intros Hf Hh. induction Hh as [|x r Hx _ IH]; simpl; [lra|].
  assert (0 <= f * - num f r) by (apply Qmult_le_0_compat; lra).
  assert (f * - num f r == - (f * num f r)) by ring. lra.
Qed.

Lemma prep_values_finite qs : Series.prep_values (map Fin qs) = map Fin qs.
Proof. unfold Series.prep_values. rewrite map_map. reflexivity. Qed.

Lemma length_prep_values (xs : Series) : length (Series.prep_values xs) = length xs.
Proof. apply length_map. Qed.

Lemma length_ewm_loop f nw adj (wc : cell) ow (xs : Series) :
  length (Series.ewm_loop f nw adj wc ow xs) = length xs.
Proof.
  revert wc ow. induction xs as [|x xs IH]; intros wc ow; simpl; [reflexivity|].
  destruct (Series.ewm_step f nw adj wc ow x). simpl. now rewrite IH.
Qed.

Lemma length_ewm_mean com adj (xs : Series) :
  length (Series.ewm_mean com adj xs) = length xs.
Proof.
  unfold Series.ewm_mean, Series.ewm. rewrite <- (length_prep_values xs).
  destruct (Series.prep_values xs) as [|x rest]; simpl; [reflexivity|].
  now rewrite length_ewm_loop.
Qed.

(** The loop keeps the weighted mean of the whole history. *)
Lemma ewm_loop_history f qs :
  0 <= f ->
  forall h w ow,
    h ≠ [] -> w == num f h / den f h -> ow == den f h ->
    exists ms,
      Series.ewm_loop f 1 true (Fin w) ow (map Fin qs) = map Fin ms
      /\ length ms = length qs
      /\ forall i m, ms !! i = Some m ->
           m == num f (rev (take (S i) qs) ++ h) / den f (rev (take (S i) qs) ++ h).
Proof.
  intros Hf. induction qs as [|x rest IH]; intros h w ow Hne Hw How.
  - exists []. repeat split. intros i m Hm. discriminate.
  - pose proof (den_ge_1 f h Hf Hne) as Hden.
    assert (Hfd : 0 <= f * den f h) by (apply Qmult_le_0_compat; lra).
    assert (Hpos : 0 < ow * f + 1) by (rewrite How; lra).
    simpl map. cbn [Series.ewm_loop]. rewrite (ewm_step_finite f w ow x Hpos).
    set (w' := if Qeq_bool w x then w else (ow * f * w + 1 * x) / (ow * f + 1)).
    assert (Hw' : w' == num f (x :: h) / den f (x :: h)).
    { unfold w'. simpl. destruct (Qeq_bool w x) eqn:E.
      - apply Qeq_bool_iff in E.
        assert (HN : num f h == x * den f h).
        { rewrite <- E, Hw. field. lra. }
        rewrite HN, E. field. lra.
      - rewrite How, Hw. field. split; lra. }
    assert (How' : ow * f + 1 == den f (x :: h)) by (simpl; rewrite How; ring).
    destruct (IH (x :: h) w' (ow * f + 1) ltac:(discriminate) Hw' How')
      as (ms & Hms & Hlen & Hrows).
    exists (w' :: ms). split; [simpl; now rewrite Hms|].
    split; [simpl; now rewrite Hlen|].
    intros [|i] m Hm; simpl in Hm.
    + injection Hm as <-. exact Hw'.
    + specialize (Hrows i m Hm).
      change (take (S (S i)) (x :: rest)) with (x :: take (S i) rest).
      simpl rev. rewrite <- app_assoc. exact Hrows.
Qed.

(** [ewm(com).mean()] of a series of finite cells: every row is the mean of
    all rows so far, the row [k] bars back weighing [decay com ^ k]. *)
Lemma ewm_mean_history (com : Z) qs :
  (0 <= com)%Z ->
  exists ms,
    Series.ewm_mean (inject_Z com) true (map Fin qs) = map Fin ms
    /\ length ms = length qs
    /\ forall i m, ms !! i = Some m ->
         m == weighted_mean (decay (inject_Z com)) (rev (take (S i) qs)).
Proof.
  intros Hc. pose proof (decay_nonneg com Hc) as Hf.
  destruct qs as [|x0 rest].
  - exists []. repeat split. intros i m Hm. discriminate.
  - unfold Series.ewm_mean. rewrite prep_values_finite. unfold Series.ewm. simpl map. fold (decay (inject_Z com)).
    destruct (ewm_loop_history (decay (inject_Z com)) rest Hf [x0] x0 1)
      as (ms & Hms & Hlen & Hrows).
    + discriminate.
    + simpl. field.
    + simpl. ring.
    + exists (x0 :: ms). split; [now rewrite Hms|].
      split; [simpl; now rewrite Hlen|].
      intros [|i] m Hm; simpl in Hm.
      * injection Hm as <-. rewrite weighted_mean_num_den. simpl. field.
      * rewrite weighted_mean_num_den.
        change (take (S (S i)) (x0 :: rest)) with (x0 :: take (S i) rest).
        simpl rev. now apply Hrows.
Qed.

Lemma weighted_mean_nonneg f h :
  0 <= f -> Forall (fun x => 0 <= x) h -> 0 <= weighted_mean f h.
Proof.
  intros Hf Hh. rewrite weighted_mean_num_den.
  destruct h as [|x r]; [simpl; unfold Qdiv; rewrite Qmult_0_l; lra|].
  pose proof (den_ge_1 f (x :: r) Hf ltac:(discriminate)).
  apply Qle_shift_div_l; [lra|]. rewrite Qmult_0_l. now apply num_nonneg.
Qed.

Lemma weighted_mean_nonpos f h :
  0 <= f -> Forall (fun x => x <= 0) h -> weighted_mean f h <= 0.
Proof.
  intros Hf Hh. rewrite weighted_mean_num_den.
  destruct h as [|x r]; [simpl; unfold Qdiv; rewrite Qmult_0_l; lra|].
  pose proof (den_ge_1 f (x :: r) Hf ltac:(discriminate)).
  apply Qle_shift_div_r; [lra|]. rewrite Qmult_0_l. now apply num_nonpos.
Qed.

End EwmLoop.

(** ** The rows of the RSI column *)

Section RsiRows.
#[local] Open Scope Q_scope.
Implicit Types (r : Series) (g l q : Q).

Lemma Qlt_bool_true a b : Cell.Qlt_bool a b = true <-> a < b.
Proof.
  unfold Cell.Qlt_bool. rewrite negb_true_iff. split.
  - intros Hle. apply Qnot_le_lt. intros Hc. apply Qle_bool_iff in Hc. congruence.
  - intros Hlt. destruct (Qle_bool b a) eqn:E; [|reflexivity].
    apply Qle_bool_iff in E. lra.
Qed.

Lemma positive_part_finite r :
  Forall (fun x => Cell.isinf x = false) r ->
  positive_part r = map Fin (map gain r) /\ Forall (fun q => 0 <= q) (map gain r).
Proof.
  intros Hr. unfold positive_part, Series.where_.
  induction Hr as [|x rest Hx _ [IH1 IH2]]; [split; [reflexivity|constructor]|].
  cbn [map]. rewrite IH1. split.
  - f_equal. destruct x as [| | |q]; try reflexivity; try discriminate.
    unfold Cell.gtb. simpl. now destruct (Cell.Qlt_bool 0 q).
  - constructor; [|exact IH2].
    destruct x as [| | |q]; simpl; try lra.
    destruct (Cell.Qlt_bool 0 q) eqn:E; [apply Qlt_bool_true in E|]; lra.
Qed.

Lemma negative_part_finite r :
  Forall (fun x => Cell.isinf x = false) r ->
  negative_part r = map Fin (map loss r) /\ Forall (fun q => q <= 0) (map loss r).
Proof.
  intros Hr. unfold negative_part, Series.where_.
  induction Hr as [|x rest Hx _ [IH1 IH2]]; [split; [reflexivity|constructor]|].
  cbn [map]. rewrite IH1. split.
  - f_equal. destruct x as [| | |q]; try reflexivity; try discriminate.
    simpl. now destruct (Cell.Qlt_bool q 0).
  - constructor; [|exact IH2].
    destruct x as [| | |q]; simpl; try lra.
    destruct (Cell.Qlt_bool q 0) eqn:E; [apply Qlt_bool_true in E|]; lra.
Qed.

Lemma lookup_rsi (gs ls : Series) i (g l : cell) :
  gs !! i = Some g -> ls !! i = Some l ->
  rsi_of (rs_of gs ls) !! i = Some (rsi_cell g l).
Proof.
  intros Hg Hl. unfold rsi_of, rs_of, Series.binop, Series.scalar_l.
  rewrite lookup_zip_with, !list_lookup_fmap, lookup_zip_with, Hg, Hl. reflexivity.
Qed.

Lemma length_rsi (gs ls : Series) :
  length gs = length ls -> length (rsi_of (rs_of gs ls)) = length gs.
Proof.
  intros Hlen. unfold rsi_of, rs_of, Series.binop, Series.scalar_l.
  rewrite length_zip_with, !length_map, length_zip_with. lia.
Qed.

(** No loss: the quotient is infinite or 0/0, and the row is undefined. *)
Lemma rsi_cell_no_loss g l : l == 0 -> rsi_cell (Fin g) (Fin l) = NaN.
Proof.
  intros Hl. unfold rsi_cell. simpl.
  rewrite (proj1 (Qsgn_zero l) Hl).
  now destruct (Cell.Qsgn g).
Qed.

(** Some loss: the row is a number between 0 and 100. *)
Lemma rsi_cell_loss g l :
  0 <= g -> l < 0 -> exists q, rsi_cell (Fin g) (Fin l) = Fin q /\ 0 <= q <= 100.
Proof.
  intros Hg Hl. unfold rsi_cell.
  cbn [Cell.div Cell.abs Cell.mul Cell.add Cell.signed_inf].
  rewrite (Qsgn_neg l Hl).
  cbn [Cell.div Cell.abs Cell.mul Cell.add Cell.signed_inf].
  pose proof (Qabs_nonneg (g / l)) as Habs.
  rewrite (Qsgn_pos (1 + Qabs (g / l))) by lra.
  eexists. split; [reflexivity|]. split.
  - apply Qle_shift_div_l; [lra|]. lra.
  - apply Qle_shift_div_r; [lra|]. lra.
Qed.

End RsiRows.

(** ** The weighted mean of a column with missing observations *)

Section EwmSeen.
#[local] Open Scope Q_scope.
Implicit Types (f w : Q) (h : list (option Q)) (xs : Series).

Lemma Forall_rev_iff {A : Type} (P : A -> Prop) (l : list A) :
  Forall P (rev l) <-> Forall P l.
Proof.
  split; intros HP; [rewrite <- (rev_involutive l)|]; now apply Forall_rev.
Qed.

Lemma num_missing f h :
  Forall (fun o => o = None) h ->
  num f (map present h) == 0 /\ num f (map (default 0) h) == 0.
Proof.
  induction 1 as [|o h -> _ [IH1 IH2]]; simpl; [split; reflexivity|].
  rewrite IH1, IH2. split; ring.
Qed.

Lemma present_nonneg f h : 0 <= f -> 0 <= num f (map present h).
Proof.
  intros Hf. apply num_nonneg; [exact Hf|].
  apply Forall_forall. intros x Hx.
  apply list_elem_of_In, in_map_iff in Hx as (o & <- & _).
  destruct o; simpl; lra.
Qed.

Lemma present_pos f h :
  0 <= f -> 0 < f \/ (exists q rest, h = Some q :: rest) ->
  Exists (fun o => o <> None) h -> 0 < num f (map present h).
Proof.
  intros Hf Hcase Hex.
  assert (Hhead : forall q rest, 0 < num f (map present (Some q :: rest))).
  { intros q rest. simpl. pose proof (present_nonneg f rest Hf).
    assert (0 <= f * num f (map present rest)) by (apply Qmult_le_0_compat; assumption).
    lra. }
  destruct Hcase as [Hpos|(q & rest & ->)]; [|apply Hhead].
  induction Hex as [o h Ho|o h _ IH].
  - destruct o as [q|]; [apply Hhead|contradiction].
  - simpl. assert (0 < f * num f (map present h)) by (apply Qmult_lt_0_compat; assumption).
    destruct o; simpl; lra.
Qed.

(** One step of the loop on a cell that is a number or undefined. *)
Lemma ewm_step_seen f h wc ow x :
  0 <= f -> Cell.isinf x = false -> ewm_state f h wc ow ->
  exists wc' ow',
    Series.ewm_step f 1 true wc ow x = (wc', ow')
    /\ ewm_state f (seen x :: h) wc' ow'.
Proof.
  intros Hf Hx Hst.
  destruct wc as [| | |w]; try contradiction.
  - destruct Hst as [Hnone Hone].
    destruct (num_missing f h Hnone) as [HD HN].
    destruct x as [| | |q]; try discriminate.
    + exists NaN, ow. split; [reflexivity|]. split; [now constructor|exact Hone].
    + exists (Fin q), ow. split; [reflexivity|]. simpl.
      split; [constructor; discriminate|].
      split; [rewrite Hone, HD; ring|].
      split; [rewrite HD, HN; ring|].
      split; intros HF; apply Forall_cons in HF as [Hq _]; now apply Hq.
  - destruct Hst as (Hex & How & Hw & Hnn & Hnp).
    pose proof (present_nonneg f h Hf) as HD.
    destruct x as [| | |q]; try discriminate.
    + exists (Fin w), (ow * f). split; [reflexivity|]. simpl.
      split; [now apply Exists_cons_tl|].
      split; [rewrite How; ring|].
      split; [rewrite <- Hw; ring|].
      split; intros HF; apply Forall_cons in HF as [_ HF]; auto.
    + assert (Howf : 0 <= ow * f).
      { apply Qmult_le_0_compat; [rewrite How; exact HD|exact Hf]. }
      assert (Hpos : 0 < ow * f + 1) by lra.
      rewrite (ewm_step_finite f w ow q Hpos). eexists _, _. split; [reflexivity|].
      simpl.
      split; [constructor; discriminate|].
      split; [rewrite How; ring|].
      split.
      { destruct (Qeq_bool w q) eqn:E.
        - apply Qeq_bool_iff in E. rewrite <- Hw, <- E. ring.
        - rewrite <- Hw.
          assert (Hne : ~ ow * f + 1 == 0) by lra.
          rewrite <- How. field. exact Hne. }
      split.
      { intros HF. apply Forall_cons in HF as [Hq HF].
        specialize (Hq q eq_refl). specialize (Hnn HF).
        destruct (Qeq_bool w q); [exact Hnn|].
        apply Qle_shift_div_l; [exact Hpos|]. rewrite Qmult_0_l.
        assert (0 <= ow * f * w) by (apply Qmult_le_0_compat; assumption).
        lra. }
      { intros HF. apply Forall_cons in HF as [Hq HF].
        specialize (Hq q eq_refl). specialize (Hnp HF).
        destruct (Qeq_bool w q); [exact Hnp|].
        apply Qle_shift_div_r; [exact Hpos|]. rewrite Qmult_0_l.
        assert (0 <= ow * f * - w) by (apply Qmult_le_0_compat; lra).
        assert (ow * f * - w == - (ow * f * w)) by ring.
        lra. }
Qed.

Lemma ewm_loop_seen f xs :
  0 <= f -> Forall (fun x => Cell.isinf x = false) xs ->
  forall h wc ow, ewm_state f h wc ow ->
  forall i m, Series.ewm_loop f 1 true wc ow xs !! i = Some m ->
    exists ow', ewm_state f (rev (take (S i) (map seen xs)) ++ h) m ow'.
Proof.
  intros Hf Hxs. induction Hxs as [|x rest Hx _ IH]; intros h wc ow Hst i m Hm;
    [discriminate|].
  destruct (ewm_step_seen f h wc ow x Hf Hx Hst) as (wc' & ow' & E & Hst').
  cbn [Series.ewm_loop] in Hm. rewrite E in Hm.
  destruct i as [|i]; simpl in Hm.
  - injection Hm as <-. exists ow'. exact Hst'.
  - destruct (IH (seen x :: h) wc' ow' Hst' i m Hm) as [ow'' H''].
    exists ow''.
    change (take (S (S i)) (map seen (x :: rest)))
      with (seen x :: take (S i) (map seen rest)).
    simpl rev. rewrite <- app_assoc. exact H''.
Qed.

Lemma prep_values_no_inf (xs : Series) :
  Forall (fun x => Cell.isinf x = false) (Series.prep_values xs).
Proof.
  unfold Series.prep_values. apply Forall_forall. intros x Hx.
  apply list_elem_of_In, in_map_iff in Hx as (y & <- & _). now destruct y.
Qed.

(** [ewm(com).mean()]: every row is in the state that the history up to
    it determines, an infinite cell counting as a missing observation. *)
Lemma ewm_mean_seen (com : Z) (ys : Series) :
  (0 <= com)%Z ->
  forall i m, Series.ewm_mean (inject_Z com) true ys !! i = Some m ->
    exists ow,
      ewm_state (decay (inject_Z com))
        (rev (take (S i) (map seen (Series.prep_values ys)))) m ow.
Proof.
  intros Hc i m Hm. pose proof (decay_nonneg com Hc) as Hf.
  pose proof (prep_values_no_inf ys) as Hxs.
  unfold Series.ewm_mean, Series.ewm in Hm. cbv zeta in Hm.
  fold (decay (inject_Z com)) in Hm.
  destruct (Series.prep_values ys) as [|x0 rest]; [discriminate|].
  apply Forall_cons in Hxs as [H0 Hrest].
  assert (Hst0 : ewm_state (decay (inject_Z com)) [seen x0] x0 1).
  { destruct x0 as [| | |q]; try discriminate; simpl.
    - split; [repeat constructor|reflexivity].
    - split; [constructor; discriminate|].
      split; [ring|]. split; [ring|].
      split; intros HF; apply Forall_cons in HF as [Hq _]; now apply Hq. }
  destruct i as [|i]; simpl in Hm.
  - injection Hm as <-. exists 1. exact Hst0.
  - destruct (ewm_loop_seen _ rest Hf Hrest [seen x0] x0 1 Hst0 i m Hm) as [ow Hst].
    exists ow.
    change (take (S (S i)) (map seen (x0 :: rest)))
      with (seen x0 :: take (S i) (map seen rest)).
    simpl rev. exact Hst.
Qed.

Lemma ewm_state_undefined f h m ow :
  ewm_state f h m ow -> m = NaN <-> Forall (fun o => o = None) h.
Proof.
  intros Hst. destruct m as [| | |w]; try contradiction.
  - split; [intros _; apply Hst|reflexivity].
  - destruct Hst as (Hex & _). split; [discriminate|].
    intros Hall. apply Exists_exists in Hex as (o & Ho & Hne).
    rewrite Forall_forall in Hall. specialize (Hall o Ho). contradiction.
Qed.

Lemma ewm_state_mean f h q ow :
  0 <= f -> 0 < f \/ (exists q0 rest, h = Some q0 :: rest) ->
  ewm_state f h (Fin q) ow -> q == weighted_mean_seen f h.
Proof.
  intros Hf Hcase (Hex & _ & Hw & _).
  pose proof (present_pos f h Hf Hcase Hex) as HD.
  unfold weighted_mean_seen. rewrite <- !num_decayed, <- Hw. field. lra.
Qed.

Lemma weighted_mean_seen_all f (ys : list Q) :
  weighted_mean_seen f (map Some ys) = weighted_mean f ys.
Proof.
  unfold weighted_mean_seen, weighted_mean. rewrite !map_map. simpl.
  now rewrite map_id.
Qed.

Lemma decay_pos (com : Z) : (0 < com)%Z -> 0 < decay (inject_Z com).
Proof.
  intros Hc. unfold decay.
  assert (H1 : 0 < inject_Z com).
  { change 0 with (inject_Z 0). rewrite <- Zlt_Qlt. exact Hc. }
  assert (H2 : 1 / (1 + inject_Z com) < 1).
  { apply Qlt_shift_div_r; lra. }
  lra.
Qed.

End EwmSeen.

(** ** The two parts of the returns as the weighted mean receives them *)

Section PartsSeen.
#[local] Open Scope Q_scope.
Implicit Types (r : Series).

Lemma seen_negative_part r :
  map seen (Series.prep_values (negative_part r)) = map loss_seen r.
Proof.
  unfold Series.prep_values, negative_part, Series.where_. rewrite !map_map.
  apply map_ext. intros [| | |q]; try reflexivity.
  simpl. now destruct (Cell.Qlt_bool q 0).
Qed.

Lemma seen_positive_part r :
  map seen (Series.prep_values (positive_part r)) = map gain_seen r.
Proof.
  unfold Series.prep_values, positive_part, Series.where_. rewrite !map_map.
  apply map_ext. intros [| | |q]; try reflexivity.
  unfold Cell.gtb. simpl. now destruct (Cell.Qlt_bool 0 q).
Qed.

Lemma loss_seen_nonpos r :
  Forall (fun o => forall q, o = Some q -> q <= 0) (map loss_seen r).
Proof.
  apply Forall_forall. intros o Ho.
  apply list_elem_of_In, in_map_iff in Ho as (x & <- & _).
  intros q Hq. destruct x as [| | |q0]; simpl in Hq; try discriminate;
    injection Hq as <-; try lra.
  destruct (Cell.Qlt_bool q0 0) eqn:E; [apply Qlt_bool_true in E|]; lra.
Qed.

Lemma gain_seen_nonneg r :
  Forall (fun o => forall q, o = Some q -> 0 <= q) (map gain_seen r).
Proof.
  apply Forall_forall. intros o Ho.
  apply list_elem_of_In, in_map_iff in Ho as (x & <- & _).
  intros q Hq. destruct x as [| | |q0]; simpl in Hq; try discriminate;
    injection Hq as <-; try lra.
  destruct (Cell.Qlt_bool 0 q0) eqn:E; [apply Qlt_bool_true in E|]; lra.
Qed.

(** The mean of the negative parts is undefined while every return has been
    minus infinity, the mean of the positive parts while every return has
    been plus infinity. *)
Lemma loss_history_missing r i :
  Forall (fun o => o = None) (rev (take (S i) (map loss_seen r)))
  <-> Forall (fun c => c = NInf) (take (S i) r).
Proof.
  rewrite Forall_rev_iff, firstn_map, Forall_map. apply Forall_iff.
  intros [| | |q]; simpl; split; intros; congruence.
Qed.

Lemma gain_history_missing r i :
  Forall (fun o => o = None) (rev (take (S i) (map gain_seen r)))
  <-> Forall (fun c => c = PInf) (take (S i) r).
Proof.
  rewrite Forall_rev_iff, firstn_map, Forall_map. apply Forall_iff.
  intros [| | |q]; simpl; split; intros; congruence.
Qed.

Lemma history_head {A B : Type} (g : A -> B) (xs : list A) i x :
  xs !! i = Some x ->
  rev (take (S i) (map g xs)) = g x :: rev (take i (map g xs)).
Proof.
  intros Hx. rewrite (take_S_r (map g xs) i (g x)).
  - apply rev_unit.
  - rewrite list_lookup_fmap, Hx. reflexivity.
Qed.

Lemma rsi_cell_undefined_loss (g : cell) : rsi_cell g NaN = NaN.
Proof. now destruct g. Qed.

End PartsSeen.

(** C10 (as amended).  With a window that [ewm] accepts, [apply] succeeds
    on every frame that has [return_1], and every row of [rsi] is undefined
    or a number between 0 and 100.  It is undefined exactly where the
    weighted mean of the negative parts of the returns is 0 or is itself
    undefined, and that mean is undefined exactly while every return so far
    has been minus infinity: the weighted mean receives an infinite cell as
    a missing observation.  The mean is taken over every row from the first
    one on, the row [k] bars back weighing the [k]-th power of the decay
    factor [1 - 1 / (1 + window)] and a missing observation weighing nothing
    (with the window 0 all the weight is on the current row, so the formula
    needs that row to be there); without a return of minus infinity this is
    the weighted mean of all the negative parts.  With a positive window no
    weight ever drops to 0. *)
Theorem C10_rsi_is_undefined_or_between_0_and_100
    (self : RSIIndicator) (σ : heap) (l : loc) (df : DataFrame) (r : Series) :
  σ !! l = Some df ->
  Frame.getitem df "return_1" = Ok r ->
  0 <= rsi_window self ->
  exists σ' l' df' rsi avg_loss,
    apply self l σ = (σ', Ok l') /\ σ' !! l' = Some df'
    /\ Frame.getitem df' "rsi" = Ok rsi
    /\ Series.ewm_com (rsi_window self) true (negative_part r) = Ok avg_loss
    /\ length rsi = length r /\ length avg_loss = length r
    /\ (forall i, (i < length r)%nat -> exists x m,
          rsi !! i = Some x /\ avg_loss !! i = Some m
          /\ (x = NaN \/ exists q, x = Fin q /\ (0 <= q <= 100)%Q)
          /\ (x = NaN <-> m = NaN \/ exists q, m = Fin q /\ (q == 0)%Q)
          /\ (m = NaN <-> Forall (fun c => c = NInf) (take (S i) r))
          /\ (forall q, m = Fin q ->
                0 < rsi_window self \/ r !! i <> Some NInf ->
                (q == weighted_mean_seen (decay (inject_Z (rsi_window self)))
                        (rev (take (S i) (map loss_seen r))))%Q)
          /\ (Forall (fun c => c <> NInf) (take (S i) r) ->
                exists q, m = Fin q
                  /\ (q == weighted_mean (decay (inject_Z (rsi_window self)))
                            (rev (take (S i) (map loss r))))%Q))
    /\ (0 < rsi_window self ->
        forall k, (0 < pow (decay (inject_Z (rsi_window self))) k)%Q).
Proof.
  intros Hl Hget Hw.
  pose proof (decay_nonneg _ Hw) as Hf.
  set (f := decay (inject_Z (rsi_window self))) in *.
  set (gs := Series.ewm_mean (inject_Z (rsi_window self)) true (positive_part r)).
  set (ls := Series.ewm_mean (inject_Z (rsi_window self)) true (negative_part r)).
  assert (Eg : Series.ewm_com (rsi_window self) true (positive_part r) = Ok gs).
  { unfold Series.ewm_com. destruct (Z.ltb_spec (rsi_window self) 0); [lia|reflexivity]. }
  assert (El : Series.ewm_com (rsi_window self) true (negative_part r) = Ok ls).
  { unfold Series.ewm_com. destruct (Z.ltb_spec (rsi_window self) 0); [lia|reflexivity]. }
  assert (Lg : length gs = length r).
  { unfold gs. rewrite length_ewm_mean.
    unfold positive_part, Series.where_. apply length_map. }
  assert (Ll : length ls = length r).
  { unfold ls. rewrite length_ewm_mean.
    unfold negative_part, Series.where_. apply length_map. }
  pose proof (apply_run (H := {| np_sqrt := id; np_log1p := id |}) (RSI self) σ l df Hl) as R.
  unfold ran_at, outcome, rsi_frame in R. rewrite Hget in R. cbn [rbind] in R.
  rewrite Eg, El in R. cbn [rbind] in R.
  eexists _, _, _, _, ls. split; [exact R|].
  split; [apply lookup_insert_eq|].
  split; [apply getitem_setitem_eq|].
  split; [exact El|].
  split; [rewrite length_rsi; lia|].
  split; [exact Ll|].
  split.
  - intros i Hi.
    destruct (lookup_lt_is_Some_2 gs i) as [g Hg]; [lia|].
    destruct (lookup_lt_is_Some_2 ls i) as [m Hm]; [lia|].
    destruct (lookup_lt_is_Some_2 r i Hi) as [c Hc].
    destruct (ewm_mean_seen _ _ Hw i g Hg) as [owg Sg].
    destruct (ewm_mean_seen _ _ Hw i m Hm) as [owl Sl].
    rewrite seen_positive_part in Sg. rewrite seen_negative_part in Sl.
    fold f in Sg, Sl.
    exists (rsi_cell g m), m.
    split; [now apply lookup_rsi|]. split; [exact Hm|].
    assert (Hc_in : c ∈ take (S i) r).
    { apply list_elem_of_lookup. exists i. rewrite lookup_take_lt by lia. exact Hc. }
    assert (Hundef : m = NaN <-> Forall (fun c => c = NInf) (take (S i) r)).
    { rewrite (ewm_state_undefined _ _ _ _ Sl). apply loss_history_missing. }
    assert (Hgundef : g = NaN <-> Forall (fun c => c = PInf) (take (S i) r)).
    { rewrite (ewm_state_undefined _ _ _ _ Sg). apply gain_history_missing. }
    assert (Hnonpos : Forall (fun o => forall q, o = Some q -> (q <= 0)%Q)
                        (rev (take (S i) (map loss_seen r)))).
    { apply Forall_rev, Forall_take, loss_seen_nonpos. }
    assert (Hnonneg : Forall (fun o => forall q, o = Some q -> (0 <= q)%Q)
                        (rev (take (S i) (map gain_seen r)))).
    { apply Forall_rev, Forall_take, gain_seen_nonneg. }
    assert (Hmean : forall q, m = Fin q ->
              0 < rsi_window self \/ r !! i <> Some NInf ->
              (q == weighted_mean_seen f (rev (take (S i) (map loss_seen r))))%Q).
    { intros q -> Hcase. apply (ewm_state_mean f _ q owl Hf); [|exact Sl].
      destruct Hcase as [Hpos|Hne]; [left; now apply decay_pos|right].
      rewrite (history_head loss_seen r i c Hc).
      destruct c as [| | |q0]; try (eexists _, _; reflexivity). contradiction. }
    assert (Hsplit : m = NaN
                     \/ (exists q, m = Fin q /\ (q == 0)%Q)
                     \/ (exists q g', m = Fin q /\ (q < 0)%Q
                                      /\ g = Fin g' /\ (0 <= g')%Q)).
    { destruct m as [| | |q]; try contradiction; [now left|right].
      pose proof (proj2 (proj2 (proj2 (proj2 Sl))) Hnonpos) as Hq.
      destruct (Qlt_le_dec q 0) as [Hlt|Hge]; [right|left; exists q; split; [reflexivity|lra]].
      destruct g as [| | |g']; try contradiction.
      - exfalso. pose proof (proj1 Hgundef eq_refl) as Hall.
        assert (Hzero : Forall (fun o => forall q, o = Some q -> (0 <= q)%Q)
                          (rev (take (S i) (map loss_seen r)))).
        { apply Forall_rev. rewrite firstn_map. apply Forall_map.
          eapply Forall_impl; [exact Hall|]. intros x -> q0 [= <-]. simpl. lra. }
        pose proof (proj1 (proj2 (proj2 (proj2 Sl))) Hzero). lra.
      - exists q, g'. repeat split; try assumption; try reflexivity.
        apply (proj1 (proj2 (proj2 (proj2 Sg))) Hnonneg). }
    split.
    { destruct Hsplit as [->|[(q & -> & Hq)|(q & g' & -> & Hq & -> & Hg')]].
      - left. apply rsi_cell_undefined_loss.
      - left. destruct g as [| | |g']; [reflexivity| | |now apply rsi_cell_no_loss];
          simpl in Sg; contradiction.
      - right. destruct (rsi_cell_loss g' q Hg' Hq) as (x & -> & Hx). now exists x. }
    split.
    { destruct Hsplit as [->|[(q & -> & Hq)|(q & g' & -> & Hq & -> & Hg')]].
      - rewrite rsi_cell_undefined_loss. split; [now left|reflexivity].
      - split; [intros _; right; now exists q|intros _].
        destruct g as [| | |g']; [reflexivity| | |now apply rsi_cell_no_loss];
          simpl in Sg; contradiction.
      - destruct (rsi_cell_loss g' q Hg' Hq) as (x & -> & Hx).
        split; [discriminate|]. intros [Hn|(q0 & [= <-] & Hz)]; [discriminate|lra]. }
    split; [exact Hundef|].
    split; [exact Hmean|].
    intros Hno.
    assert (HcN : c <> NInf).
    { rewrite Forall_forall in Hno. now apply Hno. }
    destruct m as [| | |q]; try contradiction.
    + exfalso. pose proof (proj1 Hundef eq_refl) as Hall.
      rewrite Forall_forall in Hall. now apply HcN, Hall.
    + exists q. split; [reflexivity|].
      rewrite (Hmean q eq_refl) by (right; rewrite Hc; congruence).
      assert (Hmap : map loss_seen (take (S i) r) = map Some (map loss (take (S i) r))).
      { rewrite map_map. apply map_ext_in. intros x Hx.
        assert (x <> NInf).
        { rewrite Forall_forall in Hno. apply Hno. now apply list_elem_of_In. }
        now destruct x. }
      rewrite !firstn_map, Hmap, <- map_rev, weighted_mean_seen_all. reflexivity.
  - intros Hpos' k. apply pow_pos. now apply decay_pos.
Qed.

(** C10, the claim as stated: the weighted mean reads a return of minus
    infinity as a missing observation, so at a first row that holds one the
    mean of the negative parts is undefined, not 0, and the row of [rsi] is
    undefined all the same. *)
Lemma C10_undefined_row_with_an_undefined_mean :
  rsi_column (apply RSIIndicator_default 1%positive
                {[1%positive := returns_frame [NInf; Fin (-1 # 2)]]})
  = Some [NaN; Fin 0]
  /\ Series.ewm_com 5 true (negative_part [NInf; Fin (-1 # 2)])
     = Ok [NaN; Fin (-1 # 2)].
Proof. split; vm_compute; reflexivity. Qed.

(** C2.  The code on a strictly increasing series (every return is 1%): the
    mean of the negative parts is 0 at every row, and every row of [rsi] is
    undefined, not 100.  On a strictly decreasing series (every return is
    -1%) every row is 0. *)
Theorem C2_rsi_of_a_rising_series_is_undefined :
  Series.ewm_com 5 true (negative_part [Fin (1 # 100); Fin (1 # 100); Fin (1 # 100)])
  = Ok [Fin 0; Fin 0; Fin 0]
  /\ rsi_column (apply RSIIndicator_default 1%positive
                   {[1%positive := returns_frame [Fin (1 # 100); Fin (1 # 100); Fin (1 # 100)]]})
     = Some [NaN; NaN; NaN]
  /\ rsi_column (apply RSIIndicator_default 1%positive
                   {[1%positive := returns_frame [Fin (-1 # 100); Fin (-1 # 100); Fin (-1 # 100)]]})
     = Some [Fin 0; Fin 0; Fin 0].
Proof. repeat split; vm_compute; reflexivity. Qed.

(** * Further properties of the stages, the loader and the samples *)

(** ** Any number of stages *)

(** Stages of pairwise different kinds, each applied to the table the one
    before it returned, can be applied in any order: two orders of the same
    stages both fail, or both succeed with the same table (the same rows, the
    same column names up to their order, the same column under every
    name). *)
Theorem stages_apply_in_any_order `{Numpy} (ss ss' : list Stage) (σ : heap) (l : loc)
    (df : DataFrame) :
  σ !! l = Some df -> ss ≡ₚ ss' -> NoDup (map kind_of ss) ->
  match apply_all ss l σ, apply_all ss' l σ with
  | (σ1, Ok l1), (σ2, Ok l2) =>
      exists d1 d2, σ1 !! l1 = Some d1 /\ σ2 !! l2 = Some d2 /\ same_table d1 d2
  | (_, Raise _), (_, Raise _) => True
  | _, _ => False
  end.
Proof.
  intros Hl Hp Hnd.
  pose proof (apply_all_run ss σ l df Hl) as A1.
  pose proof (apply_all_run ss' σ l df Hl) as A2.
  pose proof (run_all_perm ss ss' Hp Hnd df df (same_table_refl df)) as P.
  unfold agree in P.
  destruct (run_all ss df) as [d1|], (run_all ss' df) as [d2|]; try contradiction.
  - destruct A1 as (σ1 & l1 & -> & H1), A2 as (σ2 & l2 & -> & H2).
    now exists d1, d2.
  - destruct A1 as (σ1 & ->), A2 as (σ2 & ->). exact I.
Qed.

(** ** The volatility columns *)

Section VolatilityColumns.
Context `{Numpy}.

Lemma volatility_column_inj i j : volatility_column i = volatility_column j -> i = j.
Proof.
  unfold volatility_column. intros E.
  apply (inj (String.app "volatility_")) in E. now apply (inj pretty) in E.
Qed.

Lemma volatility_column_not_return i : volatility_column i ≠ "return_1".
Proof. unfold volatility_column. simpl. discriminate. Qed.

Lemma rolling_std_ok (w : Z) (xs : Series) :
  0 <= w -> exists v, Series.rolling_std w xs = Ok v /\ length v = length xs.
Proof.
  intros Hw. unfold Series.rolling_std. destruct (Z.ltb_spec w 0); [lia|].
  eexists. split; [reflexivity|]. apply length_imap.
Qed.

Lemma volatility_frame_columns tfs : forall df r,
  Frame.getitem df "return_1" = Ok r ->
  Forall (fun i => 0 <= i) tfs ->
  exists d, volatility_frame tfs df = Ok d
    /\ forall i, i ∈ tfs ->
         exists v, Series.rolling_std i (Series.log1p r) = Ok v
                   /\ Frame.getitem d (volatility_column i) = Ok v.
Proof.
  induction tfs as [|j rest IH]; intros df r Hr Hpos.
  - exists df. split; [reflexivity|]. intros i Hi. inversion Hi.
  - apply Forall_cons in Hpos as [Hj Hrest].
    destruct (rolling_std_ok j (Series.log1p r) Hj) as (vj & Hvj & _).
    set (df1 := Frame.setitem df (volatility_column j) vj).
    assert (Hr1 : Frame.getitem df1 "return_1" = Ok r).
    { unfold df1. rewrite getitem_setitem_ne; [exact Hr|apply volatility_column_not_return]. }
    destruct (IH df1 r Hr1 Hrest) as (d & Hd & Hcols).
    exists d. split.
    { cbn [volatility_frame]. rewrite Hr. cbn [rbind]. rewrite Hvj. cbn [rbind]. exact Hd. }
    intros i Hi. apply elem_of_cons in Hi as [->|Hi]; [|now apply Hcols].
    destruct (decide (j ∈ rest)) as [Hin|Hout]; [now apply Hcols|].
    exists vj. split; [exact Hvj|].
    rewrite getitem_lookup.
    rewrite (proj2 (volatility_frame_keeps rest df1 d Hd) (volatility_column j)).
    + unfold df1. rewrite <- getitem_lookup. apply getitem_setitem_eq.
    + intros Hm. apply list_elem_of_In, in_map_iff in Hm as (k & Hk & Hkin).
      apply volatility_column_inj in Hk. subst k. now apply Hout, list_elem_of_In.
Qed.

End VolatilityColumns.

Section VolatilityRuns.
Context `{Numpy}.

Lemma for_app {A : Type} (xs ys : list A) (body : A -> M unit) σ :
  for_ (xs ++ ys) body σ
  = match for_ xs body σ with
    | (σ', Ok _) => for_ ys body σ'
    | (σ', Raise e) => (σ', Raise e)
    end.
Proof.
  revert σ. induction xs as [|x xs IH]; intros σ; simpl; [reflexivity|].
  unfold bind. destruct (body x σ) as [σ1 [[]|e]]; [apply IH|reflexivity].
Qed.

(** [VolatilityIndicator.apply] with time frames that are not negative, on a
    table with [return_1]: it succeeds; for every time frame [i] the column
    [volatility_i] of the result is the rolling deviation over [i] rows of
    [log1p] of the input's [return_1], whatever the other time frames wrote;
    the rows and every other column are those of the input. *)
Theorem volatility_columns_hold_the_rolling_deviation
    (self : VolatilityIndicator) (σ : heap) (l : loc) (df : DataFrame) (r : Series) :
  σ !! l = Some df ->
  Frame.getitem df "return_1" = Ok r ->
  Forall (fun i => 0 <= i) (vol_timeframes self) ->
  exists σ' l' d,
    apply self l σ = (σ', Ok l') /\ σ' !! l' = Some d
    /\ index d = index df
    /\ (forall i, i ∈ vol_timeframes self ->
          exists v, Series.rolling_std i (Series.log1p r) = Ok v
                    /\ length v = length r
                    /\ Frame.getitem d (volatility_column i) = Ok v)
    /\ (forall n, n ∉ map volatility_column (vol_timeframes self) ->
          Frame.lookup_col n (columns d) = Frame.lookup_col n (columns df)).
Proof.
  intros Hl Hr Hpos.
  destruct (volatility_frame_columns (vol_timeframes self) df r Hr Hpos) as (d & Hd & Hcols).
  pose proof (apply_run (Volatility self) σ l df Hl) as R.
  unfold ran_at, outcome in R. rewrite Hd in R.
  eexists _, _, d. split; [exact R|].
  split; [apply lookup_insert_eq|].
  destruct (volatility_frame_keeps _ _ _ Hd) as [Hi Hk].
  split; [exact Hi|]. split; [|exact Hk].
  intros i Hin. destruct (Hcols i Hin) as (v & Hv & Hg).
  exists v. split; [exact Hv|]. split; [|exact Hg].
  assert (H0 : 0 <= i) by (rewrite Forall_forall in Hpos; now apply Hpos).
  destruct (rolling_std_ok i (Series.log1p r) H0) as (v' & Hv' & Hlen).
  rewrite Hv in Hv'. injection Hv' as <-. rewrite Hlen. apply length_map.
Qed.

(** A negative time frame makes [VolatilityIndicator.apply] fail when the
    loop reaches it.  In in-place mode the caller's table is then left as
    the time frames before the negative one left it, with their volatility
    columns written; in copy mode the caller's table is untouched. *)
Theorem volatility_in_place_keeps_what_it_wrote_before_failing
    (ts rest : list Z) (w : Z) (σ : heap) (l : loc) (df : DataFrame) :
  σ !! l = Some df ->
  Frame.has_col df "return_1" = true ->
  Forall (fun i => 0 <= i) ts -> w < 0 ->
  apply (mkVolatility (ts ++ w :: rest) true) l σ
  = (fst (apply (mkVolatility ts true) l σ), Raise InvalidWindow)
  /\ snd (apply (mkVolatility ts true) l σ) = Ok l
  /\ (forall i, i ∈ ts ->
        holds_at (fst (apply (mkVolatility (ts ++ w :: rest) true) l σ)) l
          (fun d => Frame.has_col d (volatility_column i) = true))
  /\ fst (apply (mkVolatility (ts ++ w :: rest) false) l σ) !! l = Some df.
Proof.
  intros Hl Hc Hpos Hw.
  destruct (has_col_lookup _ _ Hc) as [r Hx].
  assert (Hr : Frame.getitem df "return_1" = Ok r) by (rewrite getitem_lookup; now rewrite Hx).
  destruct (volatility_frame_columns ts df r Hr Hpos) as (d & Hd & Hcols).
  assert (Hok : apply (mkVolatility ts true) l σ = (<[l := d]> σ, Ok l)).
  { pose proof (apply_run (Volatility (mkVolatility ts true)) σ l df Hl) as R.
    unfold ran_at, outcome, target in R. simpl in R. rewrite Hd in R. exact R. }
  assert (Hfail : apply (mkVolatility (ts ++ w :: rest) true) l σ
                  = (<[l := d]> σ, Raise InvalidWindow)).
  { change (apply (mkVolatility (ts ++ w :: rest) true) l σ)
      with (VolatilityIndicator_apply (mkVolatility (ts ++ w :: rest) true) l σ).
    unfold VolatilityIndicator_apply. cbn [vol_in_place vol_timeframes].
    rewrite (prepare_bind _ _ _ _ _ Hl). rewrite (insert_id _ _ _ Hl).
    apply bind_raise. rewrite for_app.
    pose proof (volatility_loop_run ts l σ df Hl) as L. rewrite Hd in L. rewrite L.
    cbn [for_]. apply bind_raise.
    assert (Hd1 : Frame.getitem d "return_1" = Ok r).
    { rewrite getitem_lookup.
      rewrite (proj2 (volatility_frame_keeps _ _ _ Hd) "return_1"); [now rewrite Hx|].
      intros Hm. apply list_elem_of_In, in_map_iff in Hm as (k & Hk & _).
      now apply volatility_column_not_return in Hk. }
    erewrite bind_ok;
      [|rewrite (getitem_run _ _ _ _ (lookup_insert_eq σ l d)), Hd1; reflexivity].
    apply bind_raise. unfold lift, Series.rolling_std.
    destruct (Z.ltb_spec w 0); [reflexivity|lia]. }
  rewrite Hok, Hfail. cbn [fst snd].
  split; [reflexivity|]. split; [reflexivity|]. split.
  - intros i Hi. exists d. split; [apply lookup_insert_eq|].
    destruct (Hcols i Hi) as (v & _ & Hg).
    apply getitem_ok_iff. now exists v.
  - pose proof (apply_run (Volatility (mkVolatility (ts ++ w :: rest) false)) σ l df Hl) as R'.
    change (apply (mkVolatility (ts ++ w :: rest) false) l σ)
      with (apply (Volatility (mkVolatility (ts ++ w :: rest) false)) l σ).
    unfold ran_at, target in R'.
    change (in_place (Volatility (mkVolatility (ts ++ w :: rest) false))) with false in R'.
    cbv iota in R'.
    pose proof (fresh_ne σ l df Hl) as Hne.
    destruct (outcome _ df).
    + rewrite R'. simpl. now rewrite lookup_insert_ne.
    + destruct R' as [_ [p ->]]. now rewrite lookup_insert_ne.
Qed.

End VolatilityRuns.

Section EwmFinite.
#[local] Open Scope Q_scope.
Implicit Types (f w x c : Q) (qs : list Q).

(** A value that repeats itself is carried along unchanged. *)
Lemma ewm_loop_constant f nw adj qs : forall w ow,
  Forall (fun q => q == w) qs ->
  Series.ewm_loop f nw adj (Fin w) ow (map Fin qs) = replicate (length qs) (Fin w).
Proof.
  induction qs as [|q qs IH]; intros w ow Hq; [reflexivity|].
  apply Forall_cons in Hq as [Hq Hqs].
  simpl map. cbn [Series.ewm_loop]. unfold Series.ewm_step. cbn [Cell.isna negb Cell.eqb].
  assert (E : Qeq_bool w q = true) by (apply Qeq_bool_iff; now symmetry).
  rewrite E. simpl. f_equal. now apply IH.
Qed.

Lemma ewm_mean_constant com adj qs c :
  Forall (fun q => q == c) qs ->
  exists c', c' == c
    /\ Series.ewm_mean com adj (map Fin qs) = replicate (length qs) (Fin c').
Proof.
  intros Hq. destruct qs as [|x0 rest].
  - exists c. split; reflexivity.
  - apply Forall_cons in Hq as [H0 Hrest]. exists x0. split; [exact H0|].
    unfold Series.ewm_mean. rewrite prep_values_finite. unfold Series.ewm. simpl map. cbv zeta. simpl length. simpl replicate. f_equal.
    apply ewm_loop_constant.
    eapply Forall_impl; [exact Hrest|]. intros q Hq. simpl in Hq. now rewrite Hq, H0.
Qed.

(** Without the adjustment the running mean keeps the weight 1. *)
Lemma ewm_loop_unadjusted f nw qs : forall w,
  0 < 1 * f + nw ->
  exists ms, Series.ewm_loop f nw false (Fin w) 1 (map Fin qs) = map Fin ms
             /\ length ms = length qs.
Proof.
  induction qs as [|q qs IH]; intros w Hpos.
  - exists []. split; reflexivity.
  - simpl map. cbn [Series.ewm_loop]. unfold Series.ewm_step.
    cbn [Cell.isna negb Cell.eqb Cell.mul Cell.add Cell.div].
    rewrite (Qsgn_pos _ Hpos).
    destruct (Qeq_bool w q).
    + destruct (IH w Hpos) as (ms & Hms & Hlen).
      exists (w :: ms). split; [simpl; now rewrite Hms|simpl; now rewrite Hlen].
    + destruct (IH ((1 * f * w + nw * q) / (1 * f + nw)) Hpos) as (ms & Hms & Hlen).
      eexists (_ :: ms). split; [simpl; now rewrite Hms|simpl; now rewrite Hlen].
Qed.

(** [ewm(span, adjust=False).mean()] of finite cells: finite cells, the
    first of them the first observation. *)
Lemma ewm_mean_unadjusted com qs :
  exists ms, Series.ewm_mean com false (map Fin qs) = map Fin ms
             /\ length ms = length qs
             /\ ms !! 0%nat = qs !! 0%nat.
Proof.
  destruct qs as [|x0 rest].
  - exists []. repeat split.
  - unfold Series.ewm_mean. rewrite prep_values_finite. unfold Series.ewm. simpl map. cbv zeta.
    destruct (ewm_loop_unadjusted (1 - 1 / (1 + com)) (1 / (1 + com)) rest x0)
      as (ms & Hms & Hlen); [lra|].
    exists (x0 :: ms). split; [now rewrite Hms|]. split; [simpl; now rewrite Hlen|reflexivity].
Qed.

Lemma binop_sub_finite (xs ys : list Q) :
  Series.binop Cell.sub (map Fin xs) (map Fin ys) = map Fin (zip_with Qminus xs ys).
Proof.
  revert ys. induction xs as [|x xs IH]; intros [|y ys]; simpl; try reflexivity.
  f_equal. apply IH.
Qed.

End EwmFinite.

(** ** The MACD of finite prices *)

(** [MACDIndicator.apply] on a [Close] column of finite cells: it succeeds,
    the three columns it writes hold finite cells on every row, the first row
    of each is 0 (both moving averages start at the first price), and on a
    flat price every row of each is 0. *)
Theorem macd_of_finite_prices (self : MACDIndicator) (σ : heap) (l : loc)
    (df : DataFrame) (qs : list Q) :
  σ !! l = Some df ->
  Frame.getitem df "Close" = Ok (map Fin qs) ->
  exists σ' l' d line signal hist,
    apply self l σ = (σ', Ok l') /\ σ' !! l' = Some d
    /\ Frame.getitem d "macd_line" = Ok (map Fin line)
    /\ Frame.getitem d "macd_signal_line" = Ok (map Fin signal)
    /\ Frame.getitem d "macd_histogram" = Ok (map Fin hist)
    /\ length line = length qs /\ length signal = length qs /\ length hist = length qs
    /\ (forall x, line !! 0%nat = Some x \/ signal !! 0%nat = Some x \/ hist !! 0%nat = Some x ->
          (x == 0)%Q)
    /\ (forall c, Forall (fun q => (q == c)%Q) qs ->
          Forall (fun x => (x == 0)%Q) line
          /\ Forall (fun x => (x == 0)%Q) signal
          /\ Forall (fun x => (x == 0)%Q) hist).
Proof.
  intros Hl Hc.
  destruct (ewm_mean_unadjusted ((inject_Z 12 - 1) / 2) qs) as (e12 & H12 & L12 & F12).
  destruct (ewm_mean_unadjusted ((inject_Z 26 - 1) / 2) qs) as (e26 & H26 & L26 & F26).
  set (line := zip_with Qminus e12 e26).
  destruct (ewm_mean_unadjusted ((inject_Z 9 - 1) / 2) line) as (sg & Hsg & Lsg & Fsg).
  set (hist := zip_with Qminus line sg).
  assert (Lline : length line = length qs).
  { unfold line. rewrite length_zip_with. lia. }
  assert (Lhist : length hist = length qs).
  { unfold hist. rewrite length_zip_with. lia. }
  pose proof (apply_run (H := {| np_sqrt := id; np_log1p := id |}) (MACD self) σ l df Hl) as R.
  unfold ran_at, outcome, macd_frame in R. rewrite Hc in R. cbn [rbind] in R.
  rewrite !ewm_span_ok in R by lia. cbn [rbind] in R.
  rewrite H12, H26, binop_sub_finite in R. fold line in R.
  rewrite ewm_span_ok in R by lia. cbn [rbind] in R.
  rewrite Hsg, binop_sub_finite in R. fold hist in R.
  eexists _, _, _, line, sg, hist. split; [exact R|].
  split; [apply lookup_insert_eq|].
  split; [rewrite !getitem_setitem_ne by discriminate; apply getitem_setitem_eq|].
  split; [rewrite getitem_setitem_ne by discriminate; apply getitem_setitem_eq|].
  split; [apply getitem_setitem_eq|].
  split; [exact Lline|]. split; [lia|]. split; [exact Lhist|].
  split.
  - assert (Hline0 : forall x, line !! 0%nat = Some x -> (x == 0)%Q).
    { intros x Hx. unfold line in Hx. rewrite lookup_zip_with in Hx.
      destruct (e12 !! 0%nat) as [a|] eqn:Ea; [|discriminate].
      destruct (e26 !! 0%nat) as [b|] eqn:Eb; [|discriminate].
      simpl in Hx. injection Hx as <-.
      assert (a = b) as -> by congruence.
      unfold Qminus. lra. }
    assert (Hsg0 : forall x, sg !! 0%nat = Some x -> (x == 0)%Q).
    { intros x Hx. rewrite Fsg in Hx. now apply Hline0. }
    intros x [Hx|[Hx|Hx]]; [now apply Hline0|now apply Hsg0|].
    unfold hist in Hx. rewrite lookup_zip_with in Hx.
    destruct (line !! 0%nat) as [a|] eqn:Ea; [|discriminate].
    destruct (sg !! 0%nat) as [b|] eqn:Eb; [|discriminate].
    simpl in Hx. injection Hx as <-.
    assert (b = a) as -> by congruence.
    unfold Qminus. lra.
  - intros c Hflat.
    destruct (ewm_mean_constant ((inject_Z 12 - 1) / 2) false qs c Hflat) as (c1 & E1 & K12).
    destruct (ewm_mean_constant ((inject_Z 26 - 1) / 2) false qs c Hflat) as (c2 & E2 & K26).
    rewrite H12 in K12. rewrite H26 in K26.
    assert (A12 : Forall (fun x => (x == c)%Q) e12).
    { apply Forall_forall. intros x Hx.
      assert (Hin : Fin x ∈ map Fin e12) by (apply list_elem_of_In, in_map, list_elem_of_In, Hx).
      rewrite K12 in Hin. apply elem_of_replicate in Hin as [[= ->] _]. exact E1. }
    assert (A26 : Forall (fun x => (x == c)%Q) e26).
    { apply Forall_forall. intros x Hx.
      assert (Hin : Fin x ∈ map Fin e26) by (apply list_elem_of_In, in_map, list_elem_of_In, Hx).
      rewrite K26 in Hin. apply elem_of_replicate in Hin as [[= ->] _]. exact E2. }
    assert (Aline : Forall (fun x => (x == 0)%Q) line).
    { apply Forall_lookup. intros i x Hx. unfold line in Hx. rewrite lookup_zip_with in Hx.
      destruct (e12 !! i) as [a|] eqn:Ea; [|discriminate].
      destruct (e26 !! i) as [b|] eqn:Eb; [|discriminate].
      simpl in Hx. injection Hx as <-.
      rewrite (proj1 (Forall_lookup _ _) A12 i a Ea), (proj1 (Forall_lookup _ _) A26 i b Eb).
      unfold Qminus. lra. }
    destruct (ewm_mean_constant ((inject_Z 9 - 1) / 2) false line 0%Q Aline) as (c3 & E3 & Ksg).
    rewrite Hsg in Ksg.
    assert (Asg : Forall (fun x => (x == 0)%Q) sg).
    { apply Forall_forall. intros x Hx.
      assert (Hin : Fin x ∈ map Fin sg) by (apply list_elem_of_In, in_map, list_elem_of_In, Hx).
      rewrite Ksg in Hin. apply elem_of_replicate in Hin as [[= ->] _]. exact E3. }
    split; [exact Aline|]. split; [exact Asg|].
    apply Forall_lookup. intros i x Hx. unfold hist in Hx. rewrite lookup_zip_with in Hx.
    destruct (line !! i) as [a|] eqn:Ea; [|discriminate].
    destruct (sg !! i) as [b|] eqn:Eb; [|discriminate].
    simpl in Hx. injection Hx as <-.
    rewrite (proj1 (Forall_lookup _ _) Aline i a Ea), (proj1 (Forall_lookup _ _) Asg i b Eb).
    reflexivity.
Qed.

Section EwmHistory.
#[local] Open Scope Q_scope.

Lemma decay_nonneg_Q (com : Q) : 0 <= com -> 0 <= decay com.
Proof.
  intros H0. unfold decay.
  assert (H1 : 1 / (1 + com) <= 1) by (apply Qle_shift_div_r; lra).
  lra.
Qed.

(** [ewm_mean_history] for a centre of mass that is not a whole number, as
    the one of a span is. *)
Lemma ewm_mean_history_Q (com : Q) (qs : list Q) :
  0 <= com ->
  exists ms,
    Series.ewm_mean com true (map Fin qs) = map Fin ms
    /\ length ms = length qs
    /\ forall i m, ms !! i = Some m ->
         m == weighted_mean (decay com) (rev (take (S i) qs)).
Proof.
  intros Hc. pose proof (decay_nonneg_Q com Hc) as Hf.
  destruct qs as [|x0 rest].
  - exists []. repeat split. intros i m Hm. discriminate.
  - unfold Series.ewm_mean. rewrite prep_values_finite. unfold Series.ewm. simpl map. fold (decay com).
    destruct (ewm_loop_history (decay com) rest Hf [x0] x0 1)
      as (ms & Hms & Hlen & Hrows).
    + discriminate.
    + simpl. field.
    + simpl. ring.
    + exists (x0 :: ms). split; [now rewrite Hms|].
      split; [simpl; now rewrite Hlen|].
      intros [|i] m Hm; simpl in Hm.
      * injection Hm as <-. rewrite weighted_mean_num_den. simpl. field.
      * rewrite weighted_mean_num_den.
        change (take (S (S i)) (x0 :: rest)) with (x0 :: take (S i) rest).
        simpl rev. now apply Hrows.
Qed.

End EwmHistory.

Section RollingFinite.
Context `{Numpy}.
#[local] Open Scope Q_scope.

Lemma sum_finite (qs : list Q) :
  Forall (fun q => 0 <= q) qs -> exists s, Series.sum (map Fin qs) = Fin s /\ 0 <= s.
Proof.
  induction 1 as [|q qs Hq _ (s & Hs & Hs0)]; [exists 0; split; [reflexivity|lra]|].
  exists (q + s). unfold Series.sum in *. simpl. rewrite Hs. split; [reflexivity|lra].
Qed.

Lemma sum_finite_any (qs : list Q) : exists s, Series.sum (map Fin qs) = Fin s.
Proof.
  induction qs as [|q qs (s & Hs)]; [now exists 0|].
  exists (q + s). unfold Series.sum in *. simpl. now rewrite Hs.
Qed.

Lemma count_pos (n : nat) (k : Z) :
  (k < Z.of_nat n)%Z -> Cell.Qsgn (inject_Z (Z.of_nat n) + - inject_Z k) = Gt.
Proof.
  intros Hn. apply Qsgn_pos.
  assert (inject_Z k < inject_Z (Z.of_nat n)) by (now rewrite <- Zlt_Qlt).
  lra.
Qed.

(** The sample variance of two or more finite cells is a finite cell, and
    not negative. *)
Lemma var_finite (qs : list Q) :
  (2 <= length qs)%nat -> exists v, Series.var (map Fin qs) = Fin v /\ 0 <= v.
Proof.
  intros Hn. unfold Series.var, Series.mean, Series.count.
  destruct (sum_finite_any qs) as (s & Hs). rewrite Hs, length_map.
  set (N := inject_Z (Z.of_nat (length qs))).
  assert (HN : 0 < N).
  { unfold N. change 0 with (inject_Z 0). rewrite <- Zlt_Qlt. lia. }
  cbn [Cell.div Cell.of_Z]. fold N. rewrite (Qsgn_pos N HN).
  set (m := s / N).
  assert (Hsq : map (fun x => Cell.mul (Cell.sub x (Fin m)) (Cell.sub x (Fin m))) (map Fin qs)
                = map Fin (map (fun q => (q + - m) * (q + - m)) qs)).
  { rewrite !map_map. reflexivity. }
  rewrite Hsq.
  destruct (sum_finite (map (fun q => (q + - m) * (q + - m)) qs)) as (ss & Hss & Hss0).
  { apply Forall_forall. intros x Hx. apply list_elem_of_In, in_map_iff in Hx as (q & <- & _).
    cbv beta. set (a := q + - m). nra. }
  rewrite Hss.
  change (Cell.sub (Cell.of_Z (Z.of_nat (length qs))) (Fin 1)) with (Fin (N + - 1)).
  cbn [Cell.div].
  assert (HN1 : 0 < N + - 1).
  { assert (inject_Z 1 < N) by (unfold N; rewrite <- Zlt_Qlt; lia).
    change (inject_Z 1) with 1 in *. lra. }
  rewrite (Qsgn_pos _ HN1).
  eexists. split; [reflexivity|].
  apply Qle_shift_div_l; [exact HN1|]. lra.
Qed.

Lemma filter_finite (qs : list Q) :
  List.filter (fun x => negb (Cell.isna x)) (map Fin qs) = map Fin qs.
Proof. induction qs as [|q qs IH]; simpl; [reflexivity|now rewrite IH]. Qed.

Lemma std_of_window_finite (w : nat) (qs : list Q) :
  ((length qs < Nat.max w 2)%nat -> Series.std_of_window w (map Fin qs) = NaN)
  /\ ((Nat.max w 2 <= length qs)%nat ->
      exists v, 0 <= v /\ Series.std_of_window w (map Fin qs) = Fin (np_sqrt v)).
Proof.
  unfold Series.std_of_window. rewrite filter_finite, length_map. split.
  - intros Hlt.
    destruct (Nat.leb_spec (Nat.max w 1) (length qs)), (Nat.leb_spec 2 (length qs));
      simpl; try reflexivity. lia.
  - intros Hge.
    destruct (Nat.leb_spec (Nat.max w 1) (length qs)); [|lia].
    destruct (Nat.leb_spec 2 (length qs)); [|lia]. simpl.
    destruct (var_finite qs) as (v & Hv & Hv0); [lia|].
    exists v. split; [exact Hv0|]. rewrite Hv. unfold Series.sqrt.
    assert (E : Cell.Qlt_bool v 0 = false).
    { destruct (Cell.Qlt_bool v 0) eqn:E; [|reflexivity]. apply Qlt_bool_true in E. lra. }
    now rewrite E.
Qed.

Lemma window_finite (w : nat) (qs : list Q) (i : nat) :
  Series.window w (map Fin qs) i = map Fin (drop (i + 1 - w) (take (i + 1) qs)).
Proof. unfold Series.window. now rewrite firstn_map, skipn_map. Qed.

(** The rolling deviation of finite cells: undefined while the window is
    filling, and when the window is a single row; afterwards the root of a
    variance that is not negative. *)
Lemma rolling_std_finite (w : Z) (qs : list Q) :
  (0 <= w)%Z ->
  exists sd, Series.rolling_std w (map Fin qs) = Ok sd
    /\ length sd = length qs
    /\ forall i, (i < length qs)%nat ->
         ((Z.of_nat i + 1 < w \/ w < 2)%Z -> sd !! i = Some NaN)
         /\ ((2 <= w <= Z.of_nat i + 1)%Z ->
             exists v, 0 <= v /\ sd !! i = Some (Fin (np_sqrt v))).
Proof.
  intros Hw. unfold Series.rolling_std. destruct (Z.ltb_spec w 0); [lia|].
  eexists. split; [reflexivity|]. split; [now rewrite length_imap, length_map|].
  intros i Hi.
  destruct (lookup_lt_is_Some_2 qs i Hi) as [q Hq].
  rewrite list_lookup_imap, list_lookup_fmap, Hq. simpl. rewrite window_finite.
  set (win := drop (i + 1 - Z.to_nat w) (take (i + 1) qs)).
  assert (Hlen : length win = Nat.min (Z.to_nat w) (i + 1)).
  { unfold win. rewrite length_drop, length_take. lia. }
  destruct (std_of_window_finite (Z.to_nat w) win) as [Hnan Hfin]. split.
  - intros Hsmall. f_equal. apply Hnan. lia.
  - intros Hbig. destruct Hfin as (v & Hv & ->); [lia|]. now exists v.
Qed.

(** A window of one row has no deviation, whatever the cells. *)
Lemma rolling_std_one (xs : Series) :
  Series.rolling_std 1 xs = Ok (replicate (length xs) NaN).
Proof.
  unfold Series.rolling_std. simpl. f_equal. symmetry.
  apply replicate_as_Forall. split; [apply length_imap|].
  apply Forall_lookup. intros i y Hy. rewrite list_lookup_imap in Hy.
  destruct (xs !! i) as [x|] eqn:Ex; [|discriminate]. injection Hy as <-.
  unfold Series.std_of_window. set (obs := List.filter _ _).
  assert (Hobs : (length obs <= length (Series.window (Pos.to_nat 1) xs i))%nat)
    by apply List.filter_length_le.
  unfold Series.window in Hobs. rewrite length_drop, length_take in Hobs.
  destruct (Nat.leb_spec 2 (length obs)); [lia|].
  now rewrite andb_false_r.
Qed.

End RollingFinite.

(** ** Infinite cells in a rolling window

    pandas hands the column to the rolling routine as [prep_values] leaves
    it, as it does for the weighted mean.  For the rolling deviation this
    changes nothing: a window that holds an infinite cell has no deviation
    either way. *)

Section RollingPrep.
Context `{Numpy}.
Implicit Types (xs win obs : Series).

Lemma prep_values_id xs :
  Forall (fun x => Cell.isinf x = false) xs -> Series.prep_values xs = xs.
Proof.
  unfold Series.prep_values. induction 1 as [|x xs Hx _ IH]; [reflexivity|].
  simpl. now rewrite Hx, IH.
Qed.

Lemma sum_undefined xs : NaN ∈ xs -> Series.sum xs = NaN.
Proof.
  unfold Series.sum. induction xs as [|x xs IH]; intros Hin; [inversion Hin|].
  simpl. apply elem_of_cons in Hin as [<-|Hin]; [reflexivity|].
  rewrite (IH Hin). now destruct x.
Qed.

(** The sum of defined cells, one of them infinite, is undefined or the
    infinity of a cell of the list. *)
Lemma sum_infinite obs :
  Forall (fun x => Cell.isna x = false) obs ->
  Exists (fun x => Cell.isinf x = true) obs ->
  Series.sum obs = NaN
  \/ (Series.sum obs = PInf /\ PInf ∈ obs)
  \/ (Series.sum obs = NInf /\ NInf ∈ obs).
Proof.
  unfold Series.sum. induction 1 as [|x obs Hx Hobs IH]; intros Hex; [inversion Hex|].
  simpl. destruct (decide (Exists (fun x => Cell.isinf x = true) obs)) as [Hrest|Hrest].
  - destruct (IH Hrest) as [->|[[-> Hin]|[-> Hin]]].
    + left. now destruct x.
    + destruct x; try discriminate; simpl; auto.
      * right. left. split; [reflexivity|apply elem_of_cons; now left].
      * right. left. split; [reflexivity|apply elem_of_cons; now right].
    + destruct x; try discriminate; simpl; auto.
      * right. right. split; [reflexivity|apply elem_of_cons; now left].
      * right. right. split; [reflexivity|apply elem_of_cons; now right].
  - apply Exists_cons in Hex as [Hinf|Hex]; [|contradiction].
    assert (Hfin : exists s, foldr Cell.add (Fin 0) obs = Fin s).
    { clear -Hobs Hrest. induction Hobs as [|y obs Hy _ IH]; [now exists 0%Q|].
      destruct IH as [s Hs].
      { intros Hc. apply Hrest. now apply Exists_cons_tl. }
      simpl. rewrite Hs. destruct y; try discriminate.
      - exfalso. apply Hrest. now apply Exists_cons_hd.
      - exfalso. apply Hrest. now apply Exists_cons_hd.
      - eexists. reflexivity. }
    destruct Hfin as [s ->].
    destruct x; try discriminate; simpl.
    + right. left. split; [reflexivity|apply elem_of_cons; now left].
    + right. right. split; [reflexivity|apply elem_of_cons; now left].
Qed.

Lemma var_infinite obs :
  Forall (fun x => Cell.isna x = false) obs ->
  Exists (fun x => Cell.isinf x = true) obs ->
  Series.var obs = NaN.
Proof.
  intros Hdef Hex. unfold Series.var.
  assert (Hpos : (0 < length obs)%nat).
  { destruct obs; [inversion Hex|simpl; lia]. }
  assert (Hcount : Cell.Qsgn (inject_Z (Z.of_nat (length obs))) = Gt).
  { unfold Cell.Qsgn. simpl. apply Z.compare_gt_iff. lia. }
  rewrite sum_undefined; [reflexivity|].
  apply list_elem_of_fmap.
  unfold Series.mean, Series.count, Cell.of_Z.
  destruct (sum_infinite obs Hdef Hex) as [->|[[-> Hin]|[-> Hin]]].
  - apply Exists_exists in Hex as (x & Hx & _). exists x. split; [|exact Hx].
    simpl. now destruct x.
  - exists PInf. split; [|exact Hin]. simpl. now rewrite Hcount.
  - exists NInf. split; [|exact Hin]. simpl. now rewrite Hcount.
Qed.

Lemma length_filter_defined xs :
  Exists (fun x => Cell.isinf x = true) xs ->
  (length (List.filter (fun x => negb (Cell.isna x)) (Series.prep_values xs))
   < length xs)%nat.
Proof.
  unfold Series.prep_values. induction 1 as [x xs Hx|x xs _ IH]; simpl.
  - rewrite Hx. simpl.
    pose proof (List.filter_length_le (fun x => negb (Cell.isna x))
                  (map (fun x => if Cell.isinf x then NaN else x) xs)) as Hle.
    rewrite length_map in Hle. lia.
  - destruct (negb _); simpl; lia.
Qed.

Lemma std_of_window_prep (n : nat) win :
  (length win <= n)%nat ->
  Series.std_of_window n (Series.prep_values win) = Series.std_of_window n win.
Proof.
  intros Hlen.
  destruct (decide (Exists (fun x => Cell.isinf x = true) win)) as [Hex'|Hall].
  2:{ rewrite (prep_values_id win); [reflexivity|].
      apply Forall_forall. intros x Hx. destruct (Cell.isinf x) eqn:E; [|reflexivity].
      exfalso. apply Hall, Exists_exists. eauto. }
  - unfold Series.std_of_window at 1.
    pose proof (length_filter_defined win Hex') as Hshort.
    destruct (Nat.leb_spec (Nat.max n 1)
                (length (List.filter (fun x => negb (Cell.isna x)) (Series.prep_values win))));
      [lia|].
    cbn [andb]. unfold Series.std_of_window.
    destruct (_ && _); [|reflexivity].
    rewrite var_infinite; [reflexivity| |].
    + apply Forall_forall. intros x Hx. apply list_elem_of_In, List.filter_In in Hx as [_ Hx].
      now apply negb_true_iff in Hx.
    + apply Exists_exists in Hex' as (x & Hx & Hinf). apply Exists_exists. exists x.
      split; [|exact Hinf]. apply list_elem_of_In, List.filter_In.
      split; [now apply list_elem_of_In|]. now destruct x.
Qed.

Lemma window_prep (n : nat) xs i :
  Series.window n (Series.prep_values xs) i = Series.prep_values (Series.window n xs i).
Proof.
  unfold Series.window, Series.prep_values. now rewrite firstn_map, skipn_map.
Qed.

Lemma length_window (n : nat) xs i :
  (0 < n)%nat -> (length (Series.window n xs i) <= n)%nat.
Proof.
  intros Hn. unfold Series.window. rewrite length_drop, length_take. lia.
Qed.

(** [rolling(w).std()] gives the same column whether or not the infinite
    cells are turned into undefined ones first. *)
Lemma rolling_std_prep_values (w : Z) xs :
  Series.rolling_std w (Series.prep_values xs) = Series.rolling_std w xs.
Proof.
  unfold Series.rolling_std. destruct (w <? 0); [reflexivity|]. f_equal.
  apply list_eq. intros i. rewrite !list_lookup_imap.
  unfold Series.prep_values at 2. rewrite list_lookup_fmap.
  destruct (xs !! i) as [x|]; [simpl|reflexivity]. f_equal.
  rewrite window_prep.
  destruct (Z.to_nat w) as [|n] eqn:E.
  - unfold Series.window. rewrite Nat.sub_0_r, drop_ge by (rewrite length_take; lia).
    reflexivity.
  - apply std_of_window_prep, length_window. lia.
Qed.

End RollingPrep.

(** ** Bollinger bands of finite prices *)

(** [BollingerBandsIndicator.apply] with a window of two rows or more, on a
    [Close] column of finite cells: [bollinger_mid] is finite on every row,
    the weighted mean of all prices so far; the two bands are undefined on
    the rows before the window has filled and finite from then on, at the
    same distance below and above [bollinger_mid], and in this order when the
    square root is not negative. *)
Theorem bollinger_bands_of_finite_prices `{Numpy}
    (self : BollingerBandsIndicator) (σ : heap) (l : loc) (df : DataFrame) (qs : list Q) :
  σ !! l = Some df ->
  Frame.getitem df "Close" = Ok (map Fin qs) ->
  2 <= bb_window self ->
  exists σ' l' d mid lower upper,
    apply self l σ = (σ', Ok l') /\ σ' !! l' = Some d
    /\ Frame.getitem d "bollinger_mid" = Ok (map Fin mid)
    /\ Frame.getitem d "bollinger_lower" = Ok lower
    /\ Frame.getitem d "bollinger_upper" = Ok upper
    /\ length mid = length qs /\ length lower = length qs /\ length upper = length qs
    /\ forall i m, mid !! i = Some m ->
         (m == weighted_mean (decay ((inject_Z (bb_window self) - 1) / 2))
                 (rev (take (S i) qs)))%Q
         /\ (Z.of_nat i + 1 < bb_window self ->
             lower !! i = Some NaN /\ upper !! i = Some NaN)
         /\ (bb_window self <= Z.of_nat i + 1 ->
             exists lo up,
               lower !! i = Some (Fin lo) /\ upper !! i = Some (Fin up)
               /\ (up - m == m - lo)%Q
               /\ ((forall q, 0 <= q -> 0 <= np_sqrt q)%Q -> (lo <= m <= up)%Q)).
Proof.
  intros Hl Hc Hw.
  assert (Hcom : (0 <= (inject_Z (bb_window self) - 1) / 2)%Q).
  { assert (inject_Z 2 <= inject_Z (bb_window self))%Q by (now rewrite <- Zle_Qle).
    change (inject_Z 2) with 2%Q in *. apply Qle_shift_div_l; lra. }
  destruct (ewm_mean_history_Q _ qs Hcom) as (ms & Hms & Lms & Rms).
  destruct (rolling_std_finite (bb_window self) qs ltac:(lia)) as (sd & Hsd & Lsd & Rsd).
  pose proof (apply_run (Bollinger self) σ l df Hl) as R.
  unfold ran_at, outcome, bollinger_frame in R. rewrite Hc in R. cbn [rbind] in R.
  rewrite ewm_span_ok in R by lia. cbn [rbind] in R.
  rewrite Hms, Hsd in R. cbn [rbind] in R.
  eexists _, _, _, ms, _, _. split; [exact R|].
  split; [apply lookup_insert_eq|].
  split; [rewrite !getitem_setitem_ne by discriminate; apply getitem_setitem_eq|].
  split; [rewrite getitem_setitem_ne by discriminate; apply getitem_setitem_eq|].
  split; [apply getitem_setitem_eq|].
  split; [exact Lms|].
  split; [unfold Series.binop, Series.scalar_l; rewrite length_zip_with, !length_map; lia|].
  split; [unfold Series.binop, Series.scalar_l; rewrite length_zip_with, !length_map; lia|].
  intros i m Hm.
  assert (Hi : (i < length qs)%nat) by (rewrite <- Lms; now apply lookup_lt_Some in Hm).
  destruct (Rsd i Hi) as [Hnan Hfin].
  split; [now apply Rms|].
  unfold Series.binop, Series.scalar_l.
  rewrite !lookup_zip_with, !list_lookup_fmap, Hm. split.
  - intros Hsmall. rewrite (Hnan (or_introl Hsmall)). split; reflexivity.
  - intros Hbig. destruct (Hfin ltac:(lia)) as (v & Hv & ->). simpl.
    eexists _, _. split; [reflexivity|]. split; [reflexivity|].
    split; [unfold Qminus; ring|].
    intros Hsqrt. specialize (Hsqrt v Hv). lra.
Qed.

(** ** A window of one bar *)

(** A window of one row has no standard deviation: with the time frame 1
    the volatility stage writes a column of undefined cells, and with the
    window 1 the two Bollinger bands are undefined on every row; neither
    stage fails, whatever the cells of the input. *)
Theorem one_bar_windows_give_undefined_columns `{Numpy}
    (v : VolatilityIndicator) (b : BollingerBandsIndicator)
    (σ : heap) (l : loc) (df : DataFrame) (r close : Series) :
  σ !! l = Some df ->
  Frame.getitem df "return_1" = Ok r ->
  Frame.getitem df "Close" = Ok close ->
  (vol_timeframes v = [1] ->
   exists σ' l' d,
     apply v l σ = (σ', Ok l') /\ σ' !! l' = Some d
     /\ Frame.getitem d "volatility_1" = Ok (replicate (length r) NaN))
  /\ (bb_window b = 1 ->
      exists σ' l' d,
        apply b l σ = (σ', Ok l') /\ σ' !! l' = Some d
        /\ Frame.getitem d "bollinger_lower" = Ok (replicate (length close) NaN)
        /\ Frame.getitem d "bollinger_upper" = Ok (replicate (length close) NaN)).
Proof.
  intros Hl Hr Hc. split.
  - intros Htf.
    pose proof (apply_run (Volatility v) σ l df Hl) as R.
    unfold ran_at, outcome in R. rewrite Htf in R. cbn [volatility_frame] in R.
    rewrite Hr in R. cbn [rbind] in R. rewrite rolling_std_one in R. cbn [rbind] in R.
    eexists _, _, _. split; [exact R|]. split; [apply lookup_insert_eq|].
    unfold Series.log1p. rewrite length_map.
    change (volatility_column 1) with "volatility_1". apply getitem_setitem_eq.
  - intros Hw.
    pose proof (apply_run (Bollinger b) σ l df Hl) as R.
    unfold ran_at, outcome, bollinger_frame in R. rewrite Hc, Hw in R. cbn [rbind] in R.
    rewrite ewm_span_ok in R by lia. cbn [rbind] in R.
    rewrite rolling_std_one in R. cbn [rbind] in R.
    eexists _, _, _. split; [exact R|]. split; [apply lookup_insert_eq|].
    set (mid := Series.ewm_mean _ _ _).
    assert (Lmid : length mid = length close) by apply length_ewm_mean.
    assert (Hrows : forall (f : cell -> cell -> cell),
              (forall m, f m (Cell.mul (Fin 2) NaN) = NaN) ->
              Series.binop f mid (Series.scalar_l Cell.mul (Fin 2) (replicate (length close) NaN))
              = replicate (length close) NaN).
    { intros f Hf. symmetry. apply replicate_as_Forall. unfold Series.binop, Series.scalar_l.
      split; [rewrite length_zip_with, length_map, length_replicate; lia|].
      apply Forall_lookup. intros i y Hy.
      rewrite lookup_zip_with, list_lookup_fmap in Hy.
      destruct (mid !! i) as [m|]; [|discriminate].
      destruct (replicate (length close) NaN !! i) as [s|] eqn:Es; [|discriminate].
      apply lookup_replicate in Es as [-> _]. simpl in Hy. injection Hy as <-.
      symmetry. apply Hf. }
    split.
    + rewrite getitem_setitem_ne by discriminate. rewrite getitem_setitem_eq. f_equal.
      apply Hrows. intros m. unfold Cell.sub. simpl. now destruct m.
    + rewrite getitem_setitem_eq. f_equal.
      apply Hrows. intros m. simpl. now destruct m.
Qed.

Section RsiOneSided.
#[local] Open Scope Q_scope.

Lemma rsi_cell_zero_loss (g : cell) (l : Q) : l == 0 -> rsi_cell g (Fin l) = NaN.
Proof.
  intros Hl. unfold rsi_cell.
  destruct g as [| | |g]; simpl; rewrite ?(proj1 (Qsgn_zero l) Hl); try reflexivity.
  now destruct (Cell.Qsgn g).
Qed.

Lemma rsi_cell_no_gain (g l : Q) :
  g == 0 -> l < 0 -> exists q, rsi_cell (Fin g) (Fin l) = Fin q /\ q == 0.
Proof.
  intros Hg Hl. unfold rsi_cell.
  cbn [Cell.div Cell.abs Cell.mul Cell.add Cell.signed_inf].
  rewrite (Qsgn_neg l Hl).
  cbn [Cell.div Cell.abs Cell.mul Cell.add Cell.signed_inf].
  pose proof (Qabs_nonneg (g / l)) as Habs.
  rewrite (Qsgn_pos (1 + Qabs (g / l))) by lra.
  eexists. split; [reflexivity|].
  assert (Hz : Qabs (g / l) == 0).
  { rewrite Hg. unfold Qdiv. rewrite Qmult_0_l. reflexivity. }
  rewrite Hz. field.
Qed.

Lemma num_neg f (h : list Q) :
  0 <= f -> h ≠ [] -> Forall (fun x => x < 0) h -> num f h < 0.
Proof.
  intros Hf Hne Hh. destruct h as [|x older]; [contradiction|].
  apply Forall_cons in Hh as [Hx Ho]. simpl.
  assert (Hn : num f older <= 0).
  { apply num_nonpos; [exact Hf|]. eapply Forall_impl; [exact Ho|]. intros; simpl in *; lra. }
  assert (f * num f older <= 0) by nra.
  lra.
Qed.

Lemma weighted_mean_neg f (h : list Q) :
  0 <= f -> h ≠ [] -> Forall (fun x => x < 0) h -> weighted_mean f h < 0.
Proof.
  intros Hf Hne Hh. rewrite weighted_mean_num_den.
  pose proof (den_ge_1 f h Hf Hne). pose proof (num_neg f h Hf Hne Hh).
  apply Qlt_shift_div_r; [lra|]. lra.
Qed.

Lemma negative_part_none (r : Series) :
  Forall (fun x => Cell.ltb x (Fin 0) = false) r ->
  negative_part r = map Fin (replicate (length r) 0).
Proof.
  unfold negative_part, Series.where_.
  induction 1 as [|x r Hx _ IH]; [reflexivity|]. simpl. now rewrite Hx, IH.
Qed.

Lemma replicate_of_Forall_eq (c' : Q) (xs : Series) n :
  xs = replicate n (Fin c') -> forall i x, xs !! i = Some x -> x = Fin c'.
Proof. intros -> i x Hx. now apply lookup_replicate in Hx as [-> _]. Qed.

End RsiOneSided.

(** ** The RSI of returns of one sign *)

(** [RSIIndicator.apply] with a window that is not negative: when no return
    is negative, every row of [rsi] is undefined, whatever the length, the
    window and the other cells (undefined and infinite ones included); when
    every return is a negative number, every row of [rsi] is 0. *)
Theorem rsi_of_one_sided_returns (self : RSIIndicator) (σ : heap) (l : loc)
    (df : DataFrame) (r : Series) :
  σ !! l = Some df ->
  Frame.getitem df "return_1" = Ok r ->
  0 <= rsi_window self ->
  exists σ' l' d rsi,
    apply self l σ = (σ', Ok l') /\ σ' !! l' = Some d
    /\ Frame.getitem d "rsi" = Ok rsi
    /\ length rsi = length r
    /\ (Forall (fun x => Cell.ltb x (Fin 0) = false) r ->
        rsi = replicate (length r) NaN)
    /\ (forall qs, r = map Fin qs -> Forall (fun q => (q < 0)%Q) qs ->
        Forall (fun x => exists q, x = Fin q /\ (q == 0)%Q) rsi).
Proof.
  intros Hl Hr Hw.
  pose proof (apply_run (H := {| np_sqrt := id; np_log1p := id |}) (RSI self) σ l df Hl) as R.
  unfold ran_at, outcome, rsi_frame in R. rewrite Hr in R. cbn [rbind] in R.
  unfold Series.ewm_com in R. destruct (Z.ltb_spec (rsi_window self) 0); [lia|].
  cbn [rbind] in R.
  set (gs := Series.ewm_mean _ _ (positive_part r)) in *.
  set (ls := Series.ewm_mean _ _ (negative_part r)) in *.
  assert (Lg : length gs = length r).
  { unfold gs. rewrite length_ewm_mean. unfold positive_part, Series.where_. apply length_map. }
  assert (Ll : length ls = length r).
  { unfold ls. rewrite length_ewm_mean. unfold negative_part, Series.where_. apply length_map. }
  assert (Lr : length (rsi_of (rs_of gs ls)) = length r).
  { rewrite length_rsi; lia. }
  eexists _, _, _, _. split; [exact R|].
  split; [apply lookup_insert_eq|]. split; [apply getitem_setitem_eq|].
  split; [exact Lr|]. split.
  - intros Hnone.
    destruct (ewm_mean_constant (inject_Z (rsi_window self)) true
                (replicate (length r) 0%Q) 0%Q) as (c' & Hc' & Hls).
    { apply Forall_forall. intros x Hx. apply elem_of_replicate in Hx as [-> _]. reflexivity. }
    rewrite <- negative_part_none in Hls by exact Hnone. fold ls in Hls.
    symmetry. apply replicate_as_Forall. split; [exact Lr|].
    apply Forall_lookup. intros i x Hx.
    assert (Hi : (i < length r)%nat) by (rewrite <- Lr; now apply lookup_lt_Some in Hx).
    destruct (lookup_lt_is_Some_2 gs i) as [g Hg]; [lia|].
    destruct (lookup_lt_is_Some_2 ls i) as [m Hm]; [lia|].
    rewrite (lookup_rsi gs ls i g m Hg Hm) in Hx. injection Hx as <-.
    rewrite (replicate_of_Forall_eq c' ls _ Hls i m Hm).
    symmetry. now apply rsi_cell_zero_loss.
  - intros qs -> Hneg.
    assert (Hinf : Forall (fun x => Cell.isinf x = false) (map Fin qs)).
    { apply Forall_forall. intros x Hx. apply list_elem_of_In, in_map_iff in Hx as (q & <- & _).
      reflexivity. }
    destruct (positive_part_finite _ Hinf) as [Hpos _].
    destruct (negative_part_finite _ Hinf) as [Hnegp _].
    assert (Hgain : map gain (map Fin qs) = replicate (length qs) 0%Q).
    { clear -Hneg. induction Hneg as [|q qs Hq _ IH]; [reflexivity|]. simpl. rewrite IH.
      f_equal. destruct (Cell.Qlt_bool 0 q) eqn:E; [|reflexivity].
      apply Qlt_bool_true in E. lra. }
    assert (Hloss : map loss (map Fin qs) = qs).
    { clear -Hneg. induction Hneg as [|q qs Hq _ IH]; [reflexivity|]. simpl. rewrite IH.
      f_equal. destruct (Cell.Qlt_bool q 0) eqn:E; [reflexivity|].
      assert (Cell.Qlt_bool q 0 = true) by (now apply Qlt_bool_true). congruence. }
    destruct (ewm_mean_constant (inject_Z (rsi_window self)) true
                (replicate (length qs) 0%Q) 0%Q) as (c' & Hc' & Hgs).
    { apply Forall_forall. intros x Hx. apply elem_of_replicate in Hx as [-> _]. reflexivity. }
    rewrite length_replicate in Hgs.
    rewrite <- Hgain, <- Hpos in Hgs. fold gs in Hgs.
    destruct (ewm_mean_history (rsi_window self) qs Hw) as (ms & Hms & Lms & Rms).
    rewrite <- Hloss, <- Hnegp in Hms at 1. fold ls in Hms.
    pose proof (decay_nonneg _ Hw) as Hf.
    apply Forall_lookup. intros i x Hx.
    rewrite length_map in Lr, Lg, Ll.
    assert (Hi : (i < length qs)%nat) by (rewrite <- Lr; now apply lookup_lt_Some in Hx).
    destruct (lookup_lt_is_Some_2 gs i) as [g Hg]; [lia|].
    destruct (lookup_lt_is_Some_2 ms i) as [m Hm]; [lia|].
    assert (Hm' : ls !! i = Some (Fin m)) by (rewrite Hms, list_lookup_fmap, Hm; reflexivity).
    rewrite (lookup_rsi gs ls i g (Fin m) Hg Hm') in Hx. injection Hx as <-.
    rewrite (replicate_of_Forall_eq c' gs _ Hgs i g Hg).
    apply rsi_cell_no_gain; [exact Hc'|].
    rewrite (Rms i m Hm). apply weighted_mean_neg; [exact Hf| |].
    + intros E. apply (f_equal length) in E. rewrite length_rev, length_take in E.
      change (length (@nil Q)) with 0%nat in E. lia.
    + apply Forall_rev, Forall_take, Hneg.
Qed.

(** ** An undefined return counts as a return of zero *)

Lemma positive_part_fillna (r : Series) :
  positive_part (Series.where_ (fun x => negb (Cell.isna x)) (Fin 0) r) = positive_part r.
Proof.
  unfold positive_part, Series.where_. rewrite map_map. apply map_ext.
  intros [| | |q]; reflexivity.
Qed.

Lemma negative_part_fillna (r : Series) :
  negative_part (Series.where_ (fun x => negb (Cell.isna x)) (Fin 0) r) = negative_part r.
Proof.
  unfold negative_part, Series.where_. rewrite map_map. apply map_ext.
  intros [| | |q]; reflexivity.
Qed.

Lemma rsi_column_run (self : RSIIndicator) (σ : heap) (l : loc) (df : DataFrame) :
  σ !! l = Some df ->
  rsi_column (apply self l σ)
  = match rsi_frame (rsi_window self) df with
    | Ok d => Frame.lookup_col "rsi" (columns d)
    | Raise _ => None
    end.
Proof.
  intros Hl.
  pose proof (apply_run (H := {| np_sqrt := id; np_log1p := id |}) (RSI self) σ l df Hl) as R.
  unfold ran_at, outcome in R.
  change (apply (RSI self) l σ) with (apply self l σ) in R.
  destruct (rsi_frame _ df) as [d|e].
  - rewrite R. unfold rsi_column, result_frame. now rewrite lookup_insert_eq.
  - destruct R as [R _]. unfold rsi_column, result_frame.
    destruct (apply self l σ) as [σ' x]. simpl in R. now subst x.
Qed.

(** [where] replaces an undefined return by 0 on both sides: the [rsi]
    column of a table is the one of the table whose undefined returns are
    replaced by 0, error cases included. *)
Theorem rsi_counts_an_undefined_return_as_zero (self : RSIIndicator) (σ : heap) (l : loc)
    (df : DataFrame) (r : Series) :
  σ !! l = Some df ->
  Frame.getitem df "return_1" = Ok r ->
  rsi_column
    (apply self l
       (<[l := Frame.setitem df "return_1"
                 (Series.where_ (fun x => negb (Cell.isna x)) (Fin 0) r)]> σ))
  = rsi_column (apply self l σ).
Proof.
  intros Hl Hr.
  rewrite (rsi_column_run self σ l df Hl).
  rewrite (rsi_column_run self _ l _ (lookup_insert_eq σ l _)).
  unfold rsi_frame. rewrite Hr, getitem_setitem_eq. cbn [rbind].
  rewrite positive_part_fillna, negative_part_fillna.
  destruct (Series.ewm_com _ _ (positive_part r)) as [gs|]; cbn [rbind]; [|reflexivity].
  destruct (Series.ewm_com _ _ (negative_part r)) as [ls|]; cbn [rbind]; [|reflexivity].
  now rewrite !lookup_setitem_same.
Qed.

(** ** The columns the feature loop leaves behind *)

Section FeatureColumns.
Variables (l lb : loc).
Implicit Types (I : heap -> Prop) (σ : heap).

Lemma store_stable_and I J : store_stable I -> store_stable J ->
  store_stable (fun σ => I σ /\ J σ).
Proof. intros HI HJ σ k d c s [? ?] Hk. split; [now apply HI|now apply HJ]. Qed.

Lemma store_stable_holds_at k0 Q : stable Q -> store_stable (fun σ => holds_at σ k0 Q).
Proof. intros HQ σ k d c s H Hk. now apply holds_at_setitem. Qed.

(** One read and one write of the loop body, and what follows. *)
Lemma get_set_bind I σ k c n (f : Series -> Series) (K : M unit) :
  store_stable I -> I σ ->
  holds_at σ k (fun d => Frame.has_col d c = true) ->
  exists σ',
    (let* x := Obj.getitem k c in let* _ := Obj.setitem k n (f x) in K) σ = K σ'
    /\ I σ' /\ holds_at σ' k (fun d => Frame.has_col d n = true).
Proof.
  intros HI Hσ (d & Hk & Hc).
  destruct (has_col_lookup _ _ Hc) as [x Hx].
  eexists. split.
  - erewrite bind_ok;
      [|rewrite (getitem_run _ _ _ _ Hk), getitem_lookup, Hx; reflexivity].
    erewrite bind_ok; [reflexivity|apply (setitem_run _ _ _ _ _ Hk)].
  - split; [now apply HI|].
    eexists. split; [apply lookup_insert_eq|].
    rewrite has_col_setitem, String.eqb_refl. apply orb_true_r.
Qed.

Lemma derive_features_for_columns I σ i :
  store_stable I ->
  (forall σ, I σ -> holds_at σ l has_close_volume /\ holds_at σ lb has_close_volume) ->
  I σ ->
  exists σ',
    Loader.derive_features_for l lb i σ = (σ', Ok tt)
    /\ I σ'
    /\ holds_at σ' l (fun d => Frame.has_col d (Loader.return_column i) = true)
    /\ holds_at σ' l (fun d => Frame.has_col d (Loader.volume_column i) = true)
    /\ holds_at σ' lb (fun d => Frame.has_col d (Loader.benchmark_return_column i) = true)
    /\ holds_at σ' lb (fun d => Frame.has_col d (Loader.benchmark_volume_column i) = true).
Proof.
  intros HI Hcv Hσ. unfold Loader.derive_features_for.
  assert (Hhas : forall J σ0 k c, (forall σ, J σ -> I σ) -> J σ0 ->
            (k = l \/ k = lb) -> (c = "Close" \/ c = "Volume") ->
            holds_at σ0 k (fun d => Frame.has_col d c = true)).
  { intros J σ0 k c HJ H0 Hk Hc. destruct (Hcv σ0 (HJ _ H0)) as [Ha Hb].
    assert (Hkk : holds_at σ0 k has_close_volume) by (destruct Hk; now subst).
    destruct Hkk as (d & Hd & Hcl & Hvo). exists d. split; [exact Hd|].
    destruct Hc; now subst. }
  set (F1 := fun σ => holds_at σ l (fun d => Frame.has_col d (Loader.return_column i) = true)).
  set (F2 := fun σ => holds_at σ l (fun d => Frame.has_col d (Loader.volume_column i) = true)).
  set (F3 := fun σ => holds_at σ lb
                        (fun d => Frame.has_col d (Loader.benchmark_return_column i) = true)).
  assert (S1 : store_stable F1) by apply store_stable_holds_at, stable_has_col.
  assert (S2 : store_stable F2) by apply store_stable_holds_at, stable_has_col.
  assert (S3 : store_stable F3) by apply store_stable_holds_at, stable_has_col.
  destruct (get_set_bind I σ l "Close" (Loader.return_column i) (Series.pct_change i)
              (let* v := Obj.getitem l "Volume" in
               let* _ := Obj.setitem l (Loader.volume_column i) (Series.pct_change i v) in
               let* c := Obj.getitem lb "Close" in
               let* _ := Obj.setitem lb (Loader.benchmark_return_column i)
                           (Series.pct_change i c) in
               let* v := Obj.getitem lb "Volume" in
               Obj.setitem lb (Loader.benchmark_volume_column i) (Series.pct_change i v))
              HI Hσ) as (σ1 & E1 & I1 & G1).
  { apply (Hhas I); auto. }
  rewrite E1. clear E1.
  destruct (get_set_bind (fun σ => I σ /\ F1 σ) σ1 l "Volume" (Loader.volume_column i)
              (Series.pct_change i)
              (let* c := Obj.getitem lb "Close" in
               let* _ := Obj.setitem lb (Loader.benchmark_return_column i)
                           (Series.pct_change i c) in
               let* v := Obj.getitem lb "Volume" in
               Obj.setitem lb (Loader.benchmark_volume_column i) (Series.pct_change i v)))
    as (σ2 & E2 & [I2 G1'] & G2).
  { now apply store_stable_and. }
  { now split. }
  { apply (Hhas I); auto. }
  rewrite E2. clear E2.
  destruct (get_set_bind (fun σ => (I σ /\ F1 σ) /\ F2 σ) σ2 lb "Close"
              (Loader.benchmark_return_column i) (Series.pct_change i)
              (let* v := Obj.getitem lb "Volume" in
               Obj.setitem lb (Loader.benchmark_volume_column i) (Series.pct_change i v)))
    as (σ3 & E3 & [[I3 G1''] G2'] & G3).
  { apply store_stable_and; [now apply store_stable_and|exact S2]. }
  { repeat split; assumption. }
  { apply (Hhas I); auto. }
  rewrite E3. clear E3.
  destruct (get_set_bind (fun σ => ((I σ /\ F1 σ) /\ F2 σ) /\ F3 σ) σ3 lb "Volume"
              (Loader.benchmark_volume_column i) (Series.pct_change i) (ret tt))
    as (σ4 & E4 & [[[I4 H1] H2] H3] & G4).
  { apply store_stable_and; [apply store_stable_and; [now apply store_stable_and|exact S2]|exact S3]. }
  { repeat split; assumption. }
  { apply (Hhas I); auto. }
  exists σ4. split.
  - change (σ4, Ok tt) with (ret tt σ4). rewrite <- E4. unfold bind. destruct (Obj.getitem lb "Volume" σ3) as [σa [v|e]]; [|reflexivity].
    destruct (Obj.setitem lb _ _ σa) as [σb [[]|e]]; reflexivity.
  - repeat split; assumption.
Qed.

Lemma derive_features_columns tfs : forall I σ,
  store_stable I ->
  (forall σ, I σ -> holds_at σ l has_close_volume /\ holds_at σ lb has_close_volume) ->
  I σ ->
  exists σ',
    for_ tfs (Loader.derive_features_for l lb) σ = (σ', Ok tt)
    /\ I σ'
    /\ forall i, i ∈ tfs ->
         holds_at σ' l (fun d => Frame.has_col d (Loader.return_column i) = true)
         /\ holds_at σ' l (fun d => Frame.has_col d (Loader.volume_column i) = true)
         /\ holds_at σ' lb (fun d => Frame.has_col d (Loader.benchmark_return_column i) = true)
         /\ holds_at σ' lb (fun d => Frame.has_col d (Loader.benchmark_volume_column i) = true).
Proof.
  induction tfs as [|i rest IH]; intros I σ HI Hcv Hσ.
  - exists σ. split; [reflexivity|]. split; [exact Hσ|]. intros i Hi. inversion Hi.
  - destruct (derive_features_for_columns I σ i HI Hcv Hσ) as (σ1 & E1 & I1 & A1 & A2 & A3 & A4).
    set (J := fun σ =>
      I σ
      /\ (holds_at σ l (fun d => Frame.has_col d (Loader.return_column i) = true)
          /\ holds_at σ l (fun d => Frame.has_col d (Loader.volume_column i) = true))
      /\ (holds_at σ lb (fun d => Frame.has_col d (Loader.benchmark_return_column i) = true)
          /\ holds_at σ lb (fun d => Frame.has_col d (Loader.benchmark_volume_column i) = true))).
    destruct (IH J σ1) as (σ' & E & (I' & [B1 B2] & [B3 B4]) & Hrest).
    { apply store_stable_and; [exact HI|].
      apply store_stable_and; apply store_stable_and;
        apply store_stable_holds_at, stable_has_col. }
    { intros σ0 H0. apply Hcv, H0. }
    { repeat split; assumption. }
    exists σ'. split; [simpl; now rewrite (bind_ok _ _ _ _ _ E1)|].
    split; [exact I'|].
    intros j Hj. apply elem_of_cons in Hj as [->|Hj]; [|now apply Hrest].
    repeat split; assumption.
Qed.

End FeatureColumns.

(** ** The objects a computation writes *)

Section WritesOnly.
Variable K : loc -> Prop.

Lemma writes_only_ret {A : Type} (a : A) : writes_only K (ret a).
Proof. intros σ k _. reflexivity. Qed.

Lemma writes_only_bind {A B : Type} (m : M A) (k : A -> M B) :
  writes_only K m -> (forall a, writes_only K (k a)) -> writes_only K (bind m k).
Proof.
  intros Hm Hk σ k0 Hk0. unfold bind. specialize (Hm σ k0 Hk0).
  destruct (m σ) as [σ' [a|e]]; simpl in *; [|exact Hm].
  now rewrite (Hk a σ' k0 Hk0).
Qed.

Lemma writes_only_for {A : Type} (xs : list A) (body : A -> M unit) :
  (forall x, writes_only K (body x)) -> writes_only K (for_ xs body).
Proof.
  intros Hb. induction xs as [|x xs IH]; simpl; [apply writes_only_ret|].
  apply writes_only_bind; [apply Hb|intros _; exact IH].
Qed.

Lemma writes_only_frame l : writes_only K (Obj.frame l).
Proof. intros σ k _. unfold Obj.frame. now destruct (σ !! l). Qed.

Lemma writes_only_getitem l c : writes_only K (Obj.getitem l c).
Proof.
  apply writes_only_bind; [apply writes_only_frame|]. intros df σ k _. reflexivity.
Qed.

Lemma writes_only_setitem l c s : K l -> writes_only K (Obj.setitem l c s).
Proof.
  intros Hl. apply writes_only_bind; [apply writes_only_frame|].
  intros df σ k Hk. unfold Obj.store. simpl. apply lookup_insert_ne.
  intros ->. contradiction.
Qed.

Lemma writes_only_inplace f l : K l -> writes_only K (Obj.inplace f l).
Proof.
  intros Hl. apply writes_only_bind; [apply writes_only_frame|].
  intros df σ k Hk. unfold Obj.store. simpl. apply lookup_insert_ne.
  intros ->. contradiction.
Qed.

End WritesOnly.

Lemma features_write_into_the_two_frames (self : DataLoader) (l lb : loc) :
  writes_only (fun k => k = l \/ k = lb)
    (let* _ := Loader.derive_target l in Loader.derive_features self l lb).
Proof.
  apply writes_only_bind.
  - unfold Loader.derive_target. apply writes_only_bind; [apply writes_only_getitem|].
    intros c. apply writes_only_setitem. now left.
  - intros _. unfold Loader.derive_features. apply writes_only_for. intros i.
    unfold Loader.derive_features_for.
    repeat first
      [ apply writes_only_setitem; tauto
      | apply writes_only_getitem
      | apply writes_only_bind; [|intros ?] ].
Qed.

Lemma clean_writes_into_its_frame (l : loc) : writes_only (fun k => k = l) (Loader.clean l).
Proof.
  unfold Loader.clean.
  repeat first
    [ apply writes_only_inplace; reflexivity
    | apply writes_only_bind; [|intros ?] ].
Qed.

Section LoadColumns.
Implicit Types (d a b : DataFrame) (n : string).

Lemma has_col_names d n : Frame.has_col d n = true <-> n ∈ Frame.names d.
Proof.
  unfold Frame.has_col, Frame.names. rewrite bool_decide_eq_true.
  destruct (Frame.lookup_col n (columns d)) as [s|] eqn:E.
  - split; [intros _|intros _; eauto].
    destruct (decide (n ∈ map fst (columns d))) as [Hin|Hout]; [exact Hin|].
    apply lookup_col_None in Hout. congruence.
  - split; [intros [s Hs]; discriminate|].
    intros Hin. apply lookup_col_None in E. contradiction.
Qed.

Lemma names_map_columns f d : Frame.names (Frame.map_columns f d) = Frame.names d.
Proof.
  unfold Frame.names, Frame.map_columns. simpl. rewrite map_map.
  apply map_ext. now intros [n s].
Qed.

Lemma names_dropna d : Frame.names (Frame.dropna d) = Frame.names d.
Proof.
  unfold Frame.names, Frame.dropna. simpl. rewrite map_map.
  apply map_ext. now intros [n s].
Qed.

Lemma names_cleaned d : Frame.names (cleaned d) = Frame.names d.
Proof.
  unfold cleaned, Frame.replace_inf, Frame.interpolate.
  now rewrite names_dropna, !names_map_columns.
Qed.

Lemma names_merge_left a b :
  Frame.names (Frame.merge_left a b)
  = (map (Frame.suffixed (Frame.names b) "_x") (Frame.names a)
     ++ map (Frame.suffixed (Frame.names a) "_y") (Frame.names b))%list.
Proof.
  unfold Frame.names, Frame.merge_left. simpl. rewrite map_app, !map_map.
  f_equal; apply map_ext; now intros [n s].
Qed.

(** A column of the left frame whose name the right frame does not have
    keeps its name in the join. *)
Lemma has_col_merge_left a b n :
  Frame.has_col a n = true -> n ∉ Frame.names b ->
  Frame.has_col (Frame.merge_left a b) n = true.
Proof.
  rewrite !has_col_names, names_merge_left. intros Hin Hout.
  apply elem_of_app. left. apply list_elem_of_In, in_map_iff.
  exists n. split; [now apply suffixed_absent|now apply list_elem_of_In].
Qed.

Lemma has_col_cleaned d n : Frame.has_col (cleaned d) n = Frame.has_col d n.
Proof.
  destruct (Frame.has_col d n) eqn:E.
  - apply has_col_names. rewrite names_cleaned. now apply has_col_names.
  - destruct (Frame.has_col (cleaned d) n) eqn:E'; [|reflexivity].
    apply has_col_names in E'. rewrite names_cleaned in E'. apply has_col_names in E'.
    congruence.
Qed.

Lemma unprefixed_not_benchmark b n :
  Loader.is_benchmark_column n = false -> n ∉ Frame.names (Loader.benchmark_columns b).
Proof. intros Hp Hin. apply benchmark_name_prefixed in Hin. congruence. Qed.

End LoadColumns.

(** ** The return columns the feature loop leaves behind *)

Section LoadValues.
Variables (l lb : loc) (close : Series).
Implicit Types (σ : heap) (done : list Z) (d : DataFrame).

Lemma return_column_inj i j : Loader.return_column i = Loader.return_column j -> i = j.
Proof.
  unfold Loader.return_column. intros E.
  apply (inj (String.app "return_")) in E. now apply (inj pretty) in E.
Qed.

Lemma returns_kept_weaken done done' σ :
  (forall j, j ∈ done' -> j ∈ done) ->
  returns_kept l close done σ -> returns_kept l close done' σ.
Proof.
  intros Hsub (d & Hd & Hc & Hk). exists d. split; [exact Hd|]. split; [exact Hc|].
  intros j Hj. apply Hk, Hsub, Hj.
Qed.

(** A write under a name that is neither [Close] nor a return column. *)
Lemma returns_kept_setitem done σ k d n v :
  returns_kept l close done σ -> σ !! k = Some d ->
  n <> "Close" -> (forall j, n <> Loader.return_column j) ->
  returns_kept l close done (<[k := Frame.setitem d n v]> σ).
Proof.
  intros (d0 & Hd0 & Hc & Hk) Hkd Hn Hr.
  destruct (decide (k = l)) as [->|Hne].
  - assert (d0 = d) as -> by congruence.
    exists (Frame.setitem d n v). rewrite lookup_insert_eq. split; [reflexivity|].
    simpl. rewrite !lookup_assign_col.
    destruct (String.eqb_spec n "Close") as [E|_]; [contradiction|].
    split; [exact Hc|]. intros j Hj. rewrite lookup_assign_col.
    destruct (String.eqb_spec n (Loader.return_column j)) as [E|_]; [now apply Hr in E|].
    now apply Hk.
  - exists d0. rewrite lookup_insert_ne by exact Hne. repeat split; assumption.
Qed.

(** The write of the return column of horizon [i]. *)
Lemma returns_kept_return done σ d i :
  returns_kept l close done σ -> σ !! l = Some d ->
  returns_kept l close (i :: done)
    (<[l := Frame.setitem d (Loader.return_column i) (Series.pct_change i close)]> σ).
Proof.
  intros (d0 & Hd0 & Hc & Hk) Hd. assert (d0 = d) as -> by congruence.
  eexists. rewrite lookup_insert_eq. split; [reflexivity|].
  simpl. rewrite lookup_assign_col. split; [exact Hc|].
  intros j Hj. rewrite lookup_assign_col.
  destruct (String.eqb_spec (Loader.return_column i) (Loader.return_column j)) as [E|Hne].
  - apply return_column_inj in E. now subst.
  - apply elem_of_cons in Hj as [->|Hj]; [contradiction|now apply Hk].
Qed.

Lemma get_set_eq σ k d c x n (f : Series -> Series) (K : M unit) :
  σ !! k = Some d -> Frame.lookup_col c (columns d) = Some x ->
  (let* y := Obj.getitem k c in let* _ := Obj.setitem k n (f y) in K) σ
  = K (<[k := Frame.setitem d n (f x)]> σ).
Proof.
  intros Hk Hx.
  erewrite bind_ok; [|rewrite (getitem_run _ _ _ _ Hk), getitem_lookup, Hx; reflexivity].
  erewrite bind_ok; [reflexivity|apply (setitem_run _ _ _ _ _ Hk)].
Qed.

(** A read of [Close] or [Volume] and a write under another derived name. *)
Lemma values_step done σ k c n (f : Series -> Series) (K : M unit) :
  returns_kept l close done σ ->
  holds_at σ l has_close_volume -> holds_at σ lb has_close_volume ->
  k = l \/ k = lb -> c = "Close" \/ c = "Volume" ->
  n <> "Close" -> (forall j, n <> Loader.return_column j) ->
  exists σ',
    (let* y := Obj.getitem k c in let* _ := Obj.setitem k n (f y) in K) σ = K σ'
    /\ returns_kept l close done σ'
    /\ holds_at σ' l has_close_volume /\ holds_at σ' lb has_close_volume.
Proof.
  intros HR HA HB Hk Hc Hn Hr.
  assert (Hkk : holds_at σ k has_close_volume) by (destruct Hk; now subst).
  destruct Hkk as (d & Hd & Hcl & Hvo).
  assert (Hcol : Frame.has_col d c = true) by (destruct Hc; now subst).
  destruct (has_col_lookup _ _ Hcol) as [x Hx].
  eexists. split; [apply (get_set_eq σ k d c x n f K Hd Hx)|].
  split; [now apply returns_kept_setitem|].
  split; apply holds_at_setitem; auto using stable_close_volume.
Qed.

Lemma derive_features_for_values done σ i :
  returns_kept l close done σ ->
  holds_at σ l has_close_volume -> holds_at σ lb has_close_volume ->
  exists σ',
    Loader.derive_features_for l lb i σ = (σ', Ok tt)
    /\ returns_kept l close (i :: done) σ'
    /\ holds_at σ' l has_close_volume /\ holds_at σ' lb has_close_volume.
Proof.
  intros HR HA HB. unfold Loader.derive_features_for.
  pose proof HR as (d & Hd & Hc & _).
  rewrite (get_set_eq σ l d "Close" close _ (Series.pct_change i) _ Hd Hc).
  assert (HR1 := returns_kept_return done σ d i HR Hd).
  assert (HA1 : holds_at (<[l := Frame.setitem d (Loader.return_column i)
                                   (Series.pct_change i close)]> σ) l has_close_volume)
    by (apply holds_at_setitem; auto using stable_close_volume).
  assert (HB1 : holds_at (<[l := Frame.setitem d (Loader.return_column i)
                                   (Series.pct_change i close)]> σ) lb has_close_volume)
    by (apply holds_at_setitem; auto using stable_close_volume).
  destruct (values_step (i :: done) _ l "Volume" (Loader.volume_column i)
              (Series.pct_change i)
              (let* c := Obj.getitem lb "Close" in
               let* _ := Obj.setitem lb (Loader.benchmark_return_column i)
                           (Series.pct_change i c) in
               let* v := Obj.getitem lb "Volume" in
               Obj.setitem lb (Loader.benchmark_volume_column i) (Series.pct_change i v))
              HR1 HA1 HB1) as (σ2 & E2 & HR2 & HA2 & HB2);
    [auto|auto|discriminate|intros j; discriminate|].
  rewrite E2. clear E2.
  destruct (values_step (i :: done) σ2 lb "Close" (Loader.benchmark_return_column i)
              (Series.pct_change i)
              (let* v := Obj.getitem lb "Volume" in
               Obj.setitem lb (Loader.benchmark_volume_column i) (Series.pct_change i v))
              HR2 HA2 HB2) as (σ3 & E3 & HR3 & HA3 & HB3);
    [auto|auto|discriminate|intros j; discriminate|].
  rewrite E3. clear E3.
  destruct (values_step (i :: done) σ3 lb "Volume" (Loader.benchmark_volume_column i)
              (Series.pct_change i) (ret tt) HR3 HA3 HB3) as (σ4 & E4 & HR4 & HA4 & HB4);
    [auto|auto|discriminate|intros j; discriminate|].
  exists σ4. split; [|repeat split; assumption].
  change (σ4, Ok tt) with (ret tt σ4). rewrite <- E4. unfold bind.
  destruct (Obj.getitem lb "Volume" σ3) as [σa [v|e]]; [|reflexivity].
  destruct (Obj.setitem lb _ _ σa) as [σb [[]|e]]; reflexivity.
Qed.

Lemma derive_features_values tfs : forall done σ,
  returns_kept l close done σ ->
  holds_at σ l has_close_volume -> holds_at σ lb has_close_volume ->
  exists σ',
    for_ tfs (Loader.derive_features_for l lb) σ = (σ', Ok tt)
    /\ returns_kept l close (tfs ++ done) σ'.
Proof.
  induction tfs as [|i rest IH]; intros done σ HR HA HB.
  - exists σ. split; [reflexivity|exact HR].
  - destruct (derive_features_for_values done σ i HR HA HB) as (σ1 & E1 & HR1 & HA1 & HB1).
    destruct (IH (i :: done) σ1 HR1 HA1 HB1) as (σ' & E & HR').
    exists σ'. split; [simpl; now rewrite (bind_ok _ _ _ _ _ E1)|].
    eapply returns_kept_weaken; [|exact HR'].
    intros j Hj. rewrite elem_of_app, !elem_of_cons in *. tauto.
Qed.

End LoadValues.

(** ** When the cleaning leaves no row *)

Section EmptyTable.
Implicit Types (xs s : Series) (d a b : DataFrame) (n : string).

Lemma next_valid_none xs : Forall (fun x => x = NaN) xs -> Series.next_valid xs = None.
Proof. induction 1 as [|x xs -> _ IH]; simpl; [reflexivity|now rewrite IH]. Qed.

(** A column without a defined cell has nothing to interpolate from. *)
Lemma interpolate_undefined xs :
  Forall (fun x => x = NaN) xs -> Series.interpolate xs = xs.
Proof.
  unfold Series.interpolate.
  induction 1 as [|x xs -> Hxs IH]; [reflexivity|].
  cbn [Series.interpolate_from Cell.isna]. rewrite (next_valid_none xs Hxs).
  simpl option_map. now rewrite IH.
Qed.

Lemma replace_inf_undefined xs :
  Forall (fun x => x = NaN) xs -> Series.replace_inf xs = xs.
Proof.
  unfold Series.replace_inf. induction 1 as [|x xs -> _ IH]; [reflexivity|].
  simpl. now rewrite IH.
Qed.

Lemma row_complete_false d i :
  Frame.row_complete d i = false <->
  exists n s, (n, s) ∈ columns d /\ Cell.isna (default NaN (s !! i)) = true.
Proof.
  unfold Frame.row_complete. split.
  - intros Hf. induction (columns d) as [|[n s] rest IH]; [discriminate|].
    simpl in Hf. apply andb_false_iff in Hf as [Hs|Hrest].
    + exists n, s. split; [apply elem_of_cons; now left|].
      now apply negb_false_iff in Hs.
    + destruct (IH Hrest) as (n' & s' & Hin & Hna).
      exists n', s'. split; [apply elem_of_cons; now right|exact Hna].
  - intros (n & s & Hin & Hna). induction (columns d) as [|[n0 s0] rest IH].
    + inversion Hin.
    + simpl. apply andb_false_iff. apply elem_of_cons in Hin as [[= <- <-]|Hin].
      * left. now rewrite Hna.
      * right. now apply IH.
Qed.

Lemma elem_of_map_columns (f : Series -> Series) d n s :
  (n, s) ∈ columns d -> (n, f s) ∈ columns (Frame.map_columns f d).
Proof.
  intros Hin. simpl. apply list_elem_of_fmap. exists (n, s). now split.
Qed.

(** A column of undefined cells only is still one after interpolation and
    replacement, and then no row is complete. *)
Lemma undefined_column_empties d n s :
  (n, s) ∈ columns d -> Forall (fun x => x = NaN) s ->
  Frame.nrows (cleaned d) = 0%nat.
Proof.
  intros Hin Hs. unfold cleaned. apply dropna_empty. intros i _.
  apply row_complete_false. exists n, (Series.replace_inf (Series.interpolate s)). split.
  - unfold Frame.replace_inf, Frame.interpolate. now do 2 apply elem_of_map_columns.
  - rewrite (interpolate_undefined s Hs), (replace_inf_undefined s Hs).
    destruct (s !! i) as [x|] eqn:E; [|reflexivity]. simpl.
    rewrite Forall_forall in Hs. rewrite (Hs x); [reflexivity|].
    apply list_elem_of_lookup. eauto.
Qed.

Lemma take_left_undefined (plan : list (nat * option nat)) s :
  Forall (fun x => x = NaN) s -> Forall (fun x => x = NaN) (Frame.take_left NaN plan s).
Proof.
  intros Hs. unfold Frame.take_left. apply Forall_forall. intros x Hx.
  apply list_elem_of_In, in_map_iff in Hx as ([i oj] & <- & _).
  destruct (s !! i) as [y|] eqn:E; [|reflexivity]. simpl.
  rewrite Forall_forall in Hs. apply Hs. apply list_elem_of_lookup. eauto.
Qed.

Lemma take_right_unmatched (plan : list (nat * option nat)) s :
  Forall (fun p => snd p = None) plan ->
  Forall (fun x => x = NaN) (Frame.take_right plan s).
Proof.
  intros Hp. unfold Frame.take_right. apply Forall_forall. intros x Hx.
  apply list_elem_of_In, in_map_iff in Hx as ([i oj] & <- & Hin).
  rewrite Forall_forall in Hp. apply list_elem_of_In in Hin.
  specialize (Hp _ Hin). simpl in Hp. now subst.
Qed.

(** Without a common timestamp no left row finds a partner. *)
Lemma join_plan_disjoint (lidx ridx : list Z) :
  (forall t, t ∈ lidx -> t ∉ ridx) ->
  Forall (fun p => snd p = None) (Frame.join_plan lidx ridx).
Proof.
  intros Hdis. apply Forall_forall. intros p Hp. unfold Frame.join_plan in Hp.
  apply list_elem_of_In, in_flat_map in Hp as ([i t] & Hit & Hp).
  apply list_elem_of_In, elem_of_lookup_imap in Hit as (j & u & [= -> ->] & Hu).
  rewrite (positions_absent u ridx) in Hp.
  - destruct Hp as [<-|[]]. reflexivity.
  - apply Hdis. apply list_elem_of_lookup. eauto.
Qed.

Lemma merge_left_left_column a b n s :
  (n, s) ∈ columns a ->
  (Frame.suffixed (Frame.names b) "_x" n,
   Frame.take_left NaN (Frame.join_plan (index a) (index b)) s)
  ∈ columns (Frame.merge_left a b).
Proof.
  intros Hin. unfold Frame.merge_left. cbn [columns]. apply elem_of_app. left.
  apply list_elem_of_fmap. exists (n, s). now split.
Qed.

Lemma merge_left_right_column a b n s :
  (n, s) ∈ columns b ->
  (Frame.suffixed (Frame.names a) "_y" n,
   Frame.take_right (Frame.join_plan (index a) (index b)) s)
  ∈ columns (Frame.merge_left a b).
Proof.
  intros Hin. unfold Frame.merge_left. cbn [columns]. apply elem_of_app. right.
  apply list_elem_of_fmap. exists (n, s). now split.
Qed.

Lemma benchmark_return_prefixed i :
  Loader.is_benchmark_column (Loader.benchmark_return_column i) = true.
Proof. reflexivity. Qed.

End EmptyTable.

(** [load] with the frames the feature loop leaves behind: the rows of the
    two frames, the return columns of the asset frame, and the benchmark
    return columns of the benchmark frame. *)
Lemma load_run_merged (self : DataLoader) (σ σ1 σ2 : heap) (l lb : loc)
    (a b : DataFrame) (close : Series) :
  Loader._download self (asset self) σ = (σ1, Ok l) ->
  Loader._download self (benchmark_asset self) σ1 = (σ2, Ok lb) ->
  σ2 !! l = Some a -> σ2 !! lb = Some b ->
  has_close_volume a -> has_close_volume b ->
  Frame.getitem a "Close" = Ok close ->
  exists σf a' b',
    (let* _ := Loader.derive_target l in Loader.derive_features self l lb) σ2 = (σf, Ok tt)
    /\ σf !! l = Some a' /\ σf !! lb = Some b'
    /\ index a' = index a /\ index b' = index b
    /\ (forall i, i ∈ timeframes self ->
          Frame.lookup_col (Loader.return_column i) (columns a')
          = Some (Series.pct_change i close))
    /\ (forall i, i ∈ timeframes self ->
          Frame.has_col b' (Loader.benchmark_return_column i) = true)
    /\ Loader.load self σ
       = (<[fresh (dom σf) := cleaned (Frame.merge_left a' (Loader.benchmark_columns b'))]> σf,
          Ok (fresh (dom σf))).
Proof.
  intros D1 D2 Hl Hb Ca Cb Hget.
  pose proof (derive_target_run σ2 l a close Hl Hget) as T.
  set (a1 := Frame.setitem a "forward_return" (Loader.forward_return close)) in T.
  set (QA := fun d => has_close_volume d /\ index d = index a).
  set (QB := fun d => has_close_volume d /\ index d = index b).
  set (I := fun σ => holds_at σ l QA /\ holds_at σ lb QB).
  assert (SA : stable QA) by (apply stable_and; [apply stable_close_volume|apply stable_index]).
  assert (SB : stable QB) by (apply stable_and; [apply stable_close_volume|apply stable_index]).
  assert (SI : store_stable I) by (apply store_stable_and; now apply store_stable_holds_at).
  assert (I1 : I (<[l := a1]> σ2)).
  { split.
    - exists a1. rewrite lookup_insert_eq. split; [reflexivity|].
      split; [now apply stable_close_volume|reflexivity].
    - apply holds_at_setitem; [exact SB| |exact Hl]. exists b. now split. }
  assert (Hcv : forall σ0, I σ0 ->
            holds_at σ0 l has_close_volume /\ holds_at σ0 lb has_close_volume).
  { intros σ0 [(d & Hd & Qd & _) (e & He & Qe & _)].
    split; [exists d|exists e]; now split. }
  assert (R1 : returns_kept l close [] (<[l := a1]> σ2)).
  { exists a1. rewrite lookup_insert_eq. split; [reflexivity|]. split.
    - unfold a1. simpl. rewrite lookup_assign_col. simpl.
      rewrite getitem_lookup in Hget.
      destruct (Frame.lookup_col "Close" (columns a)); [congruence|discriminate].
    - intros j Hj. inversion Hj. }
  destruct (derive_features_columns l lb (timeframes self) I _ SI Hcv I1)
    as (σf & F & [(a' & Hl' & _ & Ia') (b' & Hb' & _ & Ib')] & Cols).
  destruct (derive_features_values l lb close (timeframes self) [] _ R1
              (proj1 (Hcv _ I1)) (proj2 (Hcv _ I1))) as (σf' & F' & HR).
  assert (σf' = σf) as -> by congruence.
  destruct HR as (d & Hd & _ & Hrets). assert (d = a') as -> by congruence.
  exists σf, a', b'.
  split; [rewrite (bind_ok _ _ _ _ _ T); exact F|].
  split; [exact Hl'|]. split; [exact Hb'|]. split; [exact Ia'|]. split; [exact Ib'|].
  split; [intros i Hi; apply Hrets; apply elem_of_app; now left|].
  split.
  - intros i Hi. destruct (Cols i Hi) as (_ & _ & (d3 & E3 & R3) & _).
    assert (d3 = b') as -> by congruence. exact R3.
  - unfold Loader.load.
    rewrite (bind_ok _ _ _ _ _ D1), (bind_ok _ _ _ _ _ D2).
    rewrite (bind_ok _ _ _ _ _ T).
    unfold Loader.derive_features. rewrite (bind_ok _ _ _ _ _ F).
    rewrite (bind_ok _ _ _ _ _ (merge_benchmark_run _ _ _ _ _ Hl' Hb')).
    erewrite bind_ok; [|apply clean_run, lookup_insert_eq].
    unfold ret. now rewrite insert_insert_eq.
Qed.

(** C5 (as amended).  [load] never raises [EmptyResult].  When both
    downloads deliver frames with [Close] and [Volume], it returns the
    merge of the two frames, as the feature derivation left them, after
    interpolation, replacement of the infinities and [dropna], also when no
    row is left: the table returned is empty exactly when every row of the
    merge still holds an undefined cell after interpolation and replacement.
    That is so as soon as one column of the merge has no defined cell, as
    the return column of a horizon at least as long as the history has, and
    as every benchmark column has when the two frames share no timestamp.
    A merge whose columns each hold a defined cell and no infinite one loses
    no row. *)
Theorem C5_load_returns_the_empty_table
    (self : DataLoader) (σ σ1 σ2 : heap) (l lb : loc) (a b : DataFrame) (close : Series) :
  Loader._download self (asset self) σ = (σ1, Ok l) ->
  Loader._download self (benchmark_asset self) σ1 = (σ2, Ok lb) ->
  σ2 !! l = Some a -> σ2 !! lb = Some b ->
  has_close_volume a -> has_close_volume b ->
  Frame.getitem a "Close" = Ok close ->
  (forall σ0, snd (Loader.load self σ0) ≠ Raise EmptyResult)
  /\ exists σf a' b' merged m,
       (let* _ := Loader.derive_target l in Loader.derive_features self l lb) σ2
       = (σf, Ok tt)
       /\ σf !! l = Some a' /\ σf !! lb = Some b'
       /\ merged = Frame.merge_left a' (Loader.benchmark_columns b')
       /\ m = Frame.replace_inf (Frame.interpolate merged)
       /\ Loader.load self σ
          = (<[fresh (dom σf) := Frame.dropna m]> σf, Ok (fresh (dom σf)))
       /\ (Frame.nrows (Frame.dropna m) = 0%nat <->
           forall i, (i < Frame.nrows merged)%nat ->
             exists n s, (n, s) ∈ columns m /\ Cell.isna (default NaN (s !! i)) = true)
       /\ (forall n s, (n, s) ∈ columns merged -> Forall (fun x => x = NaN) s ->
             Frame.nrows (Frame.dropna m) = 0%nat)
       /\ (forall i, i ∈ timeframes self -> Z.of_nat (length close) <= Z.abs i ->
             Frame.nrows (Frame.dropna m) = 0%nat)
       /\ (timeframes self ≠ [] -> (forall t, t ∈ index a -> t ∉ index b) ->
             Frame.nrows (Frame.dropna m) = 0%nat)
       /\ (fillable merged -> Frame.nrows (Frame.dropna m) = Frame.nrows merged).
Proof.
  intros D1 D2 Hl Hb Ca Cb Hget. split.
  - intros σ0 He. now apply load_errors in He.
  - destruct (load_run_merged self σ σ1 σ2 l lb a b close D1 D2 Hl Hb Ca Cb Hget)
      as (σf & a' & b' & F & Hl' & Hb' & Ia & Ib & Hret & Hben & L).
    exists σf, a', b', (Frame.merge_left a' (Loader.benchmark_columns b')),
           (Frame.replace_inf (Frame.interpolate
              (Frame.merge_left a' (Loader.benchmark_columns b')))).
    set (merged := Frame.merge_left a' (Loader.benchmark_columns b')).
    fold (cleaned merged).
    split; [exact F|]. split; [exact Hl'|]. split; [exact Hb'|].
    split; [reflexivity|]. split; [reflexivity|]. split; [exact L|].
    split.
    { unfold cleaned. rewrite dropna_empty.
      change (Frame.nrows (Frame.replace_inf (Frame.interpolate merged)))
        with (Frame.nrows merged).
      split; intros Hrows i Hi; apply row_complete_false, Hrows, Hi. }
    split; [intros n s; apply undefined_column_empties|].
    split.
    { intros i Hi Hlong.
      pose proof (lookup_col_Some_elem _ _ _ (Hret i Hi)) as Hcol.
      eapply undefined_column_empties.
      - apply merge_left_left_column. exact Hcol.
      - apply take_left_undefined, pct_change_beyond, Hlong. }
    split.
    { intros Hne Hdis.
      destruct (timeframes self) as [|i rest]; [contradiction|].
      assert (Hi : i ∈ i :: rest) by (apply elem_of_cons; now left).
      destruct (has_col_lookup _ _ (Hben i Hi)) as [s Hs].
      pose proof (lookup_benchmark_columns b' _ s (benchmark_return_prefixed i) Hs) as Hs'.
      apply lookup_col_Some_elem in Hs'.
      eapply undefined_column_empties.
      - apply merge_left_right_column. exact Hs'.
      - apply take_right_unmatched, join_plan_disjoint.
        change (index (Loader.benchmark_columns b')) with (index b').
        rewrite Ia, Ib. exact Hdis. }
    intros Hfill. unfold Frame.nrows. now rewrite (cleaned_keeps_all_rows merged Hfill).
Qed.

(** C5, the claim as stated: with a horizon of 2 on a history of 2 rows the
    cleaning removes every row, and [load] returns the empty table. *)
Lemma C5_empty_table_is_returned_silently :
  snd (Loader.load (scenario_loader 2 [2]) ∅) = Ok 3%positive
  /\ Frame.nrows <$> result_frame (Loader.load (scenario_loader 2 [2]) ∅) = Some 0%nat.
Proof. split; vm_compute; reflexivity. Qed.

(** ** The table [load] returns *)

(** [load_run] with the columns of the two frames after the feature loop,
    and with the objects the loop has left alone. *)
Lemma load_run_columns (self : DataLoader) (σ σ1 σ2 : heap) (l lb : loc) (a b : DataFrame) :
  Loader._download self (asset self) σ = (σ1, Ok l) ->
  Loader._download self (benchmark_asset self) σ1 = (σ2, Ok lb) ->
  σ2 !! l = Some a -> σ2 !! lb = Some b ->
  has_close_volume a -> has_close_volume b ->
  exists σf a' b',
    σf !! l = Some a' /\ σf !! lb = Some b'
    /\ has_close_volume a' /\ has_close_volume b'
    /\ Frame.has_col a' "forward_return" = true
    /\ (forall n, Frame.has_col a n = true -> Frame.has_col a' n = true)
    /\ (forall i, i ∈ timeframes self ->
          Frame.has_col a' (Loader.return_column i) = true
          /\ Frame.has_col a' (Loader.volume_column i) = true
          /\ Frame.has_col b' (Loader.benchmark_return_column i) = true
          /\ Frame.has_col b' (Loader.benchmark_volume_column i) = true)
    /\ (forall k, k ≠ l -> k ≠ lb -> σf !! k = σ2 !! k)
    /\ Loader.load self σ
       = (<[fresh (dom σf) := cleaned (Frame.merge_left a' (Loader.benchmark_columns b'))]> σf,
          Ok (fresh (dom σf))).
Proof.
  intros D1 D2 Hl Hb Ca Cb.
  destruct (has_col_lookup _ _ (proj1 Ca)) as [close Hclose].
  assert (Hget : Frame.getitem a "Close" = Ok close)
    by (rewrite getitem_lookup, Hclose; reflexivity).
  pose proof (derive_target_run σ2 l a close Hl Hget) as T.
  set (a1 := Frame.setitem a "forward_return" (Loader.forward_return close)) in T.
  set (QA := fun d => has_close_volume d /\ Frame.has_col d "forward_return" = true
                      /\ forall n, Frame.has_col a n = true -> Frame.has_col d n = true).
  set (I := fun σ => holds_at σ l QA /\ holds_at σ lb has_close_volume).
  assert (SA : stable QA).
  { apply stable_and; [apply stable_close_volume|].
    apply stable_and; [apply stable_has_col|].
    intros d c s Hd n Hn. rewrite has_col_setitem, (Hd n Hn). reflexivity. }
  assert (SI : store_stable I).
  { apply store_stable_and; apply store_stable_holds_at;
      [exact SA|apply stable_close_volume]. }
  assert (I1 : I (<[l := a1]> σ2)).
  { split.
    - exists a1. rewrite lookup_insert_eq. split; [reflexivity|].
      split; [now apply stable_close_volume|].
      split; [unfold a1; rewrite has_col_setitem, String.eqb_refl; apply orb_true_r|].
      intros n Hn. unfold a1. rewrite has_col_setitem, Hn. reflexivity.
    - apply holds_at_setitem; [apply stable_close_volume| |exact Hl].
      exists b. now split. }
  assert (Hcv : forall σ0, I σ0 ->
            holds_at σ0 l has_close_volume /\ holds_at σ0 lb has_close_volume).
  { intros σ0 [(d & Hd & Qd & _) Hbb]. split; [|exact Hbb]. exists d. now split. }
  destruct (derive_features_columns l lb (timeframes self) I _ SI Hcv I1)
    as (σf & F & [(a' & Hl' & Ca' & Fa' & Ka') (b' & Hb' & Cb')] & Cols).
  exists σf, a', b'.
  split; [exact Hl'|]. split; [exact Hb'|]. split; [exact Ca'|]. split; [exact Cb'|].
  split; [exact Fa'|]. split; [exact Ka'|]. split; [|split].
  - intros i Hi.
    destruct (Cols i Hi) as ((d1 & E1 & R1) & (d2 & E2 & R2) & (d3 & E3 & R3) & (d4 & E4 & R4)).
    assert (d1 = a') by congruence. assert (d2 = a') by congruence.
    assert (d3 = b') by congruence. assert (d4 = b') by congruence. subst.
    repeat split; assumption.
  - intros k H1 H2.
    pose proof (features_write_into_the_two_frames self l lb σ2 k) as W.
    unfold Loader.derive_features in W.
    rewrite (bind_ok _ _ _ _ _ T), F in W. apply W. tauto.
  - unfold Loader.load.
    rewrite (bind_ok _ _ _ _ _ D1), (bind_ok _ _ _ _ _ D2).
    rewrite (bind_ok _ _ _ _ _ T).
    unfold Loader.derive_features. rewrite (bind_ok _ _ _ _ _ F).
    rewrite (bind_ok _ _ _ _ _ (merge_benchmark_run _ _ _ _ _ Hl' Hb')).
    erewrite bind_ok; [|apply clean_run, lookup_insert_eq].
    unfold ret. now rewrite insert_insert_eq.
Qed.

(** When both downloads deliver frames with [Close] and [Volume], [load]
    returns a new object, neither of the provider's; its table has the
    target column, every column of the asset frame whose name does not carry
    the benchmark prefix, and for every horizon the four derived columns (a
    benchmark column under its own name, or with the suffix [_y] when the
    asset frame has a column of that name).  With the horizon 1 configured no
    stage raises [MissingColumn] on the table. *)
Theorem load_returns_the_derived_columns `{Numpy}
    (self : DataLoader) (σ σ1 σ2 : heap) (l lb : loc) (a b : DataFrame) :
  Loader._download self (asset self) σ = (σ1, Ok l) ->
  Loader._download self (benchmark_asset self) σ1 = (σ2, Ok lb) ->
  σ2 !! l = Some a -> σ2 !! lb = Some b ->
  has_close_volume a -> has_close_volume b ->
  exists σ' l' d,
    Loader.load self σ = (σ', Ok l') /\ σ' !! l' = Some d
    /\ l' ≠ l /\ l' ≠ lb
    /\ Frame.has_col d "forward_return" = true
    /\ (forall n, Frame.has_col a n = true -> Loader.is_benchmark_column n = false ->
          Frame.has_col d n = true)
    /\ (forall i, i ∈ timeframes self ->
          Frame.has_col d (Loader.return_column i) = true
          /\ Frame.has_col d (Loader.volume_column i) = true
          /\ (Frame.has_col d (Loader.benchmark_return_column i) = true
              \/ Frame.has_col d (Loader.benchmark_return_column i +:+ "_y") = true)
          /\ (Frame.has_col d (Loader.benchmark_volume_column i) = true
              \/ Frame.has_col d (Loader.benchmark_volume_column i +:+ "_y") = true))
    /\ (1 ∈ timeframes self ->
        forall (s : Stage) c, snd (apply s l' σ') ≠ Raise (MissingColumn c)).
Proof.
  intros D1 D2 Hl Hb Ca Cb.
  destruct (load_run_columns self σ σ1 σ2 l lb a b D1 D2 Hl Hb Ca Cb)
    as (σf & a' & b' & Hl' & Hb' & Ca' & Cb' & Fa' & Ka' & Cols & _ & L).
  set (m := Frame.merge_left a' (Loader.benchmark_columns b')) in *.
  assert (Hkept : forall n, Frame.has_col a' n = true -> Loader.is_benchmark_column n = false ->
                    Frame.has_col (cleaned m) n = true).
  { intros n Hn Hp. rewrite has_col_cleaned.
    apply has_col_merge_left; [exact Hn|now apply unprefixed_not_benchmark]. }
  assert (Hbench : forall n, Frame.has_col b' n = true -> Loader.is_benchmark_column n = true ->
                    Frame.has_col (cleaned m) n = true
                    \/ Frame.has_col (cleaned m) (n +:+ "_y") = true).
  { intros n Hn Hp. rewrite !has_col_cleaned, !has_col_names. unfold m.
    rewrite names_merge_left.
    assert (Hin : n ∈ Frame.names (Loader.benchmark_columns b')).
    { rewrite names_benchmark_columns. apply list_elem_of_In, List.filter_In.
      split; [now apply list_elem_of_In, has_col_names|exact Hp]. }
    destruct (decide (n ∈ Frame.names a')) as [Ha|Ha].
    - right. apply elem_of_app. right. apply list_elem_of_In, in_map_iff.
      exists n. split; [|now apply list_elem_of_In].
      unfold Frame.suffixed. now rewrite bool_decide_eq_true_2.
    - left. apply elem_of_app. right. apply list_elem_of_In, in_map_iff.
      exists n. split; [now apply suffixed_absent|now apply list_elem_of_In]. }
  exists (<[fresh (dom σf) := cleaned m]> σf), (fresh (dom σf)), (cleaned m).
  split; [exact L|]. split; [apply lookup_insert_eq|].
  split; [now apply (fresh_ne σf l a')|]. split; [now apply (fresh_ne σf lb b')|].
  split; [now apply Hkept|].
  split; [intros n Hn Hp; apply Hkept; [now apply Ka'|exact Hp]|].
  split.
  - intros i Hi. destruct (Cols i Hi) as (R1 & R2 & R3 & R4).
    split; [now apply Hkept|]. split; [now apply Hkept|].
    split; now apply Hbench.
  - intros H1 s c Hraise.
    destruct (Cols 1 H1) as (R1 & _).
    assert (Hr1 : Frame.has_col (cleaned m) "return_1" = true) by now apply Hkept.
    assert (Hcl : Frame.has_col (cleaned m) "Close" = true).
    { apply Hkept; [apply Ca'|reflexivity]. }
    rewrite (apply_result s _ _ (cleaned m) (lookup_insert_eq _ _ _)) in Hraise.
    assert (Ho : outcome s (cleaned m) = Raise (MissingColumn c)).
    { destruct (outcome s (cleaned m)); [discriminate|]. congruence. }
    apply outcome_missing_column in Ho as (_ & Hno & _).
    destruct s; simpl in Hno; congruence.
Qed.

(** ** The keyword arguments of a download *)

(** [_download] calls the provider once, with the loader's frequency as
    [interval] and with either date bounds or [period = max], never both: a
    bound is passed on exactly when it is a non-empty string, and the period
    exactly when neither bound is. *)
Theorem download_asks_for_dates_or_for_the_whole_history
    (self : DataLoader) (symbol : string) (σ : heap) :
  exists kw,
    Loader._download self symbol σ
    = (match download (provider self) symbol kw σ with
       | (σ', inr l) => (σ', Ok l)
       | (σ', inl msg) => (σ', Raise (ProviderError msg))
       end)
    /\ interval kw = freq self
    /\ (period kw = Some "max" <-> start kw = None /\ end_ kw = None)
    /\ (period kw = None <-> start kw ≠ None \/ end_ kw ≠ None)
    /\ start kw ≠ Some "" /\ end_ kw ≠ Some ""
    /\ (forall s, s ≠ "" -> start_date self = Some s -> start kw = Some s)
    /\ (forall s, s ≠ "" -> end_date self = Some s -> end_ kw = Some s)
    /\ (start_date self = Some "" -> start kw = None)
    /\ (end_date self = Some "" -> end_ kw = None).
Proof.
  eexists. split; [reflexivity|]. cbn [interval start end_ period].
  split; [reflexivity|].
  destruct (start_date self) as [[|c s]|], (end_date self) as [[|c' s']|]; simpl;
    repeat split; try congruence; try tauto;
    try (intros [? ?]; congruence); try (intros [?|?]; congruence);
    try (intros _; first [left; discriminate|right; discriminate]).
Qed.

(** ** A loader always derives features *)

Section VolumeNeeded.

Lemma has_col_setitem_false d c n s :
  c ≠ n -> Frame.has_col d n = false -> Frame.has_col (Frame.setitem d c s) n = false.
Proof.
  intros Hne Hn. rewrite has_col_setitem, Hn.
  destruct (String.eqb c n) eqn:E; [apply String.eqb_eq in E; contradiction|reflexivity].
Qed.

End VolumeNeeded.

(** [__init__] replaces a missing or empty list of horizons by the six
    defaults, and a missing or empty benchmark symbol by the asset's.  So the
    feature loop of [load] always runs: on an asset frame with [Close] but
    without [Volume], [load] fails with [MissingColumn Volume], whatever the
    loader was built with. *)
Theorem a_loader_always_needs_volume
    (p : DataProvider) (symbol : string) (bench start_ stop : option string) (f : string)
    (tfs : option (list Z)) (self : DataLoader)
    (σ σ1 σ2 : heap) (l lb : loc) (a : DataFrame) :
  self = Loader.init p symbol bench start_ stop f tfs ->
  Loader._download self (asset self) σ = (σ1, Ok l) ->
  Loader._download self (benchmark_asset self) σ1 = (σ2, Ok lb) ->
  σ2 !! l = Some a ->
  Frame.has_col a "Close" = true ->
  Frame.has_col a "Volume" = false ->
  timeframes self ≠ []
  /\ (tfs = None \/ tfs = Some [] -> timeframes self = [1; 2; 5; 10; 20; 40])
  /\ (forall t, tfs = Some t -> t ≠ [] -> timeframes self = t)
  /\ (bench = None \/ bench = Some "" -> benchmark_asset self = symbol)
  /\ snd (Loader.load self σ) = Raise (MissingColumn "Volume").
Proof.
  intros Hself D1 D2 Hl Hc Hv.
  assert (Hne : timeframes self ≠ []).
  { subst self. destruct tfs as [[|t ts]|]; discriminate. }
  split; [exact Hne|].
  split; [intros [->| ->]; subst self; reflexivity|].
  split; [intros t -> Ht; subst self; destruct t; [contradiction|reflexivity]|].
  split; [intros [->| ->]; subst self; reflexivity|].
  clear Hself. destruct (timeframes self) as [|i rest] eqn:Etf; [contradiction|].
  destruct (has_col_lookup _ _ Hc) as [close Hclose].
  assert (Hget : Frame.getitem a "Close" = Ok close)
    by (rewrite getitem_lookup, Hclose; reflexivity).
  pose proof (derive_target_run σ2 l a close Hl Hget) as T.
  set (a1 := Frame.setitem a "forward_return" (Loader.forward_return close)) in T.
  set (a2 := Frame.setitem a1 (Loader.return_column i) (Series.pct_change i close)).
  assert (Hget1 : Frame.getitem a1 "Close" = Ok close).
  { unfold a1. rewrite getitem_setitem_ne by discriminate. exact Hget. }
  assert (Hv2 : Frame.getitem a2 "Volume" = Raise (MissingColumn "Volume")).
  { apply getitem_raise_iff. split; [|reflexivity].
    unfold a2, a1. apply has_col_setitem_false; [unfold Loader.return_column; simpl; discriminate|].
    apply has_col_setitem_false; [discriminate|exact Hv]. }
  unfold Loader.load.
  rewrite (bind_ok _ _ _ _ _ D1), (bind_ok _ _ _ _ _ D2), (bind_ok _ _ _ _ _ T).
  unfold Loader.derive_features. rewrite Etf. cbn [for_].
  unfold Loader.derive_features_for.
  assert (E : forall {A} (K : unit -> M A),
            snd (bind (bind (bind (Obj.getitem l "Close") (fun c =>
                   bind (Obj.setitem l (Loader.return_column i) (Series.pct_change i c)) (fun _ =>
                   bind (Obj.getitem l "Volume") (fun v =>
                   bind (Obj.setitem l (Loader.volume_column i) (Series.pct_change i v)) (fun _ =>
                   bind (Obj.getitem lb "Close") (fun c =>
                   bind (Obj.setitem lb (Loader.benchmark_return_column i)
                           (Series.pct_change i c)) (fun _ =>
                   bind (Obj.getitem lb "Volume") (fun v =>
                   Obj.setitem lb (Loader.benchmark_volume_column i)
                     (Series.pct_change i v)))))))))
                   (fun _ => for_ rest (Loader.derive_features_for l lb))) K (<[l := a1]> σ2))
            = Raise (MissingColumn "Volume")).
  { intros A K.
    erewrite bind_raise; [reflexivity|]. apply bind_raise.
    erewrite bind_ok;
      [|rewrite (getitem_run _ _ _ _ (lookup_insert_eq σ2 l a1)), Hget1; reflexivity].
    erewrite bind_ok; [|apply (setitem_run _ _ _ _ _ (lookup_insert_eq σ2 l a1))].
    fold a2. apply bind_raise.
    rewrite (getitem_run _ _ _ _ (lookup_insert_eq _ l a2)), Hv2. reflexivity. }
  apply E.
Qed.

(** ** Failed downloads *)

(** [load] touches no frame before both downloads have succeeded: when a
    download fails, [load] fails with the provider's error and leaves the
    store as the provider left it, and after a failed first download the
    benchmark is not asked for.  A loader over [FinnhubProvider] therefore
    always fails, with that provider's message and an untouched store,
    however it is configured. *)
Theorem a_failed_download_ends_the_load (self : DataLoader) (σ : heap) :
  (forall σ1 e,
     Loader._download self (asset self) σ = (σ1, Raise e) ->
     Loader.load self σ = (σ1, Raise e))
  /\ (forall σ1 σ2 l e,
       Loader._download self (asset self) σ = (σ1, Ok l) ->
       Loader._download self (benchmark_asset self) σ1 = (σ2, Raise e) ->
       Loader.load self σ = (σ2, Raise e))
  /\ (forall e σ', Loader.load self σ = (σ', Raise e) ->
       (exists msg, e = ProviderError msg) ->
       Loader._download self (asset self) σ = (σ', Raise e)
       \/ exists σ1 l, Loader._download self (asset self) σ = (σ1, Ok l)
                       /\ Loader._download self (benchmark_asset self) σ1 = (σ', Raise e))
  /\ (provider self = FinnhubProvider ->
       Loader.load self σ
       = (σ, Raise (ProviderError "FinnhubProvider is not yet implemented."))).
Proof.
  split; [|split; [|split]].
  - intros σ1 e D1. unfold Loader.load. now apply bind_raise.
  - intros σ1 σ2 l e D1 D2. unfold Loader.load.
    rewrite (bind_ok _ _ _ _ _ D1). now apply bind_raise.
  - intros e σ' L [msg ->]. unfold Loader.load in L.
    destruct (Loader._download self (asset self) σ) as [σ1 [l|e1]] eqn:D1.
    + right. exists σ1, l. split; [reflexivity|].
      rewrite (bind_ok _ _ _ _ _ D1) in L.
      destruct (Loader._download self (benchmark_asset self) σ1) as [σ2 [lb|e2]] eqn:D2.
      * exfalso. rewrite (bind_ok _ _ _ _ _ D2) in L.
        assert (R : raises_only (fun e => forall m, e ≠ ProviderError m)
                      (let* _ := Loader.derive_target l in
                       let* _ := Loader.derive_features self l lb in
                       let* df := Loader.merge_benchmark l lb in
                       let* _ := Loader.clean df in ret df)).
        { apply raises_only_bind.
          - unfold Loader.derive_target. apply raises_only_bind.
            + apply raises_only_getitem; [discriminate|intros; discriminate].
            + intros c. apply raises_only_setitem. discriminate.
          - intros _. apply raises_only_bind.
            + unfold Loader.derive_features. apply raises_only_for. intros i.
              unfold Loader.derive_features_for.
              repeat first
                [ apply raises_only_setitem; discriminate
                | apply raises_only_getitem; [discriminate|intros; discriminate]
                | apply raises_only_bind; [|intros ?] ].
            + intros _. apply raises_only_bind.
              * unfold Loader.merge_benchmark. apply raises_only_bind;
                  [apply raises_only_frame; discriminate|].
                intros a. apply raises_only_bind; [apply raises_only_frame; discriminate|].
                intros b. apply raises_only_alloc.
              * intros df. apply raises_only_bind; [|intros _; apply raises_only_ret].
                unfold Loader.clean.
                repeat (apply raises_only_bind;
                        [apply raises_only_inplace; discriminate|intros _]).
                apply raises_only_inplace. discriminate. }
        apply (R σ2 (ProviderError msg)) with (m := msg); [|reflexivity].
        now rewrite L.
      * rewrite (bind_raise _ _ _ _ _ D2) in L. congruence.
    + left. rewrite (bind_raise _ _ _ _ _ D1) in L. congruence.
  - intros Hp. unfold Loader.load, Loader._download. rewrite Hp. reflexivity.
Qed.

(** ** What the interpolation puts into the gaps at both ends *)

Section InterpolatedEnds.
#[local] Open Scope list_scope.
Implicit Types (xs rest : Series) (ms : list Q).

Lemma next_valid_leading k (b : Q) rest :
  Series.next_valid (replicate k NaN ++ Fin b :: rest) = Some (k, Fin b).
Proof. induction k as [|k IH]; simpl; [reflexivity|now rewrite IH]. Qed.

Lemma next_valid_undefined k : Series.next_valid (replicate k NaN) = None.
Proof. induction k as [|k IH]; simpl; [reflexivity|now rewrite IH]. Qed.

Lemma interpolate_leading k (b : Q) rest :
  Series.interpolate_from None (replicate k NaN ++ Fin b :: rest)
  = replicate k (Fin b) ++ Series.interpolate_from None (Fin b :: rest).
Proof.
  induction k as [|k IH]; [reflexivity|].
  simpl replicate. simpl app. cbn [Series.interpolate_from Cell.isna].
  rewrite next_valid_leading. simpl option_map. now rewrite IH.
Qed.

Lemma interpolate_trailing k : forall dp (a : cell),
  Series.interpolate_from (Some (dp, a)) (replicate k NaN) = replicate k a.
Proof.
  induction k as [|k IH]; intros dp a; [reflexivity|].
  simpl replicate. cbn [Series.interpolate_from Cell.isna].
  rewrite next_valid_undefined. simpl option_map. now rewrite IH.
Qed.

Lemma last_cons_head ms : forall (q d : Q), List.last (q :: ms) d = List.last ms q.
Proof.
  induction ms as [|q' ms IH]; intros q d; [reflexivity|].
  change (List.last (q :: q' :: ms) d) with (List.last (q' :: ms) d).
  now rewrite !IH.
Qed.

Lemma interpolate_defined ms : forall (m : Q) prev xs,
  Series.interpolate_from prev (map Fin (m :: ms) ++ xs)
  = map Fin (m :: ms) ++ Series.interpolate_from (Some (1%nat, Fin (List.last ms m))) xs.
Proof.
  induction ms as [|m' ms IH]; intros m prev xs.
  - reflexivity.
  - change (map Fin (m :: m' :: ms) ++ xs) with (Fin m :: (map Fin (m' :: ms) ++ xs)).
    cbn [Series.interpolate_from Cell.isna]. rewrite IH.
    now rewrite (last_cons_head ms m' m).
Qed.

(** A column with gaps at its two ends only: the first defined cell is
    copied into the gap before it and the last one into the gap after it. *)
Lemma interpolate_ends k t (m : Q) ms :
  Series.interpolate (replicate k NaN ++ map Fin (m :: ms) ++ replicate t NaN)
  = replicate k (Fin m) ++ map Fin (m :: ms) ++ replicate t (Fin (List.last ms m)).
Proof.
  unfold Series.interpolate.
  change (map Fin (m :: ms) ++ replicate t NaN)
    with (Fin m :: (map Fin ms ++ replicate t NaN)).
  rewrite interpolate_leading. f_equal.
  change (Fin m :: (map Fin ms ++ replicate t NaN))
    with (map Fin (m :: ms) ++ replicate t NaN).
  rewrite interpolate_defined. f_equal. apply interpolate_trailing.
Qed.

End InterpolatedEnds.

Section FeatureRows.
#[local] Open Scope Q_scope.
#[local] Open Scope list_scope.
Implicit Types (qs : list Q).

Lemma div_finite (a b : Q) : ~ a == 0 -> Cell.div (Fin b) (Fin a) = Fin (b / a).
Proof.
  intros Ha. simpl. destruct (Cell.Qsgn a) eqn:E; try reflexivity.
  apply Qsgn_zero in E. contradiction.
Qed.

(** The target column of finite non-zero prices: the returns of the next
    bar, and an undefined last row. *)
Lemma forward_return_rows qs :
  Forall (fun q => ~ q == 0) qs -> qs ≠ [] ->
  Loader.forward_return (map Fin qs)
  = map Fin (zip_with (fun a b => b / a - 1) qs (drop 1 qs)) ++ [NaN].
Proof.
  intros Hnz Hne. apply list_eq. intros j.
  assert (Hlen : length (zip_with (fun a b => b / a - 1) qs (drop 1 qs)) = (length qs - 1)%nat).
  { rewrite length_zip_with, length_drop. lia. }
  assert (Hpos : (0 < length qs)%nat) by (destruct qs; [contradiction|simpl; lia]).
  destruct (lt_eq_lt_dec (S j) (length qs)) as [[Hlt|Heq]|Hgt].
  - destruct (lookup_lt_is_Some_2 qs j ltac:(lia)) as [a Ha].
    destruct (lookup_lt_is_Some_2 qs (S j) Hlt) as [b Hb].
    rewrite (forward_return_inner (map Fin qs) j (Fin a) (Fin b));
      [|now rewrite list_lookup_fmap, Ha|now rewrite list_lookup_fmap, Hb].
    rewrite lookup_app_l by (rewrite length_map; lia).
    rewrite list_lookup_fmap, lookup_zip_with, Ha. simpl.
    rewrite lookup_drop. simpl. rewrite Hb. simpl. f_equal.
    change (Cell.sub (Cell.div (Fin b) (Fin a)) (Fin 1) = Fin (b / a - 1)).
    rewrite div_finite; [reflexivity|].
    rewrite Forall_forall in Hnz. apply Hnz. eapply list_elem_of_lookup_2, Ha.
  - rewrite forward_return_last by (rewrite length_map; exact Heq).
    rewrite lookup_app_r by (rewrite length_map; lia).
    rewrite length_map, Hlen. replace (j - (length qs - 1))%nat with 0%nat by lia.
    reflexivity.
  - rewrite !lookup_ge_None_2; [reflexivity| |].
    + rewrite length_app, length_map, Hlen. simpl. lia.
    + rewrite length_forward_return, length_map. lia.
Qed.

(** The return over [i] bars of finite non-zero prices: [i] undefined rows,
    then the returns. *)
Lemma pct_change_rows (i : nat) qs :
  Forall (fun q => ~ q == 0) qs -> (0 < i <= length qs)%nat ->
  Series.pct_change (Z.of_nat i) (map Fin qs)
  = replicate i NaN ++ map Fin (zip_with (fun a b => b / a - 1) qs (drop i qs)).
Proof.
  intros Hnz Hi. apply list_eq. intros j.
  assert (Hlen : length (zip_with (fun a b => b / a - 1) qs (drop i qs)) = (length qs - i)%nat).
  { rewrite length_zip_with, length_drop. lia. }
  destruct (le_lt_dec (length qs) j) as [Hge|Hlt].
  { rewrite !lookup_ge_None_2; [reflexivity| |].
    - rewrite length_app, length_replicate, length_map, Hlen. lia.
    - rewrite length_pct_change, length_map. lia. }
  destruct (lookup_lt_is_Some_2 qs j Hlt) as [b Hb].
  rewrite (lookup_pct_change _ (map Fin qs) j (Fin b)) by (now rewrite list_lookup_fmap, Hb).
  destruct (le_lt_dec i j) as [Hij|Hji].
  - rewrite lookup_app_r by (rewrite length_replicate; lia). rewrite length_replicate.
    destruct (lookup_lt_is_Some_2 qs (j - i) ltac:(lia)) as [a Ha].
    rewrite list_lookup_fmap, lookup_zip_with, Ha. simpl.
    rewrite lookup_drop. replace (i + (j - i))%nat with j by lia. rewrite Hb. simpl.
    replace (Z.of_nat j - Z.of_nat i)%Z with (Z.of_nat (j - i)) by lia.
    rewrite (at_lookup (map Fin qs) (j - i) (Fin a)) by (now rewrite list_lookup_fmap, Ha).
    f_equal.
    change (Cell.sub (Cell.div (Fin b) (Fin a)) (Fin 1) = Fin (b / a - 1)).
    rewrite div_finite; [reflexivity|].
    rewrite Forall_forall in Hnz. apply Hnz. eapply list_elem_of_lookup_2, Ha.
  - rewrite lookup_app_l by (rewrite length_replicate; lia).
    rewrite lookup_replicate_2 by lia.
    rewrite at_outside by lia. reflexivity.
Qed.

End FeatureRows.

(** The gaps [load] leaves to the interpolation, for finite prices none of
    which is 0.  The last row of the target column is undefined, and the
    interpolation fills it with the return of the row before it; the first
    [i] rows of the return over [i] bars are undefined, and the interpolation
    fills them with the first defined return, the one of row [i]. *)
Theorem interpolation_copies_the_nearest_return (qs : list Q) (i n : nat) :
  Forall (fun q => ~ (q == 0)%Q) qs ->
  length qs = S (S n) ->
  (0 < i <= S n)%nat ->
  (exists a b,
     qs !! n = Some a /\ qs !! S n = Some b
     /\ Loader.forward_return (map Fin qs) !! S n = Some NaN
     /\ Series.interpolate (Loader.forward_return (map Fin qs)) !! S n
        = Some (Fin (b / a - 1))
     /\ Series.interpolate (Loader.forward_return (map Fin qs)) !! n
        = Some (Fin (b / a - 1)))
  /\ (exists a b,
        qs !! 0%nat = Some a /\ qs !! i = Some b
        /\ forall j, (j <= i)%nat ->
             Series.interpolate (Series.pct_change (Z.of_nat i) (map Fin qs)) !! j
             = Some (Fin (b / a - 1))
             /\ (j < i -> Series.pct_change (Z.of_nat i) (map Fin qs) !! j = Some NaN)%nat).
Proof.
  intros Hnz Hlen Hi. split.
  - destruct (lookup_lt_is_Some_2 qs n ltac:(lia)) as [a Ha].
    destruct (lookup_lt_is_Some_2 qs (S n) ltac:(lia)) as [b Hb].
    exists a, b. split; [exact Ha|]. split; [exact Hb|].
    split; [apply forward_return_last; rewrite length_map; lia|].
    rewrite forward_return_rows by (try exact Hnz; intros ->; discriminate).
    set (ms := zip_with (fun a b => (b / a - 1)%Q) qs (drop 1 qs)).
    assert (Lms : length ms = S n).
    { unfold ms. rewrite length_zip_with, length_drop. lia. }
    assert (Hn : ms !! n = Some (b / a - 1)%Q).
    { unfold ms. rewrite lookup_zip_with, Ha. simpl. rewrite lookup_drop. simpl.
      now rewrite Hb. }
    destruct ms as [|m ms']; [discriminate|].
    assert (Hlast : List.last ms' m = (b / a - 1)%Q).
    { simpl in Lms. injection Lms as Lms.
      destruct (decide (n = 0%nat)) as [->|Hn0].
      - destruct ms'; [|discriminate]. simpl in Hn. injection Hn as ->. reflexivity.
      - assert (Hl := last_lookup (m :: ms')). simpl length in Hl. rewrite Lms in Hl.
        simpl pred in Hl. rewrite Hn in Hl.
        destruct ms' as [|m1 ms1]; [simpl in Lms; lia|].
        clear -Hl. revert m m1 Hl. induction ms1 as [|m2 ms2 IH]; intros m m1 Hl.
        + simpl in *. congruence.
        + change (List.last (m1 :: m2 :: ms2) m) with (List.last (m2 :: ms2) m).
          change (last (m :: m1 :: m2 :: ms2)) with (last (m1 :: m2 :: ms2)) in Hl.
          rewrite <- (IH m1 m2 Hl). clear. revert m2. induction ms2; intros; [reflexivity|].
          apply IHms2. }
    pose proof (interpolate_ends 0 1 m ms') as E. simpl replicate in E.
    rewrite !app_nil_l, Hlast in E. rewrite E.
    assert (Lmap : length (map Fin (m :: ms')) = S n) by (now rewrite length_map).
    split.
    + rewrite lookup_app_r by lia. rewrite Lmap, Nat.sub_diag. reflexivity.
    + rewrite lookup_app_l by lia. now rewrite list_lookup_fmap, Hn.
  - destruct (lookup_lt_is_Some_2 qs 0 ltac:(lia)) as [a Ha].
    destruct (lookup_lt_is_Some_2 qs i ltac:(lia)) as [b Hb].
    exists a, b. split; [exact Ha|]. split; [exact Hb|].
    intros j Hj.
    rewrite pct_change_rows by (try exact Hnz; lia).
    set (ms := zip_with (fun a b => (b / a - 1)%Q) qs (drop i qs)).
    assert (H0 : ms !! 0%nat = Some (b / a - 1)%Q).
    { unfold ms. rewrite lookup_zip_with, Ha. simpl. rewrite lookup_drop.
      replace (i + 0)%nat with i by lia. now rewrite Hb. }
    destruct ms as [|m ms']; [discriminate|]. simpl in H0. injection H0 as ->.
    pose proof (interpolate_ends i 0 (b / a - 1)%Q ms') as E.
    simpl replicate in E. rewrite !app_nil_r in E. rewrite E. split.
    + destruct (decide (j = i)) as [->|Hne].
      * rewrite lookup_app_r by (rewrite length_replicate; lia).
        rewrite length_replicate, Nat.sub_diag. reflexivity.
      * rewrite lookup_app_l by (rewrite length_replicate; lia).
        apply lookup_replicate_2. lia.
    + intros Hlt. rewrite lookup_app_l by (rewrite length_replicate; lia).
      apply lookup_replicate_2. lia.
Qed.

Section ScalerProperties.
Import Scalers.
Context `{Sklearn}.

Lemma comprehension_run {A B : Type} (f : A -> try B) (g : A -> B) (xs : list A) :
  (forall x, x ∈ xs -> f x = Done (g x)) -> comprehension f xs = Done (map g xs).
Proof.
  induction xs as [|x xs IH]; intros Hf; simpl; [reflexivity|].
  rewrite (Hf x) by (apply elem_of_cons; now left).
  rewrite IH; [reflexivity|]. intros y Hy. apply Hf, elem_of_cons. now right.
Qed.

Lemma comprehension_fails {A B : Type} (f : A -> try B) (xs : list A) e :
  comprehension f xs = Fail e -> exists x, x ∈ xs /\ f x = Fail e.
Proof.
  induction xs as [|x xs IH]; simpl; [discriminate|].
  destruct (f x) as [y|e'] eqn:E.
  - destruct (comprehension f xs) as [ys|e'']; [discriminate|].
    intros [= ->]. destruct (IH eq_refl) as (x' & Hx' & Hf).
    exists x'. split; [apply elem_of_cons; now right|exact Hf].
  - intros [= ->]. exists x. split; [apply elem_of_cons; now left|exact E].
Qed.

Lemma lookup_drop_columns df cs n :
  Frame.lookup_col n (columns (drop_columns df cs))
  = if bool_decide (n ∈ cs) then None else Frame.lookup_col n (columns df).
Proof.
  unfold drop_columns. simpl.
  induction (columns df) as [|[m s] rest IH]; simpl.
  - now destruct (bool_decide (n ∈ cs)).
  - destruct (bool_decide_reflect (m ∈ cs)) as [Hm|Hm]; simpl.
    + rewrite IH. destruct (String.eqb m n) eqn:E; [|reflexivity].
      apply String.eqb_eq in E. subst m. now rewrite bool_decide_eq_true_2.
    + destruct (String.eqb m n) eqn:E; [|exact IH].
      apply String.eqb_eq in E. subst m. now rewrite bool_decide_eq_false_2.
Qed.

End ScalerProperties.

Section ScalerTheorems.
Import Scalers.
Context `{Sklearn}.

Lemma comprehension_rows {A B : Type} (f : A -> try B) (xs : list A) (ys : list B) :
  comprehension f xs = Done ys -> Forall2 (fun x y => f x = Done y) xs ys.
Proof.
  revert ys. induction xs as [|x xs IH]; intros ys; simpl.
  - intros [= <-]. constructor.
  - destruct (f x) as [y|e] eqn:E; [|discriminate].
    destruct (comprehension f xs) as [ys'|e]; [|discriminate].
    intros [= <-]. constructor; [exact E|now apply IH].
Qed.

Lemma has_col_false_names d n : Frame.has_col d n = false <-> n ∉ Frame.names d.
Proof.
  rewrite <- has_col_names. destruct (Frame.has_col d n); split; congruence.
Qed.

(** The constructor's [assert]: it fails exactly when the target column is
    missing, before the scaler is consulted; with the column present the
    lookup of the target cannot fail, the scaler is given every column but
    the target, and its error is the constructor's. *)
Theorem processed_data_needs_the_target_column (df : DataFrame) (sc : option Scaler) :
  (Frame.has_col df "forward_return" = false <->
   __init__ df sc = Fail (AssertionError "'forward_return' column missing in DataFrame"))
  /\ (forall msg, __init__ df sc = Fail (AssertionError msg) ->
        Frame.has_col df "forward_return" = false)
  /\ (forall k, __init__ df sc ≠ Fail (KeyError k))
  /\ (forall msg, __init__ df sc = Fail (ScalerError msg) <->
        Frame.has_col df "forward_return" = true
        /\ fit_transform (default StandardScaler sc) (drop_columns df ["forward_return"])
           = inl msg)
  /\ Frame.has_col (drop_columns df ["forward_return"]) "forward_return" = false
  /\ (forall n, n ≠ "forward_return" ->
        Frame.lookup_col n (columns (drop_columns df ["forward_return"]))
        = Frame.lookup_col n (columns df)).
Proof.
  assert (Hdrop : Frame.has_col (drop_columns df ["forward_return"]) "forward_return" = false).
  { unfold Frame.has_col. rewrite lookup_drop_columns.
    rewrite (bool_decide_eq_true_2 ("forward_return" ∈ ["forward_return"]))
      by (apply list_elem_of_singleton; reflexivity).
    apply bool_decide_eq_false. intros [s Hs]. discriminate. }
  assert (Hkeep : forall n, n ≠ "forward_return" ->
            Frame.lookup_col n (columns (drop_columns df ["forward_return"]))
            = Frame.lookup_col n (columns df)).
  { intros n Hn. rewrite lookup_drop_columns.
    rewrite bool_decide_eq_false_2; [reflexivity|].
    intros Hin. apply list_elem_of_singleton in Hin. contradiction. }
  assert (Hcase :
    (Frame.has_col df "forward_return" = false
     /\ __init__ df sc = Fail (AssertionError "'forward_return' column missing in DataFrame"))
    \/ (Frame.has_col df "forward_return" = true
        /\ ((exists msg, fit_transform (default StandardScaler sc)
                           (drop_columns df ["forward_return"]) = inl msg
                         /\ __init__ df sc = Fail (ScalerError msg))
            \/ (exists m, fit_transform (default StandardScaler sc)
                            (drop_columns df ["forward_return"]) = inr m
                          /\ (__init__ df sc = Fail IndexError
                              \/ exists pad, __init__ df sc = Done pad))))).
  { unfold __init__.
    destruct (bool_decide_reflect ("forward_return" ∈ Frame.names df)) as [Hin|Hout];
      cbn [negb].
    - right. assert (Hc : Frame.has_col df "forward_return" = true) by now apply has_col_names.
      split; [exact Hc|].
      destruct (has_col_lookup _ _ Hc) as [ts Hts]. rewrite Hts.
      destruct (fit_transform _ _) as [msg|m] eqn:Efit.
      + left. now exists msg.
      + right. exists m. split; [reflexivity|].
        destruct (comprehension _ _) as [data|e] eqn:Ec; [right; eauto|left].
        apply comprehension_fails in Ec as (i & _ & Ei). unfold sample in Ei.
        destruct (ts !! i), (m !! i); congruence.
    - left. split; [now apply has_col_false_names|reflexivity]. }
  split.
  { split.
    - intros Hc. destruct Hcase as [[_ E]|[Hc' _]]; [exact E|congruence].
    - intros E. destruct Hcase as [[Hc _]|[_ [(msg & _ & E')|(m & _ & [E'|[pad E']])]]];
        [exact Hc|congruence..]. }
  split.
  { intros msg E. destruct Hcase as [[Hc _]|[_ [(msg' & _ & E')|(m & _ & [E'|[pad E']])]]];
      [exact Hc|congruence..]. }
  split.
  { intros k E. destruct Hcase as [[_ E']|[_ [(msg' & _ & E')|(m & _ & [E'|[pad E']])]]];
      congruence. }
  split.
  { intros msg. split.
    - intros E. destruct Hcase as [[_ E']|[Hc [(msg' & F & E')|(m & _ & [E'|[pad E']])]]];
        try congruence. split; [exact Hc|]. congruence.
    - intros [Hc F].
      destruct Hcase as [[Hc' _]|[_ [(msg' & F' & E')|(m & F' & _)]]]; congruence. }
  split; [exact Hdrop|exact Hkeep].
Qed.

(** On a table with distinct column names and one cell per row in every
    column, and with a scaler that returns one array per row: the constructor
    succeeds, there is one sample per row, and sample [i] is the target of
    row [i] as it stands in the table, not scaled, followed by the scaled
    features of row [i]; the scaler has been given the table without the
    target column. *)
Theorem samples_are_the_target_then_the_scaled_features
    (df : DataFrame) (sc : option Scaler) (ts : Series) (m : list (list cell)) :
  NoDup (Frame.names df) ->
  well_formed df ->
  Frame.getitem df "forward_return" = Ok ts ->
  fit_transform (default StandardScaler sc) (drop_columns df ["forward_return"]) = inr m ->
  length m = Frame.nrows df ->
  exists pad,
    __init__ df sc = Done pad
    /\ __len__ pad = Frame.nrows df
    /\ frame pad = df /\ targets pad = ts /\ features_scaled pad = m
    /\ features pad = drop_columns df ["forward_return"]
    /\ forall i, (i < Frame.nrows df)%nat ->
         exists t row, ts !! i = Some t /\ m !! i = Some row
                       /\ __getitem__ pad (Z.of_nat i) = Done (t :: row).
Proof.
  intros _ Hwf Hts Hfit Hlen.
  rewrite getitem_lookup in Hts.
  destruct (Frame.lookup_col "forward_return" (columns df)) as [ts'|] eqn:Els; [|discriminate].
  injection Hts as ->.
  assert (Lts : length ts = Frame.nrows df).
  { apply (Hwf "forward_return"). now apply lookup_col_Some_elem. }
  set (g := fun i => default NaN (ts !! i) :: default [] (m !! i)).
  assert (Hrun : comprehension (sample ts m) (seq 0 (Frame.nrows df))
                 = Done (map g (seq 0 (Frame.nrows df)))).
  { apply comprehension_run. intros i Hi. apply elem_of_seq in Hi. unfold sample, g.
    destruct (lookup_lt_is_Some_2 ts i ltac:(lia)) as [t ->].
    destruct (lookup_lt_is_Some_2 m i ltac:(lia)) as [row ->]. reflexivity. }
  eexists. split.
  { unfold __init__.
    rewrite bool_decide_eq_true_2.
    2:{ apply has_col_names. unfold Frame.has_col. rewrite Els.
        apply bool_decide_eq_true. eauto. }
    cbn [negb]. rewrite Els, Hfit, Hrun. reflexivity. }
  split; [unfold __len__; simpl; now rewrite length_map, length_seq|].
  split; [reflexivity|]. split; [reflexivity|]. split; [reflexivity|].
  split; [reflexivity|].
  intros i Hi.
  destruct (lookup_lt_is_Some_2 ts i ltac:(lia)) as [t Ht].
  destruct (lookup_lt_is_Some_2 m i ltac:(lia)) as [row Hrow].
  exists t, row. split; [exact Ht|]. split; [exact Hrow|].
  unfold __getitem__. cbn [_data]. rewrite length_map, length_seq.
  destruct (Z.ltb_spec (Z.of_nat i) 0); [lia|].
  destruct (Z.ltb_spec (Z.of_nat i) 0); [lia|].
  destruct (Z.leb_spec (Z.of_nat (Frame.nrows df)) (Z.of_nat i)); [lia|]. cbn [orb].
  rewrite Nat2Z.id, list_lookup_fmap, lookup_seq_lt by lia. simpl.
  unfold g. now rewrite Ht, Hrow.
Qed.

(** [__getitem__] is the indexing of a Python list: an index from 0 to the
    length gives the sample at that position, the same index minus the
    length gives the same sample, and every other index fails with
    [IndexError], the only error there is. *)
Theorem samples_are_indexed_like_a_list (pad : ProcessedAssetData) (idx : Z) :
  (0 <= idx < Z.of_nat (__len__ pad) ->
   exists row, _data pad !! Z.to_nat idx = Some row
               /\ __getitem__ pad idx = Done row
               /\ __getitem__ pad (idx - Z.of_nat (__len__ pad)) = Done row)
  /\ (__getitem__ pad idx = Fail IndexError <->
      idx < - Z.of_nat (__len__ pad) \/ Z.of_nat (__len__ pad) <= idx)
  /\ (forall e, __getitem__ pad idx = Fail e -> e = IndexError).
Proof.
  unfold __len__, __getitem__. set (n := length (_data pad)).
  split; [|split].
  - intros Hidx.
    destruct (lookup_lt_is_Some_2 (_data pad) (Z.to_nat idx)) as [row Hrow]; [fold n; lia|].
    exists row. split; [exact Hrow|]. cbv zeta. split.
    + destruct (Z.ltb_spec idx 0); [lia|].
      destruct (Z.ltb_spec idx 0); [lia|].
      destruct (Z.leb_spec (Z.of_nat n) idx); [lia|]. cbn [orb]. now rewrite Hrow.
    + destruct (Z.ltb_spec (idx - Z.of_nat n) 0); [|lia].
      replace (idx - Z.of_nat n + Z.of_nat n) with idx by lia.
      destruct (Z.ltb_spec idx 0); [lia|].
      destruct (Z.leb_spec (Z.of_nat n) idx); [lia|]. cbn [orb]. now rewrite Hrow.
  - cbv zeta. destruct (Z.ltb_spec idx 0) as [Hneg|Hpos].
    + destruct (Z.ltb_spec (idx + Z.of_nat n) 0); cbn [orb].
      * split; [intros _; lia|reflexivity].
      * destruct (Z.leb_spec (Z.of_nat n) (idx + Z.of_nat n)); [lia|].
        destruct (lookup_lt_is_Some_2 (_data pad) (Z.to_nat (idx + Z.of_nat n)))
          as [row ->]; [fold n; lia|].
        split; [discriminate|lia].
    + destruct (Z.ltb_spec idx 0); [lia|]. cbn [orb].
      destruct (Z.leb_spec (Z.of_nat n) idx).
      * split; [intros _; lia|reflexivity].
      * destruct (lookup_lt_is_Some_2 (_data pad) (Z.to_nat idx)) as [row ->]; [fold n; lia|].
        split; [discriminate|lia].
  - intros e. cbv zeta.
    destruct (_ || _); [congruence|].
    destruct (_data pad !! _); congruence.
Qed.

End ScalerTheorems.

(** ** From the loader to the scaled samples *)

(** The table [load] returns can be handed to [ProcessedAssetData]: the
    [assert] on the target column never fails, whatever the scaler, and when
    the constructor succeeds there is one sample per row of the table, each
    starting with a finite target. *)
Theorem loaded_table_feeds_the_scaler `{Scalers.Sklearn}
    (self : DataLoader) (σ σ1 σ2 : heap) (l lb : loc) (a b : DataFrame) :
  Loader._download self (asset self) σ = (σ1, Ok l) ->
  Loader._download self (benchmark_asset self) σ1 = (σ2, Ok lb) ->
  σ2 !! l = Some a -> σ2 !! lb = Some b ->
  has_close_volume a -> has_close_volume b ->
  exists σ' l' d ts,
    Loader.load self σ = (σ', Ok l') /\ σ' !! l' = Some d
    /\ Frame.getitem d "forward_return" = Ok ts
    /\ Forall (fun x => Cell.isfinite x = true) ts
    /\ forall sc,
         (forall msg, Scalers.__init__ d sc ≠ Scalers.Fail (Scalers.AssertionError msg))
         /\ forall pad, Scalers.__init__ d sc = Scalers.Done pad ->
              Scalers.__len__ pad = Frame.nrows d
              /\ Scalers.targets pad = ts
              /\ Forall (fun row => exists t rest, row = t :: rest
                                      /\ Cell.isfinite t = true) (Scalers._data pad).
Proof.
  intros D1 D2 Hl Hb Ca Cb.
  destruct (load_run self σ σ1 σ2 l lb a b D1 D2 Hl Hb Ca Cb)
    as (σf & a' & b' & Hl' & Hb' & Hfr & _ & _ & L).
  set (m := Frame.merge_left a' (Loader.benchmark_columns b')) in L.
  assert (Hc : Frame.has_col (cleaned m) "forward_return" = true).
  { rewrite has_col_cleaned. apply has_col_merge_left; [exact Hfr|].
    now apply unprefixed_not_benchmark. }
  destruct (has_col_lookup _ _ Hc) as [ts Hts].
  assert (Hfin : Forall (fun x => Cell.isfinite x = true) ts).
  { apply (cleaned_finite m "forward_return"). now apply lookup_col_Some_elem. }
  exists (<[fresh (dom σf) := cleaned m]> σf), (fresh (dom σf)), (cleaned m), ts.
  split; [exact L|]. split; [apply lookup_insert_eq|].
  split; [now rewrite getitem_lookup, Hts|]. split; [exact Hfin|].
  intros sc. split.
  - intros msg Hfail. unfold Scalers.__init__ in Hfail.
    rewrite bool_decide_eq_true_2 in Hfail by now apply has_col_names.
    cbn [negb] in Hfail. rewrite Hts in Hfail.
    destruct (Scalers.fit_transform _ _) as [msg'|fs]; [discriminate|].
    destruct (Scalers.comprehension _ _) as [data|e] eqn:Ec; [discriminate|].
    apply comprehension_fails in Ec as (i & _ & Ei). unfold Scalers.sample in Ei.
    destruct (ts !! i), (fs !! i); congruence.
  - intros pad Hpad. unfold Scalers.__init__ in Hpad.
    rewrite bool_decide_eq_true_2 in Hpad by now apply has_col_names.
    cbn [negb] in Hpad. rewrite Hts in Hpad.
    destruct (Scalers.fit_transform _ _) as [msg|fs]; [discriminate|].
    destruct (Scalers.comprehension _ _) as [data|e] eqn:Ec; [|discriminate].
    injection Hpad as <-. unfold Scalers.__len__. cbn [Scalers._data Scalers.targets].
    apply comprehension_rows in Ec.
    split; [rewrite <- (Forall2_length _ _ _ Ec); apply length_seq|].
    split; [reflexivity|].
    clear -Ec Hfin. induction Ec as [|i row ixs rows Hrow _ IH]; constructor; [|exact IH].
    unfold Scalers.sample in Hrow.
    destruct (ts !! i) as [t|] eqn:Et; [|discriminate].
    destruct (fs !! i) as [r|]; [|discriminate]. injection Hrow as <-.
    exists t, r. split; [reflexivity|].
    rewrite Forall_forall in Hfin. apply Hfin. eapply list_elem_of_lookup_2, Et.
Qed.

Section DerivedNames.

Lemma last_char_app d s t : last_char d (s +:+ t) = last_char (last_char d s) t.
Proof. revert d. induction s as [|c s IH]; intros d; simpl; [reflexivity|apply IH]. Qed.

Lemma pretty_N_char_digit x : is_digit (pretty_N_char x) = true.
Proof. unfold pretty_N_char. repeat case_match; reflexivity. Qed.

Lemma pretty_N_go_last x : forall c s d,
  last_char d (pretty_N_go x (String c s)) = last_char c s.
Proof.
  induction (N.lt_wf_0 x) as [x _ IH]; intros c s d.
  assert (x = 0 \/ 0 < x)%N as [->|Hx] by lia.
  - now rewrite pretty_N_go_0.
  - rewrite pretty_N_go_step by exact Hx. rewrite IH; [reflexivity|].
    now apply N.div_lt.
Qed.

Lemma pretty_N_last (x : N) d : is_digit (last_char d (pretty x)) = true.
Proof.
  unfold pretty, pretty_N. destruct (decide (x = 0%N)) as [->|Hx]; [reflexivity|].
  rewrite pretty_N_go_step by lia. rewrite pretty_N_go_last. simpl.
  apply pretty_N_char_digit.
Qed.

(** The decimal form of a whole number ends in a digit. *)
Lemma pretty_Z_last (i : Z) d : is_digit (last_char d (pretty i)) = true.
Proof.
  unfold pretty, pretty_Z. destruct i as [|p|p]; [reflexivity| |].
  - apply (pretty_N_last (Npos p)).
  - rewrite last_char_app. apply (pretty_N_last (Npos p)).
Qed.

(** No column gets the name of a derived column by the suffix of a join. *)
Lemma suffix_not_derived (n sfx p : string) (i : Z) :
  is_digit (last_char "a" sfx) = false -> sfx ≠ "" ->
  (n +:+ sfx) ≠ (p +:+ pretty i).
Proof.
  intros Hs Hne E. apply (f_equal (last_char "a")) in E.
  rewrite !last_char_app in E.
  assert (Hl : last_char (last_char "a" n) sfx = last_char "a" sfx).
  { destruct sfx; [contradiction|reflexivity]. }
  rewrite Hl in E. rewrite E, pretty_Z_last in Hs. discriminate.
Qed.

End DerivedNames.

(** ** One object for the asset and its benchmark *)

Section Aliased.

Lemma merged_name (a r : DataFrame) (c : string) :
  (forall n, (n +:+ "_x") ≠ c) -> (forall n, (n +:+ "_y") ≠ c) ->
  (forall n, n ∈ Frame.names r -> n ∈ Frame.names a) ->
  c ∈ Frame.names a -> c ∈ Frame.names r ->
  (c ∉ Frame.names (Frame.merge_left a r))
  /\ (c +:+ "_x") ∈ Frame.names (Frame.merge_left a r)
  /\ (c +:+ "_y") ∈ Frame.names (Frame.merge_left a r).
Proof.
  intros Hx Hy Hsub Ha Hr. rewrite names_merge_left. split; [|split].
  - intros Hin. apply elem_of_app in Hin as [Hin|Hin];
      apply list_elem_of_In, in_map_iff in Hin as (n & Hn & Hnin);
      apply list_elem_of_In in Hnin; unfold Frame.suffixed in Hn.
    + destruct (bool_decide_reflect (n ∈ Frame.names r)); [now apply (Hx n)|].
      subst n. contradiction.
    + destruct (bool_decide_reflect (n ∈ Frame.names a)) as [|Hno]; [now apply (Hy n)|].
      apply Hno, Hsub, Hnin.
  - apply elem_of_app. left. apply list_elem_of_In, in_map_iff.
    exists c. split; [|now apply list_elem_of_In].
    unfold Frame.suffixed. now rewrite bool_decide_eq_true_2.
  - apply elem_of_app. right. apply list_elem_of_In, in_map_iff.
    exists c. split; [|now apply list_elem_of_In].
    unfold Frame.suffixed. now rewrite bool_decide_eq_true_2.
Qed.

End Aliased.

(** When the provider hands out one and the same object for the asset and
    for the benchmark, the benchmark columns are written into the asset's
    table, the join finds every one of them on both sides, and the table
    [load] returns has no column [benchmark_return_i] or
    [benchmark_volume_i]: it has them with the suffixes [_x] and [_y]. *)
Theorem one_object_for_asset_and_benchmark
    (self : DataLoader) (σ σ1 σ2 : heap) (l : loc) (a : DataFrame) :
  Loader._download self (asset self) σ = (σ1, Ok l) ->
  Loader._download self (benchmark_asset self) σ1 = (σ2, Ok l) ->
  σ2 !! l = Some a ->
  has_close_volume a ->
  exists σ' l' d a',
    Loader.load self σ = (σ', Ok l') /\ σ' !! l' = Some d /\ σ' !! l = Some a'
    /\ forall i, i ∈ timeframes self ->
         Frame.has_col a' (Loader.benchmark_return_column i) = true
         /\ Frame.has_col a' (Loader.benchmark_volume_column i) = true
         /\ Frame.has_col d (Loader.benchmark_return_column i) = false
         /\ Frame.has_col d (Loader.benchmark_return_column i +:+ "_x") = true
         /\ Frame.has_col d (Loader.benchmark_return_column i +:+ "_y") = true
         /\ Frame.has_col d (Loader.benchmark_volume_column i) = false
         /\ Frame.has_col d (Loader.benchmark_volume_column i +:+ "_x") = true
         /\ Frame.has_col d (Loader.benchmark_volume_column i +:+ "_y") = true.
Proof.
  intros D1 D2 Hl Ca.
  destruct (has_col_lookup _ _ (proj1 Ca)) as [close Hclose].
  assert (Hget : Frame.getitem a "Close" = Ok close)
    by (rewrite getitem_lookup, Hclose; reflexivity).
  pose proof (derive_target_run σ2 l a close Hl Hget) as T.
  set (a1 := Frame.setitem a "forward_return" (Loader.forward_return close)) in T.
  set (I := fun σ : heap => holds_at σ l has_close_volume).
  assert (SI : store_stable I) by apply store_stable_holds_at, stable_close_volume.
  assert (I1 : I (<[l := a1]> σ2)).
  { exists a1. rewrite lookup_insert_eq. split; [reflexivity|].
    now apply stable_close_volume. }
  destruct (derive_features_columns l l (timeframes self) I _ SI (fun σ0 H0 => conj H0 H0) I1)
    as (σf & F & (a' & Hl' & Ca') & Cols).
  set (r := Loader.benchmark_columns a').
  set (m := Frame.merge_left a' r).
  assert (L : Loader.load self σ = (<[fresh (dom σf) := cleaned m]> σf, Ok (fresh (dom σf)))).
  { unfold Loader.load.
    rewrite (bind_ok _ _ _ _ _ D1), (bind_ok _ _ _ _ _ D2).
    rewrite (bind_ok _ _ _ _ _ T).
    unfold Loader.derive_features. rewrite (bind_ok _ _ _ _ _ F).
    rewrite (bind_ok _ _ _ _ _ (merge_benchmark_run _ _ _ _ _ Hl' Hl')).
    erewrite bind_ok; [|apply clean_run, lookup_insert_eq].
    unfold ret. now rewrite insert_insert_eq. }
  assert (Hsub : forall n, n ∈ Frame.names r -> n ∈ Frame.names a').
  { intros n Hn. unfold r in Hn. rewrite names_benchmark_columns in Hn.
    apply list_elem_of_In, List.filter_In in Hn as [Hn _]. now apply list_elem_of_In. }
  assert (Hmerged : forall c (i : Z) p,
            c = p +:+ pretty i -> Loader.is_benchmark_column c = true ->
            Frame.has_col a' c = true ->
            Frame.has_col (cleaned m) c = false
            /\ Frame.has_col (cleaned m) (c +:+ "_x") = true
            /\ Frame.has_col (cleaned m) (c +:+ "_y") = true).
  { intros c i p Hc Hp Hin. rewrite !has_col_cleaned.
    assert (Ha : c ∈ Frame.names a') by now apply has_col_names.
    assert (Hr : c ∈ Frame.names r).
    { unfold r. rewrite names_benchmark_columns. apply list_elem_of_In, List.filter_In.
      split; [now apply list_elem_of_In|exact Hp]. }
    destruct (merged_name a' r c) as (N0 & Nx & Ny); try assumption.
    - intros n. subst c. now apply suffix_not_derived.
    - intros n. subst c. now apply suffix_not_derived.
    - split; [now apply has_col_false_names|]. split; now apply has_col_names. }
  exists (<[fresh (dom σf) := cleaned m]> σf), (fresh (dom σf)), (cleaned m), a'.
  split; [exact L|]. split; [apply lookup_insert_eq|].
  split; [rewrite lookup_insert_ne; [exact Hl'|now apply (fresh_ne σf l a')]|].
  intros i Hi.
  destruct (Cols i Hi) as (_ & _ & (d3 & E3 & R3) & (d4 & E4 & R4)).
  assert (d3 = a') by congruence. assert (d4 = a') by congruence. subst.
  split; [exact R3|]. split; [exact R4|].
  destruct (Hmerged (Loader.benchmark_return_column i) i "benchmark_return_")
    as (A1 & A2 & A3); [reflexivity|reflexivity|exact R3|].
  destruct (Hmerged (Loader.benchmark_volume_column i) i "benchmark_volume_")
    as (B1 & B2 & B3); [reflexivity|reflexivity|exact R4|].
  repeat split; assumption.
Qed.

(** ** Cleaning a clean table *)

Section CleanTwice.
Implicit Types (xs : Series) (d : DataFrame) (mask : list bool).

Lemma filter_no_true mask :
  (forall i, mask !! i ≠ Some true) -> List.filter (fun b => b) mask = [].
Proof.
  induction mask as [|b m IH]; intros Hno; [reflexivity|].
  destruct b; [exfalso; now apply (Hno 0%nat)|]. simpl.
  apply IH. intros i. apply (Hno (S i)).
Qed.

Lemma length_select_rows {A : Type} mask (ys : list A) :
  (forall i, mask !! i = Some true -> (i < length ys)%nat) ->
  length (Series.select_rows mask ys) = length (List.filter (fun b => b) mask).
Proof.
  revert ys. induction mask as [|b m IH]; intros ys Hys; [reflexivity|].
  destruct ys as [|y r].
  - rewrite filter_no_true; [now destruct b|].
    intros i Hi. specialize (Hys i Hi). simpl in Hys. lia.
  - destruct b; simpl; [f_equal|]; apply IH; intros i Hi;
      specialize (Hys (S i) Hi); simpl in Hys; lia.
Qed.

(** What [dropna] returns has one cell per row in every column. *)
Lemma dropna_well_formed d : well_formed (Frame.dropna d).
Proof.
  intros n s Hin. unfold Frame.nrows. simpl in *.
  apply list_elem_of_fmap in Hin as ([n0 s0] & Heq & Hin0).
  injection Heq as Hn Hs. subst n s.
  rewrite !length_select_rows; [reflexivity| |].
  - intros i Hi. apply lookup_complete_mask_Some in Hi as [Hi _]. exact Hi.
  - intros i Hi. apply lookup_complete_mask_Some in Hi as [_ Hc]. symmetry in Hc.
    unfold Frame.row_complete in Hc. rewrite forallb_forall in Hc.
    specialize (Hc (n0, s0) ltac:(now apply list_elem_of_In)). simpl in Hc.
    destruct (s0 !! i) as [x|] eqn:Ex; [now apply lookup_lt_Some in Ex|discriminate].
Qed.

Lemma interpolate_from_defined xs : forall prev,
  Forall (fun x => Cell.isna x = false) xs -> Series.interpolate_from prev xs = xs.
Proof.
  induction xs as [|x xs IH]; intros prev Hxs; [reflexivity|].
  apply Forall_cons in Hxs as [Hx Hxs]. simpl. rewrite Hx. f_equal. now apply IH.
Qed.

Lemma replace_inf_none xs :
  Forall (fun x => Cell.isinf x = false) xs -> Series.replace_inf xs = xs.
Proof.
  unfold Series.replace_inf. induction 1 as [|x xs Hx _ IH]; [reflexivity|].
  simpl. now rewrite Hx, IH.
Qed.

Lemma map_columns_id (f : Series -> Series) d :
  (forall n s, (n, s) ∈ columns d -> f s = s) -> Frame.map_columns f d = d.
Proof.
  destruct d as [idx cols]. unfold Frame.map_columns. simpl. intros Hf. f_equal.
  induction cols as [|[n s] rest IH]; [reflexivity|]. simpl.
  rewrite (Hf n s) by (apply elem_of_cons; now left).
  f_equal. apply IH. intros n' s' Hin. apply (Hf n'). apply elem_of_cons. now right.
Qed.

Lemma dropna_complete d :
  well_formed d ->
  (forall n s, (n, s) ∈ columns d -> Forall (fun x => Cell.isna x = false) s) ->
  Frame.dropna d = d.
Proof.
  intros Hwf Hdef.
  assert (Hall : Forall (fun b => b = true) (Frame.complete_mask d)).
  { apply Forall_lookup. intros i b Hb.
    apply lookup_complete_mask_Some in Hb as [Hi ->].
    unfold Frame.row_complete. apply forallb_forall. intros [n s] Hin.
    apply list_elem_of_In in Hin.
    destruct (lookup_lt_is_Some_2 s i) as [x Hx]; [now rewrite (Hwf n s Hin)|].
    rewrite Hx. simpl. apply negb_true_iff.
    specialize (Hdef n s Hin). rewrite Forall_forall in Hdef.
    apply Hdef. eapply list_elem_of_lookup_2, Hx. }
  assert (Hlen : length (Frame.complete_mask d) = Frame.nrows d).
  { unfold Frame.complete_mask. now rewrite length_map, length_seq. }
  unfold Frame.dropna. cbv zeta.
  destruct d as [idx cols]. simpl in *. f_equal.
  - apply select_rows_all; [exact Hall|exact Hlen].
  - assert (Hcols : forall n s, (n, s) ∈ cols ->
              Series.select_rows (Frame.complete_mask (mkDataFrame idx cols)) s = s).
    { intros n s Hin. apply select_rows_all; [exact Hall|].
      rewrite Hlen. symmetry. apply (Hwf n s Hin). }
    clear -Hcols. revert Hcols. generalize (Frame.complete_mask (mkDataFrame idx cols)).
    intros mask. induction cols as [|[n s] rest IH]; intros Hcols; [reflexivity|]. simpl.
    rewrite (Hcols n s) by (apply elem_of_cons; now left).
    f_equal. apply IH. intros n' s' Hin. apply (Hcols n'). apply elem_of_cons. now right.
Qed.

Lemma cleaned_well_formed d : well_formed (cleaned d).
Proof. unfold cleaned. apply dropna_well_formed. Qed.

Lemma cleaned_twice d : cleaned (cleaned d) = cleaned d.
Proof.
  assert (Hfin : forall n s, (n, s) ∈ columns (cleaned d) ->
            Forall (fun x => Cell.isna x = false /\ Cell.isinf x = false) s).
  { intros n s Hin. eapply Forall_impl; [apply (cleaned_finite d n s Hin)|].
    intros x Hx. now apply finite_iff. }
  unfold cleaned at 1.
  assert (E1 : Frame.interpolate (cleaned d) = cleaned d).
  { apply map_columns_id. intros n s Hin. apply interpolate_from_defined.
    eapply Forall_impl; [apply (Hfin n s Hin)|]. now intros x [? _]. }
  rewrite E1.
  assert (E2 : Frame.replace_inf (cleaned d) = cleaned d).
  { apply map_columns_id. intros n s Hin. apply replace_inf_none.
    eapply Forall_impl; [apply (Hfin n s Hin)|]. now intros x [_ ?]. }
  rewrite E2.
  apply dropna_complete; [apply cleaned_well_formed|].
  intros n s Hin. eapply Forall_impl; [apply (Hfin n s Hin)|]. now intros x [? _].
Qed.

End CleanTwice.

(** The cleaning of [load] is idempotent: a cleaned table has one cell per
    row in every column, and cleaning it once more returns it unchanged; so
    two runs of the three cleaning calls on an object leave the store as one
    run does. *)
Theorem cleaning_a_clean_table_changes_nothing (d : DataFrame) (σ : heap) (l : loc) :
  cleaned (cleaned d) = cleaned d
  /\ well_formed (cleaned d)
  /\ (σ !! l = Some d ->
      (let* _ := Loader.clean l in Loader.clean l) σ = Loader.clean l σ).
Proof.
  split; [apply cleaned_twice|]. split; [apply cleaned_well_formed|].
  intros Hl. rewrite (bind_ok _ _ _ _ _ (clean_run σ l d Hl)).
  rewrite (clean_run _ l (cleaned d) (lookup_insert_eq σ l _)).
  rewrite (clean_run σ l d Hl), cleaned_twice. now rewrite insert_insert_eq.
Qed.

(** ** The rows of the join *)

Section JoinRows.
Implicit Types (lidx ridx : list Z) (t : Z).

Lemma length_positions t ridx :
  length (Frame.positions t ridx) = length (List.filter (fun u => Z.eqb u t) ridx).
Proof.
  induction ridx as [|u r IH]; [reflexivity|].
  rewrite positions_cons, length_app, length_map, IH. simpl.
  now destruct (Z.eqb u t).
Qed.

Lemma map_imap_snd {A B : Type} (k : Z -> B) (l : list Z) : forall (g : nat -> A),
  map (fun p : A * Z => k (snd p)) (imap (fun i => pair (g i)) l) = map k l.
Proof.
  induction l as [|x r IH]; intros g; simpl; [reflexivity|].
  f_equal. apply (IH (g ∘ S)).
Qed.

Lemma length_join_plan lidx ridx :
  length (Frame.join_plan lidx ridx)
  = list_sum (map (fun t => Nat.max 1 (length (Frame.positions t ridx))) lidx).
Proof.
  unfold Frame.join_plan. rewrite length_flat_map.
  rewrite <- (map_imap_snd (fun t => Nat.max 1 (length (Frame.positions t ridx))) lidx
                (fun i : nat => i)).
  f_equal. apply map_ext. intros [i t]. simpl.
  destruct (Frame.positions t ridx) as [|j js]; [reflexivity|].
  simpl. rewrite length_map. lia.
Qed.

Lemma join_plan_covers lidx ridx i t :
  lidx !! i = Some t -> exists oj, (i, oj) ∈ Frame.join_plan lidx ridx.
Proof.
  intros Hi. unfold Frame.join_plan.
  assert (Hin : (i, t) ∈ imap pair lidx).
  { apply elem_of_lookup_imap. now exists i, t. }
  destruct (Frame.positions t ridx) as [|j js] eqn:E.
  - exists None. apply list_elem_of_In, in_flat_map. exists (i, t).
    split; [now apply list_elem_of_In|]. rewrite E. now left.
  - exists (Some j). apply list_elem_of_In, in_flat_map. exists (i, t).
    split; [now apply list_elem_of_In|]. rewrite E. now left.
Qed.

Lemma list_sum_ge_length (ns : list nat) :
  Forall (fun n => (1 <= n)%nat) ns -> (length ns <= list_sum ns)%nat.
Proof. induction 1 as [|n ns Hn _ IH]; simpl; lia. Qed.

End JoinRows.

(** The join neither drops nor reorders an asset row, and repeats it once
    for every benchmark row with its timestamp: the merged table has, for
    each asset row, as many rows as the benchmark has rows with that
    timestamp, and one when it has none; every column of the merged table
    has one cell per row. *)
Theorem merge_repeats_a_row_for_every_match
    (σ : heap) (l lb : loc) (a b : DataFrame) :
  σ !! l = Some a -> σ !! lb = Some b ->
  exists m,
    Loader.merge_benchmark l lb σ = (<[fresh (dom σ) := m]> σ, Ok (fresh (dom σ)))
    /\ Frame.nrows m
       = list_sum (map (fun t => Nat.max 1 (length (List.filter (fun u => Z.eqb u t) (index b))))
                       (index a))
    /\ (Frame.nrows a <= Frame.nrows m)%nat
    /\ (forall t, t ∈ index a -> t ∈ index m)
    /\ well_formed m.
Proof.
  intros Hl Hb. eexists. split; [apply (merge_benchmark_run σ l lb a b Hl Hb)|].
  set (r := Loader.benchmark_columns b).
  assert (Hr : index r = index b) by reflexivity.
  assert (Hn : Frame.nrows (Frame.merge_left a r)
               = length (Frame.join_plan (index a) (index b))).
  { unfold Frame.nrows, Frame.merge_left, Frame.take_left. simpl. now rewrite length_map. }
  assert (Hsum : length (Frame.join_plan (index a) (index b))
                 = list_sum (map (fun t => Nat.max 1 (length (List.filter (fun u => Z.eqb u t)
                                                                  (index b)))) (index a))).
  { rewrite length_join_plan. f_equal. apply map_ext. intros t.
    now rewrite length_positions. }
  split; [now rewrite Hn|]. split; [|split].
  - rewrite Hn, Hsum. unfold Frame.nrows.
    etransitivity; [|apply list_sum_ge_length].
    + now rewrite length_map.
    + apply Forall_forall. intros n Hin.
      apply list_elem_of_In, in_map_iff in Hin as (t & <- & _). lia.
  - intros t Ht. apply list_elem_of_lookup in Ht as [i Hi].
    destruct (join_plan_covers (index a) (index b) i t Hi) as [oj Hoj].
    unfold Frame.merge_left, Frame.take_left. simpl.
    apply list_elem_of_In, in_map_iff. exists (i, oj).
    split; [now rewrite Hi|now apply list_elem_of_In].
  - intros n s Hin. rewrite Hn.
    unfold Frame.merge_left in Hin. simpl in Hin.
    apply elem_of_app in Hin as [Hin|Hin];
      apply list_elem_of_In, in_map_iff in Hin as ([n0 s0] & Heq & _);
      injection Heq as _ <-.
    + unfold Frame.take_left. now rewrite length_map.
    + apply length_take_right.
Qed.

(** What [load] does after the two downloads changes no object but the two
    frames the provider handed out and the new object it returns: every
    other object of the store is left as it was, whether [load] succeeds or
    fails, and the object returned is none that existed before. *)
Theorem load_writes_into_the_downloaded_frames_only
    (self : DataLoader) (σ σ1 σ2 : heap) (l lb : loc) :
  Loader._download self (asset self) σ = (σ1, Ok l) ->
  Loader._download self (benchmark_asset self) σ1 = (σ2, Ok lb) ->
  (forall k d, σ2 !! k = Some d -> k ≠ l -> k ≠ lb ->
     fst (Loader.load self σ) !! k = Some d)
  /\ (forall l', snd (Loader.load self σ) = Ok l' -> σ2 !! l' = None /\ l' ≠ l /\ l' ≠ lb).
Proof.
  intros D1 D2.
  pose proof (features_write_into_the_two_frames self l lb σ2) as W.
  assert (E : Loader.load self σ
              = (let* _ := (let* _ := Loader.derive_target l in
                            Loader.derive_features self l lb) in
                 let* df := Loader.merge_benchmark l lb in
                 let* _ := Loader.clean df in ret df) σ2).
  { unfold Loader.load. rewrite (bind_ok _ _ _ _ _ D1), (bind_ok _ _ _ _ _ D2).
    unfold bind. destruct (Loader.derive_target l σ2) as [σa [[]|e]]; reflexivity. }
  rewrite E. clear E.
  destruct ((let* _ := Loader.derive_target l in Loader.derive_features self l lb) σ2)
    as [σf [[]|e]] eqn:F; simpl in W.
  2:{ rewrite (bind_raise _ _ _ _ _ F). split; [|discriminate].
      intros k d Hk H1 H2. simpl. rewrite W by tauto. exact Hk. }
  rewrite (bind_ok _ _ _ _ _ F).
  assert (Hkeep : forall k d, σ2 !! k = Some d -> k ≠ l -> k ≠ lb -> σf !! k = Some d).
  { intros k d Hk H1 H2. rewrite W by tauto. exact Hk. }
  destruct (Loader.merge_benchmark l lb σf) as [σm [l'|e]] eqn:Em.
  2:{ rewrite (bind_raise _ _ _ _ _ Em). split; [|discriminate].
      intros k d Hk H1 H2. simpl.
      assert (σm = σf) as ->; [|now apply Hkeep].
      unfold Loader.merge_benchmark, bind, Obj.frame, Obj.alloc in Em.
      destruct (σf !! l); [|congruence]. destruct (σf !! lb); congruence. }
  rewrite (bind_ok _ _ _ _ _ Em).
  assert (Hm : l' = fresh (dom σf) /\ (exists m, σm = <[l' := m]> σf)
               /\ is_Some (σf !! l) /\ is_Some (σf !! lb)).
  { unfold Loader.merge_benchmark, bind, Obj.frame, Obj.alloc in Em.
    destruct (σf !! l); [|discriminate]. destruct (σf !! lb); [|discriminate].
    injection Em as <- <-. split; [reflexivity|]. split; eauto. }
  destruct Hm as (-> & [m ->] & [a Ha] & [b Hb]). set (l' := fresh (dom σf)) in *.
  assert (N1 : l' ≠ l) by apply (fresh_ne σf l a Ha).
  assert (N2 : l' ≠ lb) by apply (fresh_ne σf lb b Hb).
  pose proof (clean_writes_into_its_frame l' (<[l' := m]> σf)) as C.
  assert (Hfresh : forall k d, σ2 !! k = Some d -> k ≠ l -> k ≠ lb -> k ≠ l').
  { intros k d Hk H1 H2 ->. apply (Hkeep _ _ Hk H1) in H2.
    unfold l' in H2. rewrite fresh_unused in H2. discriminate. }
  assert (Hafter : forall k d, σ2 !! k = Some d -> k ≠ l -> k ≠ lb ->
            fst (Loader.clean l' (<[l' := m]> σf)) !! k = Some d).
  { intros k d Hk H1 H2. rewrite C by (now apply (Hfresh k d)).
    rewrite lookup_insert_ne by (intros Heq; now apply (Hfresh k d Hk H1 H2)).
    now apply Hkeep. }
  destruct (Loader.clean l' (<[l' := m]> σf)) as [σc [[]|e]] eqn:Ec; simpl in Hafter.
  - rewrite (bind_ok _ _ _ _ _ Ec). simpl. split; [exact Hafter|].
    intros l0 [= <-]. split; [|now split].
    destruct (σ2 !! l') as [d|] eqn:E2; [|reflexivity].
    exfalso. now apply (Hfresh l' d E2 N1 N2).
  - rewrite (bind_raise _ _ _ _ _ Ec). simpl. split; [exact Hafter|discriminate].
Qed.

Section YahooProperties.
Context `{Yfinance}.

Lemma lookup_col_zip (c : string) (names : list string) (data : list Series) :
  c ∈ names -> length names = length data ->
  is_Some (Frame.lookup_col c (zip names data)).
Proof.
  revert data. induction names as [|n names IH]; intros data Hin Hlen; [inversion Hin|].
  destruct data as [|s data]; [discriminate|]. simpl.
  destruct (String.eqb n c) eqn:E; [eauto|].
  apply String.eqb_neq in E. apply elem_of_cons in Hin as [->|Hin]; [contradiction|].
  apply IH; [exact Hin|]. simpl in Hlen. lia.
Qed.

Lemma yahoo_download_run (self : DataLoader) (symbol : string) (f : RawFrame) σ :
  provider self = YFinanceProvider ->
  (forall kw, yf_download symbol kw = inr f) ->
  Loader._download self symbol σ
  = (<[fresh (dom σ) := mkDataFrame (raw_index f)
                          (zip (Yahoo.flat_columns (raw_labels f)) (raw_data f))]> σ,
     Ok (fresh (dom σ))).
Proof.
  intros Hp Hf. unfold Loader._download. rewrite Hp. simpl. unfold Yahoo.download.
  now rewrite Hf.
Qed.

End YahooProperties.

(** A download with [MultiIndex] labels is usable by the loader: when the
    labels of both downloads are tuples with distinct names at level 0,
    [Close] and [Volume] among them, and there is one data column for each,
    [load] over [YFinanceProvider] succeeds, finds the
    columns under their level-0 names, returns a table with the target and
    the columns [Close] and [Volume], and leaves every object the caller
    holds as it was. *)
Theorem yahoo_columns_are_found_by_their_first_level `{Yfinance}
    (self : DataLoader) (σ : heap) (fa fb : RawFrame) (ta tb : list (list string)) :
  provider self = YFinanceProvider ->
  (forall kw, yf_download (asset self) kw = inr fa) ->
  (forall kw, yf_download (benchmark_asset self) kw = inr fb) ->
  raw_labels fa = MultiIndex ta -> raw_labels fb = MultiIndex tb ->
  length ta = length (raw_data fa) -> length tb = length (raw_data fb) ->
  NoDup (Yahoo.get_level_values_0 ta) -> NoDup (Yahoo.get_level_values_0 tb) ->
  (exists ra, ["Close"; ra] ∈ ta) -> (exists ra, ["Volume"; ra] ∈ ta) ->
  (exists rb, ["Close"; rb] ∈ tb) -> (exists rb, ["Volume"; rb] ∈ tb) ->
  exists σ' l' d,
    Loader.load self σ = (σ', Ok l') /\ σ' !! l' = Some d
    /\ σ !! l' = None
    /\ Frame.has_col d "forward_return" = true
    /\ Frame.has_col d "Close" = true /\ Frame.has_col d "Volume" = true
    /\ forall k df, σ !! k = Some df -> σ' !! k = Some df.
Proof.
  intros Hp Ha Hb La Lb Na Nb _ _ [ra Ca] [ra' Va] [rb Cb] [rb' Vb].
  set (a := mkDataFrame (raw_index fa) (zip (Yahoo.flat_columns (raw_labels fa)) (raw_data fa))).
  set (b := mkDataFrame (raw_index fb) (zip (Yahoo.flat_columns (raw_labels fb)) (raw_data fb))).
  set (l := fresh (dom σ)). set (σ1 := <[l := a]> σ).
  set (lb := fresh (dom σ1)). set (σ2 := <[lb := b]> σ1).
  assert (D1 : Loader._download self (asset self) σ = (σ1, Ok l))
    by (now apply yahoo_download_run).
  assert (D2 : Loader._download self (benchmark_asset self) σ1 = (σ2, Ok lb))
    by (now apply yahoo_download_run).
  assert (Hne : lb ≠ l).
  { apply (fresh_ne σ1 l a). apply lookup_insert_eq. }
  assert (Hl : σ2 !! l = Some a).
  { unfold σ2. rewrite lookup_insert_ne by exact Hne. apply lookup_insert_eq. }
  assert (Hlb : σ2 !! lb = Some b) by apply lookup_insert_eq.
  assert (Hlevel : forall (ts : list (list string)) c r,
            [c; r] ∈ ts -> c ∈ Yahoo.get_level_values_0 ts).
  { intros ts c r Hin. unfold Yahoo.get_level_values_0.
    apply list_elem_of_In, in_map_iff. exists [c; r]. split; [reflexivity|].
    now apply list_elem_of_In. }
  assert (Hlen : forall (ts : list (list string)),
            length (Yahoo.get_level_values_0 ts) = length ts).
  { intros ts. apply length_map. }
  assert (HCa : has_close_volume a).
  { unfold has_close_volume, Frame.has_col, a. simpl. rewrite La. simpl.
    split; apply bool_decide_eq_true; apply lookup_col_zip;
      first [now apply (Hlevel ta _ ra)|now apply (Hlevel ta _ ra')|now rewrite Hlen]. }
  assert (HCb : has_close_volume b).
  { unfold has_close_volume, Frame.has_col, b. simpl. rewrite Lb. simpl.
    split; apply bool_decide_eq_true; apply lookup_col_zip;
      first [now apply (Hlevel tb _ rb)|now apply (Hlevel tb _ rb')|now rewrite Hlen]. }
  destruct (load_run_columns self σ σ1 σ2 l lb a b D1 D2 Hl Hlb HCa HCb)
    as (σf & a' & b' & Hl' & Hb' & Ca' & _ & Fa' & _ & _ & W & L).
  set (m := Frame.merge_left a' (Loader.benchmark_columns b')) in L.
  assert (Hold : forall k df, σ !! k = Some df -> σf !! k = Some df).
  { intros k df Hk.
    assert (Hkl : k ≠ l) by (intros ->; unfold l in Hk; rewrite fresh_unused in Hk; discriminate).
    assert (Hklb : k ≠ lb).
    { intros ->. assert (Hin : σ1 !! lb = Some df).
      { unfold σ1. rewrite lookup_insert_ne by (intros E; now apply Hkl). exact Hk. }
      unfold lb in Hin. rewrite fresh_unused in Hin. discriminate. }
    rewrite (W k Hkl Hklb). unfold σ2, σ1.
    rewrite !lookup_insert_ne by (intros E; first [now apply Hklb|now apply Hkl]).
    exact Hk. }
  assert (Hkept : forall n, Frame.has_col a' n = true -> Loader.is_benchmark_column n = false ->
                    Frame.has_col (cleaned m) n = true).
  { intros n Hn Hpre. rewrite has_col_cleaned.
    apply has_col_merge_left; [exact Hn|now apply unprefixed_not_benchmark]. }
  exists (<[fresh (dom σf) := cleaned m]> σf), (fresh (dom σf)), (cleaned m).
  split; [exact L|]. split; [apply lookup_insert_eq|].
  split.
  { destruct (σ !! fresh (dom σf)) as [df|] eqn:E; [|reflexivity].
    apply Hold in E. rewrite fresh_unused in E. discriminate. }
  split; [now apply Hkept|].
  split; [apply Hkept; [apply Ca'|reflexivity]|].
  split; [apply Hkept; [apply Ca'|reflexivity]|].
  intros k df Hk. rewrite lookup_insert_ne; [now apply Hold|].
  intros E. apply Hold in Hk. rewrite <- E, fresh_unused in Hk. discriminate.
Qed.

(** * Examples: the theorems at concrete inputs *)

Section Examples.
#[local] Existing Instance sample_numpy.

Example shift_back : Series.shift (-1) [Fin 1; Fin 2; Fin 3] = [Fin 2; Fin 3; NaN].
Proof. reflexivity. Qed.

Example shift_fwd : Series.shift 2 [Fin 1; Fin 2; Fin 3] = [NaN; NaN; Fin 1].
Proof. reflexivity. Qed.

Example pct_change_zero_den :
  Series.pct_change 1 [Fin 0; Fin 2; Fin 0; Fin 0] = [NaN; PInf; Fin (0 / 2 + - (1)); NaN].
Proof. reflexivity. Qed.

Example ewm_adjusted :
  Series.ewm_mean 1 true [Fin 1; Fin 3] = [Fin 1; Fin ((1 * (1 - 1 / (1 + 1)) * 1 + 1 * 3) / (1 * (1 - 1 / (1 + 1)) + 1))].
Proof. reflexivity. Qed.

Example interpolate_both :
  Series.interpolate [NaN; Fin 2; NaN; NaN; Fin 8; NaN]
  = [Fin 2; Fin 2;
     Fin ((8 + - 2) / inject_Z 3 * inject_Z 1 + 2);
     Fin ((8 + - 2) / inject_Z 3 * inject_Z 2 + 2);
     Fin 8; Fin 8].
Proof. reflexivity. Qed.

Example interpolate_all_undefined : Series.interpolate [NaN; NaN] = [NaN; NaN].
Proof. reflexivity. Qed.

Example merge_gap :
  Frame.merge_left
    (mkDataFrame [1; 2; 3] [("Close", [Fin 10; Fin 11; Fin 12])])
    (mkDataFrame [1; 3] [("benchmark_return_1", [Fin 5; Fin 7])])
  = mkDataFrame [1; 2; 3]
      [("Close", [Fin 10; Fin 11; Fin 12]);
       ("benchmark_return_1", [Fin 5; NaN; Fin 7])].
Proof. reflexivity. Qed.

Example dropna_rows :
  Frame.dropna (mkDataFrame [1; 2; 3] [("a", [Fin 1; NaN; Fin 3]); ("b", [Fin 1; Fin 2; Fin 3])])
  = mkDataFrame [1; 3] [("a", [Fin 1; Fin 3]); ("b", [Fin 1; Fin 3])].
Proof. reflexivity. Qed.

(** C4, the claim as stated: the loader has no copy mode; after [load] the
    asset frame the provider handed out has three more columns. *)
Lemma C4_load_writes_into_the_providers_frame :
  Frame.names <$> pair_store !! 1%positive = Some ["Close"; "Volume"]
  /\ snd (Loader.load pair_loader pair_store) = Ok 3%positive
  /\ Frame.names <$> fst (Loader.load pair_loader pair_store) !! 1%positive
     = Some ["Close"; "Volume"; "forward_return"; "return_1"; "volume_1"].
Proof. repeat split; vm_compute; reflexivity. Qed.

(** C6, the claim as stated: timestamp 1 exists in the benchmark frame, and
    the merged cell of [benchmark_return_1] at timestamp 1 is undefined. *)
Lemma C6_undefined_cell_at_a_benchmark_timestamp :
  index asset_frame = [1; 2; 3]
  /\ index benchmark_frame = [1; 3]
  /\ (result_frame (merge_step pair_loader pair_store)
        ≫= fun m => map Cell.isna <$> Frame.lookup_col "benchmark_return_1" (columns m))
     = Some [true; true; false].
Proof. repeat split; vm_compute; reflexivity. Qed.

(** C8, the claim as stated: a volatility stage without time frames does not
    fail on a frame without [return_1]. *)
Lemma C8_no_time_frame_no_error :
  Frame.has_col asset_frame "return_1" = false
  /\ snd (apply (Volatility (mkVolatility [] false)) 1%positive pair_store)
     = Ok 3%positive.
Proof. split; vm_compute; reflexivity. Qed.

(** C9, the claim as stated: a window of 10 rows on a series of 3 rows is
    accepted by the volatility stage, and so is a horizon of 5 bars on a
    history of 3 bars by the loader. *)
Lemma C9_window_longer_than_the_series :
  Frame.nrows example_frame = 3%nat
  /\ snd (apply (Volatility (mkVolatility [10] false)) 1%positive example_store)
     = Ok 2%positive
  /\ (result_frame (apply (Volatility (mkVolatility [10] false)) 1%positive example_store)
        ≫= fun m => Frame.lookup_col "volatility_10" (columns m))
     = Some [NaN; NaN; NaN]
  /\ Frame.nrows (ohlcv 3) = 3%nat
  /\ snd (Loader.load (scenario_loader 3 [5]) ∅) = Ok 3%positive.
Proof. repeat split; vm_compute; reflexivity. Qed.

End Examples.

Section Witnesses.
#[local] Existing Instance sample_numpy.

Lemma asset_frame_well_formed : well_formed asset_frame.
Proof.
  intros n s Hin. unfold asset_frame in Hin. simpl in Hin.
  split_membership Hin; injection Hin as -> ->; reflexivity.
Defined.

Lemma asset_frame_unprefixed :
  forall n, n ∈ Frame.names asset_frame -> Loader.is_benchmark_column n = false.
Proof.
  intros n Hin. unfold asset_frame, Frame.names in Hin. simpl in Hin.
  split_membership Hin; subst n; reflexivity.
Defined.

Lemma benchmark_index_distinct : NoDup (index benchmark_frame).
Proof.
  unfold benchmark_frame. simpl.
  apply NoDup_cons. split.
  - intros Hin. split_membership Hin. discriminate Hin.
  - apply NoDup_cons. split; [intros Hin; inversion Hin|apply NoDup_nil_2].
Defined.

Lemma C3_witness :
  exists fr df',
    Loader.derive_target 1%positive pair_store = (<[1%positive := df']> pair_store, Ok tt)
    /\ Frame.getitem df' "forward_return" = Ok fr
    /\ length fr = length [Fin 10; Fin 11; Fin 12]
    /\ (forall i a b,
          [Fin 10; Fin 11; Fin 12] !! i = Some a ->
          [Fin 10; Fin 11; Fin 12] !! S i = Some b ->
          fr !! i = Some (Cell.sub (Cell.div b a) (Fin 1)))
    /\ (forall i, S i = length [Fin 10; Fin 11; Fin 12] -> fr !! i = Some NaN)
    /\ ignores "forward_return"
         (Loader.derive_features pair_loader 1%positive 2%positive).
Proof.
  apply (C3_forward_return_is_next_bar_return pair_loader pair_store
           1%positive 2%positive asset_frame [Fin 10; Fin 11; Fin 12]);
    reflexivity.
Defined.

Lemma C7_witness :
  match then_ (Volatility VolatilityIndicator_default) (MACD MACDIndicator_default)
          1%positive example_store,
        then_ (MACD MACDIndicator_default) (Volatility VolatilityIndicator_default)
          1%positive example_store
  with
  | (σ12, Ok l12), (σ21, Ok l21) =>
      exists d12 d21,
        σ12 !! l12 = Some d12 /\ σ21 !! l21 = Some d21 /\ same_table d12 d21
        /\ forall n,
             n ∉ written (Volatility VolatilityIndicator_default) ->
             n ∉ written (MACD MACDIndicator_default) ->
             Frame.lookup_col n (columns d12) = Frame.lookup_col n (columns example_frame)
  | (_, Raise _), (_, Raise _) => True
  | _, _ => False
  end
  /\ ((exists l1, snd (apply (Volatility VolatilityIndicator_default)
                         1%positive example_store) = Ok l1) ->
      (exists l2, snd (apply (MACD MACDIndicator_default)
                         1%positive example_store) = Ok l2) ->
      exists l12, snd (then_ (Volatility VolatilityIndicator_default)
                         (MACD MACDIndicator_default) 1%positive example_store) = Ok l12).
Proof.
  apply (C7_stages_commute (Volatility VolatilityIndicator_default)
           (MACD MACDIndicator_default) example_store 1%positive example_frame);
    [reflexivity|reflexivity|reflexivity|discriminate].
Defined.

Lemma C8_witness :
  (forall c,
     snd (apply (RSI RSIIndicator_default) 1%positive example_store)
     = Raise (MissingColumn c) <->
     c = prerequisite (RSI RSIIndicator_default)
     /\ Frame.has_col example_frame (prerequisite (RSI RSIIndicator_default)) = false
     /\ reads_prerequisite (RSI RSIIndicator_default) = true)
  /\ (Frame.has_col example_frame (prerequisite (RSI RSIIndicator_default)) = true ->
      forall c,
        snd (apply (RSI RSIIndicator_default) 1%positive example_store)
        ≠ Raise (MissingColumn c)).
Proof.
  apply (C8_missing_prerequisite (RSI RSIIndicator_default) example_store
           1%positive example_frame).
  reflexivity.
Defined.

Lemma C9_witness :
  (Series.rolling_std 10 [Fin 1; Fin 2; Fin 3] = Raise InvalidWindow <-> 10 < 0)
  /\ (0 <= 10 -> exists ys,
        Series.rolling_std 10 [Fin 1; Fin 2; Fin 3] = Ok ys
        /\ length ys = length [Fin 1; Fin 2; Fin 3]
        /\ (10 = 0 \/ Z.of_nat (length [Fin 1; Fin 2; Fin 3]) < 10 ->
            Forall (fun y => y = NaN) ys))
  /\ length (Series.pct_change 10 [Fin 1; Fin 2; Fin 3]) = length [Fin 1; Fin 2; Fin 3]
  /\ (Z.of_nat (length [Fin 1; Fin 2; Fin 3]) <= Z.abs 10 ->
      Forall (fun y => y = NaN) (Series.pct_change 10 [Fin 1; Fin 2; Fin 3]))
  /\ (snd (apply VolatilityIndicator_default 1%positive example_store) = Raise InvalidWindow
      <-> Exists (fun i => i < 0) (vol_timeframes VolatilityIndicator_default))
  /\ (snd (apply BollingerBandsIndicator_default 1%positive example_store)
      = Raise InvalidWindow
      <-> bb_window BollingerBandsIndicator_default < 1)
  /\ raises_only (fun e => e ≠ InvalidWindow)
       (Loader.derive_features pair_loader 1%positive 2%positive).
Proof.
  apply (C9_windows_are_not_checked_against_length 10 [Fin 1; Fin 2; Fin 3]
           VolatilityIndicator_default BollingerBandsIndicator_default pair_loader
           example_store 1%positive 2%positive example_frame);
    reflexivity.
Defined.

Lemma asset_frame_columns : has_close_volume asset_frame.
Proof. split; reflexivity. Defined.

Lemma benchmark_frame_columns : has_close_volume benchmark_frame.
Proof. split; reflexivity. Defined.

Lemma C4_witness :
  (in_place (RSI RSIIndicator_default) = false ->
     (forall k d, example_store !! k = Some d ->
        fst (apply (RSI RSIIndicator_default) 1%positive example_store) !! k = Some d)
     /\ forall l',
          snd (apply (RSI RSIIndicator_default) 1%positive example_store) = Ok l' ->
          example_store !! l' = None /\ l' ≠ 1%positive
          /\ forall c x,
               fst (Obj.setitem l' c x
                      (fst (apply (RSI RSIIndicator_default) 1%positive example_store)))
               !! 1%positive = Some example_frame)
  /\ (in_place (RSI RSIIndicator_default) = true ->
      forall l',
        snd (apply (RSI RSIIndicator_default) 1%positive example_store) = Ok l' ->
        l' = 1%positive)
  /\ exists a', fst (Loader.load pair_loader pair_store) !! 1%positive = Some a'
                /\ Frame.has_col a' "forward_return" = true.
Proof.
  apply (C4_copy_mode_leaves_the_input_unchanged (RSI RSIIndicator_default)
           example_store 1%positive example_frame
           pair_loader pair_store pair_store pair_store 1%positive 2%positive
           asset_frame benchmark_frame);
    first [reflexivity|exact asset_frame_columns|exact benchmark_frame_columns].
Defined.

Lemma C5_witness :
  (forall σ0, snd (Loader.load pair_loader σ0) ≠ Raise EmptyResult)
  /\ exists σf a' b' merged m,
       (let* _ := Loader.derive_target 1%positive in
        Loader.derive_features pair_loader 1%positive 2%positive) pair_store
       = (σf, Ok tt)
       /\ σf !! 1%positive = Some a' /\ σf !! 2%positive = Some b'
       /\ merged = Frame.merge_left a' (Loader.benchmark_columns b')
       /\ m = Frame.replace_inf (Frame.interpolate merged)
       /\ Loader.load pair_loader pair_store
          = (<[fresh (dom σf) := Frame.dropna m]> σf, Ok (fresh (dom σf)))
       /\ (Frame.nrows (Frame.dropna m) = 0%nat <->
           forall i, (i < Frame.nrows merged)%nat ->
             exists n s, (n, s) ∈ columns m /\ Cell.isna (default NaN (s !! i)) = true)
       /\ (forall n s, (n, s) ∈ columns merged -> Forall (fun x => x = NaN) s ->
             Frame.nrows (Frame.dropna m) = 0%nat)
       /\ (forall i, i ∈ timeframes pair_loader ->
             Z.of_nat (length [Fin 10; Fin 11; Fin 12]) <= Z.abs i ->
             Frame.nrows (Frame.dropna m) = 0%nat)
       /\ (timeframes pair_loader ≠ [] ->
           (forall t, t ∈ index asset_frame -> t ∉ index benchmark_frame) ->
             Frame.nrows (Frame.dropna m) = 0%nat)
       /\ (fillable merged -> Frame.nrows (Frame.dropna m) = Frame.nrows merged).
Proof.
  apply (C5_load_returns_the_empty_table pair_loader pair_store pair_store pair_store
           1%positive 2%positive asset_frame benchmark_frame [Fin 10; Fin 11; Fin 12]);
    first [reflexivity|exact asset_frame_columns|exact benchmark_frame_columns].
Defined.

Lemma C6_witness :
  exists m,
    Loader.merge_benchmark 1%positive 2%positive pair_store
    = (<[fresh (dom pair_store) := m]> pair_store, Ok (fresh (dom pair_store)))
    /\ index m = index asset_frame
    /\ Frame.names m
       = (Frame.names asset_frame
          ++ List.filter Loader.is_benchmark_column (Frame.names benchmark_frame))%list
    /\ (forall n, n ∈ Frame.names asset_frame ->
          Frame.lookup_col n (columns m) = Frame.lookup_col n (columns asset_frame))
    /\ (forall n s, Loader.is_benchmark_column n = true ->
          Frame.lookup_col n (columns benchmark_frame) = Some s ->
          exists s', Frame.lookup_col n (columns m) = Some s'
            /\ length s' = Frame.nrows asset_frame
            /\ forall i t, index asset_frame !! i = Some t ->
                 (t ∉ index benchmark_frame -> s' !! i = Some NaN)
                 /\ (forall j, index benchmark_frame !! j = Some t ->
                       s' !! i = Some (default NaN (s !! j)))).
Proof.
  apply (C6_merge_left_joins_the_benchmark_columns pair_store 1%positive 2%positive
           asset_frame benchmark_frame);
    first [reflexivity|exact benchmark_index_distinct|exact asset_frame_well_formed
          |exact asset_frame_unprefixed].
Defined.

Lemma C10_witness :
  exists σ' l' df' rsi avg_loss,
    apply RSIIndicator_default 1%positive
      {[1%positive := returns_frame [NInf; Fin (-1 # 2); Fin (1 # 10)]]} = (σ', Ok l')
    /\ σ' !! l' = Some df'
    /\ Frame.getitem df' "rsi" = Ok rsi
    /\ Series.ewm_com (rsi_window RSIIndicator_default) true
         (negative_part [NInf; Fin (-1 # 2); Fin (1 # 10)])
       = Ok avg_loss
    /\ length rsi = length [NInf; Fin (-1 # 2); Fin (1 # 10)]
    /\ length avg_loss = length [NInf; Fin (-1 # 2); Fin (1 # 10)]
    /\ (forall i, (i < length [NInf; Fin (-1 # 2); Fin (1 # 10)])%nat -> exists x m,
          rsi !! i = Some x /\ avg_loss !! i = Some m
          /\ (x = NaN \/ exists q, x = Fin q /\ (0 <= q <= 100)%Q)
          /\ (x = NaN <-> m = NaN \/ exists q, m = Fin q /\ (q == 0)%Q)
          /\ (m = NaN <->
              Forall (fun c => c = NInf) (take (S i) [NInf; Fin (-1 # 2); Fin (1 # 10)]))
          /\ (forall q, m = Fin q ->
                0 < rsi_window RSIIndicator_default
                \/ [NInf; Fin (-1 # 2); Fin (1 # 10)] !! i <> Some NInf ->
                (q == weighted_mean_seen (decay (inject_Z (rsi_window RSIIndicator_default)))
                        (rev (take (S i)
                                (map loss_seen [NInf; Fin (-1 # 2); Fin (1 # 10)]))))%Q)
          /\ (Forall (fun c => c <> NInf) (take (S i) [NInf; Fin (-1 # 2); Fin (1 # 10)]) ->
                exists q, m = Fin q
                  /\ (q == weighted_mean (decay (inject_Z (rsi_window RSIIndicator_default)))
                            (rev (take (S i)
                                    (map loss [NInf; Fin (-1 # 2); Fin (1 # 10)]))))%Q))
    /\ (0 < rsi_window RSIIndicator_default ->
        forall k, (0 < pow (decay (inject_Z (rsi_window RSIIndicator_default))) k)%Q).
Proof.
  apply (C10_rsi_is_undefined_or_between_0_and_100 RSIIndicator_default
           {[1%positive := returns_frame [NInf; Fin (-1 # 2); Fin (1 # 10)]]}
           1%positive (returns_frame [NInf; Fin (-1 # 2); Fin (1 # 10)])
           [NInf; Fin (-1 # 2); Fin (1 # 10)]).
  - reflexivity.
  - reflexivity.
  - simpl. lia.
Defined.

Lemma example_frame_distinct : NoDup (index example_frame).
Proof.
  unfold example_frame. simpl.
  apply NoDup_cons. split; [intros Hin; split_membership Hin; discriminate Hin|].
  apply NoDup_cons. split; [intros Hin; split_membership Hin; discriminate Hin|].
  apply NoDup_cons. split; [intros Hin; inversion Hin|apply NoDup_nil_2].
Defined.

Lemma example_frame_fillable : fillable example_frame.
Proof.
  intros n s Hin. unfold example_frame in Hin. simpl in Hin.
  split_membership Hin; injection Hin as -> ->;
    (split; [reflexivity|split; [repeat constructor|]]).
  - apply Exists_cons_hd. reflexivity.
  - apply Exists_cons_hd. reflexivity.
  - apply Exists_cons_tl, Exists_cons_hd. reflexivity.
Defined.

Lemma C1_witness :
  (forall i t, index example_frame !! i = Some t ->
     t ∈ index (cleaned example_frame) <->
     Frame.row_complete (Frame.replace_inf (Frame.interpolate example_frame)) i = true)
  /\ index (cleaned example_frame) = index example_frame.
Proof.
  destruct (C1_cleaning_fills_before_it_drops example_frame) as (_ & Hrows & Hfill & _).
  split.
  - exact (Hrows example_frame_distinct).
  - exact (Hfill example_frame_fillable).
Defined.

End Witnesses.

Section FurtherWitnesses.
#[local] Existing Instance sample_numpy.
#[local] Existing Instance sample_sklearn.
#[local] Existing Instance sample_yfinance.

Lemma four_kinds_distinct :
  NoDup (map kind_of [Volatility VolatilityIndicator_default; MACD MACDIndicator_default;
                      RSI RSIIndicator_default; Bollinger BollingerBandsIndicator_default]).
Proof.
  simpl.
  apply NoDup_cons. split; [intros Hin; split_membership Hin; discriminate Hin|].
  apply NoDup_cons. split; [intros Hin; split_membership Hin; discriminate Hin|].
  apply NoDup_cons. split; [intros Hin; split_membership Hin; discriminate Hin|].
  apply NoDup_cons. split; [intros Hin; inversion Hin|apply NoDup_nil_2].
Defined.

Lemma stages_apply_in_any_order_witness :
  match apply_all [Volatility VolatilityIndicator_default; MACD MACDIndicator_default;
                   RSI RSIIndicator_default; Bollinger BollingerBandsIndicator_default]
          1%positive example_store,
        apply_all [Bollinger BollingerBandsIndicator_default; RSI RSIIndicator_default;
                   MACD MACDIndicator_default; Volatility VolatilityIndicator_default]
          1%positive example_store
  with
  | (σ1, Ok l1), (σ2, Ok l2) =>
      exists d1 d2, σ1 !! l1 = Some d1 /\ σ2 !! l2 = Some d2 /\ same_table d1 d2
  | (_, Raise _), (_, Raise _) => True
  | _, _ => False
  end.
Proof.
  apply (stages_apply_in_any_order _ _ example_store 1%positive example_frame).
  - reflexivity.
  - apply (Permutation_rev [Volatility VolatilityIndicator_default; MACD MACDIndicator_default;
                            RSI RSIIndicator_default; Bollinger BollingerBandsIndicator_default]).
  - exact four_kinds_distinct.
Defined.

Lemma volatility_columns_witness :
  exists σ' l' d,
    apply VolatilityIndicator_default 1%positive example_store = (σ', Ok l')
    /\ σ' !! l' = Some d
    /\ index d = index example_frame
    /\ (forall i, i ∈ vol_timeframes VolatilityIndicator_default ->
          exists v, Series.rolling_std i (Series.log1p [NaN; Fin (1 # 10); Fin (1 # 11)]) = Ok v
                    /\ length v = length [NaN; Fin (1 # 10); Fin (1 # 11)]
                    /\ Frame.getitem d (volatility_column i) = Ok v)
    /\ (forall n, n ∉ map volatility_column (vol_timeframes VolatilityIndicator_default) ->
          Frame.lookup_col n (columns d) = Frame.lookup_col n (columns example_frame)).
Proof.
  apply (volatility_columns_hold_the_rolling_deviation VolatilityIndicator_default
           example_store 1%positive example_frame [NaN; Fin (1 # 10); Fin (1 # 11)]).
  - reflexivity.
  - reflexivity.
  - repeat (constructor; [lia|]). constructor.
Defined.

Lemma volatility_in_place_witness :
  apply (mkVolatility ([5] ++ (-1) :: [10]) true) 1%positive example_store
  = (fst (apply (mkVolatility [5] true) 1%positive example_store), Raise InvalidWindow)
  /\ snd (apply (mkVolatility [5] true) 1%positive example_store) = Ok 1%positive
  /\ (forall i, i ∈ [5] ->
        holds_at (fst (apply (mkVolatility ([5] ++ (-1) :: [10]) true) 1%positive example_store))
          1%positive (fun d => Frame.has_col d (volatility_column i) = true))
  /\ fst (apply (mkVolatility ([5] ++ (-1) :: [10]) false) 1%positive example_store)
     !! 1%positive = Some example_frame.
Proof.
  apply (volatility_in_place_keeps_what_it_wrote_before_failing [5] [10] (-1)
           example_store 1%positive example_frame).
  - reflexivity.
  - reflexivity.
  - repeat (constructor; [lia|]). constructor.
  - lia.
Defined.

Lemma macd_witness :
  exists σ' l' d line signal hist,
    apply MACDIndicator_default 1%positive example_store = (σ', Ok l')
    /\ σ' !! l' = Some d
    /\ Frame.getitem d "macd_line" = Ok (map Fin line)
    /\ Frame.getitem d "macd_signal_line" = Ok (map Fin signal)
    /\ Frame.getitem d "macd_histogram" = Ok (map Fin hist)
    /\ length line = length [10%Q; 11%Q; 12%Q]
    /\ length signal = length [10%Q; 11%Q; 12%Q]
    /\ length hist = length [10%Q; 11%Q; 12%Q]
    /\ (forall x, line !! 0%nat = Some x \/ signal !! 0%nat = Some x \/ hist !! 0%nat = Some x ->
          (x == 0)%Q)
    /\ (forall c, Forall (fun q => (q == c)%Q) [10%Q; 11%Q; 12%Q] ->
          Forall (fun x => (x == 0)%Q) line
          /\ Forall (fun x => (x == 0)%Q) signal
          /\ Forall (fun x => (x == 0)%Q) hist).
Proof.
  apply (macd_of_finite_prices MACDIndicator_default example_store 1%positive example_frame
           [10%Q; 11%Q; 12%Q]); reflexivity.
Defined.

Lemma bollinger_witness :
  exists σ' l' d mid lower upper,
    apply (mkBollinger 2 false) 1%positive example_store = (σ', Ok l')
    /\ σ' !! l' = Some d
    /\ Frame.getitem d "bollinger_mid" = Ok (map Fin mid)
    /\ Frame.getitem d "bollinger_lower" = Ok lower
    /\ Frame.getitem d "bollinger_upper" = Ok upper
    /\ length mid = length [10%Q; 11%Q; 12%Q]
    /\ length lower = length [10%Q; 11%Q; 12%Q]
    /\ length upper = length [10%Q; 11%Q; 12%Q]
    /\ forall i m, mid !! i = Some m ->
         (m == weighted_mean (decay ((inject_Z (bb_window (mkBollinger 2 false)) - 1) / 2))
                 (rev (take (S i) [10%Q; 11%Q; 12%Q])))%Q
         /\ (Z.of_nat i + 1 < bb_window (mkBollinger 2 false) ->
             lower !! i = Some NaN /\ upper !! i = Some NaN)
         /\ (bb_window (mkBollinger 2 false) <= Z.of_nat i + 1 ->
             exists lo up,
               lower !! i = Some (Fin lo) /\ upper !! i = Some (Fin up)
               /\ (up - m == m - lo)%Q
               /\ ((forall q, 0 <= q -> 0 <= np_sqrt q)%Q -> (lo <= m <= up)%Q)).
Proof.
  apply (bollinger_bands_of_finite_prices (mkBollinger 2 false) example_store 1%positive
           example_frame [10%Q; 11%Q; 12%Q]).
  - reflexivity.
  - reflexivity.
  - simpl. lia.
Defined.

Lemma one_bar_witness :
  (vol_timeframes (mkVolatility [1] false) = [1] ->
   exists σ' l' d,
     apply (mkVolatility [1] false) 1%positive example_store = (σ', Ok l')
     /\ σ' !! l' = Some d
     /\ Frame.getitem d "volatility_1"
        = Ok (replicate (length [NaN; Fin (1 # 10); Fin (1 # 11)]) NaN))
  /\ (bb_window (mkBollinger 1 false) = 1 ->
      exists σ' l' d,
        apply (mkBollinger 1 false) 1%positive example_store = (σ', Ok l')
        /\ σ' !! l' = Some d
        /\ Frame.getitem d "bollinger_lower"
           = Ok (replicate (length [Fin 10; Fin 11; Fin 12]) NaN)
        /\ Frame.getitem d "bollinger_upper"
           = Ok (replicate (length [Fin 10; Fin 11; Fin 12]) NaN)).
Proof.
  apply (one_bar_windows_give_undefined_columns (mkVolatility [1] false) (mkBollinger 1 false)
           example_store 1%positive example_frame
           [NaN; Fin (1 # 10); Fin (1 # 11)] [Fin 10; Fin 11; Fin 12]); reflexivity.
Defined.

Lemma rsi_one_sided_witness :
  exists σ' l' d rsi,
    apply RSIIndicator_default 1%positive example_store = (σ', Ok l')
    /\ σ' !! l' = Some d
    /\ Frame.getitem d "rsi" = Ok rsi
    /\ length rsi = length [NaN; Fin (1 # 10); Fin (1 # 11)]
    /\ (Forall (fun x => Cell.ltb x (Fin 0) = false) [NaN; Fin (1 # 10); Fin (1 # 11)] ->
        rsi = replicate (length [NaN; Fin (1 # 10); Fin (1 # 11)]) NaN)
    /\ (forall qs, [NaN; Fin (1 # 10); Fin (1 # 11)] = map Fin qs ->
        Forall (fun q => (q < 0)%Q) qs ->
        Forall (fun x => exists q, x = Fin q /\ (q == 0)%Q) rsi).
Proof.
  apply (rsi_of_one_sided_returns RSIIndicator_default example_store 1%positive
           example_frame [NaN; Fin (1 # 10); Fin (1 # 11)]).
  - reflexivity.
  - reflexivity.
  - simpl. lia.
Defined.

Lemma rsi_undefined_return_witness :
  rsi_column
    (apply RSIIndicator_default 1%positive
       (<[1%positive := Frame.setitem example_frame "return_1"
                          (Series.where_ (fun x => negb (Cell.isna x)) (Fin 0)
                             [NaN; Fin (1 # 10); Fin (1 # 11)])]> example_store))
  = rsi_column (apply RSIIndicator_default 1%positive example_store).
Proof.
  apply (rsi_counts_an_undefined_return_as_zero RSIIndicator_default example_store
           1%positive example_frame [NaN; Fin (1 # 10); Fin (1 # 11)]); reflexivity.
Defined.

Lemma load_columns_witness :
  exists σ' l' d,
    Loader.load pair_loader pair_store = (σ', Ok l') /\ σ' !! l' = Some d
    /\ l' ≠ 1%positive /\ l' ≠ 2%positive
    /\ Frame.has_col d "forward_return" = true
    /\ (forall n, Frame.has_col asset_frame n = true ->
          Loader.is_benchmark_column n = false -> Frame.has_col d n = true)
    /\ (forall i, i ∈ timeframes pair_loader ->
          Frame.has_col d (Loader.return_column i) = true
          /\ Frame.has_col d (Loader.volume_column i) = true
          /\ (Frame.has_col d (Loader.benchmark_return_column i) = true
              \/ Frame.has_col d (Loader.benchmark_return_column i +:+ "_y") = true)
          /\ (Frame.has_col d (Loader.benchmark_volume_column i) = true
              \/ Frame.has_col d (Loader.benchmark_volume_column i +:+ "_y") = true))
    /\ (1 ∈ timeframes pair_loader ->
        forall (s : Stage) c, snd (apply s l' σ') ≠ Raise (MissingColumn c)).
Proof.
  apply (load_returns_the_derived_columns pair_loader pair_store pair_store pair_store
           1%positive 2%positive asset_frame benchmark_frame);
    first [reflexivity|exact asset_frame_columns|exact benchmark_frame_columns].
Defined.

Lemma volume_needed_witness :
  timeframes (Loader.init (ref_provider [("ASSET", 1%positive)]) "ASSET" None None None
                "1d" (Some (@nil Z))) ≠ []
  /\ (Some (@nil Z) = None \/ Some (@nil Z) = Some [] ->
      timeframes (Loader.init (ref_provider [("ASSET", 1%positive)]) "ASSET" None None None
                    "1d" (Some (@nil Z)))
      = [1; 2; 5; 10; 20; 40])
  /\ (forall t, Some (@nil Z) = Some t -> t ≠ [] ->
      timeframes (Loader.init (ref_provider [("ASSET", 1%positive)]) "ASSET" None None None
                    "1d" (Some (@nil Z))) = t)
  /\ (@None string = None \/ None = Some "" ->
      benchmark_asset (Loader.init (ref_provider [("ASSET", 1%positive)]) "ASSET" None None
                         None "1d" (Some (@nil Z))) = "ASSET")
  /\ snd (Loader.load (Loader.init (ref_provider [("ASSET", 1%positive)]) "ASSET" None None
                         None "1d" (Some (@nil Z))) close_only_store)
     = Raise (MissingColumn "Volume").
Proof.
  apply (a_loader_always_needs_volume (ref_provider [("ASSET", 1%positive)]) "ASSET"
           None None None "1d" (Some (@nil Z)) _
           close_only_store close_only_store close_only_store 1%positive 1%positive
           close_only_frame); reflexivity.
Defined.

Lemma prices_non_zero : Forall (fun q => ~ (q == 0)%Q) [10%Q; 11%Q; 12%Q].
Proof. repeat (constructor; [intros E; vm_compute in E; discriminate E|]). constructor. Defined.

Lemma interpolation_witness :
  (exists a b,
     [10%Q; 11%Q; 12%Q] !! 1%nat = Some a /\ [10%Q; 11%Q; 12%Q] !! 2%nat = Some b
     /\ Loader.forward_return (map Fin [10%Q; 11%Q; 12%Q]) !! 2%nat = Some NaN
     /\ Series.interpolate (Loader.forward_return (map Fin [10%Q; 11%Q; 12%Q])) !! 2%nat
        = Some (Fin (b / a - 1))
     /\ Series.interpolate (Loader.forward_return (map Fin [10%Q; 11%Q; 12%Q])) !! 1%nat
        = Some (Fin (b / a - 1)))
  /\ (exists a b,
        [10%Q; 11%Q; 12%Q] !! 0%nat = Some a /\ [10%Q; 11%Q; 12%Q] !! 2%nat = Some b
        /\ forall j, (j <= 2)%nat ->
             Series.interpolate (Series.pct_change (Z.of_nat 2) (map Fin [10%Q; 11%Q; 12%Q]))
             !! j = Some (Fin (b / a - 1))
             /\ (j < 2 ->
                 Series.pct_change (Z.of_nat 2) (map Fin [10%Q; 11%Q; 12%Q]) !! j
                 = Some NaN)%nat).
Proof.
  apply (interpolation_copies_the_nearest_return [10%Q; 11%Q; 12%Q] 2 1).
  - exact prices_non_zero.
  - reflexivity.
  - lia.
Defined.

Lemma target_frame_well_formed : well_formed target_frame.
Proof.
  intros n s Hin. unfold target_frame in Hin. simpl in Hin.
  split_membership Hin; injection Hin as -> ->; reflexivity.
Defined.

Lemma target_frame_distinct : NoDup (Frame.names target_frame).
Proof.
  unfold target_frame, Frame.names. simpl.
  apply NoDup_cons. split; [intros Hin; split_membership Hin; discriminate Hin|].
  apply NoDup_cons. split; [intros Hin; inversion Hin|apply NoDup_nil_2].
Defined.

Lemma samples_witness :
  exists pad,
    Scalers.__init__ target_frame None = Scalers.Done pad
    /\ Scalers.__len__ pad = Frame.nrows target_frame
    /\ Scalers.frame pad = target_frame
    /\ Scalers.targets pad = [Fin (1 # 10); Fin (1 # 11); Fin (1 # 11)]
    /\ Scalers.features_scaled pad = [[Fin 10]; [Fin 11]; [Fin 12]]
    /\ Scalers.features pad = Scalers.drop_columns target_frame ["forward_return"]
    /\ forall i, (i < Frame.nrows target_frame)%nat ->
         exists t row,
           [Fin (1 # 10); Fin (1 # 11); Fin (1 # 11)] !! i = Some t
           /\ [[Fin 10]; [Fin 11]; [Fin 12]] !! i = Some row
           /\ Scalers.__getitem__ pad (Z.of_nat i) = Scalers.Done (t :: row).
Proof.
  apply (samples_are_the_target_then_the_scaled_features target_frame None
           [Fin (1 # 10); Fin (1 # 11); Fin (1 # 11)] [[Fin 10]; [Fin 11]; [Fin 12]]).
  - exact target_frame_distinct.
  - exact target_frame_well_formed.
  - reflexivity.
  - reflexivity.
  - reflexivity.
Defined.

Lemma loaded_table_witness :
  exists σ' l' d ts,
    Loader.load pair_loader pair_store = (σ', Ok l') /\ σ' !! l' = Some d
    /\ Frame.getitem d "forward_return" = Ok ts
    /\ Forall (fun x => Cell.isfinite x = true) ts
    /\ forall sc,
         (forall msg, Scalers.__init__ d sc ≠ Scalers.Fail (Scalers.AssertionError msg))
         /\ forall pad, Scalers.__init__ d sc = Scalers.Done pad ->
              Scalers.__len__ pad = Frame.nrows d
              /\ Scalers.targets pad = ts
              /\ Forall (fun row => exists t rest, row = t :: rest
                                      /\ Cell.isfinite t = true) (Scalers._data pad).
Proof.
  apply (loaded_table_feeds_the_scaler pair_loader pair_store pair_store pair_store
           1%positive 2%positive asset_frame benchmark_frame);
    first [reflexivity|exact asset_frame_columns|exact benchmark_frame_columns].
Defined.

Lemma alias_witness :
  exists σ' l' d a',
    Loader.load alias_loader alias_store = (σ', Ok l') /\ σ' !! l' = Some d
    /\ σ' !! 1%positive = Some a'
    /\ forall i, i ∈ timeframes alias_loader ->
         Frame.has_col a' (Loader.benchmark_return_column i) = true
         /\ Frame.has_col a' (Loader.benchmark_volume_column i) = true
         /\ Frame.has_col d (Loader.benchmark_return_column i) = false
         /\ Frame.has_col d (Loader.benchmark_return_column i +:+ "_x") = true
         /\ Frame.has_col d (Loader.benchmark_return_column i +:+ "_y") = true
         /\ Frame.has_col d (Loader.benchmark_volume_column i) = false
         /\ Frame.has_col d (Loader.benchmark_volume_column i +:+ "_x") = true
         /\ Frame.has_col d (Loader.benchmark_volume_column i +:+ "_y") = true.
Proof.
  apply (one_object_for_asset_and_benchmark alias_loader alias_store alias_store alias_store
           1%positive asset_frame);
    first [reflexivity|exact asset_frame_columns].
Defined.

Lemma merge_rows_witness :
  exists m,
    Loader.merge_benchmark 1%positive 2%positive pair_store
    = (<[fresh (dom pair_store) := m]> pair_store, Ok (fresh (dom pair_store)))
    /\ Frame.nrows m
       = list_sum (map (fun t => Nat.max 1 (length (List.filter (fun u => Z.eqb u t)
                                                        (index benchmark_frame))))
                       (index asset_frame))
    /\ (Frame.nrows asset_frame <= Frame.nrows m)%nat
    /\ (forall t, t ∈ index asset_frame -> t ∈ index m)
    /\ well_formed m.
Proof.
  apply (merge_repeats_a_row_for_every_match pair_store 1%positive 2%positive
           asset_frame benchmark_frame); reflexivity.
Defined.

Lemma load_footprint_witness :
  (forall k d, pair_store !! k = Some d -> k ≠ 1%positive -> k ≠ 2%positive ->
     fst (Loader.load pair_loader pair_store) !! k = Some d)
  /\ (forall l', snd (Loader.load pair_loader pair_store) = Ok l' ->
       pair_store !! l' = None /\ l' ≠ 1%positive /\ l' ≠ 2%positive).
Proof.
  apply (load_writes_into_the_downloaded_frames_only pair_loader pair_store pair_store
           pair_store 1%positive 2%positive); reflexivity.
Defined.

Lemma yahoo_labels_distinct :
  NoDup (Yahoo.get_level_values_0 [["Close"; "ASSET"]; ["Volume"; "ASSET"]]).
Proof.
  simpl.
  apply NoDup_cons. split; [intros Hin; split_membership Hin; discriminate Hin|].
  apply NoDup_cons. split; [intros Hin; inversion Hin|apply NoDup_nil_2].
Defined.

Lemma yahoo_witness :
  exists σ' l' d,
    Loader.load (Loader.init YFinanceProvider "ASSET" None None None "1d" (Some [1])) ∅
    = (σ', Ok l')
    /\ σ' !! l' = Some d
    /\ (∅ : heap) !! l' = None
    /\ Frame.has_col d "forward_return" = true
    /\ Frame.has_col d "Close" = true /\ Frame.has_col d "Volume" = true
    /\ forall k df, (∅ : heap) !! k = Some df -> σ' !! k = Some df.
Proof.
  apply (yahoo_columns_are_found_by_their_first_level
           (Loader.init YFinanceProvider "ASSET" None None None "1d" (Some [1])) ∅
           (mkRawFrame [1; 2; 3] (MultiIndex [["Close"; "ASSET"]; ["Volume"; "ASSET"]])
              [[Fin 10; Fin 11; Fin 12]; [Fin 5; Fin 5; Fin 5]])
           (mkRawFrame [1; 2; 3] (MultiIndex [["Close"; "ASSET"]; ["Volume"; "ASSET"]])
              [[Fin 10; Fin 11; Fin 12]; [Fin 5; Fin 5; Fin 5]])
           [["Close"; "ASSET"]; ["Volume"; "ASSET"]]
           [["Close"; "ASSET"]; ["Volume"; "ASSET"]]);
    first [reflexivity
          |exact yahoo_labels_distinct
          |exists "ASSET"; apply elem_of_cons; now left
          |exists "ASSET"; apply elem_of_cons; right; apply elem_of_cons; now left].
Defined.

End FurtherWitnesses.
